(** * find_moving_objects: the scan bank

    A shallow embedding of [bank.cpp] (class [find_moving_objects::Bank])
    and the properties of its ring buffer, smoothing step, segmentation,
    recursive tracker and speed gate.

    Numbers are modelled as the program has them: [float] and [double] are
    IEEE-754 binary32 and binary64 values with round-to-nearest-even
    arithmetic (the executable specification [SpecFloat] of the standard
    library), [int] and [unsigned int] are integers with their 32-bit
    wrap-around written out where the program relies on it. *)

From Stdlib Require Import ZArith Bool Lia String.
From Stdlib Require Import SpecFloat.
From stdpp Require Import base list.

Local Open Scope Z_scope.

(** ** IEEE-754 arithmetic *)

Module Ieee.

Inductive format := F32 | F64.

Definition prec (f : format) : Z := match f with F32 => 24 | F64 => 53 end.
Definition emax (f : format) : Z := match f with F32 => 128 | F64 => 1024 end.

(** Conversion of a value into a format (a C++ conversion between
    [float] and [double], or the store of a [double] into a [float]). *)
Definition cast (f : format) (x : spec_float) : spec_float :=
  match x with
  | S754_finite s m e => binary_round (prec f) (emax f) s m e
  | _ => x
  end.

Definition of_Z (f : format) (n : Z) : spec_float :=
  binary_normalize (prec f) (emax f) n 0 false.

Definition add (f : format) (x y : spec_float) : spec_float :=
  SFadd (prec f) (emax f) (cast f x) (cast f y).
Definition sub (f : format) (x y : spec_float) : spec_float :=
  SFsub (prec f) (emax f) (cast f x) (cast f y).
Definition mul (f : format) (x y : spec_float) : spec_float :=
  SFmul (prec f) (emax f) (cast f x) (cast f y).
Definition div (f : format) (x y : spec_float) : spec_float :=
  SFdiv (prec f) (emax f) (cast f x) (cast f y).
Definition sqrt (f : format) (x : spec_float) : spec_float :=
  SFsqrt (prec f) (emax f) (cast f x).

(** Comparisons are made on the binary64 images of the operands: the
    promotion of a [float] to [double] is exact. *)
Definition compare (x y : spec_float) : option comparison :=
  SFcompare (cast F64 x) (cast F64 y).
Definition ltb (x y : spec_float) : bool := SFltb (cast F64 x) (cast F64 y).
Definition leb (x y : spec_float) : bool := SFleb (cast F64 x) (cast F64 y).

Definition abs (x : spec_float) : spec_float := SFabs x.

Definition zero : spec_float := S754_zero false.
Definition nan : spec_float := S754_nan.
Definition pinf : spec_float := S754_infinity false.

Definition is_nan (x : spec_float) : bool :=
  match x with S754_nan => true | _ => false end.

Definition is_finite (x : spec_float) : bool :=
  match x with S754_zero _ | S754_finite _ _ _ => true | _ => false end.

(** [m * 2^e] as a value of the format. *)
Definition make (f : format) (m e : Z) : spec_float :=
  binary_normalize (prec f) (emax f) m e false.

(** Conversion to [int] by truncation.  The conversion of a NaN, of an
    infinity or of a value outside the range of [int] is undefined in
    C++; the result taken here is the one of the x86 conversion
    instruction, [INT_MIN]. *)
Definition to_int (x : spec_float) : Z :=
  match x with
  | S754_zero _ => 0
  | S754_finite s m e =>
      let a := if 0 <=? e then Z.pos m * 2 ^ e else Z.pos m / 2 ^ (- e) in
      let v := if s then - a else a in
      if (- 2 ^ 31 <=? v) && (v <? 2 ^ 31) then v else - 2 ^ 31
  | _ => - 2 ^ 31
  end.

(** The value whose binary32 / binary64 encoding is the given word. *)
Definition of_bits (f : format) (w : Z) : spec_float :=
  let p := prec f - 1 in
  let ebits := match f with F32 => 8 | F64 => 11 end in
  let frac := w mod 2 ^ p in
  let ex := (w / 2 ^ p) mod 2 ^ ebits in
  let s := Z.odd (w / 2 ^ (p + ebits)) in
  if ex =? 0 then
    match frac with
    | Z.pos m => S754_finite s m (3 - emax f - prec f)
    | _ => S754_zero s
    end
  else if ex =? 2 ^ ebits - 1 then
    (if frac =? 0 then S754_infinity s else S754_nan)
  else
    match frac + 2 ^ p with
    | Z.pos m => S754_finite s m (ex - 1 + (3 - emax f - prec f))
    | _ => S754_nan
    end.

End Ieee.

Abbreviation float := spec_float (only parsing).

#[global] Instance spec_float_inhabited : Inhabited spec_float := populate S754_nan.

(** ** Machine integers and arrays *)

Module C.

(** Conversion to [unsigned int] and to [int] (two's complement). *)
Definition u32 (z : Z) : Z := z mod 2 ^ 32.
Definition s32 (z : Z) : Z := (z + 2 ^ 31) mod 2 ^ 32 - 2 ^ 31.

(** [abs] of <cstdlib> on an [int]. *)
Definition abs (z : Z) : Z := Z.abs z.

(** The elements [a[0]], ..., [a[n-1]] visited by a counting loop. *)
Definition upto (n : Z) : list Z := seqZ 0 n.

(** Array read and write.  An access outside the array is undefined in
    the program; here a read outside gives the default value (NaN for
    a range) and a write outside changes nothing. *)
Definition get {A} `{Inhabited A} (a : list A) (i : Z) : A :=
  if i <? 0 then inhabitant else a !!! Z.to_nat i.
Definition set {A} (a : list A) (i : Z) (x : A) : list A :=
  if i <? 0 then a else <[Z.to_nat i := x]> a.

Definition get2 {A} `{Inhabited A} (a : list (list A)) (i j : Z) : A :=
  get (get a i) j.
Definition set2 {A} (a : list (list A)) (i j : Z) (x : A) : list (list A) :=
  set a i (set (get a i) j x).

End C.

(** ** Data model *)

(** [bank.h] and the message definitions are not part of the sources.  The
    members of [BankArgument] that the program copies from a [LaserScan]
    ([angle_increment], [time_increment], [scan_time], [range_min],
    [range_max]) are [float]; the other real-valued members and the fields
    of [MovingObject] are [double]; counters are [int]. *)
Record BankArgument := {
  ema_alpha : float;
  nr_scans_in_bank : Z;
  points_per_scan : Z;
  angle_min : float;
  angle_max : float;
  object_threshold_edge_max_delta_range : float;
  object_threshold_min_nr_points : Z;
  object_threshold_max_distance : float;
  object_threshold_min_speed : float;
  object_threshold_max_delta_width_in_points : Z;
  object_threshold_min_confidence : float;
  object_threshold_bank_tracking_max_delta_distance : float;
  base_confidence : float;
  publish_objects : bool;
  publish_ema : bool;
  publish_objects_closest_point_markers : bool;
  publish_objects_velocity_arrows : bool;
  publish_objects_delta_position_lines : bool;
  velocity_arrow_ns : string;
  delta_position_line_ns : string;
  topic_objects : string;
  topic_ema : string;
  topic_objects_closest_point_markers : string;
  topic_objects_velocity_arrows : string;
  topic_objects_delta_position_lines : string;
  publish_buffer_size : Z;
  map_frame : string;
  fixed_frame : string;
  base_frame : string;
  PC2_message_x_coordinate_field_name : string;
  PC2_message_y_coordinate_field_name : string;
  PC2_message_z_coordinate_field_name : string;
  PC2_voxel_leaf_size : float;
  PC2_threshold_z_min : float;
  PC2_threshold_z_max : float;
  sensor_frame : string;
  angle_increment : float;
  time_increment : float;
  scan_time : float;
  range_min : float;
  range_max : float
}.

Record LaserScan := {
  ls_frame_id : string;
  ls_stamp : float;
  ls_angle_min : float;
  ls_angle_max : float;
  ls_angle_increment : float;
  ls_time_increment : float;
  ls_scan_time : float;
  ls_range_min : float;
  ls_range_max : float;
  ls_ranges : list float
}.

(** [data] holds the bytes of the point records, each in [0, 256). *)
Record PointCloud2 := {
  pc_frame_id : string;
  pc_stamp : float;
  pc_height : Z;
  pc_row_step : Z;
  pc_point_step : Z;
  pc_is_bigendian : bool;
  pc_data : list Z
}.

Record Bank := {
  bank_argument : BankArgument;
  bank_is_initialized : bool;
  bank_is_filled : bool;
  bank_index_put : Z;
  bank_index_newest : Z;
  bank_stamp : list float;
  bank_ranges_ema : list (list float);
  machine_is_little_endian : bool;
  PC2_message_x_offset : Z;
  PC2_message_x_bytes : Z;
  PC2_message_y_offset : Z;
  PC2_message_y_bytes : Z;
  PC2_message_z_offset : Z;
  PC2_message_z_bytes : Z;
  moa_seq : Z
}.

Definition with_indices (b : Bank) (put newest : Z) : Bank :=
  {| bank_argument := bank_argument b;
     bank_is_initialized := bank_is_initialized b;
     bank_is_filled := bank_is_filled b;
     bank_index_put := put;
     bank_index_newest := newest;
     bank_stamp := bank_stamp b;
     bank_ranges_ema := bank_ranges_ema b;
     machine_is_little_endian := machine_is_little_endian b;
     PC2_message_x_offset := PC2_message_x_offset b;
     PC2_message_x_bytes := PC2_message_x_bytes b;
     PC2_message_y_offset := PC2_message_y_offset b;
     PC2_message_y_bytes := PC2_message_y_bytes b;
     PC2_message_z_offset := PC2_message_z_offset b;
     PC2_message_z_bytes := PC2_message_z_bytes b;
     moa_seq := moa_seq b |}.

Definition with_filled (b : Bank) (filled : bool) : Bank :=
  {| bank_argument := bank_argument b;
     bank_is_initialized := bank_is_initialized b;
     bank_is_filled := filled;
     bank_index_put := bank_index_put b;
     bank_index_newest := bank_index_newest b;
     bank_stamp := bank_stamp b;
     bank_ranges_ema := bank_ranges_ema b;
     machine_is_little_endian := machine_is_little_endian b;
     PC2_message_x_offset := PC2_message_x_offset b;
     PC2_message_x_bytes := PC2_message_x_bytes b;
     PC2_message_y_offset := PC2_message_y_offset b;
     PC2_message_y_bytes := PC2_message_y_bytes b;
     PC2_message_z_offset := PC2_message_z_offset b;
     PC2_message_z_bytes := PC2_message_z_bytes b;
     moa_seq := moa_seq b |}.

Definition with_stamp (b : Bank) (stamp : list float) : Bank :=
  {| bank_argument := bank_argument b;
     bank_is_initialized := bank_is_initialized b;
     bank_is_filled := bank_is_filled b;
     bank_index_put := bank_index_put b;
     bank_index_newest := bank_index_newest b;
     bank_stamp := stamp;
     bank_ranges_ema := bank_ranges_ema b;
     machine_is_little_endian := machine_is_little_endian b;
     PC2_message_x_offset := PC2_message_x_offset b;
     PC2_message_x_bytes := PC2_message_x_bytes b;
     PC2_message_y_offset := PC2_message_y_offset b;
     PC2_message_y_bytes := PC2_message_y_bytes b;
     PC2_message_z_offset := PC2_message_z_offset b;
     PC2_message_z_bytes := PC2_message_z_bytes b;
     moa_seq := moa_seq b |}.

Definition with_ranges (b : Bank) (ranges : list (list float)) : Bank :=
  {| bank_argument := bank_argument b;
     bank_is_initialized := bank_is_initialized b;
     bank_is_filled := bank_is_filled b;
     bank_index_put := bank_index_put b;
     bank_index_newest := bank_index_newest b;
     bank_stamp := bank_stamp b;
     bank_ranges_ema := ranges;
     machine_is_little_endian := machine_is_little_endian b;
     PC2_message_x_offset := PC2_message_x_offset b;
     PC2_message_x_bytes := PC2_message_x_bytes b;
     PC2_message_y_offset := PC2_message_y_offset b;
     PC2_message_y_bytes := PC2_message_y_bytes b;
     PC2_message_z_offset := PC2_message_z_offset b;
     PC2_message_z_bytes := PC2_message_z_bytes b;
     moa_seq := moa_seq b |}.

(** [bank_ranges_ema[level][i]], and the assignment to it. *)
Definition range_at (b : Bank) (level i : Z) : float :=
  C.get2 (bank_ranges_ema b) level i.
Definition put_range (b : Bank) (level i : Z) (r : float) : Bank :=
  with_ranges b (C.set2 (bank_ranges_ema b) level i r).

(** ** Ring buffer indices *)

(** [Bank::initIndex] *)
Definition initIndex (b : Bank) : Bank := with_indices b 1 0.

(** [Bank::advanceIndex]; [%] is the C++ remainder. *)
Definition advanceIndex (b : Bank) : Bank :=
  let n := nr_scans_in_bank (bank_argument b) in
  with_indices b (Z.rem (bank_index_put b + 1) n)
                 (Z.rem (bank_index_newest b + 1) n).

(** ** Ingestion of laser scans *)

(** [Bank::addFirstMessage(LaserScan)]: the [memcpy] copies
    [points_per_scan] ranges of the message into slot 0. *)
Definition addFirstMessage (b : Bank) (msg : LaserScan) : Bank * Z :=
  let b := with_stamp b (C.set (bank_stamp b) 0 (ls_stamp msg)) in
  let n := points_per_scan (bank_argument b) in
  let b := with_ranges b
             (C.set (bank_ranges_ema b) 0
                (take (Z.to_nat n) (ls_ranges msg)
                 ++ drop (Z.to_nat n) (C.get (bank_ranges_ema b) 0))) in
  let b := initIndex b in
  let b := with_filled b false in
  (b, 0).

(** One iteration of the smoothing loop of [addMessage]:
    [bank_put[i] = alpha * msg->ranges[i] + alpha_prev * bank_newest[i]],
    computed in [double] and stored as [float]. *)
Definition ema_blend (alpha alpha_prev r prev : float) : float :=
  Ieee.cast Ieee.F32
    (Ieee.add Ieee.F64 (Ieee.mul Ieee.F64 alpha r) (Ieee.mul Ieee.F64 alpha_prev prev)).

(** [Bank::addMessage(LaserScan)] *)
Definition addMessage (b : Bank) (msg : LaserScan) : Bank * Z :=
  let put := bank_index_put b in
  let newest := bank_index_newest b in
  let b := with_stamp b (C.set (bank_stamp b) put (ls_stamp msg)) in
  let alpha := ema_alpha (bank_argument b) in
  let alpha_prev := Ieee.sub Ieee.F64 (Ieee.of_Z Ieee.F64 1) (ema_alpha (bank_argument b)) in
  let b := foldl (fun b i =>
                    put_range b put i
                      (ema_blend alpha alpha_prev (C.get (ls_ranges msg) i) (range_at b newest i)))
                 b (C.upto (points_per_scan (bank_argument b))) in
  let b := advanceIndex b in
  let b := if bank_index_put b <? bank_index_newest b then with_filled b true else b in
  (b, 0).

(** ** Configuration *)

(** The literals of the program, as [double] values. *)
Module Lit.
Definition d0 : float := Ieee.zero.
Definition d1 : float := Ieee.of_Z Ieee.F64 1.
Definition d2 : float := Ieee.of_Z Ieee.F64 2.
Definition d10 : float := Ieee.of_Z Ieee.F64 10.
Definition M_PI : float := Ieee.of_bits Ieee.F64 0x400921fb54442d18.
Definition d0_15 : float := Ieee.of_bits Ieee.F64 0x3fc3333333333333.
Definition d6_5 : float := Ieee.of_bits Ieee.F64 0x401a000000000000.
Definition d0_03 : float := Ieee.of_bits Ieee.F64 0x3f9eb851eb851eb8.
Definition d0_67 : float := Ieee.of_bits Ieee.F64 0x3fe570a3d70a3d71.
Definition d0_2 : float := Ieee.of_bits Ieee.F64 0x3fc999999999999a.
Definition d0_3 : float := Ieee.of_bits Ieee.F64 0x3fd3333333333333.
Definition d0_02 : float := Ieee.of_bits Ieee.F64 0x3f947ae147ae147b.
Definition d0_1 : float := Ieee.of_bits Ieee.F64 0x3fb999999999999a.
End Lit.

Definition nonempty (s : string) : bool := negb (String.eqb s EmptyString).

(** [BankArgument::BankArgument()]: the default configuration.  The members
    set from the first message start at zero here. *)
Definition BankArgument_default : BankArgument :=
  {| ema_alpha := Lit.d1;
     nr_scans_in_bank := 11;
     points_per_scan := 360;
     angle_min := SFopp Lit.M_PI;
     angle_max := Lit.M_PI;
     object_threshold_edge_max_delta_range := Lit.d0_15;
     object_threshold_min_nr_points := 5;
     object_threshold_max_distance := Lit.d6_5;
     object_threshold_min_speed := Lit.d0_03;
     object_threshold_max_delta_width_in_points := 5;
     object_threshold_min_confidence := Lit.d0_67;
     object_threshold_bank_tracking_max_delta_distance := Lit.d0_2;
     base_confidence := Lit.d0_3;
     publish_objects := true;
     publish_ema := false;
     publish_objects_closest_point_markers := false;
     publish_objects_velocity_arrows := false;
     publish_objects_delta_position_lines := false;
     velocity_arrow_ns := "velocity_arrow_ns";
     delta_position_line_ns := "delta_position_line_ns";
     topic_objects := "/moving_objects_arrays";
     topic_ema := EmptyString;
     topic_objects_closest_point_markers := EmptyString;
     topic_objects_velocity_arrows := EmptyString;
     topic_objects_delta_position_lines := EmptyString;
     publish_buffer_size := 10;
     map_frame := "map";
     fixed_frame := "odom";
     base_frame := "base_link";
     PC2_message_x_coordinate_field_name := "x";
     PC2_message_y_coordinate_field_name := "y";
     PC2_message_z_coordinate_field_name := "z";
     PC2_voxel_leaf_size := Lit.d0_02;
     PC2_threshold_z_min := Lit.d0_1;
     PC2_threshold_z_max := Lit.d1;
     sensor_frame := EmptyString;
     angle_increment := Ieee.zero;
     time_increment := Ieee.zero;
     scan_time := Ieee.zero;
     range_min := Ieee.zero;
     range_max := Ieee.zero |}.

(** [BankArgument::check]: the conjunction of its assertions. *)
Definition BankArgument_check (a : BankArgument) : bool :=
  (Ieee.leb Lit.d0 (ema_alpha a) && Ieee.leb (ema_alpha a) Lit.d1)
  && (2 <=? nr_scans_in_bank a)
  && (0 <? points_per_scan a)
  && (Ieee.leb (SFopp Lit.M_PI) (angle_min a) && Ieee.leb (angle_min a) (angle_max a))
  && (Ieee.leb (angle_min a) (angle_max a) && Ieee.leb (angle_max a) Lit.M_PI)
  && Ieee.leb Lit.d0 (object_threshold_edge_max_delta_range a)
  && (1 <=? object_threshold_min_nr_points a)
  && Ieee.leb Lit.d0 (object_threshold_max_distance a)
  && Ieee.leb Lit.d0 (object_threshold_min_speed a)
  && (0 <=? object_threshold_max_delta_width_in_points a)
  && (Ieee.leb Lit.d0 (object_threshold_min_confidence a)
      && Ieee.leb (object_threshold_min_confidence a) Lit.d1)
  && (negb (publish_objects_velocity_arrows a) || nonempty (velocity_arrow_ns a))
  && (negb (publish_objects_delta_position_lines a) || nonempty (delta_position_line_ns a))
  && (negb (publish_objects a) || nonempty (topic_objects a))
  && (negb (publish_ema a) || nonempty (topic_ema a))
  && (negb (publish_objects_closest_point_markers a)
      || nonempty (topic_objects_closest_point_markers a))
  && (negb (publish_objects_velocity_arrows a) || nonempty (topic_objects_velocity_arrows a))
  && (negb (publish_objects_delta_position_lines a)
      || nonempty (topic_objects_delta_position_lines a))
  && (1 <=? publish_buffer_size a)
  && nonempty (map_frame a)
  && nonempty (fixed_frame a)
  && nonempty (base_frame a).

(** [Bank::Bank()]; the byte order of the machine is found at run time. *)
Definition Bank_new (little_endian : bool) : Bank :=
  {| bank_argument := BankArgument_default;
     bank_is_initialized := false;
     bank_is_filled := false;
     bank_index_put := 0;
     bank_index_newest := 0;
     bank_stamp := [];
     bank_ranges_ema := [];
     machine_is_little_endian := little_endian;
     PC2_message_x_offset := 0;
     PC2_message_x_bytes := 0;
     PC2_message_y_offset := 0;
     PC2_message_y_bytes := 0;
     PC2_message_z_offset := 0;
     PC2_message_z_bytes := 0;
     moa_seq := 0 |}.

(** [Bank::initBank].  A failed assertion of [check] ends the program:
    [None].  [heap level i] is the content of the freshly allocated
    [bank_ranges_ema[level][i]] and [heap level (-1)] that of
    [bank_stamp[level]]; the program does not initialise them. *)
Definition initBank (b : Bank) (a : BankArgument) (heap : Z -> Z -> float) : option Bank :=
  if bank_is_initialized b then Some b
  else if negb (BankArgument_check a) then None
  else
    Some {| bank_argument := a;
            bank_is_initialized := true;
            bank_is_filled := bank_is_filled b;
            bank_index_put := -1;
            bank_index_newest := -1;
            bank_stamp := (fun l => heap l (-1)) <$> C.upto (nr_scans_in_bank a);
            bank_ranges_ema :=
              (fun l => heap l <$> C.upto (points_per_scan a)) <$> C.upto (nr_scans_in_bank a);
            machine_is_little_endian := machine_is_little_endian b;
            PC2_message_x_offset := PC2_message_x_offset b;
            PC2_message_x_bytes := PC2_message_x_bytes b;
            PC2_message_y_offset := PC2_message_y_offset b;
            PC2_message_y_bytes := PC2_message_y_bytes b;
            PC2_message_z_offset := PC2_message_z_offset b;
            PC2_message_z_bytes := PC2_message_z_bytes b;
            moa_seq := 0 |}.

(** The members of the configuration that [Bank::init(LaserScan)] takes
    from the first message. *)
Definition BankArgument_of_scan (a : BankArgument) (msg : LaserScan) : BankArgument :=
  {| ema_alpha := ema_alpha a;
     nr_scans_in_bank := nr_scans_in_bank a;
     points_per_scan := Z.of_nat (length (ls_ranges msg));
     angle_min := Ieee.cast Ieee.F64 (ls_angle_min msg);
     angle_max := Ieee.cast Ieee.F64 (ls_angle_max msg);
     object_threshold_edge_max_delta_range := object_threshold_edge_max_delta_range a;
     object_threshold_min_nr_points := object_threshold_min_nr_points a;
     object_threshold_max_distance := object_threshold_max_distance a;
     object_threshold_min_speed := object_threshold_min_speed a;
     object_threshold_max_delta_width_in_points := object_threshold_max_delta_width_in_points a;
     object_threshold_min_confidence := object_threshold_min_confidence a;
     object_threshold_bank_tracking_max_delta_distance :=
       object_threshold_bank_tracking_max_delta_distance a;
     base_confidence := base_confidence a;
     publish_objects := publish_objects a;
     publish_ema := publish_ema a;
     publish_objects_closest_point_markers := publish_objects_closest_point_markers a;
     publish_objects_velocity_arrows := publish_objects_velocity_arrows a;
     publish_objects_delta_position_lines := publish_objects_delta_position_lines a;
     velocity_arrow_ns := velocity_arrow_ns a;
     delta_position_line_ns := delta_position_line_ns a;
     topic_objects := topic_objects a;
     topic_ema := topic_ema a;
     topic_objects_closest_point_markers := topic_objects_closest_point_markers a;
     topic_objects_velocity_arrows := topic_objects_velocity_arrows a;
     topic_objects_delta_position_lines := topic_objects_delta_position_lines a;
     publish_buffer_size := publish_buffer_size a;
     map_frame := map_frame a;
     fixed_frame := fixed_frame a;
     base_frame := base_frame a;
     PC2_message_x_coordinate_field_name := PC2_message_x_coordinate_field_name a;
     PC2_message_y_coordinate_field_name := PC2_message_y_coordinate_field_name a;
     PC2_message_z_coordinate_field_name := PC2_message_z_coordinate_field_name a;
     PC2_voxel_leaf_size := PC2_voxel_leaf_size a;
     PC2_threshold_z_min := PC2_threshold_z_min a;
     PC2_threshold_z_max := PC2_threshold_z_max a;
     sensor_frame := ls_frame_id msg;
     angle_increment := ls_angle_increment msg;
     time_increment := ls_time_increment msg;
     scan_time := ls_scan_time msg;
     range_min := ls_range_min msg;
     range_max := ls_range_max msg |}.

(** [Bank::init(BankArgument, LaserScan)] *)
Definition init (b : Bank) (a : BankArgument) (msg : LaserScan) (heap : Z -> Z -> float)
  : option (Bank * Z) :=
  match initBank b (BankArgument_of_scan a msg) heap with
  | Some b => Some (addFirstMessage b msg)
  | None => None
  end.

(** The functions of <cmath> that have no counterpart in [SpecFloat]. *)
Class LibM := {
  atan : float -> float;
  cosf : float -> float;
  sinf : float -> float
}.

(** ** Ingestion of point clouds *)

(** [Bank::reverseBytes] *)
Definition reverseBytes (bytes : list Z) (nr_bytes : Z) : list Z :=
  let half_way := nr_bytes / 2 in
  foldl (fun bytes i =>
           let tmp_byte := C.get bytes i in
           let bytes := C.set bytes i (C.get bytes (nr_bytes - i - 1)) in
           C.set bytes (nr_bytes - i - 1) tmp_byte)
        bytes (C.upto half_way).

(** The word that [memcpy] makes of an array of bytes on this machine. *)
Definition word_of_bytes (little_endian : bool) (bytes : list Z) : Z :=
  foldr (fun byte w => byte + 256 * w) 0 (if little_endian then bytes else reverse bytes).

(** [memcpy(array, start_of_point + offset, nr_bytes)] *)
Definition copy_bytes (data : list Z) (start nr_bytes : Z) : list Z :=
  (fun k => C.get data (start + k)) <$> C.upto nr_bytes.

(** The reading of one coordinate in [readPoint]: [Some] of the value as a
    [double], or [None] when the width is neither that of a [float] nor
    that of a [double] (the function then logs an error and returns). *)
Definition read_coordinate (little_endian : bool) (bytes : list Z) (nr_bytes : Z)
  : option float :=
  if nr_bytes =? 4 then
    Some (Ieee.cast Ieee.F64 (Ieee.of_bits Ieee.F32 (word_of_bytes little_endian bytes)))
  else if nr_bytes =? 8 then
    Some (Ieee.of_bits Ieee.F64 (word_of_bytes little_endian bytes))
  else None.

(** [Bank::readPoint].  [xyz] is the content of the three output
    parameters before the call; a coordinate that is not read keeps it. *)
Definition readPoint (b : Bank) (data : list Z) (start_of_point : Z)
           (must_reverse_bytes : bool) (xyz : float * float * float)
  : float * float * float :=
  let '(x, y, z) := xyz in
  let x_array := copy_bytes data (start_of_point + PC2_message_x_offset b) (PC2_message_x_bytes b) in
  let y_array := copy_bytes data (start_of_point + PC2_message_y_offset b) (PC2_message_y_bytes b) in
  let z_array := copy_bytes data (start_of_point + PC2_message_z_offset b) (PC2_message_z_bytes b) in
  let x_array := if must_reverse_bytes then reverseBytes x_array (PC2_message_x_bytes b) else x_array in
  let y_array := if must_reverse_bytes then reverseBytes y_array (PC2_message_y_bytes b) else y_array in
  let z_array := if must_reverse_bytes then reverseBytes z_array (PC2_message_z_bytes b) else z_array in
  let le := machine_is_little_endian b in
  match read_coordinate le x_array (PC2_message_x_bytes b) with
  | None => (x, y, z)
  | Some x =>
      match read_coordinate le y_array (PC2_message_y_bytes b) with
      | None => (x, y, z)
      | Some y =>
          match read_coordinate le z_array (PC2_message_z_bytes b) with
          | None => (x, y, z)
          | Some z => (x, y, z)
          end
      end
  end.

(** [Bank::resetPutPoints] *)
Definition resetPutPoints (b : Bank) : Bank :=
  let range :=
    Ieee.add Ieee.F64 (object_threshold_max_distance (bank_argument b)) Lit.d10 in
  foldl (fun b i => put_range b (bank_index_put b) i (Ieee.cast Ieee.F32 range))
        b (C.upto (points_per_scan (bank_argument b))).

(** The offsets [row_offset + j] of the point records that the two loops
    of [putPoints] visit, in order.  The inner loop does not end when
    [point_step] is zero, and its counter [j] may wrap when
    [row_step + point_step] exceeds [2^32]: [None]. *)
Definition point_offsets (msg : PointCloud2) : option (list Z) :=
  let rows := pc_height msg in
  let bytes_per_row := pc_row_step msg in
  let bytes_per_point := pc_point_step msg in
  if (rows <=? 0) || (bytes_per_row <=? 0) then Some []
  else if (bytes_per_point <=? 0) || (2 ^ 32 <? bytes_per_row + bytes_per_point) then None
  else
    Some (i ← C.upto rows;
          (fun k => C.u32 (C.u32 (i * bytes_per_row) + k * bytes_per_point))
            <$> C.upto ((bytes_per_row + bytes_per_point - 1) / bytes_per_point)).

(** "Is this point outside the considered volume?" *)
Definition outside_z_band (b : Bank) (z : float) : bool :=
  Ieee.ltb z (PC2_threshold_z_min (bank_argument b))
  || Ieee.ltb (PC2_threshold_z_max (bank_argument b)) z.

(** [must_reverse_bytes] of [putPoints] *)
Definition must_reverse (b : Bank) (msg : PointCloud2) : bool :=
  negb (eqb (pc_is_bigendian msg) (negb (machine_is_little_endian b))).

(** The point records that [putPoints] visits: each offset with the
    number of the iteration that reads it. *)
Definition records (offsets : list Z) : list (Z * Z) :=
  imap (fun nr offset => (Z.of_nat nr, offset)) offsets.

(** The point record [(nr, offset)] has a z-coordinate that the check of
    [putPoints] accepts.  [xyz0 nr] is the content of the locals [x], [y],
    [z] of the iteration [nr] before [readPoint] is called. *)
Definition in_z_band (b : Bank) (msg : PointCloud2) (xyz0 : Z -> float * float * float)
           (record : Z * Z) : bool :=
  let '(_, _, z) :=
    readPoint b (pc_data msg) (snd record) (must_reverse b msg) (xyz0 (fst record)) in
  negb (outside_z_band b z).

Section PointCloud.

Context {libm : LibM}.

(** The body of the inner loop of [putPoints] for a point that lies in
    the considered volume: the ranges of the bins it covers. *)
Definition fill_point (b : Bank) (x y z : float) : Bank :=
  let arg := bank_argument b in
  let F64 := Ieee.F64 in
  let bank_view_angle := Ieee.sub F64 (angle_max arg) (angle_min arg) in
  let bank_view_angle_half := Ieee.div F64 bank_view_angle Lit.d2 in
  let voxel_leaf_size_half := Ieee.div F64 (PC2_voxel_leaf_size arg) Lit.d2 in
  let inverted_bank_resolution :=
    Ieee.div F64 (Ieee.of_Z F64 (points_per_scan arg)) bank_view_angle in
  let bank_index_max := points_per_scan arg - 1 in
  let range :=
    Ieee.sqrt F64
      (Ieee.add F64 (Ieee.add F64 (Ieee.mul F64 x x) (Ieee.mul F64 y y)) (Ieee.mul F64 z z)) in
  let point_angle_min := atan (Ieee.div F64 (Ieee.sub F64 y voxel_leaf_size_half) x) in
  let point_angle_max := atan (Ieee.div F64 (Ieee.add F64 y voxel_leaf_size_half) x) in
  let scaled_min :=
    Ieee.mul F64 (Ieee.add F64 point_angle_min bank_view_angle_half) inverted_bank_resolution in
  let scaled_max :=
    Ieee.mul F64 (Ieee.add F64 point_angle_max bank_view_angle_half) inverted_bank_resolution in
  let bank_index_point_min :=
    Ieee.to_int (if Ieee.ltb scaled_min Lit.d0 then Lit.d0 else scaled_min) in
  let bank_index_point_max :=
    Ieee.to_int (if Ieee.ltb (Ieee.of_Z F64 bank_index_max) scaled_max
                 then Ieee.of_Z F64 bank_index_max else scaled_max) in
  foldl (fun b p =>
           if Ieee.ltb range (range_at b (bank_index_put b) p)
           then put_range b (bank_index_put b) p (Ieee.cast Ieee.F32 range)
           else b)
        b (seqZ bank_index_point_min (bank_index_point_max - bank_index_point_min + 1)).

(** The body of the inner loop of [putPoints]: the bank and
    [added_points_out] after the iteration [nr], which reads the point
    record at [offset].  The locals [x], [y], [z] are declared in the
    body and not set: [xyz0 nr] is what they hold in this iteration
    before [readPoint] is called. *)
Definition put_point (msg : PointCloud2) (xyz0 : Z -> float * float * float)
           (st : Bank * Z) (record : Z * Z) : Bank * Z :=
  let '(b, added_points_out) := st in
  let '(nr, offset) := record in
  let must_reverse_bytes := must_reverse b msg in
  let '(x, y, z) := readPoint b (pc_data msg) offset must_reverse_bytes (xyz0 nr) in
  if outside_z_band b z then (b, added_points_out)
  else (fill_point b x y z, C.u32 (added_points_out + 1)).

(** [Bank::putPoints].  [xyz0] gives, for every iteration of the inner
    loop, the content of its uninitialised locals [x], [y], [z]; the
    program reads it only where [readPoint] returns without setting a
    coordinate (a width that is neither 4 nor 8), which is undefined in
    C++: no content is assumed, and none is shared between iterations. *)
Definition putPoints (b : Bank) (msg : PointCloud2) (xyz0 : Z -> float * float * float)
  : option (Bank * Z) :=
  match point_offsets msg with
  | None => None
  | Some offsets => Some (foldl (put_point msg xyz0) (b, 0) (records offsets))
  end.

(** [Bank::emaPutMessage] *)
Definition emaPutMessage (b : Bank) : Bank :=
  let alpha := ema_alpha (bank_argument b) in
  if Ieee.ltb alpha Lit.d1 then
    let alpha_prev := Ieee.sub Ieee.F64 Lit.d1 alpha in
    foldl (fun b i =>
             put_range b (bank_index_put b) i
               (ema_blend alpha alpha_prev
                  (range_at b (bank_index_put b) i) (range_at b (bank_index_newest b) i)))
          b (C.upto (points_per_scan (bank_argument b)))
  else b.

(** [Bank::addFirstMessage(PointCloud2)] *)
Definition addFirstMessage_pc (b : Bank) (msg : PointCloud2)
           (xyz0 : Z -> float * float * float)
  : option (Bank * Z) :=
  let b := with_stamp b (C.set (bank_stamp b) 0 (pc_stamp msg)) in
  let b := with_indices b 0 (bank_index_newest b) in
  let b := resetPutPoints b in
  match putPoints b msg xyz0 with
  | None => None
  | Some (b, added_points) =>
      if added_points =? 0 then Some (b, -1)
      else
        let b := initIndex b in
        let b := with_filled b false in
        Some (b, 0)
  end.

(** [Bank::addMessage(PointCloud2)] *)
Definition addMessage_pc (b : Bank) (msg : PointCloud2)
           (xyz0 : Z -> float * float * float)
  : option (Bank * Z) :=
  let b := with_stamp b (C.set (bank_stamp b) (bank_index_put b) (pc_stamp msg)) in
  let b := resetPutPoints b in
  match putPoints b msg xyz0 with
  | None => None
  | Some (b, added_points) =>
      if added_points =? 0 then Some (b, -1)
      else
        let b := emaPutMessage b in
        let b := advanceIndex b in
        let b := if bank_index_put b <? bank_index_newest b then with_filled b true else b in
        Some (b, 0)
  end.

End PointCloud.

(** ** Cross-time tracker *)

(** The output parameters of [getOldIndices]. *)
Record OldIndices := {
  index_min_old : Z;
  index_mean_old : Z;
  index_max_old : Z;
  range_sum_old : float;
  range_at_min_index_old : float;
  range_at_max_index_old : float
}.

(** The value parameters of one call of [getOldIndices]. *)
Record TrackCall := {
  t_range_min : float;
  t_range_max : float;
  object_width_in_points : Z;
  current_level : Z;
  levels_searched : Z;
  index_mean : Z;
  consecutive_failures_to_find_object : Z;
  threshold_consecutive_failures_to_find_object : Z
}.

(** What a call writes when it gives up. *)
Definition not_found : OldIndices :=
  {| index_min_old := -1;
     index_mean_old := -1;
     index_max_old := -1;
     range_sum_old := Ieee.zero;
     range_at_min_index_old := Ieee.zero;
     range_at_max_index_old := Ieee.zero |}.

(** The range check shared by the two searches of the tracker and by the
    extension loop of the segmentation:
    [lo <= range && range <= hi && fabsf(range - prev_range) <= delta]. *)
Definition continues (lo hi delta prev_range range : float) : bool :=
  Ieee.leb lo range && Ieee.leb range hi
  && Ieee.leb (Ieee.abs (Ieee.sub Ieee.F32 range prev_range)) delta.

(** The locals [left] / [right], [prev_range] and [range_sum] of a search. *)
Record Search := {
  s_end : Z;
  s_prev_range : float;
  s_range_sum : float
}.

(** [for (int i = index_mean-1; 0 <= i; --i)]; [n] bounds the iterations
    left, it starts at [i + 1]. *)
Fixpoint search_lower (n : nat) (b : Bank) (a : TrackCall) (i : Z) (s : Search) : Search :=
  match n with
  | O => s
  | S n =>
      if 0 <=? i then
        let range := range_at b (current_level a) i in
        if continues (t_range_min a) (t_range_max a)
             (object_threshold_edge_max_delta_range (bank_argument b))
             (s_prev_range s) range
        then search_lower n b a (i - 1)
               {| s_end := i;
                  s_prev_range := range;
                  s_range_sum := Ieee.add Ieee.F32 (s_range_sum s) range |}
        else s
      else s
  end.

(** [for (int i = index_mean+1; i < points_per_scan; ++i)]; [n] bounds the
    iterations left, it starts at [points_per_scan - i]. *)
Fixpoint search_higher (n : nat) (b : Bank) (a : TrackCall) (i : Z) (s : Search) : Search :=
  match n with
  | O => s
  | S n =>
      if i <? points_per_scan (bank_argument b) then
        let range := range_at b (current_level a) i in
        if continues (t_range_min a) (t_range_max a)
             (object_threshold_edge_max_delta_range (bank_argument b))
             (s_prev_range s) range
        then search_higher n b a (i + 1)
               {| s_end := i;
                  s_prev_range := range;
                  s_range_sum := Ieee.add Ieee.F32 (s_range_sum s) range |}
        else s
      else s
  end.

(** The search of the lower index side in a call, from [index_mean - 1]
    down. *)
Definition lower_side (b : Bank) (a : TrackCall) : Search :=
  let prev_range := range_at b (current_level a) (index_mean a) in
  search_lower (Z.to_nat (index_mean a)) b a (C.s32 (C.u32 (index_mean a - 1)))
    {| s_end := C.s32 (index_mean a); s_prev_range := prev_range; s_range_sum := prev_range |}.

(** The search of the higher index side, from [index_mean + 1] up; it goes
    on with the sum of the lower side. *)
Definition higher_side (b : Bank) (a : TrackCall) : Search :=
  search_higher (Z.to_nat (points_per_scan (bank_argument b) - index_mean a)) b a
    (C.s32 (C.u32 (index_mean a + 1)))
    {| s_end := C.s32 (index_mean a);
       s_prev_range := range_at b (current_level a) (index_mean a);
       s_range_sum := s_range_sum (lower_side b a) |}.

(** [width_in_points] of a call. *)
Definition width_found (b : Bank) (a : TrackCall) : Z :=
  C.u32 (s_end (higher_side b a) - s_end (lower_side b a) + 1).

(** The test "did we find a valid object?" of [getOldIndices], true when
    the object is rejected.  [width_in_points] and [object_width_in_points]
    are [unsigned int]; their difference wraps and is read back as an
    [int] by [abs].  [sum_old] is [*range_sum_old]. *)
Definition object_rejected (b : Bank) (a : TrackCall) (sum_old : float) : bool :=
  let arg := bank_argument b in
  let width_in_points := width_found b a in
  let range_sum := s_range_sum (higher_side b a) in
  (width_in_points <? C.u32 (object_threshold_min_nr_points arg))
  || (object_threshold_max_delta_width_in_points arg
        <? C.abs (C.s32 (C.u32 (width_in_points - object_width_in_points a))))
  || Ieee.ltb (object_threshold_bank_tracking_max_delta_distance arg)
       (Ieee.abs
          (Ieee.sub Ieee.F32
             (Ieee.div Ieee.F32 range_sum (Ieee.of_Z Ieee.F32 width_in_points))
             (Ieee.div Ieee.F32 sum_old (Ieee.of_Z Ieee.F32 (object_width_in_points a))))).

(** "Check range": the range at [index_mean] is below [range_min] or above
    [range_max]. *)
Definition outside_range (b : Bank) (a : TrackCall) : bool :=
  let prev_range := range_at b (current_level a) (index_mean a) in
  Ieee.ltb prev_range (t_range_min a) || Ieee.ltb (t_range_max a) prev_range.

(** The slot before [level], "wrap around". *)
Definition older_level (b : Bank) (level : Z) : Z :=
  if level - 1 <? 0 then nr_scans_in_bank (bank_argument b) - 1 else level - 1.

(** A call of [getOldIndices] either returns or ends in the recursive
    call. *)
Inductive TrackStep :=
| Return (o : OldIndices)
| Recurse (a : TrackCall) (o : OldIndices).

(** The body of [Bank::getOldIndices]. *)
Definition getOldIndices_body (b : Bank) (a : TrackCall) (o : OldIndices) : TrackStep :=
  let arg := bank_argument b in
  (* Base case reached? *)
  if levels_searched a =? C.u32 (nr_scans_in_bank arg) then Return o
  else if (* Check range *) outside_range b a then Return not_found
  else
    let lower := lower_side b a in
    let higher := higher_side b a in
    let left := s_end lower in
    let right := s_end higher in
    let range_sum := s_range_sum higher in
    (* Did we find a valid object? *)
    let misses := consecutive_failures_to_find_object a in
    let width_in_points := width_found b a in
    let rejected := object_rejected b a (range_sum_old o) in
    let misses := if rejected then C.u32 (misses + 1) else 0 in
    if rejected && (threshold_consecutive_failures_to_find_object a <? misses)
    then Return not_found
    else
      Recurse
        {| t_range_min := t_range_min a;
           t_range_max := t_range_max a;
           object_width_in_points := width_in_points;
           current_level := older_level b (current_level a);
           levels_searched := C.u32 (levels_searched a + 1);
           index_mean := C.u32 (Z.quot (right + left) 2);
           consecutive_failures_to_find_object := misses;
           threshold_consecutive_failures_to_find_object :=
             threshold_consecutive_failures_to_find_object a |}
        {| index_min_old := left;
           index_mean_old := Z.quot (right + left) 2;
           index_max_old := right;
           range_sum_old := range_sum;
           range_at_min_index_old := s_prev_range lower;
           range_at_max_index_old := s_prev_range higher |}.

(** [Bank::getOldIndices]: the recursion, at most [fuel] calls deep;
    [None] when the base case is not reached within [fuel] calls. *)
Fixpoint getOldIndices (fuel : nat) (b : Bank) (a : TrackCall) (o : OldIndices)
  : option OldIndices :=
  match fuel with
  | O => None
  | S fuel =>
      match getOldIndices_body b a o with
      | Return o => Some o
      | Recurse a o => getOldIndices fuel b a o
      end
  end.

(** The call that the recursion makes after [n] calls, with the content of
    the output parameters at that moment; [None] when the recursion has
    returned before. *)
Fixpoint walk (n : nat) (b : Bank) (a : TrackCall) (o : OldIndices)
  : option (TrackCall * OldIndices) :=
  match n with
  | O => Some (a, o)
  | S n =>
      match getOldIndices_body b a o with
      | Return _ => None
      | Recurse a o => walk n b a o
      end
  end.

(** ** Moving objects and the collaborators of the report *)

Record Vec3 := { vx : float; vy : float; vz : float }.

Record Header := { seq : Z; stamp : float; frame_id : string }.

Record MovingObject := {
  header : Header;
  mo_map_frame : string;
  mo_fixed_frame : string;
  mo_base_frame : string;
  seen_width : float;
  angle_begin : float;
  angle_end : float;
  distance_at_angle_begin : float;
  distance_at_angle_end : float;
  distance : float;
  position : Vec3;
  position_in_map_frame : Vec3;
  position_in_fixed_frame : Vec3;
  position_in_base_frame : Vec3;
  angle_for_closest_distance : float;
  closest_distance : float;
  closest_point : Vec3;
  closest_point_in_map_frame : Vec3;
  closest_point_in_fixed_frame : Vec3;
  closest_point_in_base_frame : Vec3;
  velocity : Vec3;
  velocity_in_map_frame : Vec3;
  velocity_in_fixed_frame : Vec3;
  velocity_in_base_frame : Vec3;
  velocity_normalized : Vec3;
  velocity_normalized_in_map_frame : Vec3;
  velocity_normalized_in_fixed_frame : Vec3;
  velocity_normalized_in_base_frame : Vec3;
  speed : float;
  speed_in_map_frame : float;
  speed_in_fixed_frame : float;
  speed_in_base_frame : float;
  confidence : float
}.

(** The transform listener.  [waitForTransform] and [lookupTransform] take
    the target frame, the source frame and the time; [None] is a
    [tf::TransformException].  [fresh_transform] is the content of a
    default-constructed [tf::StampedTransform], [transform_point] is the
    product of a transform and a point. *)
Class TransformListener := {
  Transform : Type;
  fresh_transform : Transform;
  waitForTransform : string -> string -> float -> option bool;
  lookupTransform : string -> string -> float -> option Transform;
  transform_point : Transform -> Vec3 -> Vec3
}.

(** The user-defined [Bank::calculateConfidence]. *)
Class Confidence := {
  calculateConfidence :
    MovingObject -> BankArgument -> float -> float ->
    bool -> bool -> bool -> bool -> bool -> bool -> float
}.

Section Report.

Context {libm : LibM} {listener : TransformListener} {scorer : Confidence}.

(** One [try] block of the report: the transform of the sensor frame into
    [target] at [time], and the success flag, which only an exception
    clears. *)
Definition lookup_frame (b : Bank) (target : string) (time : float) : Transform * bool :=
  match waitForTransform target (sensor_frame (bank_argument b)) time with
  | None => (fresh_transform, false)
  | Some false => (fresh_transform, true)
  | Some true =>
      match lookupTransform target (sensor_frame (bank_argument b)) time with
      | None => (fresh_transform, false)
      | Some t => (t, true)
      end
  end.

(** The locals of the segmentation after its [for] loop. *)
Record Candidate := {
  nr_object_points : Z;
  object_range_sum : float;
  object_range_min : float;
  object_range_max : float;
  object_range_min_index : Z;
  object_range_max_index : Z;
  prev_range : float
}.

(** The range check of the [for] loop over [j]. *)
Definition part_of_object (b : Bank) (prev_range range_j : float) : bool :=
  let arg := bank_argument b in
  Ieee.leb (range_min arg) range_j && Ieee.leb range_j (range_max arg)
  && Ieee.leb (Ieee.abs (Ieee.sub Ieee.F32 prev_range range_j))
       (object_threshold_edge_max_delta_range arg).

(** [for (unsigned int j=i+1; j<points_per_scan; ++j)]; [n] bounds the
    iterations left. *)
Fixpoint count_object_points (n : nat) (b : Bank) (j : Z) (c : Candidate) : Candidate :=
  match n with
  | O => c
  | S n =>
      if j <? points_per_scan (bank_argument b) then
        let range_j := range_at b (bank_index_newest b) j in
        if part_of_object b (prev_range c) range_j then
          let lt_min := Ieee.ltb range_j (object_range_min c) in
          let gt_max := negb lt_min && Ieee.ltb (object_range_max c) range_j in
          count_object_points n b (j + 1)
            {| nr_object_points := nr_object_points c + 1;
               object_range_sum := Ieee.add Ieee.F32 (object_range_sum c) range_j;
               object_range_min := if lt_min then range_j else object_range_min c;
               object_range_max := if gt_max then range_j else object_range_max c;
               object_range_min_index := if lt_min then j else object_range_min_index c;
               object_range_max_index := if gt_max then j else object_range_max_index c;
               prev_range := range_j |}
        else c
      else c
  end.

(** "Is i out-of-range?" *)
Definition out_of_range (b : Bank) (range_i : float) : bool :=
  Ieee.ltb range_i (range_min (bank_argument b))
  || Ieee.ltb (range_max (bank_argument b)) range_i.

(** The candidate object that starts at [i], once [i] passed the check. *)
Definition candidate_at (b : Bank) (i : Z) : Candidate :=
  let range_i := range_at b (bank_index_newest b) i in
  count_object_points (Z.to_nat (points_per_scan (bank_argument b) - i)) b (i + 1)
    {| nr_object_points := 1;
       object_range_sum := range_i;
       object_range_min := range_i;
       object_range_max := range_i;
       object_range_min_index := i;
       object_range_max_index := i;
       prev_range := range_i |}.

(** The bounds handed to the tracker: the locals [range_min] and
    [range_max] of [findAndReportMovingObjects]. *)
Definition report_range_max (b : Bank) : float :=
  let arg := bank_argument b in
  Ieee.cast Ieee.F32
    (if Ieee.ltb (range_max arg) (object_threshold_max_distance arg)
     then range_max arg else object_threshold_max_distance arg).
Definition report_range_min (b : Bank) : float := range_min (bank_argument b).

(** The call of [getOldIndices] made for the candidate at [i]. *)
Definition track_call (b : Bank) (i : Z) (c : Candidate) : TrackCall :=
  let index_min := i in
  let index_max := C.u32 (i + nr_object_points c - 1) in
  {| t_range_min := report_range_min b;
     t_range_max := report_range_max b;
     object_width_in_points := C.u32 (index_max - index_min + 1);
     current_level := older_level b (bank_index_newest b);
     levels_searched := 1;
     index_mean := Z.quot (C.u32 (index_min + index_max)) 2;
     consecutive_failures_to_find_object := 0;
     threshold_consecutive_failures_to_find_object := 0 |}.

Definition track_start (c : Candidate) : OldIndices :=
  {| index_min_old := -1;
     index_mean_old := -1;
     index_max_old := -1;
     range_sum_old := object_range_sum c;
     range_at_min_index_old := Ieee.zero;
     range_at_max_index_old := Ieee.zero |}.

Definition track (b : Bank) (i : Z) (c : Candidate) : option OldIndices :=
  getOldIndices (Z.to_nat (nr_scans_in_bank (bank_argument b)))
    b (track_call b i c) (track_start c).

(** *** Kinematics *)

Definition F32 := Ieee.F32.
Definition F64 := Ieee.F64.

Definition vec (x y z : float) : Vec3 := {| vx := x; vy := y; vz := z |}.

(** [sqrt(x*x + y*y + z*z)] on [double] members. *)
Definition norm (v : Vec3) : float :=
  Ieee.sqrt F64
    (Ieee.add F64
       (Ieee.add F64 (Ieee.mul F64 (vx v) (vx v)) (Ieee.mul F64 (vy v) (vy v)))
       (Ieee.mul F64 (vz v) (vz v))).

(** "Avoid division by 0" *)
Definition normalized (v : Vec3) (speed : float) : Vec3 :=
  if Ieee.ltb Lit.d0 speed
  then vec (Ieee.div F64 (vx v) speed) (Ieee.div F64 (vy v) speed) (Ieee.div F64 (vz v) speed)
  else vec Lit.d0 Lit.d0 Lit.d0.

(** The seen width by the law of cosines, computed in [float] and handed
    to [sqrt]. *)
Definition law_of_cosines (r1 r2 angle : float) : float :=
  Ieee.cast F32
    (Ieee.sqrt F64
       (Ieee.sub F32
          (Ieee.add F32 (Ieee.mul F32 r1 r1) (Ieee.mul F32 r2 r2))
          (Ieee.mul F32 (Ieee.mul F32 (Ieee.mul F32 (Ieee.of_Z F32 2) r1) r2) (cosf angle)))).

(** [new - old] of two points, stored in [float] locals, over [dt]. *)
Definition velocity_of (new old : Vec3) (dt : float) : Vec3 :=
  vec (Ieee.div F64 (Ieee.cast F32 (Ieee.sub F64 (vx new) (vx old))) dt)
      (Ieee.div F64 (Ieee.cast F32 (Ieee.sub F64 (vy new) (vy old))) dt)
      (Ieee.div F64 (Ieee.cast F32 (Ieee.sub F64 (vz new) (vz old))) dt).

(** The positions of a pair of points and of the closest point in one
    frame: transformed when both lookups succeeded, untransformed
    otherwise. *)
Definition in_frame (b : Bank) (target : string) (old_point new_point closest : Vec3)
  : Vec3 * Vec3 * Vec3 * bool * bool :=
  let '(t_old, ok_old) :=
    lookup_frame b target (C.get (bank_stamp b) (bank_index_put b)) in
  let '(t_new, ok_new) :=
    lookup_frame b target (C.get (bank_stamp b) (bank_index_newest b)) in
  if ok_old && ok_new
  then (transform_point t_old old_point, transform_point t_new new_point,
        transform_point t_new closest, ok_old, ok_new)
  else (old_point, new_point, closest, ok_old, ok_new).

(** The tracked object with its velocities and speeds, before the
    thresholds; also [dt], the old seen width and the six success
    flags, which the confidence takes. *)
Definition moving_object (b : Bank) (nr_objects_found i : Z) (c : Candidate)
           (o : OldIndices)
  : MovingObject * float * float * (bool * bool * bool * bool * bool * bool) :=
  let arg := bank_argument b in
  let newest := bank_index_newest b in
  let put := bank_index_put b in
  let range_i := range_at b newest i in
  let index_min := i in
  let index_max := C.u32 (i + nr_object_points c - 1) in
  let distance := Ieee.div F32 (object_range_sum c) (Ieee.of_Z F32 (nr_object_points c)) in
  let object_seen_width :=
    law_of_cosines range_i (range_at b newest (C.u32 (i + nr_object_points c - 1)))
      (Ieee.mul F32 (angle_increment arg) (Ieee.of_Z F32 (nr_object_points c))) in
  let angle_of (k : Z) :=
    Ieee.add F64 (Ieee.mul F32 (Ieee.of_Z F32 k) (angle_increment arg)) (angle_min arg) in
  let angle_begin := angle_of index_min in
  let angle_end := angle_of index_max in
  let angle_mean :=
    Ieee.cast F32 (Ieee.div F64 (Ieee.add F64 angle_begin angle_end) (Ieee.of_Z F32 2)) in
  let position :=
    vec (Ieee.mul F64 distance (cosf angle_mean))
        (Ieee.mul F64 distance (sinf angle_mean)) Lit.d0 in
  let angle_for_closest_distance := angle_of (object_range_min_index c) in
  let closest_point :=
    vec (Ieee.mul F32 (object_range_min c) (cosf (Ieee.cast F32 angle_for_closest_distance)))
        (Ieee.mul F32 (object_range_min c) (sinf (Ieee.cast F32 angle_for_closest_distance)))
        Lit.d0 in
  (* the object at the old time *)
  let width_old := C.s32 (index_max_old o - index_min_old o + 1) in
  let distance_old := Ieee.div F32 (range_sum_old o) (Ieee.of_Z F32 width_old) in
  let distance_angle_old := Ieee.cast F32 (angle_of (index_mean_old o)) in
  let covered_angle_old := Ieee.mul F32 (Ieee.of_Z F32 width_old) (angle_increment arg) in
  let object_seen_width_old :=
    law_of_cosines (range_at b put (index_min_old o)) (range_at b put (index_max_old o))
      covered_angle_old in
  let x_old := Ieee.mul F32 distance_old (cosf distance_angle_old) in
  let y_old := Ieee.mul F32 distance_old (sinf distance_angle_old) in
  let z_old := Ieee.zero in
  (* the six lookups *)
  let old_point := vec x_old y_old Lit.d0 in
  let new_point := vec (vx position) (vy position) Lit.d0 in
  let closest := vec (vx closest_point) (vy closest_point) Lit.d0 in
  let '(old_map, new_map, closest_map, ok_old_map, ok_new_map) :=
    in_frame b (map_frame arg) old_point new_point closest in
  let '(old_fixed, new_fixed, closest_fixed, ok_old_fixed, ok_new_fixed) :=
    in_frame b (fixed_frame arg) old_point new_point closest in
  let '(old_base, new_base, closest_base, ok_old_base, ok_new_base) :=
    in_frame b (base_frame arg) old_point new_point closest in
  (* how the object has moved, and with what velocity *)
  let stamp := C.get (bank_stamp b) newest in
  let dt := Ieee.sub F64 stamp (C.get (bank_stamp b) put) in
  let velocity := velocity_of position (vec x_old y_old z_old) dt in
  let velocity_map := velocity_of new_map old_map dt in
  let velocity_fixed := velocity_of new_fixed old_fixed dt in
  let velocity_base := velocity_of new_base old_base dt in
  let speed := norm velocity in
  let speed_map := norm velocity_map in
  let speed_fixed := norm velocity_fixed in
  let speed_base := norm velocity_base in
  ({| header := {| seq := nr_objects_found; stamp := stamp; frame_id := sensor_frame arg |};
      mo_map_frame := map_frame arg;
      mo_fixed_frame := fixed_frame arg;
      mo_base_frame := base_frame arg;
      seen_width := object_seen_width;
      angle_begin := angle_begin;
      angle_end := angle_end;
      distance_at_angle_begin := range_i;
      distance_at_angle_end := prev_range c;
      distance := distance;
      position := position;
      position_in_map_frame := new_map;
      position_in_fixed_frame := new_fixed;
      position_in_base_frame := new_base;
      angle_for_closest_distance := angle_for_closest_distance;
      closest_distance := object_range_min c;
      closest_point := closest_point;
      closest_point_in_map_frame := closest_map;
      closest_point_in_fixed_frame := closest_fixed;
      closest_point_in_base_frame := closest_base;
      velocity := velocity;
      velocity_in_map_frame := velocity_map;
      velocity_in_fixed_frame := velocity_fixed;
      velocity_in_base_frame := velocity_base;
      velocity_normalized := normalized velocity speed;
      velocity_normalized_in_map_frame := normalized velocity_map speed_map;
      velocity_normalized_in_fixed_frame := normalized velocity_fixed speed_fixed;
      velocity_normalized_in_base_frame := normalized velocity_base speed_base;
      speed := speed;
      speed_in_map_frame := speed_map;
      speed_in_fixed_frame := speed_fixed;
      speed_in_base_frame := speed_base;
      confidence := Lit.d0 |},
   dt, object_seen_width_old,
   (ok_old_map, ok_new_map, ok_old_fixed, ok_new_fixed, ok_old_base, ok_new_base)).

Definition with_confidence (mo : MovingObject) (conf : float) : MovingObject :=
  {| header := header mo;
     mo_map_frame := mo_map_frame mo;
     mo_fixed_frame := mo_fixed_frame mo;
     mo_base_frame := mo_base_frame mo;
     seen_width := seen_width mo;
     angle_begin := angle_begin mo;
     angle_end := angle_end mo;
     distance_at_angle_begin := distance_at_angle_begin mo;
     distance_at_angle_end := distance_at_angle_end mo;
     distance := distance mo;
     position := position mo;
     position_in_map_frame := position_in_map_frame mo;
     position_in_fixed_frame := position_in_fixed_frame mo;
     position_in_base_frame := position_in_base_frame mo;
     angle_for_closest_distance := angle_for_closest_distance mo;
     closest_distance := closest_distance mo;
     closest_point := closest_point mo;
     closest_point_in_map_frame := closest_point_in_map_frame mo;
     closest_point_in_fixed_frame := closest_point_in_fixed_frame mo;
     closest_point_in_base_frame := closest_point_in_base_frame mo;
     velocity := velocity mo;
     velocity_in_map_frame := velocity_in_map_frame mo;
     velocity_in_fixed_frame := velocity_in_fixed_frame mo;
     velocity_in_base_frame := velocity_in_base_frame mo;
     velocity_normalized := velocity_normalized mo;
     velocity_normalized_in_map_frame := velocity_normalized_in_map_frame mo;
     velocity_normalized_in_fixed_frame := velocity_normalized_in_fixed_frame mo;
     velocity_normalized_in_base_frame := velocity_normalized_in_base_frame mo;
     speed := speed mo;
     speed_in_map_frame := speed_in_map_frame mo;
     speed_in_fixed_frame := speed_in_fixed_frame mo;
     speed_in_base_frame := speed_in_base_frame mo;
     confidence := conf |}.

(** The threshold check on the speeds. *)
Definition speed_gate (b : Bank) (mo : MovingObject) : bool :=
  let min_speed := object_threshold_min_speed (bank_argument b) in
  Ieee.leb min_speed (speed mo)
  || Ieee.leb min_speed (speed_in_map_frame mo)
  || Ieee.leb min_speed (speed_in_fixed_frame mo)
  || Ieee.leb min_speed (speed_in_base_frame mo).

(** The speed of the object is strictly below the minimum speed in all
    four frames. *)
Definition all_speeds_below (b : Bank) (mo : MovingObject) : bool :=
  let min_speed := object_threshold_min_speed (bank_argument b) in
  Ieee.ltb (speed mo) min_speed
  && Ieee.ltb (speed_in_map_frame mo) min_speed
  && Ieee.ltb (speed_in_fixed_frame mo) min_speed
  && Ieee.ltb (speed_in_base_frame mo) min_speed.

(** The tracked object as [moving_object] computes it. *)
Definition tracked_object (b : Bank) (nr_objects_found i : Z) (c : Candidate)
           (o : OldIndices) : MovingObject :=
  let '(mo, _, _, _) := moving_object b nr_objects_found i c o in mo.

(** "Bound the value to [0,1]" *)
Definition bound_confidence (conf : float) : float :=
  let conf := if Ieee.ltb conf Lit.d0 then Lit.d0 else conf in
  if Ieee.ltb conf Lit.d1 then conf else Lit.d1.

(** What the report does with a tracked object: the objects it appends
    to [moa.objects] (one or none). *)
Definition report_tracked (b : Bank) (nr_objects_found i : Z) (c : Candidate)
           (o : OldIndices) : list MovingObject :=
  let '(mo, dt, object_seen_width_old, ok) := moving_object b nr_objects_found i c o in
  let '(ok_old_map, ok_new_map, ok_old_fixed, ok_new_fixed, ok_old_base, ok_new_base) := ok in
  if speed_gate b mo then
    let conf :=
      bound_confidence
        (calculateConfidence mo (bank_argument b) dt object_seen_width_old
           ok_old_map ok_new_map ok_old_fixed ok_new_fixed ok_old_base ok_new_base) in
    let mo := with_confidence mo conf in
    if Ieee.leb (object_threshold_min_confidence (bank_argument b)) conf
    then [mo] else []
  else [].

(** The locals of the [while] loop that outlive an iteration. *)
Record Scan := {
  scan_i : Z;
  nr_objects_found : Z;
  moa_objects : list MovingObject
}.

(** One iteration of [while(i<points_per_scan)]; [None] when the tracker
    does not return. *)
Definition scan_step (b : Bank) (s : Scan) : option Scan :=
  let arg := bank_argument b in
  let i := scan_i s in
  let range_i := range_at b (bank_index_newest b) i in
  if out_of_range b range_i then
    Some {| scan_i := C.u32 (i + 1);
            nr_objects_found := nr_objects_found s;
            moa_objects := moa_objects s |}
  else
    let c := candidate_at b i in
    if C.u32 (object_threshold_min_nr_points arg) <=? nr_object_points c then
      let found := C.u32 (nr_objects_found s + 1) in
      match track b i c with
      | None => None
      | Some o =>
          Some {| scan_i := C.u32 (i + nr_object_points c);
                  nr_objects_found := found;
                  moa_objects :=
                    if 0 <=? index_mean_old o
                    then moa_objects s ++ report_tracked b found i c o
                    else moa_objects s |}
      end
    else
      Some {| scan_i := C.u32 (i + nr_object_points c);
              nr_objects_found := nr_objects_found s;
              moa_objects := moa_objects s |}.

(** [while(i<points_per_scan)]; every iteration advances [i], so
    [points_per_scan] iterations are enough. *)
Fixpoint scan_loop (n : nat) (b : Bank) (s : Scan) : option Scan :=
  if scan_i s <? points_per_scan (bank_argument b) then
    match n with
    | O => None
    | S n =>
        match scan_step b s with
        | Some s => scan_loop n b s
        | None => None
        end
    end
  else Some s.

(** [Bank::findAndReportMovingObjects], as far as the array of moving
    objects [moa.objects]; publishing it and the markers is left to the
    output sinks. *)
Definition findAndReportMovingObjects (b : Bank) : option (list MovingObject) :=
  if negb (bank_is_filled b) then Some []
  else
    match scan_loop (Z.to_nat (points_per_scan (bank_argument b))) b
            {| scan_i := 0; nr_objects_found := 0; moa_objects := [] |} with
    | Some s => Some (moa_objects s)
    | None => None
    end.

End Report.

(** ** Histories of a bank *)

(** The bank after the laser scans [msgs], oldest first. *)
Definition writes (b : Bank) (msgs : list LaserScan) : Bank :=
  foldl (fun b msg => fst (addMessage b msg)) b msgs.

(** The relation between the two indices of the ring buffer. *)
Definition index_invariant (b : Bank) : bool :=
  let n := nr_scans_in_bank (bank_argument b) in
  (bank_index_put b =? (bank_index_newest b + 1) mod n)
  && (0 <=? bank_index_put b) && (bank_index_put b <? n)
  && (0 <=? bank_index_newest b) && (bank_index_newest b <? n).

Section Service.

Context {libm : LibM}.

(** The banks that arise from [b0] by a first message, which calls
    [initIndex], and any number of later messages of either kind.  A
    first point cloud without points does not reach [initIndex]. *)
Inductive in_service (b0 : Bank) : Bank -> Prop :=
| first_scan msg :
    in_service b0 (fst (addFirstMessage b0 msg))
| first_cloud msg xyz0 b :
    addFirstMessage_pc b0 msg xyz0 = Some (b, 0) -> in_service b0 b
| next_scan b msg :
    in_service b0 b -> in_service b0 (fst (addMessage b msg))
| next_cloud b msg xyz0 b' r :
    in_service b0 b -> addMessage_pc b msg xyz0 = Some (b', r) -> in_service b0 b'.

End Service.

(** ** The same object in every slot *)

(** The ranges of slot [level] at the indices [lo .. hi] form one object
    for the searches of the tracker with the bounds [rmin] and [rmax]:
    they lie within the bounds, neighbours differ by at most
    [object_threshold_edge_max_delta_range] (in the order of either
    search), and neither search goes on past [lo] or [hi]. *)
Definition segment_at (b : Bank) (rmin rmax : float) (level lo hi : Z) : Prop :=
  let delta := object_threshold_edge_max_delta_range (bank_argument b) in
  let r := range_at b level in
  0 <= lo /\ lo <= hi /\ hi < points_per_scan (bank_argument b)
  /\ (forall k, lo <= k <= hi -> Ieee.leb rmin (r k) && Ieee.leb (r k) rmax = true)
  /\ (forall k, lo <= k < hi ->
        Ieee.leb (Ieee.abs (Ieee.sub Ieee.F32 (r k) (r (k + 1)))) delta = true
        /\ Ieee.leb (Ieee.abs (Ieee.sub Ieee.F32 (r (k + 1)) (r k))) delta = true)
  /\ (0 < lo -> continues rmin rmax delta (r lo) (r (lo - 1)) = false)
  /\ (hi + 1 < points_per_scan (bank_argument b) ->
      continues rmin rmax delta (r hi) (r (hi + 1)) = false).

(** The sum of the ranges of the object as the tracker adds them up: from
    [mean] down to [lo], then from [mean + 1] up to [hi]. *)
Definition tracker_sum (b : Bank) (level lo hi mean : Z) : float :=
  foldl (Ieee.add Ieee.F32) (range_at b level mean)
    ((range_at b level <$> reverse (seqZ lo (mean - lo)))
     ++ (range_at b level <$> seqZ (mean + 1) (hi - mean))).

(** The mean ranges of two objects of [width] points with the range sums
    [sum_old] and [sum_new] are within
    [object_threshold_bank_tracking_max_delta_distance] of each other, by
    the test of the tracker. *)
Definition mean_range_close (b : Bank) (width : Z) (sum_old sum_new : float) : bool :=
  negb (Ieee.ltb (object_threshold_bank_tracking_max_delta_distance (bank_argument b))
          (Ieee.abs
             (Ieee.sub Ieee.F32
                (Ieee.div Ieee.F32 sum_new (Ieee.of_Z Ieee.F32 width))
                (Ieee.div Ieee.F32 sum_old (Ieee.of_Z Ieee.F32 width))))).

(** The output parameters after the object [lo .. hi] was found in slot
    [level]. *)
Definition found_at (b : Bank) (level lo hi : Z) : OldIndices :=
  {| index_min_old := lo;
     index_mean_old := Z.quot (lo + hi) 2;
     index_max_old := hi;
     range_sum_old := tracker_sum b level lo hi (Z.quot (lo + hi) 2);
     range_at_min_index_old := range_at b level lo;
     range_at_max_index_old := range_at b level hi |}.

(** ** Auxiliary notions and examples *)

  (** The state of the indices and of the flag after [k] messages have
      followed the first one. *)
Definition after_writes (k : Z) (b : Bank) : Prop :=
    let n := nr_scans_in_bank (bank_argument b) in
    bank_index_newest b = k mod n
    /\ bank_index_put b = (k + 1) mod n
    /\ bank_is_filled b = (n <=? k + 1).

(** A laser scan with the ranges [rs], for the examples. *)
Definition scan_of (rs : list float) : LaserScan :=
  {| ls_frame_id := "laser"; ls_stamp := Ieee.zero;
     ls_angle_min := Ieee.zero; ls_angle_max := Lit.d1;
     ls_angle_increment := Ieee.make Ieee.F32 1 (-2);
     ls_time_increment := Ieee.zero; ls_scan_time := Ieee.zero;
     ls_range_min := Ieee.make Ieee.F32 1 (-3);
     ls_range_max := Ieee.of_Z Ieee.F32 10;
     ls_ranges := rs |}.

  (** The number of accepted points, as [putPoints] counts them. *)
Definition accepted (b : Bank) (msg : PointCloud2) (xyz : Z -> float * float * float)
           (visited : list (Z * Z)) : Z :=
    Z.of_nat (length (List.filter (in_z_band b msg xyz) visited)).

(** A stand-in for the three functions of <cmath>, for the examples. *)
Definition libm_example : LibM :=
  {| atan := fun x => x; cosf := fun _ => Ieee.of_Z Ieee.F32 1; sinf := fun _ => Ieee.zero |}.

(** A cloud of one point record, three little-endian [float]
    coordinates [(1.5, -2.25, z)]. *)
Definition cloud_of (z : list Z) : PointCloud2 :=
  {| pc_frame_id := "camera"; pc_stamp := Lit.d1;
     pc_height := 1; pc_row_step := 12; pc_point_step := 12;
     pc_is_bigendian := false;
     pc_data := [0x00; 0x00; 0xC0; 0x3F; 0x00; 0x00; 0x10; 0xC0] ++ z |}.

(** A bank of three slots of four ranges each, ready for point clouds:
    the coordinates are [float]s at the offsets 0, 4 and 8. *)
Definition cloud_bank : Bank :=
  {| bank_argument :=
       BankArgument_of_scan BankArgument_default
         (scan_of (replicate 4 (Ieee.of_Z Ieee.F32 1)));
     bank_is_initialized := true;
     bank_is_filled := false;
     bank_index_put := 1;
     bank_index_newest := 0;
     bank_stamp := replicate 11 Ieee.zero;
     bank_ranges_ema := replicate 11 (replicate 4 (Ieee.of_Z Ieee.F32 1));
     machine_is_little_endian := true;
     PC2_message_x_offset := 0;
     PC2_message_x_bytes := 4;
     PC2_message_y_offset := 4;
     PC2_message_y_bytes := 4;
     PC2_message_z_offset := 8;
     PC2_message_z_bytes := 4;
     moa_seq := 0 |}.

(** A bank for the examples: eleven identical slots of twelve ranges,
    a far wall of one point, an object of five points at 2 m and an
    object of six points at 8 m; the sensor reaches 10 m and the
    configuration is the default one (objects up to 6.5 m). *)
Definition example_slot : list float :=
  Ieee.of_Z Ieee.F32 20 :: replicate 5 (Ieee.of_Z Ieee.F32 2)
  ++ replicate 6 (Ieee.of_Z Ieee.F32 8).

Definition example_bank : Bank :=
  {| bank_argument := BankArgument_of_scan BankArgument_default (scan_of example_slot);
     bank_is_initialized := true;
     bank_is_filled := true;
     bank_index_put := 1;
     bank_index_newest := 0;
     bank_stamp := (fun l => Ieee.of_Z Ieee.F64 l) <$> [11; 1; 2; 3; 4; 5; 6; 7; 8; 9; 10];
     bank_ranges_ema := replicate 11 example_slot;
     machine_is_little_endian := true;
     PC2_message_x_offset := 0;
     PC2_message_x_bytes := 4;
     PC2_message_y_offset := 4;
     PC2_message_y_bytes := 4;
     PC2_message_z_offset := 8;
     PC2_message_z_bytes := 4;
     moa_seq := 0 |}.

(** The example bank with the slot [level] replaced. *)
Definition example_bank_with (level : Z) (slot : list float) : Bank :=
  with_ranges example_bank (C.set (bank_ranges_ema example_bank) level slot).

(** In slot 5 the near object has shrunk to three points. *)
Definition shrunk_slot : list float :=
  replicate 3 (Ieee.of_Z Ieee.F32 20) ++ replicate 3 (Ieee.of_Z Ieee.F32 2)
  ++ replicate 6 (Ieee.of_Z Ieee.F32 8).

(** In slot 5 the near object is at 3 m. *)
Definition farther_slot : list float :=
  Ieee.of_Z Ieee.F32 20 :: replicate 5 (Ieee.of_Z Ieee.F32 3)
  ++ replicate 6 (Ieee.of_Z Ieee.F32 8).

(** The claim C9 as it is written, for every call: a range at
    [index_mean] outside [[range_min, range_max]] makes the call return
    with -1 in the three index outputs. *)
Definition every_call_outside_range_gives_up : Prop :=
  forall (b : Bank) (a : TrackCall) (o : OldIndices),
    outside_range b a = true ->
    exists o',
      getOldIndices 1 b a o = Some o'
      /\ index_min_old o' = -1 /\ index_mean_old o' = -1 /\ index_max_old o' = -1.

(** The bank that a node has after the laser scans [scans], oldest
    first: [init] with the first one and [addMessage] with the others.
    The allocated memory holds NaNs. *)
Definition bank_of_scans (a : BankArgument) (scans : list LaserScan) : option Bank :=
  match scans with
  | [] => None
  | first :: others =>
      match init (Bank_new true) a first (fun _ _ => Ieee.nan) with
      | Some (b, _) => Some (writes b others)
      | None => None
      end
  end.

(** An object of five points at 2 m in front of a wall at 20 m that moves
    across the scan: [age] scans ago it was [age / 2] indices further
    up. *)
Definition drifting_slot (age : Z) : list float :=
  replicate (Z.to_nat (1 + age / 2)) (Ieee.of_Z Ieee.F32 20)
  ++ replicate 5 (Ieee.of_Z Ieee.F32 2)
  ++ replicate (Z.to_nat (6 - age / 2)) (Ieee.of_Z Ieee.F32 20).

(** Eleven scans of the object, oldest first, and the bank that the
    default configuration has after them. *)
Definition drifting_scans : list LaserScan :=
  (fun age => scan_of (drifting_slot age)) <$> [10; 9; 8; 7; 6; 5; 4; 3; 2; 1; 0].

Definition drifting_bank : Bank :=
  default (Bank_new true) (bank_of_scans BankArgument_default drifting_scans).

(** In slot 5 something at 20 m is seen through the middle of the near
    object. *)
Definition pierced_slot : list float :=
  [Ieee.of_Z Ieee.F32 20; Ieee.of_Z Ieee.F32 2; Ieee.of_Z Ieee.F32 2; Ieee.of_Z Ieee.F32 20;
   Ieee.of_Z Ieee.F32 2; Ieee.of_Z Ieee.F32 2] ++ replicate 6 (Ieee.of_Z Ieee.F32 8).

(** The three bounds on a re-expanded object in the words of the
    specification: the object is accepted only if its width is at least
    [object_threshold_min_nr_points], its width differs from the one of
    the level before by at most
    [object_threshold_max_delta_width_in_points], and its mean range
    differs from the one of the level before by at most
    [object_threshold_bank_tracking_max_delta_distance].  The widths
    and the means are computed as in [getOldIndices]. *)
Definition width_violated (b : Bank) (a : TrackCall) : bool :=
  let arg := bank_argument b in
  let width_in_points := width_found b a in
  negb ((C.u32 (object_threshold_min_nr_points arg) <=? width_in_points)
        && (C.abs (C.s32 (C.u32 (width_in_points - object_width_in_points a)))
              <=? object_threshold_max_delta_width_in_points arg)).

Definition mean_range_difference (b : Bank) (a : TrackCall) (sum_old : float) : float :=
  let width_in_points := width_found b a in
  let range_sum := s_range_sum (higher_side b a) in
  Ieee.abs
    (Ieee.sub Ieee.F32
       (Ieee.div Ieee.F32 range_sum (Ieee.of_Z Ieee.F32 width_in_points))
       (Ieee.div Ieee.F32 sum_old (Ieee.of_Z Ieee.F32 (object_width_in_points a)))).

Definition mean_range_violated (b : Bank) (a : TrackCall) (sum_old : float) : bool :=
  negb (Ieee.leb (mean_range_difference b a sum_old)
          (object_threshold_bank_tracking_max_delta_distance (bank_argument b))).

Definition violates_bounds (b : Bank) (a : TrackCall) (sum_old : float) : bool :=
  width_violated b a || mean_range_violated b a sum_old.

(** The claim C3 as it is written: whenever the walk of the tracker, from
    the call made for a candidate, comes to a level at which the
    re-expanded object violates one of the three bounds, the tracker
    returns "not found". *)
Definition every_violation_gives_up : Prop :=
  forall (b : Bank) (i : Z) (c : Candidate) (k : nat) (a : TrackCall) (o : OldIndices),
    1 <= nr_scans_in_bank (bank_argument b) < 2 ^ 31 ->
    walk k b (track_call b i c) (track_start c) = Some (a, o) ->
    levels_searched a <> nr_scans_in_bank (bank_argument b) ->
    violates_bounds b a (range_sum_old o) = true ->
    track b i c = Some not_found.

(** The configuration [a] with another least number of points of an
    object. *)
Definition with_min_nr_points (a : BankArgument) (min_nr_points : Z) : BankArgument :=
  {| ema_alpha := ema_alpha a;
     nr_scans_in_bank := nr_scans_in_bank a;
     points_per_scan := points_per_scan a;
     angle_min := angle_min a;
     angle_max := angle_max a;
     object_threshold_edge_max_delta_range := object_threshold_edge_max_delta_range a;
     object_threshold_min_nr_points := min_nr_points;
     object_threshold_max_distance := object_threshold_max_distance a;
     object_threshold_min_speed := object_threshold_min_speed a;
     object_threshold_max_delta_width_in_points := object_threshold_max_delta_width_in_points a;
     object_threshold_min_confidence := object_threshold_min_confidence a;
     object_threshold_bank_tracking_max_delta_distance :=
       object_threshold_bank_tracking_max_delta_distance a;
     base_confidence := base_confidence a;
     publish_objects := publish_objects a;
     publish_ema := publish_ema a;
     publish_objects_closest_point_markers := publish_objects_closest_point_markers a;
     publish_objects_velocity_arrows := publish_objects_velocity_arrows a;
     publish_objects_delta_position_lines := publish_objects_delta_position_lines a;
     velocity_arrow_ns := velocity_arrow_ns a;
     delta_position_line_ns := delta_position_line_ns a;
     topic_objects := topic_objects a;
     topic_ema := topic_ema a;
     topic_objects_closest_point_markers := topic_objects_closest_point_markers a;
     topic_objects_velocity_arrows := topic_objects_velocity_arrows a;
     topic_objects_delta_position_lines := topic_objects_delta_position_lines a;
     publish_buffer_size := publish_buffer_size a;
     map_frame := map_frame a;
     fixed_frame := fixed_frame a;
     base_frame := base_frame a;
     PC2_message_x_coordinate_field_name := PC2_message_x_coordinate_field_name a;
     PC2_message_y_coordinate_field_name := PC2_message_y_coordinate_field_name a;
     PC2_message_z_coordinate_field_name := PC2_message_z_coordinate_field_name a;
     PC2_voxel_leaf_size := PC2_voxel_leaf_size a;
     PC2_threshold_z_min := PC2_threshold_z_min a;
     PC2_threshold_z_max := PC2_threshold_z_max a;
     sensor_frame := sensor_frame a;
     angle_increment := angle_increment a;
     time_increment := time_increment a;
     scan_time := scan_time a;
     range_min := range_min a;
     range_max := range_max a |}.

(** The scan of the example bank with a NaN in the middle of the near
    object, ten scans of the example bank followed by this one, and the
    bank that the default configuration with objects of one point and
    more has after them. *)
Definition nan_slot : list float :=
  [Ieee.of_Z Ieee.F32 20; Ieee.of_Z Ieee.F32 2; Ieee.of_Z Ieee.F32 2; Ieee.nan;
   Ieee.of_Z Ieee.F32 2; Ieee.of_Z Ieee.F32 2] ++ replicate 6 (Ieee.of_Z Ieee.F32 8).

Definition nan_scans : list LaserScan :=
  replicate 10 (scan_of example_slot) ++ [scan_of nan_slot].

Definition nan_bank : Bank :=
  default (Bank_new true)
    (bank_of_scans (with_min_nr_points BankArgument_default 1) nan_scans).

(** The call made after [k] levels, and the output parameters then. *)
Definition call_at (b : Bank) (i : Z) (c : Candidate) (k : nat) : TrackCall :=
  {| t_range_min := report_range_min b;
     t_range_max := report_range_max b;
     object_width_in_points := nr_object_points c;
     current_level := (bank_index_newest b - 1 - Z.of_nat k) mod nr_scans_in_bank (bank_argument b);
     levels_searched := 1 + Z.of_nat k;
     index_mean := Z.quot (i + (i + nr_object_points c - 1)) 2;
     consecutive_failures_to_find_object := 0;
     threshold_consecutive_failures_to_find_object := 0 |}.

Definition outputs_at (b : Bank) (i : Z) (c : Candidate) (k : nat) : OldIndices :=
  match k with
  | O => track_start c
  | S k =>
      found_at b ((bank_index_newest b - 1 - Z.of_nat k) mod nr_scans_in_bank (bank_argument b))
        i (i + nr_object_points c - 1)
  end.

(** Collaborators for the examples: the frames coincide with the sensor
    frame and the confidence is always 1. *)
Definition listener_example : TransformListener :=
  {| Transform := unit;
     fresh_transform := tt;
     waitForTransform := fun _ _ _ => Some true;
     lookupTransform := fun _ _ _ => Some tt;
     transform_point := fun _ p => p |}.

Definition confidence_example : Confidence :=
  {| calculateConfidence := fun _ _ _ _ _ _ _ _ _ _ => Lit.d1 |}.

(** A bank in which the near object recedes by 1/8 m from slot to slot:
    from 2 m in the oldest slot (level 1) to 3.25 m in the newest (level 0),
    within 10 s. *)
Definition receding_slot (age : Z) : list float :=
  Ieee.of_Z Ieee.F32 20 :: replicate 5 (Ieee.make Ieee.F32 (16 + age) (-3))
  ++ replicate 6 (Ieee.of_Z Ieee.F32 8).

Definition receding_bank : Bank :=
  with_ranges example_bank
    (receding_slot <$> [10; 0; 1; 2; 3; 4; 5; 6; 7; 8; 9]).

Definition report_example (b : Bank) : option (list MovingObject) :=
  findAndReportMovingObjects (libm := libm_example) (listener := listener_example)
    (scorer := confidence_example) b.

(** ** Exact values of floating-point numbers

    The values of the finite numbers of a format are integers when they
    are counted in units of a power of two below the smallest exponent.
    The roundings of the arithmetic are described on these integers. *)

(** [rne N g]: the multiple of [2^g] nearest to [N], the even one of two. *)
Definition rne (N g : Z) : Z :=
  if g <=? 0 then N
  else
    let q := N / 2 ^ g in
    let r := N mod 2 ^ g in
    let h := 2 ^ (g - 1) in
    (if r <? h then q else if h <? r then q + 1 else if Z.even q then q else q + 1) * 2 ^ g.

(** The exponent of the grid of a format of [p] bits whose smallest
    exponent is [gmin], at [N]. *)
Definition grid (p gmin N : Z) : Z := Z.max (Z.log2 N + 1 - p) gmin.

(** Rounding to the format, of a natural number and of an integer. *)
Definition RN (p gmin N : Z) : Z := rne N (grid p gmin N).

Definition sRN (p gmin N : Z) : Z :=
  if N <? 0 then - RN p gmin (- N) else RN p gmin N.

(** The value of a finite number, in units of [2^U]. *)
Definition sval (U : Z) (x : spec_float) : Z :=
  match x with
  | S754_finite s m e => cond_Zopp s (Z.pos m * 2 ^ (e - U))
  | _ => 0
  end.

(** [x] is the value of sign [s] and magnitude [R] (in units of [2^U]),
    or the infinity of that sign when the magnitude is outside the format. *)
Definition rounds_to (prec emax U : Z) (s : bool) (R : Z) (x : spec_float) : Prop :=
  (R < 2 ^ (emax - U) ->
     Ieee.is_finite x = true /\ valid_binary prec emax x = true /\ sval U x = cond_Zopp s R) /\
  (2 ^ (emax - U) <= R -> x = S754_infinity s).

(** [x] is a finite value of the format, equal to [R] units of [2^U]. *)
Definition represents (prec emax U : Z) (x : spec_float) (R : Z) : Prop :=
  Ieee.is_finite x = true /\ valid_binary prec emax x = true /\ sval U x = R.

Definition exponent_above (U : Z) (x : spec_float) : Prop :=
  match x with S754_finite _ _ e => U <= e | _ => True end.

(** The smoothing step on integers: the ranges and the weights in units
    of [2^-1074], the products and the result in units of [2^-2148]. *)
Definition unit64 : Z := 2 ^ 1074.
Definition R64 (N : Z) : Z := sRN 53 1074 N.
Definition R32 (N : Z) : Z := sRN 24 1999 N.
Definition blend (A B N P : Z) : Z := R32 (R64 (R64 (A * N) + R64 (B * P))).
Definition one_minus (A : Z) : Z := sRN 53 0 (unit64 - A).

(** [x] is a finite value of type [float]. *)
Definition float32 (x : float) : bool :=
  Ieee.is_finite x && valid_binary (Ieee.prec Ieee.F32) (Ieee.emax Ieee.F32) x.

(** [x] is an infinity. *)
Definition infinite (x : float) : bool :=
  match x with S754_infinity _ => true | _ => false end.

(** [n] and [p] are infinities of opposite sign. *)
Definition opposite_infinities (n p : float) : bool :=
  match n, p with
  | S754_infinity sn, S754_infinity sp => xorb sn sp
  | _, _ => false
  end.

(** The smoothing step [alpha * n + (1 - alpha) * p] has no product of
    zero and an infinity (an infinite [n] has a weight above 0, an
    infinite [p] a weight above 0 as well, that is [alpha] below 1) and
    no sum of infinities of opposite sign. *)
Definition blend_defined (alpha n p : float) : bool :=
  (negb (infinite n) || Ieee.ltb Lit.d0 alpha)
  && (negb (infinite p) || Ieee.ltb alpha Lit.d1)
  && negb (opposite_infinities n p).

(** [v] lies in the closed interval between [p] and [n]. *)
Definition lies_between (p n v : float) : bool :=
  (Ieee.leb p v && Ieee.leb v n) || (Ieee.leb n v && Ieee.leb v p).

(** The bound on the smoothed value for every smoothing factor in [0,1]
    and every pair of a previous range [p] and a new range [n]. *)
Definition every_smoothed_range_lies_between : Prop :=
  forall alpha p n : float,
    Ieee.leb Lit.d0 alpha = true -> Ieee.leb alpha Lit.d1 = true ->
    lies_between p n (ema_blend alpha (Ieee.sub Ieee.F64 Lit.d1 alpha) n p) = true.

(** A smoothing factor and two ranges: 0.3, 1.2345 m before and the
    [float] nearest to pi now. *)
Definition example_alpha : float := Lit.d0_3.
Definition example_previous : float := Ieee.of_bits Ieee.F32 0x3f9e0419.
Definition example_new : float := Ieee.of_bits Ieee.F32 0x40490fdb.

(** ** The fields of a point cloud *)

(** The bank on a machine of the byte order [little_endian]. *)
Definition with_little_endian (b : Bank) (little_endian : bool) : Bank :=
  {| bank_argument := bank_argument b;
     bank_is_initialized := bank_is_initialized b;
     bank_is_filled := bank_is_filled b;
     bank_index_put := bank_index_put b;
     bank_index_newest := bank_index_newest b;
     bank_stamp := bank_stamp b;
     bank_ranges_ema := bank_ranges_ema b;
     machine_is_little_endian := little_endian;
     PC2_message_x_offset := PC2_message_x_offset b;
     PC2_message_x_bytes := PC2_message_x_bytes b;
     PC2_message_y_offset := PC2_message_y_offset b;
     PC2_message_y_bytes := PC2_message_y_bytes b;
     PC2_message_z_offset := PC2_message_z_offset b;
     PC2_message_z_bytes := PC2_message_z_bytes b;
     moa_seq := moa_seq b |}.

(** The widths that [readPoint] reads: [sizeof(float)] and
    [sizeof(double)]. *)
Definition readable (nr_bytes : Z) : bool := (nr_bytes =? 4) || (nr_bytes =? 8).

(** A field of [sensor_msgs::PointCloud2::fields], as far as the program
    reads it: [name], [offset] (a [uint32]) and [datatype] (a [uint8]).
    The record [PointCloud2] above holds the members of the message that
    the ingestion reads; [getOffsetsAndBytes] and [init] take the fields
    beside it. *)
Record PointField := {
  pf_name : string;
  pf_offset : Z;
  pf_datatype : Z
}.

(** The constants of [sensor_msgs::PointField]. *)
Module PointFieldType.
Definition INT8 : Z := 1.
Definition UINT8 : Z := 2.
Definition INT16 : Z := 3.
Definition UINT16 : Z := 4.
Definition INT32 : Z := 5.
Definition UINT32 : Z := 6.
Definition FLOAT32 : Z := 7.
Definition FLOAT64 : Z := 8.
End PointFieldType.

(** The C string of a [std::string]: the characters before the first
    NUL. *)
Fixpoint c_str (s : string) : string :=
  match s with
  | EmptyString => EmptyString
  | String c s => if Ascii.eqb c Ascii.zero then EmptyString else String c (c_str s)
  end.

(** [strcmp(a.c_str(), b.c_str()) == 0] *)
Definition strcmp_equal (a b : string) : bool := String.eqb (c_str a) (c_str b).

(** The [nr_bytes] bytes of the word [w] in the memory of a machine. *)
Definition bytes_of_word (little_endian : bool) (nr_bytes : Z) (w : Z) : list Z :=
  let bytes := (fun k => (w / 256 ^ k) mod 256) <$> C.upto nr_bytes in
  if little_endian then bytes else reverse bytes.

(** "Read offset": the copy of the offset into [tmp_byte4], the reversal
    and the copy into the member, an [int]. *)
Definition read_offset (b : Bank) (must_reverse_bytes : bool) (offset : Z) : Z :=
  let tmp_byte4 := bytes_of_word (machine_is_little_endian b) 4 offset in
  let tmp_byte4 := if must_reverse_bytes then reverseBytes tmp_byte4 4 else tmp_byte4 in
  C.s32 (word_of_bytes (machine_is_little_endian b) tmp_byte4).

(** "Read datatype": the number of bytes of a datatype, [None] when the
    program cannot determine it. *)
Definition bytes_of_datatype (tmp_byte : Z) : option Z :=
  if (tmp_byte =? PointFieldType.INT8) || (tmp_byte =? PointFieldType.UINT8) then Some 1
  else if (tmp_byte =? PointFieldType.INT16) || (tmp_byte =? PointFieldType.UINT16) then Some 2
  else if (tmp_byte =? PointFieldType.INT32) || (tmp_byte =? PointFieldType.UINT32)
          || (tmp_byte =? PointFieldType.FLOAT32) then Some 4
  else if tmp_byte =? PointFieldType.FLOAT64 then Some 8
  else None.

(** The assignments to the six members. *)
Definition with_PC2_fields (b : Bank) (x_offset x_bytes y_offset y_bytes z_offset z_bytes : Z)
  : Bank :=
  {| bank_argument := bank_argument b;
     bank_is_initialized := bank_is_initialized b;
     bank_is_filled := bank_is_filled b;
     bank_index_put := bank_index_put b;
     bank_index_newest := bank_index_newest b;
     bank_stamp := bank_stamp b;
     bank_ranges_ema := bank_ranges_ema b;
     machine_is_little_endian := machine_is_little_endian b;
     PC2_message_x_offset := x_offset;
     PC2_message_x_bytes := x_bytes;
     PC2_message_y_offset := y_offset;
     PC2_message_y_bytes := y_bytes;
     PC2_message_z_offset := z_offset;
     PC2_message_z_bytes := z_bytes;
     moa_seq := moa_seq b |}.

Definition with_x (b : Bank) (offset bytes : Z) : Bank :=
  with_PC2_fields b offset bytes (PC2_message_y_offset b) (PC2_message_y_bytes b)
    (PC2_message_z_offset b) (PC2_message_z_bytes b).
Definition with_y (b : Bank) (offset bytes : Z) : Bank :=
  with_PC2_fields b (PC2_message_x_offset b) (PC2_message_x_bytes b) offset bytes
    (PC2_message_z_offset b) (PC2_message_z_bytes b).
Definition with_z (b : Bank) (offset bytes : Z) : Bank :=
  with_PC2_fields b (PC2_message_x_offset b) (PC2_message_x_bytes b)
    (PC2_message_y_offset b) (PC2_message_y_bytes b) offset bytes.

(** The loop of [getOffsetsAndBytes] over the fields; the flag tells
    that the function has returned -1 from within the loop, after the
    offset of the field was stored. *)
Fixpoint getOffsetsAndBytes_loop (a : BankArgument) (must_reverse_bytes : bool)
         (b : Bank) (fields : list PointField) : Bank * bool :=
  match fields with
  | [] => (b, false)
  | f :: fields =>
      let offset := read_offset b must_reverse_bytes (pf_offset f) in
      if strcmp_equal (PC2_message_x_coordinate_field_name a) (pf_name f) then
        match bytes_of_datatype (pf_datatype f) with
        | Some bytes =>
            getOffsetsAndBytes_loop a must_reverse_bytes (with_x b offset bytes) fields
        | None => (with_x b offset (PC2_message_x_bytes b), true)
        end
      else if strcmp_equal (PC2_message_y_coordinate_field_name a) (pf_name f) then
        match bytes_of_datatype (pf_datatype f) with
        | Some bytes =>
            getOffsetsAndBytes_loop a must_reverse_bytes (with_y b offset bytes) fields
        | None => (with_y b offset (PC2_message_y_bytes b), true)
        end
      else if strcmp_equal (PC2_message_z_coordinate_field_name a) (pf_name f) then
        match bytes_of_datatype (pf_datatype f) with
        | Some bytes =>
            getOffsetsAndBytes_loop a must_reverse_bytes (with_z b offset bytes) fields
        | None => (with_z b offset (PC2_message_z_bytes b), true)
        end
      else getOffsetsAndBytes_loop a must_reverse_bytes b fields
  end.

(** [Bank::getOffsetsAndBytes]: the bank and the value returned. *)
Definition getOffsetsAndBytes (b : Bank) (a : BankArgument) (msg : PointCloud2)
           (fields : list PointField) : Bank * Z :=
  let b := with_PC2_fields b (-1) (-1) (-1) (-1) (-1) (-1) in
  let must_reverse_bytes := must_reverse b msg in
  let '(b, returned) := getOffsetsAndBytes_loop a must_reverse_bytes b fields in
  if returned then (b, -1)
  else if (0 <=? PC2_message_x_offset b) && (0 <=? PC2_message_x_bytes b)
          && (0 <=? PC2_message_y_offset b) && (0 <=? PC2_message_y_bytes b)
          && (0 <=? PC2_message_z_offset b) && (0 <=? PC2_message_z_bytes b)
  then (b, 0)
  else (b, -1).

(** The width of a coordinate during [getOffsetsAndBytes]: -1, as at the
    start, or the width of a datatype. *)
Definition width_ok (w : Z) : Prop := w = -1 \/ w = 1 \/ w = 2 \/ w = 4 \/ w = 8.

(** The fields of a cloud of [float] coordinates, with an intensity. *)
Definition example_fields : list PointField :=
  [ {| pf_name := "x"; pf_offset := 0; pf_datatype := PointFieldType.FLOAT32 |};
    {| pf_name := "y"; pf_offset := 4; pf_datatype := PointFieldType.FLOAT32 |};
    {| pf_name := "z"; pf_offset := 8; pf_datatype := PointFieldType.FLOAT32 |};
    {| pf_name := "intensity"; pf_offset := 12; pf_datatype := PointFieldType.UINT8 |} ].

(** A configuration with other field names. *)
Definition with_field_names (a : BankArgument) (x y z : string) : BankArgument :=
  {| ema_alpha := ema_alpha a;
     nr_scans_in_bank := nr_scans_in_bank a;
     points_per_scan := points_per_scan a;
     angle_min := angle_min a;
     angle_max := angle_max a;
     object_threshold_edge_max_delta_range := object_threshold_edge_max_delta_range a;
     object_threshold_min_nr_points := object_threshold_min_nr_points a;
     object_threshold_max_distance := object_threshold_max_distance a;
     object_threshold_min_speed := object_threshold_min_speed a;
     object_threshold_max_delta_width_in_points := object_threshold_max_delta_width_in_points a;
     object_threshold_min_confidence := object_threshold_min_confidence a;
     object_threshold_bank_tracking_max_delta_distance :=
       object_threshold_bank_tracking_max_delta_distance a;
     base_confidence := base_confidence a;
     publish_objects := publish_objects a;
     publish_ema := publish_ema a;
     publish_objects_closest_point_markers := publish_objects_closest_point_markers a;
     publish_objects_velocity_arrows := publish_objects_velocity_arrows a;
     publish_objects_delta_position_lines := publish_objects_delta_position_lines a;
     velocity_arrow_ns := velocity_arrow_ns a;
     delta_position_line_ns := delta_position_line_ns a;
     topic_objects := topic_objects a;
     topic_ema := topic_ema a;
     topic_objects_closest_point_markers := topic_objects_closest_point_markers a;
     topic_objects_velocity_arrows := topic_objects_velocity_arrows a;
     topic_objects_delta_position_lines := topic_objects_delta_position_lines a;
     publish_buffer_size := publish_buffer_size a;
     map_frame := map_frame a;
     fixed_frame := fixed_frame a;
     base_frame := base_frame a;
     PC2_message_x_coordinate_field_name := x;
     PC2_message_y_coordinate_field_name := y;
     PC2_message_z_coordinate_field_name := z;
     PC2_voxel_leaf_size := PC2_voxel_leaf_size a;
     PC2_threshold_z_min := PC2_threshold_z_min a;
     PC2_threshold_z_max := PC2_threshold_z_max a;
     sensor_frame := sensor_frame a;
     angle_increment := angle_increment a;
     time_increment := time_increment a;
     scan_time := scan_time a;
     range_min := range_min a;
     range_max := range_max a |}.

(** [BankArgument::check_PC2]: the conjunction of its assertions. *)
Definition BankArgument_check_PC2 (a : BankArgument) : bool :=
  nonempty (PC2_message_x_coordinate_field_name a)
  && nonempty (PC2_message_y_coordinate_field_name a)
  && nonempty (PC2_message_z_coordinate_field_name a)
  && Ieee.leb Lit.d0 (PC2_voxel_leaf_size a)
  && Ieee.leb (PC2_threshold_z_min a) (PC2_threshold_z_max a).

(** The members of the configuration that [Bank::init(PointCloud2)]
    sets; 0.01 is the literal of the program. *)
Definition BankArgument_of_cloud (a : BankArgument) (msg : PointCloud2) : BankArgument :=
  {| ema_alpha := ema_alpha a;
     nr_scans_in_bank := nr_scans_in_bank a;
     points_per_scan := points_per_scan a;
     angle_min := angle_min a;
     angle_max := angle_max a;
     object_threshold_edge_max_delta_range := object_threshold_edge_max_delta_range a;
     object_threshold_min_nr_points := object_threshold_min_nr_points a;
     object_threshold_max_distance := object_threshold_max_distance a;
     object_threshold_min_speed := object_threshold_min_speed a;
     object_threshold_max_delta_width_in_points := object_threshold_max_delta_width_in_points a;
     object_threshold_min_confidence := object_threshold_min_confidence a;
     object_threshold_bank_tracking_max_delta_distance :=
       object_threshold_bank_tracking_max_delta_distance a;
     base_confidence := base_confidence a;
     publish_objects := publish_objects a;
     publish_ema := publish_ema a;
     publish_objects_closest_point_markers := publish_objects_closest_point_markers a;
     publish_objects_velocity_arrows := publish_objects_velocity_arrows a;
     publish_objects_delta_position_lines := publish_objects_delta_position_lines a;
     velocity_arrow_ns := velocity_arrow_ns a;
     delta_position_line_ns := delta_position_line_ns a;
     topic_objects := topic_objects a;
     topic_ema := topic_ema a;
     topic_objects_closest_point_markers := topic_objects_closest_point_markers a;
     topic_objects_velocity_arrows := topic_objects_velocity_arrows a;
     topic_objects_delta_position_lines := topic_objects_delta_position_lines a;
     publish_buffer_size := publish_buffer_size a;
     map_frame := map_frame a;
     fixed_frame := fixed_frame a;
     base_frame := base_frame a;
     PC2_message_x_coordinate_field_name := PC2_message_x_coordinate_field_name a;
     PC2_message_y_coordinate_field_name := PC2_message_y_coordinate_field_name a;
     PC2_message_z_coordinate_field_name := PC2_message_z_coordinate_field_name a;
     PC2_voxel_leaf_size := PC2_voxel_leaf_size a;
     PC2_threshold_z_min := PC2_threshold_z_min a;
     PC2_threshold_z_max := PC2_threshold_z_max a;
     sensor_frame := pc_frame_id msg;
     angle_increment :=
       if points_per_scan a <=? 1 then Ieee.zero
       else Ieee.cast Ieee.F32
              (Ieee.div Ieee.F64 (Ieee.sub Ieee.F64 (angle_max a) (angle_min a))
                 (Ieee.of_Z Ieee.F64 (points_per_scan a - 1)));
     time_increment := Ieee.zero;
     scan_time := Ieee.zero;
     range_min := Ieee.cast Ieee.F32 (Ieee.of_bits Ieee.F64 0x3f847ae147ae147b);
     range_max := Ieee.cast Ieee.F32 (object_threshold_max_distance a) |}.

(** [Bank::init(BankArgument, PointCloud2)].  A failed assertion of
    [check_PC2] or of [check] ends the program: [None]. *)
Definition init_pc {libm : LibM} (b : Bank) (a : BankArgument) (msg : PointCloud2)
           (fields : list PointField) (heap : Z -> Z -> float)
           (xyz0 : Z -> float * float * float) : option (Bank * Z) :=
  let a := BankArgument_of_cloud a msg in
  let '(b, result) := getOffsetsAndBytes b a msg fields in
  if negb (result =? 0) then Some (b, -1)
  else if negb (BankArgument_check_PC2 a) then None
  else
    match initBank b a heap with
    | Some b => addFirstMessage_pc b msg xyz0
    | None => None
    end.

(** ** The order of floating-point numbers *)

(** The place of a number in the order of the [double] values: its value
    in units of [2^-1074], or [2^2098] for an infinity; a NaN has none. *)
Definition key64 (x : float) : option Z :=
  match Ieee.cast Ieee.F64 x with
  | S754_nan => None
  | S754_infinity s => Some (cond_Zopp s (2 ^ 2098))
  | y => Some (sval (-1074) y)
  end.

(** ** The candidates of the segmentation *)

(** The candidate [c] holds the least and the greatest range of the
    indices [i], ..., [j-1] of the newest scan, each with an index at
    which it is found. *)
Definition extremes (b : Bank) (i j : Z) (c : Candidate) : Prop :=
  let range := range_at b (bank_index_newest b) in
  (i <= object_range_min_index c < j
   /\ object_range_min c = range (object_range_min_index c)
   /\ forall t, i <= t < j -> Ieee.leb (object_range_min c) (range t) = true)
  /\ (i <= object_range_max_index c < j
      /\ object_range_max c = range (object_range_max_index c)
      /\ forall t, i <= t < j -> Ieee.leb (range t) (object_range_max c) = true).

(** ** The ranges of a slot that receives points *)

(** [b'] differs from [b] in ranges of the slot [bank_index_put] at most,
    and no range that is a value of type [float] has been raised. *)
Definition lowered (b b' : Bank) : Prop :=
  bank_index_put b' = bank_index_put b
  /\ forall level i,
       (level <> bank_index_put b -> range_at b' level i = range_at b level i)
       /\ (valid_binary (Ieee.prec Ieee.F32) (Ieee.emax Ieee.F32) (range_at b level i) = true ->
           valid_binary (Ieee.prec Ieee.F32) (Ieee.emax Ieee.F32) (range_at b' level i) = true
           /\ (range_at b' level i = range_at b level i
               \/ Ieee.leb (range_at b' level i) (range_at b level i) = true)).


(** * Properties *)

(** ** Ring buffer indices *)

Section Indices.

Implicit Types (b : Bank) (msg : LaserScan).

(** The loops that fill a slot change [bank_ranges_ema] only. *)
Lemma with_ranges_id b : with_ranges b (bank_ranges_ema b) = b.
Proof. by destruct b. Qed.

Lemma store_loop_frame {A} (f : Bank -> A -> Bank) (l : list A) b :
  (forall b i, exists r, f b i = with_ranges b r) ->
  exists r, foldl f b l = with_ranges b r.
Proof.
  intros Hf. revert b. induction l as [|i l IH]; intros b; simpl.
  - exists (bank_ranges_ema b). by rewrite with_ranges_id.
  - destruct (Hf b i) as (r & ->).
    destruct (IH (with_ranges b r)) as (r' & ->). by exists r'.
Qed.

(** What [addMessage] does to the configuration, the indices and the
    flag. *)
Lemma addMessage_indices b msg :
  let n := nr_scans_in_bank (bank_argument b) in
  let b' := fst (addMessage b msg) in
  bank_argument b' = bank_argument b
  /\ bank_index_put b' = Z.rem (bank_index_put b + 1) n
  /\ bank_index_newest b' = Z.rem (bank_index_newest b + 1) n
  /\ bank_is_filled b' =
       bank_is_filled b || (bank_index_put b' <? bank_index_newest b').
Proof.
  unfold addMessage. cbv zeta. cbn [fst].
  match goal with
  | |- context [advanceIndex (foldl ?f ?b0 ?l)] =>
      destruct (store_loop_frame f l b0 ltac:(intros; unfold put_range; eauto)) as (r & ->);
      set (bl := with_ranges b0 r)
  end.
  set (ba := advanceIndex bl).
  assert (Hba : bank_argument ba = bank_argument b
                /\ bank_index_put ba
                   = Z.rem (bank_index_put b + 1) (nr_scans_in_bank (bank_argument b))
                /\ bank_index_newest ba
                   = Z.rem (bank_index_newest b + 1) (nr_scans_in_bank (bank_argument b))
                /\ bank_is_filled ba = bank_is_filled b).
  { done. }
  clearbody ba. clear bl.
  destruct Hba as (Ha & Hp & Hn & Hf).
  destruct (bank_index_put ba <? bank_index_newest ba) eqn:Hlt.
  - change (bank_index_put (with_filled ba true)) with (bank_index_put ba).
    change (bank_index_newest (with_filled ba true)) with (bank_index_newest ba).
    change (bank_argument (with_filled ba true)) with (bank_argument ba).
    change (bank_is_filled (with_filled ba true)) with true.
    rewrite Hlt, orb_true_r. done.
  - rewrite Hlt, orb_false_r. done.
Qed.

Lemma addMessage_after_writes k b msg :
  2 <= nr_scans_in_bank (bank_argument b) -> 0 <= k ->
  after_writes k b -> after_writes (k + 1) (fst (addMessage b msg)).
Proof.
  intros Hd Hk (Hn & Hp & Hf).
  destruct (addMessage_indices b msg) as (Ha & Hp' & Hn' & Hf').
  unfold after_writes. rewrite Ha.
  set (n := nr_scans_in_bank (bank_argument b)) in *.
  assert (Hnewest : bank_index_newest (fst (addMessage b msg)) = (k + 1) mod n).
  { rewrite Hn', Hn, Z.rem_mod_nonneg by (pose proof (Z.mod_pos_bound k n); lia).
    rewrite Zplus_mod_idemp_l. done. }
  assert (Hput : bank_index_put (fst (addMessage b msg)) = (k + 1 + 1) mod n).
  { rewrite Hp', Hp, Z.rem_mod_nonneg by (pose proof (Z.mod_pos_bound (k + 1) n); lia).
    rewrite Zplus_mod_idemp_l. done. }
  split; [done|]. split; [done|].
  rewrite Hf', Hf, Hput, Hnewest.
  destruct (Z_lt_le_dec (k + 2) n) as [Hlt | Hge].
  - rewrite !Z.mod_small by lia.
    apply eq_true_iff_eq. rewrite orb_true_iff, !Z.leb_le, Z.ltb_lt. lia.
  - destruct (Z.eq_dec (k + 2) n) as [Heq | Hne].
    + replace (k + 1 + 1) with n by lia. rewrite Z_mod_same_full.
      rewrite Z.mod_small by lia.
      apply eq_true_iff_eq. rewrite orb_true_iff, !Z.leb_le, Z.ltb_lt. lia.
    + apply eq_true_iff_eq. rewrite orb_true_iff, !Z.leb_le, Z.ltb_lt. lia.
Qed.

Lemma writes_argument b msgs : bank_argument (writes b msgs) = bank_argument b.
Proof.
  revert b. induction msgs as [|msg msgs IH]; intros b; [done|].
  change (writes b (msg :: msgs)) with (writes (fst (addMessage b msg)) msgs).
  rewrite IH. by destruct (addMessage_indices b msg) as (-> & _).
Qed.

Lemma writes_after_writes msgs : forall k b,
  2 <= nr_scans_in_bank (bank_argument b) -> 0 <= k ->
  after_writes k b -> after_writes (k + Z.of_nat (length msgs)) (writes b msgs).
Proof.
  induction msgs as [|msg msgs IH]; intros k b Hd Hk Hb.
  - simpl. by rewrite Z.add_0_r.
  - change (writes b (msg :: msgs)) with (writes (fst (addMessage b msg)) msgs).
    replace (k + Z.of_nat (length (msg :: msgs)))
      with (k + 1 + Z.of_nat (length msgs)) by (simpl length; lia).
    apply IH; [|lia|by apply addMessage_after_writes].
    by destruct (addMessage_indices b msg) as (-> & _).
Qed.

Lemma addFirstMessage_after_writes b msg :
  2 <= nr_scans_in_bank (bank_argument b) ->
  after_writes 0 (fst (addFirstMessage b msg)).
Proof.
  intros Hd. unfold after_writes, addFirstMessage; simpl.
  rewrite !Z.mod_small by lia. repeat split; try done.
  symmetry. apply Z.leb_gt. lia.
Qed.

End Indices.

(** C1.  For every depth of at least 2: the first message leaves [put = 1],
    [newest = 0] and the flag [bank_is_filled] unset; after [n] writes in
    all (the first message and [n - 1] calls of [addMessage]) the flag is
    set exactly when [n] has reached the depth, so it is set once, by the
    write number depth, and never reset; that write is the one whose index
    advance leaves [put] below [newest], after every earlier one [newest]
    is below [put]. *)
Theorem filled_at_depth (b : Bank) (msg : LaserScan) (msgs : list LaserScan) :
  let d := nr_scans_in_bank (bank_argument b) in
  let b1 := fst (addFirstMessage b msg) in
  let bn := writes b1 msgs in
  let n := 1 + Z.of_nat (length msgs) in
  2 <= d ->
  (bank_index_put b1 = 1 /\ bank_index_newest b1 = 0 /\ bank_is_filled b1 = false)
  /\ (bank_is_filled bn = true <-> d <= n)
  /\ (n = d -> bank_index_put bn < bank_index_newest bn)
  /\ (n < d -> bank_index_newest bn < bank_index_put bn).
Proof.
  intros d b1 bn n Hd.
  split; [done|].
  assert (Hd1 : 2 <= nr_scans_in_bank (bank_argument b1)) by done.
  pose proof (writes_after_writes msgs 0 b1 Hd1 ltac:(lia)
                (addFirstMessage_after_writes b msg Hd)) as (Hn & Hp & Hf).
  rewrite writes_argument in Hn, Hp, Hf.
  change (nr_scans_in_bank (bank_argument b1)) with d in *.
  fold bn in Hn, Hp, Hf.
  replace (0 + Z.of_nat (length msgs)) with (n - 1) in * by lia.
  replace (n - 1 + 1) with n in * by lia.
  split; [|split].
  - rewrite Hf. apply Z.leb_le.
  - intros ->. rewrite Hn, Hp, Z_mod_same_full, Z.mod_small by lia. lia.
  - intros Hlt. rewrite Hn, Hp, !Z.mod_small by lia. lia.
Qed.

Lemma filled_at_depth_witness :
  let b := Bank_new true in
  let msg := scan_of [Ieee.of_Z Ieee.F32 1] in
  2 <= nr_scans_in_bank (bank_argument b)
  /\ bank_is_filled (writes (fst (addFirstMessage b msg)) (replicate 10 msg)) = true.
Proof.
  split; [vm_compute; discriminate|].
  apply (filled_at_depth (Bank_new true) (scan_of [Ieee.of_Z Ieee.F32 1])
           (replicate 10 (scan_of [Ieee.of_Z Ieee.F32 1]))); vm_compute; discriminate.
Defined.

(** ** Point clouds *)

Section Clouds.

Context {libm : LibM}.
Implicit Types (b : Bank) (msg : PointCloud2) (xyz : Z -> float * float * float).

Lemma resetPutPoints_frame b : exists r, resetPutPoints b = with_ranges b r.
Proof. apply store_loop_frame. intros; unfold put_range; eauto. Qed.

Lemma fill_point_frame b x y z : exists r, fill_point b x y z = with_ranges b r.
Proof.
  apply store_loop_frame. intros b' p.
  destruct (Ieee.ltb _ _); [unfold put_range; eauto|].
  exists (bank_ranges_ema b'). by rewrite with_ranges_id.
Qed.

Lemma emaPutMessage_frame b : exists r, emaPutMessage b = with_ranges b r.
Proof.
  unfold emaPutMessage. destruct (Ieee.ltb _ _).
  - apply store_loop_frame. intros; unfold put_range; eauto.
  - exists (bank_ranges_ema b). by rewrite with_ranges_id.
Qed.

Lemma put_point_step msg xyz b n (o : Z * Z) :
  exists r,
    put_point msg xyz (b, n) o
    = (with_ranges b r, if in_z_band b msg xyz o then C.u32 (n + 1) else n)
    /\ (in_z_band b msg xyz o = false -> with_ranges b r = b).
Proof.
  unfold put_point, in_z_band. destruct o as [nr offset]. cbn [fst snd].
  destruct (readPoint b (pc_data msg) offset (must_reverse b msg) (xyz nr)) as [[x y] z].
  destruct (outside_z_band b z); cbn [negb].
  - exists (bank_ranges_ema b). by rewrite with_ranges_id.
  - destruct (fill_point_frame b x y z) as (r & ->). by exists r.
Qed.

Lemma put_point_loop msg xyz (offsets : list (Z * Z)) : forall b n,
  exists r,
    foldl (put_point msg xyz) (b, n) offsets
    = (with_ranges b r, if decide (accepted b msg xyz offsets = 0) then n
                        else C.u32 (n + accepted b msg xyz offsets))
    /\ (accepted b msg xyz offsets = 0 -> with_ranges b r = b).
Proof.
  induction offsets as [|o offsets IH]; intros b n.
  - exists (bank_ranges_ema b). rewrite with_ranges_id. done.
  - cbn [foldl]. unfold accepted. cbn [List.filter].
    destruct (put_point_step msg xyz b n o) as (r1 & -> & Hsame).
    destruct (in_z_band b msg xyz o) eqn:Hband.
    + destruct (IH (with_ranges b r1) (C.u32 (n + 1))) as (r & -> & _).
      exists r. split; [|cbn [length]; lia].
      change (accepted (with_ranges b r1) msg xyz offsets)
        with (accepted b msg xyz offsets).
      unfold accepted. cbn [length].
      rewrite (decide_False (P := Z.of_nat (S _) = 0)) by lia.
      f_equal. case_decide as Hz.
      * f_equal. lia.
      * unfold C.u32. rewrite Zplus_mod_idemp_l. f_equal. lia.
    + rewrite Hsame by done. apply IH.
Qed.

(** What [addMessage(PointCloud2)] returns and does to the indices. *)
Lemma records_length (offsets : list Z) : length (records offsets) = length offsets.
Proof. apply length_imap. Qed.

Lemma addMessage_pc_cases b msg xyz (offsets : list Z) :
  point_offsets msg = Some offsets ->
  accepted b msg xyz (records offsets) < 2 ^ 32 ->
  let n := nr_scans_in_bank (bank_argument b) in
  let stamped :=
    with_stamp b (C.set (bank_stamp b) (bank_index_put b) (pc_stamp msg)) in
  exists b' r,
    addMessage_pc b msg xyz = Some (b', r)
    /\ bank_argument b' = bank_argument b
    /\ ((accepted b msg xyz (records offsets) = 0 /\ r = -1 /\ b' = resetPutPoints stamped)
        \/ (accepted b msg xyz (records offsets) <> 0 /\ r = 0
            /\ bank_index_put b' = Z.rem (bank_index_put b + 1) n
            /\ bank_index_newest b' = Z.rem (bank_index_newest b + 1) n
            /\ bank_is_filled b' =
                 bank_is_filled b || (bank_index_put b' <? bank_index_newest b'))).
Proof.
  intros Hoff Hlt n stamped. unfold addMessage_pc. fold stamped.
  unfold putPoints. rewrite Hoff.
  destruct (resetPutPoints_frame stamped) as (r0 & Hreset). rewrite Hreset.
  destruct (put_point_loop msg xyz (records offsets) (with_ranges stamped r0) 0)
    as (r1 & -> & Hsame).
  change (accepted (with_ranges stamped r0) msg xyz (records offsets))
    with (accepted b msg xyz (records offsets)) in *.
  assert (Hacc : 0 <= accepted b msg xyz (records offsets)) by (unfold accepted; lia).
  case_decide as Hz.
  - rewrite Hsame by done. cbn [Z.eqb]. eexists _, _. split; [done|]. split; [done|].
    left. done.
  - rewrite Z.add_0_l. unfold C.u32. rewrite Z.mod_small by lia.
    destruct (accepted b msg xyz (records offsets) =? 0) eqn:E; [apply Z.eqb_eq in E; lia|].
    destruct (emaPutMessage_frame (with_ranges (with_ranges stamped r0) r1)) as (r2 & ->).
    cbn [with_ranges bank_argument].
    set (ba := advanceIndex _).
    assert (Hba : bank_argument ba = bank_argument b
                  /\ bank_index_put ba = Z.rem (bank_index_put b + 1) n
                  /\ bank_index_newest ba = Z.rem (bank_index_newest b + 1) n
                  /\ bank_is_filled ba = bank_is_filled b) by done.
    clearbody ba. destruct Hba as (Ha & Hp & Hn & Hf).
    eexists _, _. split; [done|].
    destruct (bank_index_put ba <? bank_index_newest ba) eqn:Hcmp.
    + change (bank_index_put (with_filled ba true)) with (bank_index_put ba).
      change (bank_index_newest (with_filled ba true)) with (bank_index_newest ba).
      change (bank_argument (with_filled ba true)) with (bank_argument ba).
      change (bank_is_filled (with_filled ba true)) with true.
      rewrite Hcmp, orb_true_r. split; [done|]. right. done.
    + rewrite Hcmp, orb_false_r. split; [done|]. right. done.
Qed.

End Clouds.

(** C6.  [addMessage(PointCloud2)] returns the failure code -1 if and only
    if no point record of the message has a z-coordinate that passes the
    z-band check; it then leaves [bank_index_put], [bank_index_newest] and
    [bank_is_filled] as they were, and the bank is the one that
    [resetPutPoints] left: no smoothing and no index advance has taken
    place.  [offsets] are the offsets of the point records that
    [putPoints] visits, fewer than [2^32] of them, [records offsets] the
    records with the number of the iteration that reads each, and [xyz]
    the content of the uninitialised locals in each iteration. *)
Theorem cloud_without_points {libm : LibM} (b : Bank) (msg : PointCloud2)
        (xyz : Z -> float * float * float) (offsets : list Z) :
  point_offsets msg = Some offsets ->
  Z.of_nat (length offsets) < 2 ^ 32 ->
  exists b' r,
    addMessage_pc b msg xyz = Some (b', r)
    /\ (r = -1 \/ r = 0)
    /\ (r = -1 <-> List.filter (in_z_band b msg xyz) (records offsets) = [])
    /\ (r = -1 ->
        bank_index_put b' = bank_index_put b
        /\ bank_index_newest b' = bank_index_newest b
        /\ bank_is_filled b' = bank_is_filled b
        /\ b' = resetPutPoints
                  (with_stamp b (C.set (bank_stamp b) (bank_index_put b) (pc_stamp msg)))).
Proof.
  intros Hoff Hlen.
  assert (Hacc : accepted b msg xyz (records offsets) < 2 ^ 32).
  { unfold accepted.
    pose proof (List.filter_length_le (in_z_band b msg xyz) (records offsets)) as Hle.
    rewrite records_length in Hle. lia. }
  destruct (addMessage_pc_cases b msg xyz offsets Hoff Hacc) as (b' & r & Hrun & _ & Hcases).
  exists b', r. split; [done|].
  assert (Hnil : accepted b msg xyz (records offsets) = 0
                 <-> List.filter (in_z_band b msg xyz) (records offsets) = []).
  { unfold accepted. destruct (List.filter _ _); cbn [length]; split; (done || lia). }
  destruct Hcases as [(Hz & -> & ->) | (Hnz & -> & _)].
  - split; [by left|]. split; [by rewrite <- Hnil|]. intros _.
    destruct (resetPutPoints_frame
                (with_stamp b (C.set (bank_stamp b) (bank_index_put b) (pc_stamp msg))))
      as (r0 & Hr0).
    rewrite Hr0 at 1 2 3. done.
  - split; [by right|]. split; [|done].
    split; [done|]. intros Hempty. by apply Hnil in Hempty.
Qed.

Lemma cloud_without_points_witness :
  let msg := cloud_of [0x00; 0x00; 0x20; 0x41] in
  point_offsets msg = Some [0]
  /\ Z.of_nat (length [0]) < 2 ^ 32
  /\ exists b' r,
       addMessage_pc (libm := libm_example) cloud_bank msg (fun _ => (Ieee.nan, Ieee.nan, Ieee.nan))
       = Some (b', r).
Proof.
  split; [reflexivity|]. split; [reflexivity|].
  destruct (cloud_without_points (libm := libm_example) cloud_bank
              (cloud_of [0x00; 0x00; 0x20; 0x41]) (fun _ => (Ieee.nan, Ieee.nan, Ieee.nan)) [0]
              eq_refl eq_refl) as (b' & r & Hrun & _).
  exists b', r. exact Hrun.
Defined.

(** ** The index invariant *)

Lemma check_depth (a : BankArgument) :
  BankArgument_check a = true -> 2 <= nr_scans_in_bank a.
Proof.
  unfold BankArgument_check. rewrite !andb_true_iff.
  intros Hc.
  repeat match goal with Hc : _ /\ _ |- _ => destruct Hc end.
  match goal with Hd : (2 <=? _) = true |- _ => by apply Z.leb_le in Hd end.
Qed.

Lemma index_invariant_advance (n put newest put' newest' : Z) :
  2 <= n ->
  put = (newest + 1) mod n -> 0 <= newest < n ->
  put' = Z.rem (put + 1) n -> newest' = Z.rem (newest + 1) n ->
  put' = (newest' + 1) mod n /\ 0 <= put' < n /\ 0 <= newest' < n.
Proof.
  intros Hn Hput Hnewest -> ->.
  pose proof (Z.mod_pos_bound (newest + 1) n ltac:(lia)).
  rewrite !Z.rem_mod_nonneg by lia. rewrite <- Hput.
  pose proof (Z.mod_pos_bound (put + 1) n ltac:(lia)). lia.
Qed.

Lemma index_invariant_spec (b : Bank) :
  index_invariant b = true <->
  let n := nr_scans_in_bank (bank_argument b) in
  bank_index_put b = (bank_index_newest b + 1) mod n
  /\ 0 <= bank_index_put b < n /\ 0 <= bank_index_newest b < n.
Proof.
  unfold index_invariant. cbv zeta.
  rewrite !andb_true_iff, Z.eqb_eq, !Z.leb_le, !Z.ltb_lt. tauto.
Qed.

(** C10.  In a bank whose configuration passed [BankArgument::check], from
    the first message (which calls [initIndex]) on and after every later
    [addMessage], of a laser scan or of a point cloud,
    [bank_index_put = (bank_index_newest + 1) mod nr_scans_in_bank] and
    both indices lie in [[0, nr_scans_in_bank)]. *)
Theorem index_invariant_maintained {libm : LibM} (b0 b : Bank) :
  BankArgument_check (bank_argument b0) = true ->
  in_service b0 b ->
  index_invariant b = true.
Proof.
  intros Hcheck%check_depth Hserv.
  enough (bank_argument b = bank_argument b0 /\ index_invariant b = true) by tauto.
  induction Hserv as [msg | msg xyz b Hfirst | b msg Hserv [Ha IH]
                     | b msg xyz b' r Hserv [Ha IH] Hnext].
  - split; [done|]. apply index_invariant_spec. cbn.
    rewrite Z.mod_small by lia. lia.
  - unfold addFirstMessage_pc in Hfirst.
    destruct (putPoints _ _ _) as [[b1 added]|] eqn:Hput; [|done].
    unfold putPoints in Hput. destruct (point_offsets msg) as [offsets|]; [|done].
    destruct (resetPutPoints_frame
                (with_indices (with_stamp b0 (C.set (bank_stamp b0) 0 (pc_stamp msg)))
                   0 (bank_index_newest
                        (with_stamp b0 (C.set (bank_stamp b0) 0 (pc_stamp msg))))))
      as (r0 & Hr0).
    rewrite Hr0 in Hput.
    match type of Hput with
    | Some (foldl _ (?bb, _) _) = _ =>
        destruct (put_point_loop msg xyz (records offsets) bb 0) as (r1 & Hloop & _)
    end.
    rewrite Hloop in Hput. injection Hput as <- _.
    destruct (added =? 0); [done|]. injection Hfirst as <-.
    split; [done|]. apply index_invariant_spec. cbn.
    rewrite Z.mod_small by lia. lia.
  - destruct (addMessage_indices b msg) as (Ha' & Hp & Hn & _).
    split; [congruence|]. apply index_invariant_spec. cbv zeta.
    apply index_invariant_spec in IH. cbv zeta in IH.
    rewrite Ha', Ha in *.
    eapply index_invariant_advance; [done|apply IH|apply IH|done|done].
  - assert (Hoff : exists offsets, point_offsets msg = Some offsets).
    { unfold addMessage_pc, putPoints in Hnext.
      destruct (point_offsets msg); [eauto|done]. }
    destruct Hoff as (offsets & Hoff).
    apply index_invariant_spec in IH. cbv zeta in IH. rewrite Ha in IH.
    unfold addMessage_pc in Hnext.
    set (stamped := with_stamp b _) in Hnext.
    destruct (resetPutPoints_frame stamped) as (r0 & Hr0). rewrite Hr0 in Hnext.
    unfold putPoints in Hnext. rewrite Hoff in Hnext.
    destruct (put_point_loop msg xyz (records offsets) (with_ranges stamped r0) 0) as (r1 & Hloop & _).
    rewrite Hloop in Hnext.
    destruct (_ =? 0).
    + injection Hnext as <- _. split; [done|].
      apply index_invariant_spec. cbn. rewrite Ha. done.
    + destruct (emaPutMessage_frame (with_ranges (with_ranges stamped r0) r1)) as (r2 & Hr2).
      rewrite Hr2 in Hnext.
      set (ba := advanceIndex _) in Hnext.
      assert (Hba : bank_argument ba = bank_argument b
                    /\ bank_index_put ba
                       = Z.rem (bank_index_put b + 1) (nr_scans_in_bank (bank_argument b))
                    /\ bank_index_newest ba
                       = Z.rem (bank_index_newest b + 1) (nr_scans_in_bank (bank_argument b)))
        by done.
      clearbody ba. destruct Hba as (Ha' & Hp & Hn).
      assert (Hb' : bank_argument b' = bank_argument ba
                    /\ bank_index_put b' = bank_index_put ba
                    /\ bank_index_newest b' = bank_index_newest ba).
      { destruct (bank_index_put ba <? bank_index_newest ba);
          injection Hnext as <- _; done. }
      destruct Hb' as (Hab & Hpb & Hnb).
      split; [congruence|]. apply index_invariant_spec. cbv zeta.
      rewrite Hab, Hpb, Hnb, Ha', Ha in *.
      eapply index_invariant_advance; [done|apply IH|apply IH|done|done].
Qed.

Lemma index_invariant_maintained_witness :
  let b0 := Bank_new true in
  let msg := scan_of [Ieee.of_Z Ieee.F32 1] in
  BankArgument_check (bank_argument b0) = true
  /\ index_invariant (fst (addMessage (fst (addFirstMessage b0 msg)) msg)) = true.
Proof.
  split; [reflexivity|].
  apply (index_invariant_maintained (libm := libm_example) (Bank_new true)).
  - reflexivity.
  - apply next_scan, first_scan.
Defined.

(** ** Comparisons of IEEE values *)

Lemma SFcompare_antisym (x y : float) :
  SFcompare y x = option_map CompOpp (SFcompare x y).
Proof.
  destruct x as [sx|sx| |sx mx ex], y as [sy|sy| |sy my ey]; simpl; try done;
    try (by destruct sx); try (by destruct sy); try (by destruct sx, sy).
  destruct sx, sy; simpl; try done; f_equal;
    rewrite (Z.compare_antisym ey ex); destruct (ey ?= ex); simpl; try done.
  - f_equal. symmetry. apply (Pos.compare_cont_antisym mx my Eq).
  - symmetry. apply (Pos.compare_cont_antisym mx my Eq).
Qed.

Lemma ltb_not_leb (x y : float) : Ieee.ltb x y = true -> Ieee.leb y x = false.
Proof.
  unfold Ieee.ltb, Ieee.leb, SFltb, SFleb.
  rewrite (SFcompare_antisym (Ieee.cast Ieee.F64 x) (Ieee.cast Ieee.F64 y)).
  by destruct (SFcompare _ _) as [[]|].
Qed.

Lemma leb_not_ltb (x y : float) : Ieee.leb x y = true -> Ieee.ltb y x = false.
Proof.
  unfold Ieee.ltb, Ieee.leb, SFltb, SFleb.
  rewrite (SFcompare_antisym (Ieee.cast Ieee.F64 x) (Ieee.cast Ieee.F64 y)).
  by destruct (SFcompare _ _) as [[]|].
Qed.

(** ** The tracker *)

Section Tracker.

Implicit Types (b : Bank) (a : TrackCall) (o : OldIndices).

(** The recursion returns what the call it has walked to returns. *)
Lemma getOldIndices_walk (k : nat) : forall b a0 o0 a o o' (extra : nat),
  walk k b a0 o0 = Some (a, o) ->
  getOldIndices_body b a o = Return o' ->
  getOldIndices (S k + extra) b a0 o0 = Some o'.
Proof.
  induction k as [|k IH]; intros b a0 o0 a o o' extra Hwalk Hret.
  - injection Hwalk as -> ->. simpl. by rewrite Hret.
  - simpl in Hwalk. change (S (S k) + extra)%nat with (S (S k + extra)).
    cbn [getOldIndices]. destruct (getOldIndices_body b a0 o0) as [|a1 o1]; [done|].
    by eapply IH.
Qed.

(** With a tolerance of zero misses, a call that recurses has accepted
    its object and passes on a miss counter of zero. *)
Lemma recurse_no_tolerance b a o a' o' :
  threshold_consecutive_failures_to_find_object a = 0 ->
  consecutive_failures_to_find_object a = 0 ->
  getOldIndices_body b a o = Recurse a' o' ->
  threshold_consecutive_failures_to_find_object a' = 0
  /\ consecutive_failures_to_find_object a' = 0
  /\ levels_searched a <> C.u32 (nr_scans_in_bank (bank_argument b))
  /\ levels_searched a' = C.u32 (levels_searched a + 1)
  /\ outside_range b a = false
  /\ object_rejected b a (range_sum_old o) = false.
Proof.
  intros Hthr Hmiss. unfold getOldIndices_body.
  destruct (levels_searched a =? _) eqn:Hbase; [done|].
  destruct (outside_range b a); [done|].
  destruct (object_rejected b a (range_sum_old o)).
  - rewrite Hthr, Hmiss. done.
  - cbn [andb]. intros [= <- <-]. cbn.
    apply Z.eqb_neq in Hbase. done.
Qed.

Lemma walk_no_tolerance (k : nat) : forall b a0 o0 a o,
  threshold_consecutive_failures_to_find_object a0 = 0 ->
  consecutive_failures_to_find_object a0 = 0 ->
  walk k b a0 o0 = Some (a, o) ->
  threshold_consecutive_failures_to_find_object a = 0
  /\ consecutive_failures_to_find_object a = 0.
Proof.
  induction k as [|k IH]; intros b a0 o0 a o Hthr Hmiss Hwalk.
  - by injection Hwalk as <- <-.
  - simpl in Hwalk.
    destruct (getOldIndices_body b a0 o0) as [|a1 o1] eqn:Hbody; [done|].
    destruct (recurse_no_tolerance b a0 o0 a1 o1 Hthr Hmiss Hbody) as (Hthr1 & Hmiss1 & _).
    by eapply IH.
Qed.

(** The walk counts the levels up, one by one, and does not pass
    [nr_scans_in_bank]. *)
Lemma walk_levels (k : nat) : forall b a0 o0 a o,
  let d := nr_scans_in_bank (bank_argument b) in
  0 <= d < 2 ^ 32 ->
  0 <= levels_searched a0 <= d ->
  walk k b a0 o0 = Some (a, o) ->
  levels_searched a = levels_searched a0 + Z.of_nat k /\ levels_searched a <= d.
Proof.
  induction k as [|k IH]; intros b a0 o0 a o d Hd Hl Hwalk.
  - injection Hwalk as <- <-. lia.
  - simpl in Hwalk.
    destruct (getOldIndices_body b a0 o0) as [|a1 o1] eqn:Hbody; [done|].
    unfold getOldIndices_body in Hbody.
    destruct (levels_searched a0 =? _) eqn:Hbase; [done|].
    apply Z.eqb_neq in Hbase. fold d in Hbase.
    unfold C.u32 in Hbase. rewrite Z.mod_small in Hbase by lia.
    assert (Hl1 : levels_searched a1 = levels_searched a0 + 1).
    { destruct (outside_range b a0); [done|].
      destruct (_ && _); [done|]. injection Hbody as <- _. cbn.
      unfold C.u32. rewrite Z.mod_small; lia. }
    destruct (IH b a1 o1 a o Hd ltac:(lia) Hwalk) as (-> & ?). lia.
Qed.

End Tracker.

(** With the miss tolerance 0 of the call site: when the walk of the
    tracker has come to a level (a call that is not the base case, after
    any number [k] of accepted levels) at which the test of the code
    rejects the re-expanded object, the tracker returns with -1 in the
    index outputs, however many slots are left. *)
Lemma rejected_object_gives_up (b : Bank) (i : Z) (c : Candidate)
      (k : nat) (a : TrackCall) (o : OldIndices) :
  1 <= nr_scans_in_bank (bank_argument b) < 2 ^ 31 ->
  walk k b (track_call b i c) (track_start c) = Some (a, o) ->
  levels_searched a <> nr_scans_in_bank (bank_argument b) ->
  object_rejected b a (range_sum_old o) = true ->
  track b i c = Some not_found.
Proof.
  intros Hd Hwalk Hlevel Hrej.
  destruct (walk_no_tolerance k b (track_call b i c) (track_start c) a o
              eq_refl eq_refl Hwalk) as (Hthr & Hmiss).
  destruct (walk_levels k b (track_call b i c) (track_start c) a o
              ltac:(lia) ltac:(cbn; lia) Hwalk) as (Hl & Hle).
  cbn in Hl.
  assert (Hret : getOldIndices_body b a o = Return not_found).
  { unfold getOldIndices_body.
    destruct (levels_searched a =? _) eqn:Hbase.
    { apply Z.eqb_eq in Hbase. unfold C.u32 in Hbase.
      rewrite Z.mod_small in Hbase by lia. done. }
    destruct (outside_range b a); [done|].
    rewrite Hrej, Hthr, Hmiss. done. }
  unfold track.
  replace (Z.to_nat (nr_scans_in_bank (bank_argument b)))
    with (S k + (Z.to_nat (nr_scans_in_bank (bank_argument b)) - S k))%nat by lia.
  by eapply getOldIndices_walk.
Qed.

(** The test of the code on the bounds of the specification: the two
    bounds on the width as they are, the bound on the mean range as
    "the tolerance is less than the difference". *)
Lemma object_rejected_bounds (b : Bank) (a : TrackCall) (sum_old : float) :
  object_rejected b a sum_old
  = width_violated b a
    || Ieee.ltb (object_threshold_bank_tracking_max_delta_distance (bank_argument b))
         (mean_range_difference b a sum_old).
Proof.
  unfold object_rejected, width_violated, mean_range_difference. cbv zeta.
  f_equal. rewrite negb_andb, <- !Z.ltb_antisym. done.
Qed.

(** C3, counterexample.  The default configuration with objects of one
    point and more has seen ten scans of the example bank and then one
    with a NaN at index 3.  The report comes to index 3 of the newest
    scan, where the candidate is the NaN alone, and calls the tracker
    for it.  In the slot before, the object re-expanded from index 3 has
    the five points at 2 m; its mean range, 2, against the mean range
    NaN of the candidate gives the difference NaN, which is not at most
    the tolerance 0.2: the bound on the mean range is violated at this
    level.  The tracker goes on all the same and returns the object of
    the oldest scan, indices 1, 3 and 5. *)
Lemma nan_mean_range_is_accepted :
  let arg := with_min_nr_points BankArgument_default 1 in
  let b := nan_bank in
  let c := candidate_at b 3 in
  let a := track_call b 3 c in
  let o := track_start c in
  bank_of_scans arg nan_scans = Some b
  /\ (exists s1 s2,
        scan_step (libm := libm_example) (listener := listener_example)
          (scorer := confidence_example) b
          {| scan_i := 0; nr_objects_found := 0; moa_objects := [] |} = Some s1
        /\ scan_step (libm := libm_example) (listener := listener_example)
             (scorer := confidence_example) b s1 = Some s2
        /\ scan_i s2 = 3)
  /\ out_of_range b (range_at b (bank_index_newest b) 3) = false
  /\ nr_object_points c = 1
  /\ object_threshold_min_nr_points (bank_argument b) = 1
  /\ walk 0 b a o = Some (a, o)
  /\ levels_searched a <> nr_scans_in_bank (bank_argument b)
  /\ width_found b a = 5
  /\ mean_range_difference b a (range_sum_old o) = Ieee.nan
  /\ mean_range_violated b a (range_sum_old o) = true
  /\ violates_bounds b a (range_sum_old o) = true
  /\ (exists o', track b 3 c = Some o'
        /\ index_min_old o' = 1 /\ index_mean_old o' = 3 /\ index_max_old o' = 5)
  /\ ~ every_violation_gives_up.
Proof.
  cbv zeta.
  assert (Htrack : exists o', track nan_bank 3 (candidate_at nan_bank 3) = Some o'
            /\ index_min_old o' = 1 /\ index_mean_old o' = 3 /\ index_max_old o' = 5).
  { eexists. split; [vm_compute; reflexivity|]. done. }
  assert (Hviol : violates_bounds nan_bank (track_call nan_bank 3 (candidate_at nan_bank 3))
                    (range_sum_old (track_start (candidate_at nan_bank 3))) = true)
    by (vm_compute; reflexivity).
  split; [vm_compute; reflexivity|].
  split.
  { eexists _, _. split; [vm_compute; reflexivity|].
    split; [vm_compute; reflexivity|]. reflexivity. }
  do 3 (split; [vm_compute; reflexivity|]).
  split; [reflexivity|].
  split; [vm_compute; discriminate|].
  do 3 (split; [vm_compute; reflexivity|]).
  split; [exact Hviol|]. split; [exact Htrack|].
  intros Hclaim.
  destruct Htrack as (o' & Hret & Hmin & _).
  rewrite (Hclaim nan_bank 3 (candidate_at nan_bank 3) 0%nat _ _
             ltac:(vm_compute; split; [discriminate|reflexivity]) eq_refl
             ltac:(vm_compute; discriminate) Hviol) in Hret.
  injection Hret as <-. discriminate Hmin.
Qed.

(** C9, counterexample.  The default configuration has seen eleven scans
    of an object that moves across the scan.  The tracker, called for the
    object in the newest scan, follows it through the ten older slots;
    the call it makes last has reached the base case, its slot is the
    newest one again, and the range there at the index it is given, the
    middle of the object in the oldest scan, is the wall at 20 m, above
    [range_max].  The call returns the object of the oldest scan, not
    -1. *)
Lemma base_case_skips_range_check :
  let b := drifting_bank in
  let c := candidate_at b 1 in
  bank_of_scans BankArgument_default drifting_scans = Some b
  /\ (exists a o,
        walk 10 b (track_call b 1 c) (track_start c) = Some (a, o)
        /\ levels_searched a = nr_scans_in_bank (bank_argument b)
        /\ current_level a = bank_index_newest b
        /\ range_at b (current_level a) (index_mean a) = Ieee.of_Z Ieee.F32 20
        /\ outside_range b a = true
        /\ getOldIndices 1 b a o = Some o
        /\ track b 1 c = Some o
        /\ index_min_old o = 6 /\ index_mean_old o = 8 /\ index_max_old o = 10)
  /\ ~ every_call_outside_range_gives_up.
Proof.
  cbv zeta. split; [vm_compute; reflexivity|].
  destruct (walk 10 drifting_bank
              (track_call drifting_bank 1 (candidate_at drifting_bank 1))
              (track_start (candidate_at drifting_bank 1))) as [[a o]|] eqn:Hwalk;
    [|vm_compute in Hwalk; discriminate Hwalk].
  pose proof Hwalk as Hvalue. vm_compute in Hvalue. injection Hvalue as <- <-.
  assert (Hout : outside_range drifting_bank
                   {| t_range_min := report_range_min drifting_bank;
                      t_range_max := report_range_max drifting_bank;
                      object_width_in_points := 5;
                      current_level := 10;
                      levels_searched := 11;
                      index_mean := 8;
                      consecutive_failures_to_find_object := 0;
                      threshold_consecutive_failures_to_find_object := 0 |} = true)
    by (vm_compute; reflexivity).
  split.
  - eexists _, _. split; [reflexivity|]. repeat split; vm_compute; reflexivity.
  - intros Hclaim.
    destruct (Hclaim drifting_bank _
                {| index_min_old := 6; index_mean_old := 8; index_max_old := 10;
                   range_sum_old := Ieee.of_Z Ieee.F32 10;
                   range_at_min_index_old := Ieee.of_Z Ieee.F32 2;
                   range_at_max_index_old := Ieee.of_Z Ieee.F32 2 |} Hout)
      as (o' & Hret & Hmin & _).
    vm_compute in Hret. injection Hret as <-. discriminate Hmin.
Qed.

(** C9, amended.  A call of [getOldIndices] that has reached the base
    case ([levels_searched] equal to [nr_scans_in_bank]) returns at once
    and leaves the output parameters as they are, whatever the range at
    [index_mean] is.  For every other call: when the range at
    [index_mean] of the current slot is below [range_min] or above
    [range_max], the call returns at once, without a recursive call,
    with -1 in [index_min_old], [index_mean_old] and [index_max_old] (and 0
    in the three range outputs), whatever the miss counter and the
    tolerance are. *)
Theorem outside_range_gives_up (b : Bank) (a : TrackCall) (o : OldIndices) (fuel : nat) :
  (levels_searched a = C.u32 (nr_scans_in_bank (bank_argument b)) ->
   getOldIndices_body b a o = Return o
   /\ getOldIndices (S fuel) b a o = Some o)
  /\ (levels_searched a <> C.u32 (nr_scans_in_bank (bank_argument b)) ->
      outside_range b a = true ->
      getOldIndices_body b a o = Return not_found
      /\ getOldIndices (S fuel) b a o = Some not_found
      /\ index_min_old not_found = -1
      /\ index_mean_old not_found = -1
      /\ index_max_old not_found = -1).
Proof.
  split.
  - intros Hbase.
    assert (Hbody : getOldIndices_body b a o = Return o).
    { unfold getOldIndices_body. apply Z.eqb_eq in Hbase. by rewrite Hbase. }
    split; [done|]. cbn [getOldIndices]. by rewrite Hbody.
  - intros Hlevel Hout.
    assert (Hbody : getOldIndices_body b a o = Return not_found).
    { unfold getOldIndices_body.
      apply Z.eqb_neq in Hlevel. by rewrite Hlevel, Hout. }
    split; [done|]. split; [|done].
    cbn [getOldIndices]. by rewrite Hbody.
Qed.

(** In the example bank with the pierced slot 5, the fifth call of the
    walk from the object at index 1 finds 20 m at its index and gives
    up. *)
Lemma outside_range_gives_up_witness :
  let b := example_bank_with 5 pierced_slot in
  let c := candidate_at b 1 in
  walk 5 b (track_call b 1 c) (track_start c) = Some (call_at b 1 c 5, outputs_at b 1 c 5)
  /\ getOldIndices 1 b (call_at b 1 c 5) (outputs_at b 1 c 5) = Some not_found.
Proof.
  split; [vm_compute; reflexivity|].
  refine (proj1 (proj2 (proj2 (outside_range_gives_up (example_bank_with 5 pierced_slot)
                                 (call_at (example_bank_with 5 pierced_slot) 1
                                    (candidate_at (example_bank_with 5 pierced_slot) 1) 5)
                                 (outputs_at (example_bank_with 5 pierced_slot) 1
                                    (candidate_at (example_bank_with 5 pierced_slot) 1) 5)
                                 0) _ _))).
  - vm_compute. discriminate.
  - vm_compute. reflexivity.
Defined.

(** ** The tracker on an object that stays in place *)

Section SameSegment.

Variables (b : Bank) (a : TrackCall) (lo hi : Z).

Local Abbreviation r := (range_at b (current_level a)).
Local Abbreviation delta := (object_threshold_edge_max_delta_range (bank_argument b)).

Hypothesis Hseg : segment_at b (t_range_min a) (t_range_max a) (current_level a) lo hi.

Lemma segment_continues_down (k : Z) :
  lo <= k < hi -> continues (t_range_min a) (t_range_max a) delta (r (k + 1)) (r k) = true.
Proof.
  intros Hk. destruct Hseg as (_ & _ & _ & Hin & Hedge & _).
  unfold continues.
  rewrite (Hin k) by lia. by rewrite (proj1 (Hedge k Hk)).
Qed.

Lemma segment_continues_up (k : Z) :
  lo <= k < hi -> continues (t_range_min a) (t_range_max a) delta (r k) (r (k + 1)) = true.
Proof.
  intros Hk. destruct Hseg as (_ & _ & _ & Hin & Hedge & _).
  unfold continues.
  rewrite (Hin (k + 1)) by lia. by rewrite (proj2 (Hedge k Hk)).
Qed.

(** The search of the lower side, started anywhere in the object, ends at
    [lo]. *)
Lemma search_lower_segment (n : nat) : forall (i : Z) (s : Search),
  lo - 1 <= i < hi -> i < Z.of_nat n ->
  s_end s = i + 1 -> s_prev_range s = r (i + 1) ->
  search_lower n b a i s
  = {| s_end := lo;
       s_prev_range := r lo;
       s_range_sum := foldl (Ieee.add Ieee.F32) (s_range_sum s)
                        (r <$> reverse (seqZ lo (i + 1 - lo))) |}.
Proof.
  induction n as [|n IH]; intros i s Hi Hn Hend Hprev.
  - assert (i = lo - 1) as -> by (destruct Hseg; lia).
    replace (lo - 1 + 1 - lo) with 0 by lia. cbn.
    destruct s; cbn in *. f_equal; [lia|]. rewrite Hprev. f_equal. lia.
  - cbn [search_lower]. destruct (Z.eq_dec i (lo - 1)) as [-> | Hne].
    + replace (lo - 1 + 1 - lo) with 0 by lia. cbn [seqZ reverse fmap foldl].
      replace (lo - 1 + 1) with lo in * by lia.
      destruct (0 <=? lo - 1) eqn:E.
      * apply Z.leb_le in E.
        destruct Hseg as (_ & _ & _ & _ & _ & Hleft & _).
        rewrite Hprev. rewrite Hleft by lia.
        destruct s; cbn in *. by rewrite Hend, Hprev.
      * destruct s; cbn in *. by rewrite Hend, Hprev.
    + assert (Hnonneg : (0 <=? i) = true) by (apply Z.leb_le; destruct Hseg; lia).
      rewrite Hnonneg, Hprev.
      rewrite segment_continues_down by lia.
      rewrite IH; [| lia | lia | cbn; lia | cbn; f_equal; lia ].
      cbn [s_range_sum]. f_equal.
      replace (i + 1 - lo) with (i - lo + 1) by lia.
      rewrite seqZ_app by lia. rewrite reverse_app. cbn.
      replace (lo + (i - lo)) with i by lia.
      replace (i - 1 + 1 - lo) with (i - lo) by lia. done.
Qed.

(** The search of the higher side ends at [hi]. *)
Lemma search_higher_segment (n : nat) : forall (i : Z) (s : Search),
  lo < i <= hi + 1 -> points_per_scan (bank_argument b) - i <= Z.of_nat n ->
  s_end s = i - 1 -> s_prev_range s = r (i - 1) ->
  search_higher n b a i s
  = {| s_end := hi;
       s_prev_range := r hi;
       s_range_sum := foldl (Ieee.add Ieee.F32) (s_range_sum s)
                        (r <$> seqZ i (hi + 1 - i)) |}.
Proof.
  induction n as [|n IH]; intros i s Hi Hn Hend Hprev.
  - assert (i = hi + 1) as -> by (destruct Hseg as (? & ? & ? & _); lia).
    replace (hi + 1 - (hi + 1)) with 0 by lia. cbn.
    destruct s; cbn in *. f_equal; [lia|]. rewrite Hprev. f_equal. lia.
  - cbn [search_higher]. destruct (Z.eq_dec i (hi + 1)) as [-> | Hne].
    + replace (hi + 1 - (hi + 1)) with 0 by lia. cbn [seqZ fmap foldl].
      replace (hi + 1 - 1) with hi in * by lia.
      destruct (hi + 1 <? points_per_scan (bank_argument b)) eqn:E.
      * apply Z.ltb_lt in E.
        destruct Hseg as (_ & _ & _ & _ & _ & _ & Hright).
        rewrite Hprev. rewrite Hright by lia.
        destruct s; cbn in *. by rewrite Hend, Hprev.
      * destruct s; cbn in *. by rewrite Hend, Hprev.
    + assert (Hlt : (i <? points_per_scan (bank_argument b)) = true).
      { apply Z.ltb_lt. destruct Hseg as (? & ? & ? & _). lia. }
      rewrite Hlt, Hprev.
      replace (r i) with (r (i - 1 + 1)) by (f_equal; lia).
      rewrite segment_continues_up by lia.
      replace (i - 1 + 1) with i by lia.
      rewrite IH; [| lia | lia | cbn; lia | cbn; f_equal; lia ].
      cbn [s_range_sum]. f_equal.
      replace (hi + 1 - i) with (Z.succ (hi - i)) by lia.
      rewrite (seqZ_cons i) by lia. cbn.
      replace (Z.succ i) with (i + 1) by lia.
      replace (Z.pred (Z.succ (hi - i))) with (hi + 1 - (i + 1)) by lia. done.
Qed.

End SameSegment.

Lemma s32_u32 (z : Z) : - 2 ^ 31 <= z < 2 ^ 31 -> C.s32 (C.u32 z) = z.
Proof.
  intros Hz. unfold C.s32, C.u32.
  rewrite Zplus_mod_idemp_l. rewrite Z.mod_small by lia. lia.
Qed.

Lemma s32_small (z : Z) : - 2 ^ 31 <= z < 2 ^ 31 -> C.s32 z = z.
Proof. intros Hz. unfold C.s32. rewrite Z.mod_small by lia. lia. Qed.

Lemma u32_small (z : Z) : 0 <= z < 2 ^ 32 -> C.u32 z = z.
Proof. intros Hz. unfold C.u32. by rewrite Z.mod_small. Qed.

(** A call at a slot that holds the object accepts it and goes on to the
    slot before. *)
Lemma body_same_segment (b : Bank) (a : TrackCall) (o : OldIndices) (lo hi : Z) :
  let arg := bank_argument b in
  segment_at b (t_range_min a) (t_range_max a) (current_level a) lo hi ->
  index_mean a = Z.quot (lo + hi) 2 ->
  object_width_in_points a = hi - lo + 1 ->
  levels_searched a <> C.u32 (nr_scans_in_bank arg) ->
  points_per_scan arg < 2 ^ 31 ->
  0 <= object_threshold_min_nr_points arg <= hi - lo + 1 ->
  0 <= object_threshold_max_delta_width_in_points arg ->
  mean_range_close b (hi - lo + 1) (range_sum_old o)
    (tracker_sum b (current_level a) lo hi (Z.quot (lo + hi) 2)) = true ->
  getOldIndices_body b a o
  = Recurse
      {| t_range_min := t_range_min a;
         t_range_max := t_range_max a;
         object_width_in_points := hi - lo + 1;
         current_level := older_level b (current_level a);
         levels_searched := C.u32 (levels_searched a + 1);
         index_mean := Z.quot (lo + hi) 2;
         consecutive_failures_to_find_object := 0;
         threshold_consecutive_failures_to_find_object :=
           threshold_consecutive_failures_to_find_object a |}
      (found_at b (current_level a) lo hi).
Proof.
  intros arg Hseg Hmean Hwidth Hlevel Hpps Hmin Hdelta Hclose.
  pose proof Hseg as (Hlo & Hlohi & Hhi & Hin & _).
  assert (Hm : lo <= Z.quot (lo + hi) 2 <= hi).
  { rewrite Z.quot_div_nonneg by lia. split.
    - apply Z.div_le_lower_bound; lia.
    - apply Z.div_le_upper_bound; lia. }
  fold arg in Hhi.
  assert (Hlower : lower_side b a
                   = {| s_end := lo;
                        s_prev_range := range_at b (current_level a) lo;
                        s_range_sum :=
                          foldl (Ieee.add Ieee.F32)
                            (range_at b (current_level a) (Z.quot (lo + hi) 2))
                            (range_at b (current_level a)
                               <$> reverse (seqZ lo (Z.quot (lo + hi) 2 - lo))) |}).
  { unfold lower_side. rewrite Hmean.
    rewrite (s32_u32 (Z.quot (lo + hi) 2 - 1)) by lia.
    rewrite (s32_small (Z.quot (lo + hi) 2)) by lia.
    rewrite (search_lower_segment b a lo hi Hseg) by (cbn; first [lia | f_equal; lia]).
    cbn [s_range_sum].
    replace (Z.quot (lo + hi) 2 - 1 + 1 - lo) with (Z.quot (lo + hi) 2 - lo) by lia. done. }
  assert (Hhigher : higher_side b a
                    = {| s_end := hi;
                         s_prev_range := range_at b (current_level a) hi;
                         s_range_sum :=
                           tracker_sum b (current_level a) lo hi (Z.quot (lo + hi) 2) |}).
  { unfold higher_side. rewrite Hlower, Hmean. cbn [s_range_sum].
    rewrite (s32_u32 (Z.quot (lo + hi) 2 + 1)) by lia.
    rewrite (s32_small (Z.quot (lo + hi) 2)) by lia.
    rewrite (search_higher_segment b a lo hi Hseg) by (cbn; first [lia | f_equal; lia]).
    cbn [s_range_sum]. unfold tracker_sum. rewrite foldl_app.
    replace (hi + 1 - (Z.quot (lo + hi) 2 + 1)) with (hi - Z.quot (lo + hi) 2) by lia. done. }
  assert (Hw : width_found b a = hi - lo + 1).
  { unfold width_found. rewrite Hlower, Hhigher. cbn [s_end]. apply u32_small. lia. }
  assert (Hrej : object_rejected b a (range_sum_old o) = false).
  { unfold object_rejected. rewrite Hw, Hhigher, Hwidth. cbn [s_range_sum].
    fold arg. rewrite (u32_small (object_threshold_min_nr_points arg)) by lia.
    replace (hi - lo + 1 - (hi - lo + 1)) with 0 by lia.
    change (C.abs (C.s32 (C.u32 0))) with 0.
    unfold mean_range_close in Hclose. apply negb_true_iff in Hclose. fold arg in Hclose.
    rewrite Hclose.
    rewrite !orb_false_r. apply orb_false_iff. split; apply Z.ltb_ge; lia. }
  unfold getOldIndices_body. fold arg.
  apply Z.eqb_neq in Hlevel. rewrite Hlevel.
  assert (Hout : outside_range b a = false).
  { unfold outside_range. rewrite Hmean.
    specialize (Hin _ Hm). apply andb_true_iff in Hin as [Hge Hle].
    by rewrite (leb_not_ltb _ _ Hge), (leb_not_ltb _ _ Hle). }
  rewrite Hout, Hrej. cbn [andb]. rewrite Hw, Hlower, Hhigher. cbn [s_end s_prev_range s_range_sum].
  unfold found_at. rewrite (Z.add_comm hi lo).
  rewrite (u32_small (Z.quot (lo + hi) 2)) by lia. done.
Qed.

Lemma older_level_mod (b : Bank) (level : Z) :
  let d := nr_scans_in_bank (bank_argument b) in
  0 <= level < d -> older_level b level = (level - 1) mod d.
Proof.
  intros d Hl. unfold older_level. fold d.
  destruct (level - 1 <? 0) eqn:E.
  - apply Z.ltb_lt in E. assert (level = 0) as -> by lia.
    replace (0 - 1) with (-1 * d + (d - 1)) by lia.
    rewrite Z.add_comm, Z_mod_plus_full, Z.mod_small; lia.
  - apply Z.ltb_ge in E. rewrite Z.mod_small; lia.
Qed.

Lemma walk_snoc (k : nat) : forall (b : Bank) a0 o0 a o a' o',
  walk k b a0 o0 = Some (a, o) ->
  getOldIndices_body b a o = Recurse a' o' ->
  walk (S k) b a0 o0 = Some (a', o').
Proof.
  induction k as [|k IH]; intros b a0 o0 a o a' o' Hwalk Hbody.
  - injection Hwalk as -> ->. cbn. by rewrite Hbody.
  - cbn [walk] in Hwalk |- *.
    destruct (getOldIndices_body b a0 o0) as [|a1 o1]; [done|].
    by eapply (IH b a1 o1 a o).
Qed.

Section Follow.

Variables (b : Bank) (i : Z) (c : Candidate).

Local Abbreviation arg := (bank_argument b).
Local Abbreviation d := (nr_scans_in_bank (bank_argument b)).
Local Abbreviation lo := i.
Local Abbreviation hi := (i + nr_object_points c - 1).
Local Abbreviation mean := (Z.quot (i + (i + nr_object_points c - 1)) 2).
Local Abbreviation width := (nr_object_points c).
Local Abbreviation newest := (bank_index_newest b).

Hypothesis Hinv : index_invariant b = true.
Hypothesis Hd : 2 <= d < 2 ^ 31.
Hypothesis Hpps : points_per_scan arg < 2 ^ 31.
Hypothesis Hmin : 0 <= object_threshold_min_nr_points arg <= width.
Hypothesis Hdelta : 0 <= object_threshold_max_delta_width_in_points arg.
Hypothesis Hseg :
  forall level, 0 <= level < d ->
    segment_at b (report_range_min b) (report_range_max b) level lo hi.
Hypothesis Hfirst :
  mean_range_close b width (object_range_sum c)
    (tracker_sum b (older_level b newest) lo hi mean) = true.
Hypothesis Hnext :
  forall level, 0 <= level < d ->
    mean_range_close b width (tracker_sum b level lo hi mean)
      (tracker_sum b (older_level b level) lo hi mean) = true.

Lemma segment_bounds : 0 <= lo /\ lo <= hi /\ hi < points_per_scan arg.
Proof. destruct (Hseg 0 ltac:(lia)) as (? & ? & ? & _). done. Qed.

Lemma call_at_first : track_call b i c = call_at b i c 0.
Proof.
  pose proof segment_bounds as (Hlo & Hlohi & Hhi).
  pose proof (proj1 (index_invariant_spec b) Hinv) as (_ & _ & Hn). cbv zeta in Hn.
  unfold track_call, call_at.
  rewrite (u32_small hi) by lia.
  rewrite (u32_small (lo + hi)) by lia.
  rewrite (u32_small (hi - lo + 1)) by lia.
  rewrite older_level_mod by lia.
  cbn [Z.of_nat]. f_equal; [lia | f_equal; lia].
Qed.

Lemma step_at (k : nat) :
  Z.of_nat k < d - 1 ->
  getOldIndices_body b (call_at b i c k) (outputs_at b i c k)
  = Recurse (call_at b i c (S k)) (outputs_at b i c (S k)).
Proof.
  intros Hk.
  pose proof segment_bounds as (Hlo & Hlohi & Hhi).
  assert (Hlevel : 0 <= (newest - 1 - Z.of_nat k) mod d < d)
    by (apply Z.mod_pos_bound; lia).
  rewrite (body_same_segment b (call_at b i c k) (outputs_at b i c k) lo hi).
  - f_equal. unfold call_at. cbn [current_level levels_searched t_range_min t_range_max
                                  threshold_consecutive_failures_to_find_object].
    rewrite older_level_mod by done.
    rewrite Zminus_mod_idemp_l.
    rewrite u32_small by lia.
    f_equal; [lia | f_equal; lia | lia].
  - apply Hseg, Hlevel.
  - done.
  - cbn. lia.
  - cbn. rewrite u32_small by lia. lia.
  - done.
  - replace (hi - lo + 1) with width by lia. done.
  - done.
  - replace (hi - lo + 1) with width by lia.
    cbn [call_at current_level].
    destruct k as [|k]; cbn [outputs_at].
    + cbn [track_start range_sum_old].
      pose proof (proj1 (index_invariant_spec b) Hinv) as (_ & _ & Hn). cbv zeta in Hn.
      rewrite older_level_mod in Hfirst by lia.
      replace (newest - 1 - Z.of_nat 0) with (newest - 1) by lia. done.
    + cbn [found_at range_sum_old].
      specialize (Hnext ((newest - 1 - Z.of_nat k) mod d)
                    ltac:(apply Z.mod_pos_bound; lia)).
      rewrite older_level_mod in Hnext by (apply Z.mod_pos_bound; lia).
      rewrite Zminus_mod_idemp_l in Hnext.
      replace (newest - 1 - Z.of_nat (S k)) with (newest - 1 - Z.of_nat k - 1) by lia.
      done.
Qed.

Lemma walk_at (k : nat) :
  Z.of_nat k <= d - 1 ->
  walk k b (track_call b i c) (track_start c) = Some (call_at b i c k, outputs_at b i c k).
Proof.
  induction k as [|k IH]; intros Hk.
  - cbn. by rewrite call_at_first.
  - eapply walk_snoc; [apply IH; lia|]. apply step_at. lia.
Qed.

End Follow.


(** Case analysis on an integer of a given interval. *)
Ltac each_of z first count tac :=
  let Hin := fresh "Hin" in
  assert (Hin : z ∈ seqZ first count) by (apply elem_of_seqZ; lia);
  vm_compute seqZ in Hin;
  repeat (apply elem_of_cons in Hin as [-> | Hin]; [tac|]);
  by apply elem_of_nil in Hin.

Lemma example_bank_ranges (level k : Z) :
  0 <= level < 11 -> range_at example_bank level k = C.get example_slot k.
Proof. intros Hl. each_of level 0 11 ltac:(reflexivity). Qed.


(** ** The speed gate *)

Section Gate.

Context {libm : LibM} {listener : TransformListener} {scorer : Confidence}.

Lemma all_speeds_below_gate (b : Bank) (mo : MovingObject) :
  all_speeds_below b mo = true -> speed_gate b mo = false.
Proof.
  unfold all_speeds_below, speed_gate. rewrite !andb_true_iff.
  intros (((H1 & H2) & H3) & H4).
  by rewrite (ltb_not_leb _ _ H1), (ltb_not_leb _ _ H2),
             (ltb_not_leb _ _ H3), (ltb_not_leb _ _ H4).
Qed.

Lemma speed_gate_with_confidence (b : Bank) (mo : MovingObject) (conf : float) :
  speed_gate b (with_confidence mo conf) = speed_gate b mo.
Proof. done. Qed.

Lemma report_tracked_gate (b : Bank) (n i : Z) (c : Candidate) (o : OldIndices)
      (mo : MovingObject) :
  mo ∈ report_tracked b n i c o -> speed_gate b mo = true.
Proof.
  unfold report_tracked.
  destruct (moving_object b n i c o) as [[[mo' dt] w] [[[[[f1 f2] f3] f4] f5] f6]].
  destruct (speed_gate b mo') eqn:Hgate; [|by intros ?%elem_of_nil].
  destruct (Ieee.leb _ _); [|by intros ?%elem_of_nil].
  intros ->%list_elem_of_singleton. by rewrite speed_gate_with_confidence.
Qed.

Lemma scan_step_gate (b : Bank) (s s' : Scan) :
  Forall (fun mo => speed_gate b mo = true) (moa_objects s) ->
  scan_step b s = Some s' ->
  Forall (fun mo => speed_gate b mo = true) (moa_objects s').
Proof.
  intros Hall. unfold scan_step.
  destruct (out_of_range b _); [by intros [= <-]|].
  destruct (_ <=? _); [|by intros [= <-]].
  destruct (track b _ _) as [o|]; [|done].
  intros [= <-]. cbn [moa_objects].
  destruct (0 <=? index_mean_old o); [|done].
  apply Forall_app. split; [done|].
  apply Forall_forall. intros mo. apply report_tracked_gate.
Qed.

Lemma scan_loop_gate (n : nat) : forall (b : Bank) (s s' : Scan),
  Forall (fun mo => speed_gate b mo = true) (moa_objects s) ->
  scan_loop n b s = Some s' ->
  Forall (fun mo => speed_gate b mo = true) (moa_objects s').
Proof.
  induction n as [|n IH]; intros b s s' Hall; cbn [scan_loop];
    destruct (scan_i s <? _); try done; try (by intros [= <-]).
  destruct (scan_step b s) as [s1|] eqn:Hstep; [|done].
  apply IH. by eapply scan_step_gate.
Qed.

End Gate.

(** C7.  In a reporting cycle, a tracked object whose speed is strictly
    below [object_threshold_min_speed] in all four frames (sensor, map,
    fixed, base) is not appended to the array of moving objects; every
    object of the array that the cycle reports has a speed of at least
    [object_threshold_min_speed] in one of the four frames. *)
Theorem slow_objects_are_not_reported {libm : LibM} {listener : TransformListener} {scorer : Confidence} (b : Bank) :
  (forall (n i : Z) (c : Candidate) (o : OldIndices),
     all_speeds_below b (tracked_object b n i c o) = true ->
     report_tracked b n i c o = [])
  /\ (forall (moa : list MovingObject) (mo : MovingObject),
        findAndReportMovingObjects b = Some moa -> mo ∈ moa ->
        speed_gate b mo = true /\ all_speeds_below b mo = false).
Proof.
  split.
  - intros n i c o Hbelow. apply all_speeds_below_gate in Hbelow.
    unfold report_tracked. unfold tracked_object in Hbelow.
    destruct (moving_object b n i c o) as [[[mo' dt] w] [[[[[f1 f2] f3] f4] f5] f6]].
    by rewrite Hbelow.
  - intros moa mo Hrun Hin.
    assert (Hgate : speed_gate b mo = true).
    { unfold findAndReportMovingObjects in Hrun.
      destruct (negb (bank_is_filled b)).
      { injection Hrun as <-. by apply elem_of_nil in Hin. }
      destruct (scan_loop _ b _) as [s|] eqn:Hloop; [|done].
      injection Hrun as <-.
      apply scan_loop_gate in Hloop; [|by constructor].
      by apply (proj1 (Forall_forall _ _) Hloop). }
    split; [done|].
    destruct (all_speeds_below b mo) eqn:Hbelow; [|done].
    apply all_speeds_below_gate in Hbelow. congruence.
Qed.

(** ** The report returns *)

Lemma getOldIndices_returns (fuel : nat) : forall (b : Bank) (a : TrackCall) (o : OldIndices),
  let d := nr_scans_in_bank (bank_argument b) in
  0 <= d < 2 ^ 32 ->
  0 <= levels_searched a <= d ->
  d - levels_searched a < Z.of_nat fuel ->
  exists o', getOldIndices fuel b a o = Some o'.
Proof.
  induction fuel as [|fuel IH]; intros b a o d Hd Hl Hfuel; [lia|].
  cbn [getOldIndices].
  destruct (getOldIndices_body b a o) as [o'|a' o'] eqn:Hbody; [by eexists|].
  unfold getOldIndices_body in Hbody.
  destruct (levels_searched a =? _) eqn:Hbase; [done|].
  apply Z.eqb_neq in Hbase. fold d in Hbase. rewrite u32_small in Hbase by lia.
  destruct (outside_range b a); [done|].
  destruct (_ && _); [done|]. injection Hbody as <- _.
  apply IH; [done| |]; cbn [levels_searched]; rewrite u32_small by lia; lia.
Qed.

Lemma track_returns (b : Bank) (i : Z) (c : Candidate) :
  1 <= nr_scans_in_bank (bank_argument b) < 2 ^ 32 ->
  exists o, track b i c = Some o.
Proof.
  intros Hd. apply getOldIndices_returns; cbn [track_call levels_searched]; lia.
Qed.

Section Returns.

Context {libm : LibM} {listener : TransformListener} {scorer : Confidence}.

Lemma count_object_points_bounds (n : nat) : forall (b : Bank) (j : Z) (c : Candidate),
  nr_object_points c
  <= nr_object_points (count_object_points n b j c)
  <= nr_object_points c + Z.of_nat n.
Proof.
  induction n as [|n IH]; intros b j c; cbn [count_object_points]; [lia|].
  destruct (j <? _); [|lia].
  destruct (part_of_object b _ _); [|lia].
  match goal with |- context [count_object_points n b ?j' ?c'] =>
    pose proof (IH b j' c') as Hrec end.
  cbn [nr_object_points] in Hrec. lia.
Qed.

Lemma scan_step_advances (b : Bank) (s : Scan) :
  1 <= nr_scans_in_bank (bank_argument b) < 2 ^ 32 ->
  points_per_scan (bank_argument b) < 2 ^ 31 ->
  0 <= scan_i s < points_per_scan (bank_argument b) ->
  exists s', scan_step b s = Some s'
             /\ scan_i s < scan_i s' <= points_per_scan (bank_argument b) + 1.
Proof.
  intros Hd Hpps Hi. unfold scan_step.
  destruct (out_of_range b _).
  { eexists. split; [done|]. cbn. rewrite u32_small; lia. }
  pose proof (count_object_points_bounds
                (Z.to_nat (points_per_scan (bank_argument b) - scan_i s)) b (scan_i s + 1)
                {| nr_object_points := 1;
                   object_range_sum := range_at b (bank_index_newest b) (scan_i s);
                   object_range_min := range_at b (bank_index_newest b) (scan_i s);
                   object_range_max := range_at b (bank_index_newest b) (scan_i s);
                   object_range_min_index := scan_i s;
                   object_range_max_index := scan_i s;
                   prev_range := range_at b (bank_index_newest b) (scan_i s) |}) as Hnr.
  fold (candidate_at b (scan_i s)) in Hnr. cbn [nr_object_points] in Hnr.
  destruct (_ <=? _).
  - destruct (track_returns b (scan_i s) (candidate_at b (scan_i s)) Hd) as (o & ->).
    eexists. split; [done|]. cbn [scan_i]. rewrite u32_small; lia.
  - eexists. split; [done|]. cbn [scan_i]. rewrite u32_small; lia.
Qed.

Lemma scan_loop_returns (n : nat) : forall (b : Bank) (s : Scan),
  1 <= nr_scans_in_bank (bank_argument b) < 2 ^ 32 ->
  points_per_scan (bank_argument b) < 2 ^ 31 ->
  0 <= scan_i s ->
  points_per_scan (bank_argument b) - scan_i s <= Z.of_nat n ->
  exists s', scan_loop n b s = Some s'.
Proof.
  induction n as [|n IH]; intros b s Hd Hpps Hi Hn; cbn [scan_loop];
    destruct (scan_i s <? _) eqn:Hlt; try (by eexists).
  - apply Z.ltb_lt in Hlt. lia.
  - apply Z.ltb_lt in Hlt.
    destruct (scan_step_advances b s Hd Hpps ltac:(lia)) as (s1 & -> & Hadv).
    apply IH; (done || lia).
Qed.

(** A reporting cycle comes to an end. *)
Lemma report_returns (b : Bank) :
  1 <= nr_scans_in_bank (bank_argument b) < 2 ^ 32 ->
  points_per_scan (bank_argument b) < 2 ^ 31 ->
  exists moa, findAndReportMovingObjects b = Some moa.
Proof.
  intros Hd Hpps. unfold findAndReportMovingObjects.
  destruct (negb _); [by eexists|].
  destruct (scan_loop_returns (Z.to_nat (points_per_scan (bank_argument b))) b
              {| scan_i := 0; nr_objects_found := 0; moa_objects := [] |} Hd Hpps)
    as (s & ->); [done|cbn; lia|by eexists].
Qed.

End Returns.

(** ** Examples of reporting cycles *)

Lemma slow_objects_are_not_reported_witness :
  (all_speeds_below example_bank
     (tracked_object (libm := libm_example) (listener := listener_example) example_bank 1 1
        (candidate_at example_bank 1) (found_at example_bank 1 1 5)) = true
   /\ report_tracked (libm := libm_example) (listener := listener_example) (scorer := confidence_example)
        example_bank 1 1 (candidate_at example_bank 1) (found_at example_bank 1 1 5) = [])
  /\ exists mo, report_example receding_bank = Some [mo]
                /\ speed_gate receding_bank mo = true.
Proof.
  split.
  - split; [vm_compute; reflexivity|].
    apply (proj1 (slow_objects_are_not_reported (libm := libm_example) (listener := listener_example)
                    (scorer := confidence_example) example_bank)).
    vm_compute. reflexivity.
  - destruct (report_example receding_bank) as [[|mo [|]]|] eqn:Hrun;
      try (vm_compute in Hrun; discriminate Hrun).
    exists mo. split; [reflexivity|].
    apply (proj2 (slow_objects_are_not_reported (libm := libm_example) (listener := listener_example)
                    (scorer := confidence_example) receding_bank) [mo] mo Hrun).
    apply list_elem_of_singleton. reflexivity.
Defined.

(** C4, on the example bank: the sensor reaches 10 m and objects count up
    to 6.5 m, so that the upper bound of the claim is 6.5 m.  The range
    8 m at index 6 of the newest slot exceeds it, yet the segmentation
    does not skip the index: a candidate starts there and is extended over
    the five indices that follow, whose ranges exceed the bound as
    well. *)
Lemma segmentation_ignores_max_distance :
  let r := range_at example_bank (bank_index_newest example_bank) 6 in
  report_range_max example_bank = Ieee.cast Ieee.F32 Lit.d6_5
  /\ r = Ieee.of_Z Ieee.F32 8
  /\ Ieee.ltb (report_range_max example_bank) r = true
  /\ out_of_range example_bank r = false
  /\ nr_object_points (candidate_at example_bank 6) = 6
  /\ scan_step (libm := libm_example) (listener := listener_example) (scorer := confidence_example)
       example_bank {| scan_i := 6; nr_objects_found := 1; moa_objects := [] |}
     = Some {| scan_i := 12; nr_objects_found := 2; moa_objects := [] |}.
Proof. vm_compute. repeat split. Qed.

(** C5, in the default configuration ([ema_alpha = 1.0]): after a first
    laser scan with an infinite range (nothing in reach) at index 2, the
    next scan has 3 m there; [addMessage] stores NaN instead, the sum of
    [1.0 * 3] and [0.0 * inf]. *)
Lemma scan_after_infinity_is_not_passed_through :
  let first := scan_of [Ieee.of_Z Ieee.F32 1; Ieee.of_Z Ieee.F32 2; Ieee.pinf] in
  let second := scan_of [Ieee.of_Z Ieee.F32 1; Ieee.of_Z Ieee.F32 2; Ieee.of_Z Ieee.F32 3] in
  exists b0 b1,
    init (Bank_new true) BankArgument_default first (fun _ _ => Ieee.nan) = Some (b0, 0)
    /\ addMessage b0 second = (b1, 0)
    /\ ema_alpha (bank_argument b0) = Lit.d1
    /\ C.get (bank_ranges_ema b1) (bank_index_newest b1)
       = [Ieee.of_Z Ieee.F32 1; Ieee.of_Z Ieee.F32 2; Ieee.nan]
    /\ C.get (ls_ranges second) 2 = Ieee.of_Z Ieee.F32 3.
Proof.
  eexists _, _.
  split; [vm_compute; reflexivity|].
  split; [vm_compute; reflexivity|].
  vm_compute. repeat split.
Qed.

(** With a smoothing factor that is not below 1.0, [emaPutMessage] leaves
    the slot as [putPoints] filled it. *)
Lemma emaPutMessage_pass_through (b : Bank) :
  Ieee.ltb (ema_alpha (bank_argument b)) Lit.d1 = false -> emaPutMessage b = b.
Proof. intros Halpha. unfold emaPutMessage. by rewrite Halpha. Qed.

(** * The smoothed value lies between the two ranges *)

(** ** Rounding of integers to nearest, ties to even *)

Lemma pow2_pos (g : Z) : 0 <= g -> 0 < 2 ^ g.
Proof. intros. apply Z.pow_pos_nonneg; lia. Qed.

Lemma pow2_half (g : Z) : 0 < g -> 2 ^ g = 2 * 2 ^ (g - 1).
Proof.
  intros. replace g with (Z.succ (g - 1)) at 1 by lia. rewrite Z.pow_succ_r by lia. lia.
Qed.

Lemma rne_quotient (N g : Z) :
  0 < g -> 0 <= N ->
  exists q, rne N g = q * 2 ^ g
            /\ N / 2 ^ g <= q <= N / 2 ^ g + 1
            /\ 2 * N - 2 ^ g <= 2 * (q * 2 ^ g) <= 2 * N + 2 ^ g.
Proof.
  intros Hg HN. unfold rne. rewrite (proj2 (Z.leb_gt g 0)) by lia. cbv zeta.
  pose proof (pow2_pos g ltac:(lia)) as Hp.
  pose proof (pow2_half g Hg) as Hh.
  pose proof (Z.div_mod N (2 ^ g) ltac:(lia)) as Hdm.
  pose proof (Z.mod_pos_bound N (2 ^ g) Hp) as Hr.
  set (q := N / 2 ^ g) in *. set (r := N mod 2 ^ g) in *. set (h := 2 ^ (g - 1)) in *.
  destruct (r <? h) eqn:E1; [apply Z.ltb_lt in E1|apply Z.ltb_ge in E1].
  - exists q. split; [done|]. split; [lia|]. nia.
  - destruct (h <? r) eqn:E2; [apply Z.ltb_lt in E2|apply Z.ltb_ge in E2].
    + exists (q + 1). split; [done|]. split; [lia|]. nia.
    + destruct (Z.even q); [exists q|exists (q + 1)]; (split; [done|]); (split; [lia|]); nia.
Qed.

Lemma rne_nonpos_grid (N g : Z) : g <= 0 -> rne N g = N.
Proof. intros. unfold rne. by rewrite (proj2 (Z.leb_le g 0)). Qed.

Lemma rne_mono (N1 N2 g : Z) : 0 <= N1 <= N2 -> rne N1 g <= rne N2 g.
Proof.
  intros HN. destruct (Z_le_gt_dec g 0) as [Hg | Hg].
  { rewrite !rne_nonpos_grid by done. lia. }
  pose proof (pow2_pos g ltac:(lia)) as Hp.
  assert (Hq : N1 / 2 ^ g <= N2 / 2 ^ g) by (apply Z.div_le_mono; lia).
  destruct (Z.eq_dec (N1 / 2 ^ g) (N2 / 2 ^ g)) as [Heq | Hne].
  - unfold rne. rewrite (proj2 (Z.leb_gt g 0)) by lia. cbv zeta. rewrite <- Heq.
    assert (Hr : N1 mod 2 ^ g <= N2 mod 2 ^ g).
    { pose proof (Z.div_mod N1 (2 ^ g) ltac:(lia)).
      pose proof (Z.div_mod N2 (2 ^ g) ltac:(lia)). rewrite <- Heq in *. lia. }
    set (q := N1 / 2 ^ g) in *. set (h := 2 ^ (g - 1)).
    destruct (N1 mod 2 ^ g <? h) eqn:E1, (N2 mod 2 ^ g <? h) eqn:E2,
             (h <? N1 mod 2 ^ g) eqn:E3, (h <? N2 mod 2 ^ g) eqn:E4,
             (Z.even q); lia.
  - destruct (rne_quotient N1 g ltac:(lia) ltac:(lia)) as (q1 & -> & Hq1 & _).
    destruct (rne_quotient N2 g ltac:(lia) ltac:(lia)) as (q2 & -> & Hq2 & _).
    apply Z.mul_le_mono_nonneg_r; lia.
Qed.

Lemma rne_exact (N g : Z) : 0 <= N -> (0 < g -> (2 ^ g | N)) -> rne N g = N.
Proof.
  intros HN Hdiv. destruct (Z_le_gt_dec g 0) as [Hg | Hg].
  { by apply rne_nonpos_grid. }
  specialize (Hdiv ltac:(lia)).
  pose proof (pow2_pos g ltac:(lia)) as Hp.
  pose proof (pow2_pos (g - 1) ltac:(lia)) as Hh.
  unfold rne. rewrite (proj2 (Z.leb_gt g 0)) by lia. cbv zeta.
  apply Z.mod_divide in Hdiv; [|lia]. rewrite Hdiv.
  rewrite (proj2 (Z.ltb_lt 0 (2 ^ (g - 1)))) by lia.
  pose proof (Z.div_mod N (2 ^ g) ltac:(lia)). lia.
Qed.

Lemma rne_nonneg (N g : Z) : 0 <= N -> 0 <= rne N g.
Proof.
  intros HN. rewrite <- (rne_exact 0 g) at 1 by (done || (intros; apply Z.divide_0_r)).
  apply rne_mono. lia.
Qed.

(** Scaling by a power of two. *)
Lemma rne_scale (N g c : Z) :
  0 <= N -> 0 < g -> 0 <= c -> rne (N * 2 ^ c) (g + c) = rne N g * 2 ^ c.
Proof.
  intros HN Hg Hc. unfold rne.
  rewrite (proj2 (Z.leb_gt g 0)), (proj2 (Z.leb_gt (g + c) 0)) by lia. cbv zeta.
  pose proof (pow2_pos g ltac:(lia)) as Hpg.
  pose proof (pow2_pos c ltac:(lia)) as Hpc.
  rewrite Z.pow_add_r by lia.
  rewrite Z.div_mul_cancel_r by lia.
  rewrite Zmult_mod_distr_r.
  replace (g + c - 1) with (g - 1 + c) by lia. rewrite Z.pow_add_r by lia.
  set (q := N / 2 ^ g). set (r := N mod 2 ^ g). set (h := 2 ^ (g - 1)).
  assert (E1 : (r * 2 ^ c <? h * 2 ^ c) = (r <? h)).
  { apply eq_true_iff_eq. rewrite !Z.ltb_lt. nia. }
  assert (E2 : (h * 2 ^ c <? r * 2 ^ c) = (h <? r)).
  { apply eq_true_iff_eq. rewrite !Z.ltb_lt. nia. }
  rewrite E1, E2. lia.
Qed.

(** ** The grid of a format *)

Lemma log2_bounds (N : Z) : 0 < N -> 2 ^ Z.log2 N <= N < 2 ^ (Z.log2 N + 1).
Proof. intros HN. pose proof (Z.log2_spec N HN). by rewrite <- Z.add_1_r in *. Qed.

Lemma log2_unique' (N L : Z) : 0 <= L -> 2 ^ L <= N < 2 ^ (L + 1) -> Z.log2 N = L.
Proof. intros. apply Z.log2_unique; [done|]. by rewrite Z.add_1_r in *. Qed.

Lemma grid_mono (p gmin N1 N2 : Z) : N1 <= N2 -> grid p gmin N1 <= grid p gmin N2.
Proof. intros. unfold grid. pose proof (Z.log2_le_mono N1 N2). lia. Qed.

Lemma RN_mono (p gmin N1 N2 : Z) :
  0 < p -> 0 <= N1 <= N2 -> RN p gmin N1 <= RN p gmin N2.
Proof.
  intros Hp HN. unfold RN.
  pose proof (grid_mono p gmin N1 N2 ltac:(lia)) as Hg.
  destruct (Z.eq_dec (grid p gmin N1) (grid p gmin N2)) as [Heq | Hne].
  { rewrite Heq. by apply rne_mono. }
  (* a power of two lies in between, and on both grids *)
  assert (H2 : 0 < N2).
  { destruct (Z.eq_dec N2 0) as [-> | ?]; [|lia].
    assert (N1 = 0) as -> by lia. done. }
  unfold grid in Hg, Hne.
  pose proof (Z.log2_nonneg N1). pose proof (Z.log2_nonneg N2).
  pose proof (Z.log2_le_mono N1 N2 ltac:(lia)) as Hlog.
  set (L := Z.log2 N2) in *.
  assert (HL : Z.log2 N1 < L) by lia.
  pose proof (log2_bounds N2 H2) as HB2. fold L in HB2.
  assert (HN1 : N1 < 2 ^ L).
  { destruct (Z.eq_dec N1 0) as [-> | ?]; [apply pow2_pos; lia|].
    pose proof (log2_bounds N1 ltac:(lia)) as HB1.
    assert (2 ^ (Z.log2 N1 + 1) <= 2 ^ L) by (apply Z.pow_le_mono_r; lia). lia. }
  pose proof (pow2_pos L ltac:(lia)) as HpL.
  transitivity (2 ^ L).
  - rewrite <- (rne_exact (2 ^ L) (grid p gmin N1)).
    + apply rne_mono. lia.
    + lia.
    + intros Hpos. unfold grid in *. exists (2 ^ (L - Z.max (Z.log2 N1 + 1 - p) gmin)).
      rewrite <- Z.pow_add_r by lia. f_equal. lia.
  - rewrite <- (rne_exact (2 ^ L) (grid p gmin N2)) at 1.
    + apply rne_mono. lia.
    + lia.
    + intros Hpos. unfold grid in *. fold L in Hpos |- *.
      exists (2 ^ (L - Z.max (L + 1 - p) gmin)).
      rewrite <- Z.pow_add_r by lia. f_equal. lia.
Qed.

(** A number of at most [p] bits, scaled to an exponent of the format, is
    left as it is. *)
Lemma RN_exact (p gmin m j : Z) :
  0 <= m < 2 ^ p -> 0 <= j -> gmin <= j -> 0 < p -> RN p gmin (m * 2 ^ j) = m * 2 ^ j.
Proof.
  intros Hm Hj Hgmin Hp. unfold RN.
  pose proof (pow2_pos j Hj) as Hpj.
  destruct (Z.eq_dec m 0) as [-> | Hm0].
  { apply rne_exact; [lia|]. intros. apply Z.divide_0_r. }
  apply rne_exact; [lia|]. intros Hpos.
  assert (Hlog : Z.log2 (m * 2 ^ j) < p + j).
  { apply Z.log2_lt_pow2; [lia|]. rewrite Z.pow_add_r by lia. nia. }
  unfold grid in *.
  exists (m * 2 ^ (j - Z.max (Z.log2 (m * 2 ^ j) + 1 - p) gmin)).
  rewrite <- Z.mul_assoc, <- Z.pow_add_r by lia. do 2 f_equal. lia.
Qed.

Lemma grid_scale (p gmin N c : Z) :
  0 < N -> 0 <= c -> grid p (gmin + c) (N * 2 ^ c) = grid p gmin N + c.
Proof.
  intros HN Hc. unfold grid. rewrite Z.log2_mul_pow2 by lia. lia.
Qed.

Lemma RN_scale (p gmin N c : Z) :
  0 <= N -> 0 <= c -> RN p (gmin + c) (N * 2 ^ c) = RN p gmin N * 2 ^ c.
Proof.
  intros HN Hc. unfold RN.
  destruct (Z.eq_dec N 0) as [-> | HN0].
  { rewrite Z.mul_0_l, !rne_exact; try lia; intros; apply Z.divide_0_r. }
  rewrite grid_scale by lia.
  pose proof (pow2_pos c Hc) as Hpc.
  destruct (Z_le_gt_dec (grid p gmin N) 0) as [Hg | Hg].
  - rewrite (rne_nonpos_grid N) by done.
    apply rne_exact; [lia|]. intros Hpos.
    exists (N * 2 ^ (- grid p gmin N)).
    rewrite <- Z.mul_assoc, <- Z.pow_add_r by lia. do 2 f_equal. lia.
  - apply rne_scale; lia.
Qed.

(** ** The error of a rounding *)

Lemma rne_error (N g : Z) :
  0 <= N -> 2 * Z.abs (rne N g - N) <= (if 0 <? g then 2 ^ g else 0).
Proof.
  intros HN. destruct (0 <? g) eqn:E.
  - apply Z.ltb_lt in E.
    destruct (rne_quotient N g E HN) as (q & -> & _ & Hq). lia.
  - apply Z.ltb_ge in E. rewrite rne_nonpos_grid by done. lia.
Qed.

Lemma RN_error (p gmin N : Z) :
  0 < p -> 0 <= N ->
  2 ^ p * Z.abs (RN p gmin N - N) <= N + 2 ^ (p + gmin - 1).
Proof.
  intros Hp HN. unfold RN.
  pose proof (rne_error N (grid p gmin N) HN) as Herr.
  pose proof (Z.pow_nonneg 2 (p + gmin - 1) ltac:(lia)) as Hnn.
  pose proof (pow2_pos p ltac:(lia)) as Hpp.
  destruct (0 <? grid p gmin N) eqn:E; [apply Z.ltb_lt in E|nia].
  unfold grid in *.
  set (d := Z.abs (rne N (Z.max (Z.log2 N + 1 - p) gmin) - N)) in *.
  destruct (Z.max_spec (Z.log2 N + 1 - p) gmin) as [[Hlt Hmax] | [Hge Hmax]];
    rewrite Hmax in *.
  - (* the smallest exponent of the format *)
    assert (2 ^ p * 2 ^ gmin = 2 * 2 ^ (p + gmin - 1)).
    { rewrite <- Z.pow_add_r by lia. rewrite (pow2_half (p + gmin)) by lia. done. }
    nia.
  - assert (HN0 : 0 < N).
    { destruct (Z.eq_dec N 0) as [-> | ?]; [|lia]. cbn in E. lia. }
    pose proof (log2_bounds N HN0) as HB. pose proof (Z.log2_nonneg N).
    assert (2 ^ p * 2 ^ (Z.log2 N + 1 - p) = 2 * 2 ^ Z.log2 N).
    { rewrite <- Z.pow_add_r by lia. replace (p + (Z.log2 N + 1 - p)) with (Z.log2 N + 1) by lia.
      rewrite (pow2_half (Z.log2 N + 1)) by lia. do 2 f_equal. lia. }
    nia.
Qed.

(** ** Roundings near a number of the format *)

Lemma rne_near (N F g : Z) :
  0 < g -> 0 <= N -> (2 ^ g | F) -> 2 * Z.abs (N - F) < 2 ^ g -> rne N g = F.
Proof.
  intros Hg HN [m ->] Hnear.
  pose proof (pow2_pos g ltac:(lia)) as Hp.
  pose proof (pow2_half g Hg) as Hh.
  unfold rne. rewrite (proj2 (Z.leb_gt g 0)) by lia. cbv zeta.
  set (h := 2 ^ (g - 1)) in *.
  destruct (Z_le_gt_dec (m * 2 ^ g) N) as [Hle | Hgt].
  - assert (Hq : N / 2 ^ g = m).
    { symmetry. apply (Z.div_unique N (2 ^ g) m (N - m * 2 ^ g)); lia. }
    assert (Hr : N mod 2 ^ g = N - m * 2 ^ g).
    { symmetry. apply (Z.mod_unique N (2 ^ g) m); lia. }
    rewrite Hq, Hr. rewrite (proj2 (Z.ltb_lt _ _)) by lia. done.
  - assert (Hq : N / 2 ^ g = m - 1).
    { symmetry. apply (Z.div_unique N (2 ^ g) (m - 1) (N - (m - 1) * 2 ^ g)); lia. }
    assert (Hr : N mod 2 ^ g = N - (m - 1) * 2 ^ g).
    { symmetry. apply (Z.mod_unique N (2 ^ g) (m - 1)); lia. }
    rewrite Hq, Hr. rewrite (proj2 (Z.ltb_ge _ _)) by lia.
    rewrite (proj2 (Z.ltb_lt h _)) by lia. lia.
Qed.

Lemma RN_near (p gmin m j N : Z) :
  0 < p -> 0 < m < 2 ^ p -> 0 <= j -> j = grid p gmin (m * 2 ^ j) -> 0 <= N ->
  4 * Z.abs (N - m * 2 ^ j) < 2 ^ j ->
  RN p gmin N = m * 2 ^ j.
Proof.
  intros Hp Hm Hj Hcanon HN Hnear.
  pose proof (pow2_pos j Hj) as Hpj.
  set (F := m * 2 ^ j) in *.
  destruct (Z.eq_dec N F) as [-> | Hne].
  { apply RN_exact; try lia. unfold grid in Hcanon. lia. }
  assert (Hj3 : 3 <= j).
  { destruct (Z_le_gt_dec 3 j) as [? | Hlt]; [done|].
    assert (2 ^ j <= 2 ^ 2) by (apply Z.pow_le_mono_r; lia). lia. }
  assert (HF : 0 < F) by (unfold F; nia).
  pose proof (log2_bounds F HF) as HBF. pose proof (Z.log2_nonneg F).
  set (L := Z.log2 F) in *.
  assert (HjL : j <= L).
  { destruct (Z_le_gt_dec j L) as [? | Hgt]; [done|].
    assert (2 ^ (L + 1) <= 2 ^ j) by (apply Z.pow_le_mono_r; lia).
    unfold F in HBF. nia. }
  pose proof (pow2_half j ltac:(lia)) as Hh1.
  pose proof (pow2_half (j - 1) ltac:(lia)) as Hh2.
  pose proof (pow2_pos (j - 1 - 1) ltac:(lia)) as Hq4.
  (* [F + 2^j <= 2^(L+1)]: both are multiples of [2^j] *)
  assert (Hup : F + 2 ^ j <= 2 ^ (L + 1)).
  { assert (2 ^ (L + 1) = 2 ^ (L + 1 - j) * 2 ^ j) as Hsplit
        by (rewrite <- Z.pow_add_r by lia; f_equal; lia).
    rewrite Hsplit in *. unfold F in *.
    assert (m < 2 ^ (L + 1 - j)) by nia. nia. }
  assert (Hlow : 2 ^ (L - 1) <= N).
  { assert (2 ^ L = 2 * 2 ^ (L - 1)) by (apply pow2_half; lia).
    assert (2 ^ (j - 1 - 1) <= 2 ^ (L - 1)) by (apply Z.pow_le_mono_r; lia). lia. }
  assert (HN0 : 0 < N).
  { pose proof (pow2_pos (L - 1) ltac:(lia)). lia. }
  assert (HlogN : L - 1 <= Z.log2 N <= L).
  { split.
    - apply Z.log2_le_pow2; lia.
    - assert (Z.log2 N < L + 1); [|lia]. apply Z.log2_lt_pow2; lia. }
  unfold RN. apply rne_near.
  - unfold grid in *. lia.
  - lia.
  - unfold grid in *. fold L in Hcanon.
    exists (m * 2 ^ (j - Z.max (Z.log2 N + 1 - p) gmin)).
    unfold F. rewrite <- Z.mul_assoc, <- Z.pow_add_r by lia. do 2 f_equal. lia.
  - unfold grid in *. fold L in Hcanon.
    assert (2 ^ (j - 1) <= 2 ^ Z.max (Z.log2 N + 1 - p) gmin)
      by (apply Z.pow_le_mono_r; lia).
    lia.
Qed.

(** ** Signed integers *)

Lemma RN_nonneg (p gmin N : Z) : 0 <= N -> 0 <= RN p gmin N.
Proof. intros. by apply rne_nonneg. Qed.

Lemma RN_0 (p gmin : Z) : RN p gmin 0 = 0.
Proof. unfold RN. apply rne_exact; [lia|]. intros. apply Z.divide_0_r. Qed.

Lemma sRN_nonneg (p gmin N : Z) : 0 <= N -> sRN p gmin N = RN p gmin N.
Proof. intros. unfold sRN. by rewrite (proj2 (Z.ltb_ge N 0)). Qed.

Lemma sRN_0 (p gmin : Z) : sRN p gmin 0 = 0.
Proof. unfold sRN. cbn [Z.ltb Z.compare]. apply RN_0. Qed.

Lemma sRN_opp (p gmin N : Z) : sRN p gmin (- N) = - sRN p gmin N.
Proof.
  unfold sRN. destruct (Z.ltb_spec N 0), (Z.ltb_spec (- N) 0); try lia.
  - by rewrite Z.opp_involutive.
  - assert (N = 0) as -> by lia. change (- 0) with 0. rewrite RN_0. done.
Qed.

Lemma sRN_mono (p gmin N1 N2 : Z) :
  0 < p -> N1 <= N2 -> sRN p gmin N1 <= sRN p gmin N2.
Proof.
  intros Hp HN. unfold sRN.
  destruct (Z.ltb_spec N1 0), (Z.ltb_spec N2 0); try lia.
  - pose proof (RN_mono p gmin (- N2) (- N1) Hp ltac:(lia)). lia.
  - pose proof (RN_nonneg p gmin (- N1) ltac:(lia)).
    pose proof (RN_nonneg p gmin N2 ltac:(lia)). lia.
  - apply RN_mono; lia.
Qed.

Lemma sRN_exact (p gmin m j : Z) :
  Z.abs m < 2 ^ p -> 0 <= j -> gmin <= j -> 0 < p -> sRN p gmin (m * 2 ^ j) = m * 2 ^ j.
Proof.
  intros Hm Hj Hgmin Hp. pose proof (pow2_pos j Hj).
  unfold sRN. destruct (Z.ltb_spec (m * 2 ^ j) 0).
  - replace (- (m * 2 ^ j)) with ((- m) * 2 ^ j) by lia.
    rewrite RN_exact by (lia || nia). lia.
  - apply RN_exact; (lia || nia).
Qed.

Lemma sRN_error (p gmin N : Z) :
  0 < p -> 2 ^ p * Z.abs (sRN p gmin N - N) <= Z.abs N + 2 ^ (p + gmin - 1).
Proof.
  intros Hp. unfold sRN. destruct (Z.ltb_spec N 0).
  - pose proof (RN_error p gmin (- N) Hp ltac:(lia)).
    replace (- RN p gmin (- N) - N) with (- (RN p gmin (- N) - - N)) by lia.
    rewrite Z.abs_opp. lia.
  - pose proof (RN_error p gmin N Hp ltac:(lia)). lia.
Qed.

Lemma sRN_scale (p gmin N c : Z) :
  0 <= c -> sRN p (gmin + c) (N * 2 ^ c) = sRN p gmin N * 2 ^ c.
Proof.
  intros Hc. pose proof (pow2_pos c Hc). unfold sRN.
  destruct (Z.ltb_spec N 0), (Z.ltb_spec (N * 2 ^ c) 0); try nia.
  - replace (- (N * 2 ^ c)) with ((- N) * 2 ^ c) by lia.
    rewrite RN_scale by lia. lia.
  - apply RN_scale; lia.
Qed.

Lemma sRN_near (p gmin m j N : Z) :
  0 < p -> 0 < Z.abs m < 2 ^ p -> 0 <= j -> j = grid p gmin (Z.abs m * 2 ^ j) ->
  4 * Z.abs (N - m * 2 ^ j) < 2 ^ j ->
  sRN p gmin N = m * 2 ^ j.
Proof.
  intros Hp Hm Hj Hcanon Hnear. pose proof (pow2_pos j Hj) as Hpj.
  assert (Hsame : 0 < m /\ 0 < N \/ m < 0 /\ N < 0) by nia.
  unfold sRN. destruct Hsame as [[Hm0 HN] | [Hm0 HN]].
  - rewrite (proj2 (Z.ltb_ge N 0)) by lia.
    rewrite Z.abs_eq in Hcanon, Hm by lia.
    apply RN_near; (done || lia).
  - rewrite (proj2 (Z.ltb_lt N 0)) by lia.
    rewrite Z.abs_neq in Hcanon, Hm by lia.
    rewrite (RN_near p gmin (- m) j); lia.
Qed.

Lemma sRN_pow2 (p gmin k : Z) : 0 < p -> 0 <= k -> gmin <= k -> sRN p gmin (2 ^ k) = 2 ^ k.
Proof.
  intros Hp Hk Hg. rewrite <- (Z.mul_1_l (2 ^ k)). apply sRN_exact; try lia.
  assert (2 ^ 0 < 2 ^ p) by (apply Z.pow_lt_mono_r; lia). cbn in *. lia.
Qed.

(** A rounding does not leave an interval whose ends are powers of two. *)
Lemma sRN_bound (p gmin N k : Z) :
  0 < p -> 0 <= k -> gmin <= k -> Z.abs N <= 2 ^ k -> Z.abs (sRN p gmin N) <= 2 ^ k.
Proof.
  intros Hp Hk Hg HN.
  pose proof (sRN_mono p gmin N (2 ^ k) Hp ltac:(lia)) as Hhi.
  pose proof (sRN_mono p gmin (- 2 ^ k) N Hp ltac:(lia)) as Hlo.
  rewrite sRN_opp in Hlo. rewrite sRN_pow2 in Hhi, Hlo by done. lia.
Qed.

(** ** The roundings of the arithmetic *)

(** ** Digits *)

Lemma digits2_log2 (m : positive) : Z.pos (digits2_pos m) = Z.log2 (Z.pos m) + 1.
Proof.
  assert (Hsize : forall p, digits2_pos p = Pos.size p).
  { induction p as [p IH | p IH |]; cbn; rewrite ?IH; done. }
  rewrite Hsize. destruct m as [m | m |]; cbn; lia.
Qed.

Lemma Zdigits2_log2 (m : Z) : 0 < m -> Zdigits2 m = Z.log2 m + 1.
Proof. destruct m as [| m | m]; try lia. intros _. apply digits2_log2. Qed.

Lemma digits2_bounds (m : positive) :
  2 ^ (Z.pos (digits2_pos m) - 1) <= Z.pos m < 2 ^ Z.pos (digits2_pos m).
Proof.
  rewrite digits2_log2. replace (Z.log2 (Z.pos m) + 1 - 1) with (Z.log2 (Z.pos m)) by lia.
  apply log2_bounds. lia.
Qed.

(** ** Shifts *)

Lemma iter_pos_nat {A} (f : A -> A) (n : positive) (x : A) :
  SpecFloat.iter_pos f n x = Nat.iter (Pos.to_nat n) f x.
Proof.
  revert x. induction n as [n IH | n IH |]; intros x; cbn [SpecFloat.iter_pos].
  - rewrite !IH, Pos2Nat.inj_xI, <- Nat.iter_add, <- Nat.iter_succ_r.
    f_equal. lia.
  - rewrite !IH, Pos2Nat.inj_xO, <- Nat.iter_add. f_equal. lia.
  - done.
Qed.

Lemma shr_1_spec (m : Z) (r s : bool) :
  0 <= m ->
  shr_1 (Build_shr_record m r s) = Build_shr_record (m / 2) (Z.odd m) (r || s).
Proof.
  intros Hm. rewrite <- Z.div2_div.
  destruct m as [| [p | p |] | p]; try lia; done.
Qed.

(** The state after [n] one-bit shifts of [M]: the quotient, the first
    bit shifted out, and whether a later one was set. *)
Lemma shr_iter (M : Z) (n : nat) :
  0 <= M ->
  exists m (r s : bool) t,
    Nat.iter (S n) shr_1 (Build_shr_record M false false) = Build_shr_record m r s
    /\ 0 <= m
    /\ M = m * 2 ^ Z.of_nat (S n) + (if r then 2 ^ Z.of_nat n else 0) + t
    /\ 0 <= t < 2 ^ Z.of_nat n
    /\ s = (0 <? t).
Proof.
  intros HM. induction n as [| n IH].
  - cbn [Nat.iter]. rewrite shr_1_spec by done.
    exists (M / 2), (Z.odd M), false, 0. split; [done|].
    split; [apply Z.div_pos; lia|].
    change (2 ^ Z.of_nat 1) with 2. change (2 ^ Z.of_nat 0) with 1.
    pose proof (Z.div_mod M 2 ltac:(lia)) as Hdm. rewrite Zmod_odd in Hdm.
    destruct (Z.odd M); repeat split; lia.
  - destruct IH as (m & r & s & t & Hit & Hm & HMeq & Ht & Hs).
    rewrite Nat.iter_succ, Hit, shr_1_spec by done.
    exists (m / 2), (Z.odd m), (r || s), ((if r then 2 ^ Z.of_nat n else 0) + t).
    split; [done|]. split; [apply Z.div_pos; lia|].
    pose proof (Z.div_mod m 2 ltac:(lia)) as Hdm. rewrite Zmod_odd in Hdm.
    pose proof (pow2_pos (Z.of_nat n) ltac:(lia)) as Hp.
    assert (Hp1 : 2 ^ Z.of_nat (S n) = 2 * 2 ^ Z.of_nat n).
    { rewrite Nat2Z.inj_succ, Z.pow_succ_r by lia. done. }
    assert (Hp2 : 2 ^ Z.of_nat (S (S n)) = 2 * 2 ^ Z.of_nat (S n)).
    { rewrite (Nat2Z.inj_succ (S n)), Z.pow_succ_r by lia. done. }
    rewrite Hp2, Hp1 in *. subst s.
    destruct (Z.odd m), r; cbn [orb]; repeat split; try nia;
      destruct (Z.ltb_spec 0 t); destruct (Z.ltb_spec 0 (2 ^ Z.of_nat n + t));
      destruct (Z.ltb_spec 0 (0 + t)); try done; lia.
Qed.

(** [k] one-bit shifts followed by the choice of the nearest even
    mantissa round [M] to a multiple of [2^k]. *)
Lemma shr_round (M : Z) (k : positive) :
  0 <= M ->
  let mrs := SpecFloat.iter_pos shr_1 k (Build_shr_record M false false) in
  let m' := round_nearest_even (shr_m mrs) (loc_of_shr_record mrs) in
  0 <= m' /\ m' * 2 ^ Z.pos k = rne M (Z.pos k).
Proof.
  intros HM. cbv zeta. rewrite iter_pos_nat.
  destruct (Pos2Nat.is_succ k) as [n Hn]. rewrite Hn.
  destruct (shr_iter M n HM) as (m & r & s & t & -> & Hm & HMeq & Ht & Hs).
  assert (Hk : Z.pos k = Z.of_nat (S n)) by lia.
  rewrite Hk. clear Hk Hn k.
  pose proof (pow2_pos (Z.of_nat n) ltac:(lia)) as Hp.
  assert (Hp1 : 2 ^ Z.of_nat (S n) = 2 * 2 ^ Z.of_nat n).
  { rewrite Nat2Z.inj_succ, Z.pow_succ_r by lia. done. }
  unfold rne. rewrite (proj2 (Z.leb_gt (Z.of_nat (S n)) 0)) by lia. cbv zeta.
  replace (Z.of_nat (S n) - 1) with (Z.of_nat n) by lia.
  set (rem := (if r then 2 ^ Z.of_nat n else 0) + t).
  assert (Hq : M / 2 ^ Z.of_nat (S n) = m).
  { symmetry. apply (Z.div_unique M _ m rem); [|lia].
    unfold rem. destruct r; lia. }
  assert (Hr : M mod 2 ^ Z.of_nat (S n) = rem).
  { symmetry. apply (Z.mod_unique M _ m rem); [|lia].
    unfold rem. destruct r; lia. }
  rewrite Hq, Hr. unfold rem. cbn [shr_m loc_of_shr_record]. subst s.
  destruct r; destruct (Z.ltb_spec 0 t); cbn [round_nearest_even].
  - rewrite (proj2 (Z.ltb_ge _ _)) by lia. rewrite (proj2 (Z.ltb_lt _ _)) by lia.
    split; [lia | done].
  - assert (t = 0) as -> by lia. rewrite Z.add_0_r, !Z.ltb_irrefl. destruct (Z.even m); split; (lia || done).
  - rewrite (proj2 (Z.ltb_lt _ _)) by lia. split; [lia | done].
  - rewrite (proj2 (Z.ltb_lt _ _)) by lia. split; [lia | done].
Qed.

Lemma iter_xO (m d : positive) : Z.pos (Pos.iter xO m d) = Z.pos m * 2 ^ Z.pos d.
Proof.
  induction d as [| d IH] using Pos.peano_ind.
  - cbn. lia.
  - rewrite Pos.iter_succ, Pos2Z.inj_xO, IH, Pos2Z.inj_succ, Z.pow_succ_r by lia. lia.
Qed.

Lemma shl_align_spec (m : positive) (e e' : Z) :
  let '(m1, e1) := shl_align m e e' in
  e1 = Z.min e e' /\ Z.pos m1 = Z.pos m * 2 ^ (e - e1).
Proof.
  unfold shl_align. destruct (e' - e) as [| d | d] eqn:E.
  - split; [lia|]. rewrite Z.sub_diag. lia.
  - split; [lia|]. rewrite Z.sub_diag. lia.
  - split; [lia|]. rewrite iter_xO. do 2 f_equal. lia.
Qed.

Lemma pow2_add (a b : Z) : 0 <= a -> 0 <= b -> 2 ^ (a + b) = 2 ^ a * 2 ^ b.
Proof. intros. by apply Z.pow_add_r. Qed.

Lemma pow2_le (a b : Z) : a <= b -> 2 ^ a <= 2 ^ b.
Proof.
  intros Hab. destruct (Z_lt_le_dec a 0).
  - rewrite (Z.pow_neg_r 2 a) by done. apply Z.pow_nonneg. lia.
  - apply Z.pow_le_mono_r; lia.
Qed.

Lemma pow2_lt (a b : Z) : 0 <= b -> a < b -> 2 ^ a < 2 ^ b.
Proof.
  intros Hb Hab. destruct (Z_lt_le_dec a 0).
  - rewrite (Z.pow_neg_r 2 a) by done. by apply pow2_pos.
  - apply Z.pow_lt_mono_r; lia.
Qed.

Section Format.
Variables prec emax : Z.
Hypothesis Hprec : 0 < prec.
Hypothesis Hemax : prec < emax.

Local Abbreviation emin := (SpecFloat.emin prec emax).
Local Abbreviation fexp := (SpecFloat.fexp prec emax).

Lemma grid_fexp (U : Z) (m : positive) (e : Z) :
  U <= e ->
  grid prec (emin - U) (Z.pos m * 2 ^ (e - U))
  = fexp (Z.pos (digits2_pos m) + e) - U.
Proof.
  intros HU. unfold grid, SpecFloat.fexp.
  rewrite Z.log2_mul_pow2, digits2_log2 by lia. lia.
Qed.

(** A canonical mantissa has at most [prec] digits, and exactly [prec]
    above the smallest exponent. *)
Lemma canonical_digits (m : positive) (e : Z) :
  canonical_mantissa prec emax m e = true ->
  emin <= e /\ Z.pos (digits2_pos m) <= prec
  /\ (emin < e -> Z.pos (digits2_pos m) = prec).
Proof.
  unfold canonical_mantissa, SpecFloat.fexp. intros H%Z.eqb_eq. lia.
Qed.

Lemma canonical_range (U : Z) (m : positive) (e : Z) :
  canonical_mantissa prec emax m e = true -> U <= e ->
  (e <=? emax - prec) = (Z.pos m * 2 ^ (e - U) <? 2 ^ (emax - U)).
Proof.
  intros (Hemin & Hd & Hnorm)%canonical_digits HU.
  pose proof (digits2_bounds m) as [Hlo Hhi].
  pose proof (pow2_pos (e - U) ltac:(lia)) as Hpe.
  unfold SpecFloat.emin in *.
  destruct (Z.leb_spec e (emax - prec)) as [Hle | Hgt]; symmetry.
  - apply Z.ltb_lt.
    assert (2 ^ Z.pos (digits2_pos m) <= 2 ^ prec) by (by apply pow2_le).
    assert (2 ^ prec * 2 ^ (e - U) <= 2 ^ (emax - U)).
    { rewrite <- pow2_add by lia. apply pow2_le. lia. }
    nia.
  - apply Z.ltb_ge. rewrite Hnorm in Hlo by lia.
    assert (2 ^ (emax - U) <= 2 ^ (prec - 1) * 2 ^ (e - U)).
    { rewrite <- pow2_add by lia. apply pow2_le. lia. }
    nia.
Qed.

(** The last step of a rounding: a canonical mantissa and exponent are
    packed, or replaced by an infinity. *)
Lemma pack_rounds_to (U : Z) (s : bool) (m : positive) (e : Z) :
  canonical_mantissa prec emax m e = true -> U <= e ->
  rounds_to prec emax U s (Z.pos m * 2 ^ (e - U))
    (if e <=? emax - prec then S754_finite s m e else S754_infinity s).
Proof.
  intros Hcanon HU. rewrite (canonical_range U m e Hcanon HU).
  split; intros HR.
  - rewrite (proj2 (Z.ltb_lt _ _)) by done. cbn [Ieee.is_finite valid_binary sval].
    repeat split. unfold bounded. rewrite Hcanon, (canonical_range U m e Hcanon HU).
    by rewrite (proj2 (Z.ltb_lt _ _)).
  - by rewrite (proj2 (Z.ltb_ge _ _)).
Qed.

(** The first stage of [binary_round_aux]: the mantissa is shifted to
    the exponent of the format and rounded. *)
Lemma shr_fexp_round (m : positive) (e : Z) :
  let k := fexp (Z.pos (digits2_pos m) + e) - e in
  0 <= k ->
  exists mrs,
    shr_fexp prec emax (Z.pos m) e loc_Exact = (mrs, e + k)
    /\ 0 <= round_nearest_even (shr_m mrs) (loc_of_shr_record mrs)
    /\ round_nearest_even (shr_m mrs) (loc_of_shr_record mrs) * 2 ^ k
       = rne (Z.pos m) k.
Proof.
  intros k Hk. unfold shr_fexp. cbn [Zdigits2 shr_record_of_loc]. fold k.
  destruct k as [| kp | kp] eqn:E; [| |lia].
  - eexists. split; [cbn [shr]; f_equal; lia|].
    cbn [shr_m loc_of_shr_record round_nearest_even].
    rewrite rne_nonpos_grid by lia. lia.
  - eexists. split; [cbn [shr]; done|].
    apply shr_round. lia.
Qed.

Lemma shr_fexp_id (m e : Z) :
  fexp (Zdigits2 m + e) <= e ->
  shr_fexp prec emax m e loc_Exact = (Build_shr_record m false false, e).
Proof.
  intros Hk. unfold shr_fexp. cbn [shr_record_of_loc].
  destruct (fexp (Zdigits2 m + e) - e) eqn:E; try lia; done.
Qed.

Lemma binary_round_aux_spec (U : Z) (s : bool) (m : positive) (e : Z) :
  U <= e -> U <= emin -> e <= fexp (Z.pos (digits2_pos m) + e) ->
  rounds_to prec emax U s (RN prec (emin - U) (Z.pos m * 2 ^ (e - U)))
    (binary_round_aux prec emax s (Z.pos m) e loc_Exact).
Proof.
  intros HU HUmin Hk.
  pose proof (digits2_bounds m) as [Hlo Hhi].
  set (d := Z.pos (digits2_pos m)) in *.
  set (k := fexp (d + e) - e).
  assert (Hk0 : 0 <= k) by (unfold k; lia).
  destruct (shr_fexp_round m e Hk0) as (mrs & Hshr & Hm2 & Hrne).
  fold d k in Hshr, Hrne.
  unfold RN. rewrite grid_fexp by done. fold d.
  replace (fexp (d + e) - U) with (k + (e - U)) by (unfold k; lia).
  assert (HR : rne (Z.pos m * 2 ^ (e - U)) (k + (e - U)) = rne (Z.pos m) k * 2 ^ (e - U)).
  { destruct (Z.eq_dec k 0) as [Hk00 | Hkne].
    - rewrite Hk00, Z.add_0_l, (rne_nonpos_grid _ 0) by lia. apply rne_exact.
      + pose proof (pow2_pos (e - U) ltac:(lia)). lia.
      + intros _. by exists (Z.pos m).
    - apply rne_scale; lia. }
  rewrite HR, <- Hrne. clear HR.
  unfold binary_round_aux. rewrite Hshr.
  set (m2 := round_nearest_even (shr_m mrs) (loc_of_shr_record mrs)) in *.
  assert (Hm2le : m2 <= 2 ^ prec /\ (emin < e + k -> 2 ^ (prec - 1) <= m2)).
  { destruct (Z.eq_dec k 0) as [Hk00 | Hkne].
    - rewrite Hk00 in *. rewrite rne_nonpos_grid in Hrne by lia.
      assert (d <= prec) by (unfold k, SpecFloat.fexp in Hk00; lia).
      assert (2 ^ d <= 2 ^ prec) by (by apply pow2_le).
      split; [lia|]. intros Hnorm.
      assert (d = prec) as <- by (unfold k, SpecFloat.fexp in Hk00; lia). lia.
    - destruct (rne_quotient (Z.pos m) k ltac:(lia) ltac:(lia)) as (q & Hq & Hqb & _).
      pose proof (pow2_pos k Hk0) as Hpk.
      assert (q = m2) as -> by nia.
      assert (Hdk : d - k <= prec) by (unfold k, SpecFloat.fexp; lia).
      split.
      + assert (Z.pos m / 2 ^ k < 2 ^ prec); [|lia].
        apply Z.div_lt_upper_bound; [lia|].
        rewrite <- pow2_add by lia.
        assert (2 ^ d <= 2 ^ (k + prec)) by (apply pow2_le; lia). lia.
      + intros Hnorm.
        assert (Hdk' : d - k = prec) by (unfold k, SpecFloat.fexp in *; lia).
        assert (2 ^ (prec - 1) <= Z.pos m / 2 ^ k); [|lia].
        apply Z.div_le_lower_bound; [lia|].
        rewrite <- pow2_add by lia.
        replace (k + (prec - 1)) with (d - 1) by lia. done. }
  destruct Hm2le as [Hm2le Hm2ge].
  assert (He1 : emin <= e + k) by (unfold k, SpecFloat.fexp; lia).
  destruct (Z.eq_dec m2 (2 ^ prec)) as [Hcarry | Hnocarry].
  - (* the rounded mantissa needs one more digit *)
    assert (Hdig : Zdigits2 m2 = prec + 1).
    { rewrite Zdigits2_log2 by (rewrite Hcarry; apply pow2_pos; lia).
      rewrite Hcarry, Z.log2_pow2 by lia. done. }
    unfold shr_fexp. rewrite Hdig. cbn [shr_record_of_loc].
    replace (fexp (prec + 1 + (e + k)) - (e + k)) with 1
      by (unfold SpecFloat.fexp; lia).
    cbn [shr SpecFloat.iter_pos]. rewrite shr_1_spec by lia. cbn [shr_m].
    assert (Hhalf : m2 / 2 = 2 ^ (prec - 1)).
    { rewrite Hcarry, (pow2_half prec) by lia.
      rewrite Z.mul_comm, Z.div_mul by lia. done. }
    rewrite Hhalf.
    pose proof (pow2_pos (prec - 1) ltac:(lia)) as Hpp.
    destruct (2 ^ (prec - 1)) as [| m3 | m3] eqn:Em3; try lia.
    replace (m2 * 2 ^ k * 2 ^ (e - U)) with (Z.pos m3 * 2 ^ (e + k + 1 - U)).
    + apply pack_rounds_to; [|lia].
      unfold canonical_mantissa. apply Z.eqb_eq.
      rewrite digits2_log2, <- Em3, Z.log2_pow2 by lia.
      unfold SpecFloat.fexp. lia.
    + rewrite <- Em3, Hcarry, (pow2_half prec) by lia.
      replace (e + k + 1 - U) with (1 + k + (e - U)) by lia.
      rewrite !pow2_add by lia. change (2 ^ 1) with 2. lia.
  - destruct (Z.eq_dec m2 0) as [Hzero | Hpos].
    + rewrite shr_fexp_id.
      2:{ rewrite Hzero. cbn [Zdigits2]. unfold SpecFloat.fexp. lia. }
      cbn [shr_m]. rewrite Hzero. cbn.
      split; [|intros Hbig; unfold SpecFloat.emin in *;
                pose proof (pow2_pos (emax - U) ltac:(lia)); lia].
      intros _. by destruct s.
    + assert (Hdig : Zdigits2 m2 <= prec /\ (emin < e + k -> Zdigits2 m2 = prec)).
      { rewrite Zdigits2_log2 by lia. split.
        - assert (Z.log2 m2 < prec); [|lia]. apply Z.log2_lt_pow2; lia.
        - intros Hnorm. specialize (Hm2ge Hnorm).
          assert (Z.log2 m2 < prec) by (apply Z.log2_lt_pow2; lia).
          assert (prec - 1 <= Z.log2 m2) by (apply Z.log2_le_pow2; lia). lia. }
      rewrite shr_fexp_id by (unfold SpecFloat.fexp; lia).
      cbn [shr_m]. destruct m2 as [| m3 | m3] eqn:Em3; try lia.
      rewrite <- Z.mul_assoc, <- pow2_add by lia.
      replace (k + (e - U)) with (e + k - U) by lia.
      apply pack_rounds_to; [|lia].
      unfold canonical_mantissa. apply Z.eqb_eq.
      cbn [Zdigits2] in Hdig. unfold SpecFloat.fexp. lia.
Qed.

Lemma cond_Zopp_sRN (g : Z) (s : bool) (N : Z) :
  0 <= N -> cond_Zopp s (RN prec g N) = sRN prec g (cond_Zopp s N).
Proof.
  intros HN. destruct s; cbn [cond_Zopp].
  - by rewrite sRN_opp, sRN_nonneg.
  - by rewrite sRN_nonneg.
Qed.

Lemma abs_sRN (g : Z) (N : Z) : Z.abs (sRN prec g N) = RN prec g (Z.abs N).
Proof.
  unfold sRN. destruct (Z.ltb_spec N 0).
  - rewrite Z.abs_opp, (Z.abs_neq N) by lia.
    apply Z.abs_eq, RN_nonneg. lia.
  - rewrite (Z.abs_eq N) by lia. apply Z.abs_eq, RN_nonneg. lia.
Qed.

Lemma rounds_to_represents (U : Z) (s : bool) (R : Z) (x : spec_float) :
  rounds_to prec emax U s R x -> R < 2 ^ (emax - U) ->
  represents prec emax U x (cond_Zopp s R).
Proof. intros [Hfin _] HR. by apply Hfin. Qed.

Lemma binary_round_spec (U : Z) (s : bool) (m : positive) (e : Z) :
  U <= e -> U <= emin ->
  rounds_to prec emax U s (RN prec (emin - U) (Z.pos m * 2 ^ (e - U)))
    (binary_round prec emax s m e).
Proof.
  intros HU HUmin. unfold binary_round.
  pose proof (shl_align_spec m e (fexp (Z.pos (digits2_pos m) + e))) as Hshl.
  destruct (shl_align _ _ _) as [m1 e1]. destruct Hshl as [He1 Hm1].
  assert (Hfe : emin <= fexp (Z.pos (digits2_pos m) + e)) by (unfold SpecFloat.fexp; lia).
  assert (Hd1 : Z.pos (digits2_pos m1) = Z.pos (digits2_pos m) + (e - e1)).
  { rewrite !digits2_log2, Hm1, Z.log2_mul_pow2 by lia. lia. }
  replace (Z.pos m * 2 ^ (e - U)) with (Z.pos m1 * 2 ^ (e1 - U)).
  - apply binary_round_aux_spec; try lia.
    rewrite Hd1. replace (Z.pos (digits2_pos m) + (e - e1) + e1)
      with (Z.pos (digits2_pos m) + e) by lia. lia.
  - rewrite Hm1, <- Z.mul_assoc, <- pow2_add by lia. do 2 f_equal. lia.
Qed.

Lemma binary_normalize_spec (U : Z) (z e : Z) :
  U <= e -> U <= emin ->
  Z.abs (sRN prec (emin - U) (z * 2 ^ (e - U))) < 2 ^ (emax - U) ->
  represents prec emax U (binary_normalize prec emax z e false)
    (sRN prec (emin - U) (z * 2 ^ (e - U))).
Proof.
  intros HU HUmin Hfit. pose proof (pow2_pos (e - U) ltac:(lia)) as Hp.
  rewrite abs_sRN in Hfit.
  destruct z as [| m | m]; cbn [binary_normalize].
  - rewrite Z.mul_0_l, sRN_0. done.
  - rewrite sRN_nonneg by lia.
    apply (rounds_to_represents U false); [by apply binary_round_spec|].
    rewrite Z.abs_eq in Hfit by lia. done.
  - replace (Z.neg m * 2 ^ (e - U)) with (- (Z.pos m * 2 ^ (e - U))) in * by lia.
    rewrite sRN_opp, sRN_nonneg by lia.
    apply (rounds_to_represents U true); [by apply binary_round_spec|].
    rewrite Z.abs_opp, Z.abs_eq in Hfit by lia. done.
Qed.

(** A value of the format is not changed by a rounding to a format
    that is at least as wide. *)
Lemma represents_exact_wider (prec' g U : Z) (x : spec_float) (X : Z) :
  represents prec emax U x X -> U <= emin -> prec <= prec' -> g <= emin - U ->
  sRN prec' g X = X.
Proof.
  intros (Hfin & Hvalid & <-) HUmin Hp Hg.
  destruct x as [s | s | | s m e]; try done; cbn [sval].
  1: { apply sRN_0. }
  cbn [valid_binary] in Hvalid. unfold bounded in Hvalid.
  apply andb_true_iff in Hvalid as [(Hemin & Hd & _)%canonical_digits _].
  pose proof (digits2_bounds m) as [_ Hhi].
  assert (2 ^ Z.pos (digits2_pos m) <= 2 ^ prec') by (apply pow2_le; lia).
  replace (cond_Zopp s (Z.pos m * 2 ^ (e - U)))
    with ((cond_Zopp s (Z.pos m)) * 2 ^ (e - U)) by (destruct s; cbn; lia).
  apply sRN_exact; try lia. destruct s; cbn [cond_Zopp]; lia.
Qed.

Lemma represents_exact (U : Z) (x : spec_float) (X : Z) :
  represents prec emax U x X -> U <= emin ->
  sRN prec (emin - U) X = X.
Proof. intros Hx HU. apply (represents_exact_wider _ _ U x); (done || lia). Qed.

(** The values of the format are below [2^emax]. *)
Lemma represents_bound (U : Z) (x : spec_float) (X : Z) :
  represents prec emax U x X -> U <= emin -> Z.abs X < 2 ^ (emax - U).
Proof.
  intros (Hfin & Hvalid & <-) HUmin.
  destruct x as [s | s | | s m e]; try done; cbn [sval].
  1: { unfold SpecFloat.emin in HUmin. apply pow2_pos. lia. }
  cbn [valid_binary] in Hvalid. unfold bounded in Hvalid.
  apply andb_true_iff in Hvalid as [Hcanon Hle].
  pose proof (canonical_digits _ _ Hcanon) as (Hemin & _).
  rewrite (canonical_range U m e Hcanon ltac:(lia)) in Hle. apply Z.ltb_lt in Hle.
  pose proof (pow2_pos (e - U) ltac:(lia)).
  destruct s; cbn [cond_Zopp]; lia.
Qed.

Lemma represents_scale (U c : Z) (x : spec_float) (X : Z) :
  represents prec emax U x X -> U <= emin -> 0 <= c ->
  represents prec emax (U - c) x (X * 2 ^ c).
Proof.
  intros (Hfin & Hvalid & <-) HUmin Hc. split; [done|]. split; [done|].
  destruct x as [s | s | | s m e]; try done; cbn [sval].
  cbn [valid_binary] in Hvalid. unfold bounded in Hvalid.
  apply andb_true_iff in Hvalid as [(Hemin & _)%canonical_digits _].
  replace (e - (U - c)) with ((e - U) + c) by lia. rewrite pow2_add by lia.
  destruct s; cbn [cond_Zopp]; lia.
Qed.

Lemma represents_zero (U : Z) (s : bool) : represents prec emax U (S754_zero s) 0.
Proof. done. Qed.

Lemma valid_exponent (x : spec_float) :
  valid_binary prec emax x = true -> exponent_above emin x.
Proof.
  destruct x as [| | | s m e]; try done. cbn. unfold bounded.
  intros [(Hemin & _)%canonical_digits _]%andb_true_iff. done.
Qed.

Lemma exponent_above_le (U U' : Z) (x : spec_float) :
  U' <= U -> exponent_above U x -> exponent_above U' x.
Proof. destruct x; cbn; lia. Qed.

(** Conversion into the format *)
Lemma cast_spec (U : Z) (x : spec_float) :
  Ieee.is_finite x = true -> exponent_above U x -> U <= emin ->
  Z.abs (sRN prec (emin - U) (sval U x)) < 2 ^ (emax - U) ->
  represents prec emax U
    (match x with S754_finite s m e => binary_round prec emax s m e | _ => x end)
    (sRN prec (emin - U) (sval U x)).
Proof.
  intros Hfin HU HUmin Hfit.
  destruct x as [s | s | | s m e]; try done.
  - cbn [sval]. rewrite sRN_0. done.
  - cbn [sval] in *. cbn in HU. pose proof (pow2_pos (e - U) ltac:(lia)) as Hp.
    rewrite <- cond_Zopp_sRN in * by lia.
    apply rounds_to_represents; [by apply binary_round_spec|].
    pose proof (RN_nonneg prec (emin - U) (Z.pos m * 2 ^ (e - U)) ltac:(lia)).
    destruct s; cbn [cond_Zopp] in Hfit; lia.
Qed.

(** Multiplication *)
Lemma SFmul_spec (U : Z) (x y : spec_float) (X Y : Z) :
  represents prec emax U x X -> represents prec emax U y Y ->
  U <= emin ->
  Z.abs (sRN prec (emin - 2 * U) (X * Y)) < 2 ^ (emax - 2 * U) ->
  represents prec emax (2 * U) (SFmul prec emax x y) (sRN prec (emin - 2 * U) (X * Y)).
Proof.
  intros (Hfx & Hvx & <-) (Hfy & Hvy & <-) HU Hfit.
  assert (Hemin0 : emin <= 0) by (unfold SpecFloat.emin; lia).
  destruct x as [sx | sx | | sx mx ex], y as [sy | sy | | sy my ey]; try done;
    cbn [sval SFmul] in *;
    rewrite ?Z.mul_0_l, ?Z.mul_0_r, ?sRN_0 in *; try done.
  unfold bounded in Hvx, Hvy.
  apply andb_true_iff in Hvx as [(Hex & Hdx & Hnx)%canonical_digits _].
  apply andb_true_iff in Hvy as [(Hey & Hdy & Hny)%canonical_digits _].
  pose proof (pow2_pos (ex - U) ltac:(lia)) as Hpx.
  pose proof (pow2_pos (ey - U) ltac:(lia)) as Hpy.
  assert (Hval : cond_Zopp sx (Z.pos mx * 2 ^ (ex - U)) * cond_Zopp sy (Z.pos my * 2 ^ (ey - U))
                 = cond_Zopp (xorb sx sy) (Z.pos (mx * my) * 2 ^ (ex + ey - 2 * U))).
  { replace (ex + ey - 2 * U) with ((ex - U) + (ey - U)) by lia.
    rewrite pow2_add, Pos2Z.inj_mul by lia.
    destruct sx, sy; cbn [cond_Zopp xorb]; lia. }
  rewrite Hval in *.
  pose proof (pow2_pos (ex + ey - 2 * U) ltac:(lia)) as Hpe.
  rewrite <- cond_Zopp_sRN in * by lia.
  apply rounds_to_represents.
  - apply binary_round_aux_spec; try lia.
    assert (Hdig : Z.pos (digits2_pos mx) + Z.pos (digits2_pos my) - 1
                   <= Z.pos (digits2_pos (mx * my))).
    { rewrite !digits2_log2, Pos2Z.inj_mul.
      pose proof (Z.log2_mul_below (Z.pos mx) (Z.pos my) ltac:(lia) ltac:(lia)). lia. }
    pose proof (Pos2Z.is_pos (digits2_pos mx)). pose proof (Pos2Z.is_pos (digits2_pos my)).
    unfold SpecFloat.fexp. lia.
  - pose proof (RN_nonneg prec (emin - 2 * U) (Z.pos (mx * my) * 2 ^ (ex + ey - 2 * U)) ltac:(lia)).
    destruct (xorb sx sy); cbn [cond_Zopp] in Hfit; lia.
Qed.

Lemma shl_align_fst (m : positive) (e e' : Z) :
  e' <= e -> Z.pos (fst (shl_align m e e')) = Z.pos m * 2 ^ (e - e').
Proof.
  intros He. pose proof (shl_align_spec m e e') as Hs.
  destruct (shl_align m e e') as [m1 e1]. destruct Hs as [-> Hm1].
  cbn [fst]. rewrite Hm1. do 2 f_equal. lia.
Qed.

Lemma aligned_value (U : Z) (s : bool) (m : positive) (e e' : Z) :
  U <= e' -> e' <= e ->
  cond_Zopp s (Z.pos (fst (shl_align m e e'))) * 2 ^ (e' - U)
  = cond_Zopp s (Z.pos m * 2 ^ (e - U)).
Proof.
  intros HU He. rewrite shl_align_fst by done.
  replace (e - U) with ((e - e') + (e' - U)) by lia. rewrite pow2_add by lia.
  destruct s; cbn [cond_Zopp]; lia.
Qed.

(** Addition and subtraction *)
Lemma SFadd_spec (U : Z) (x y : spec_float) (X Y : Z) :
  represents prec emax U x X -> represents prec emax U y Y ->
  U <= emin ->
  Z.abs (sRN prec (emin - U) (X + Y)) < 2 ^ (emax - U) ->
  represents prec emax U (SFadd prec emax x y) (sRN prec (emin - U) (X + Y)).
Proof.
  intros Hx Hy HU Hfit.
  assert (Hxe : sRN prec (emin - U) X = X).
  { by apply (represents_exact U x). }
  assert (Hye : sRN prec (emin - U) Y = Y).
  { by apply (represents_exact U y). }
  pose proof Hx as (Hfx & Hvx & HX). pose proof Hy as (Hfy & Hvy & HY).
  destruct x as [sx | sx | | sx mx ex], y as [sy | sy | | sy my ey]; try done;
    cbn [sval] in HX, HY; cbn [SFadd].
  - subst. rewrite sRN_0. by destruct sx, sy.
  - rewrite <- HX, Z.add_0_l, Hye. done.
  - rewrite <- HY, Z.add_0_r, Hxe. done.
  - apply valid_exponent in Hvx, Hvy. cbn in Hvx, Hvy.
    set (ez := Z.min ex ey).
    replace (X + Y) with
      ((cond_Zopp sx (Z.pos (fst (shl_align mx ex ez)))
        + cond_Zopp sy (Z.pos (fst (shl_align my ey ez)))) * 2 ^ (ez - U)) in *.
    + apply binary_normalize_spec; (done || lia).
    + rewrite Z.mul_add_distr_r, !aligned_value by lia. by rewrite HX, HY.
Qed.

Lemma SFsub_spec (U : Z) (x y : spec_float) (X Y : Z) :
  represents prec emax U x X -> represents prec emax U y Y ->
  U <= emin ->
  Z.abs (sRN prec (emin - U) (X - Y)) < 2 ^ (emax - U) ->
  represents prec emax U (SFsub prec emax x y) (sRN prec (emin - U) (X - Y)).
Proof.
  intros Hx Hy HU Hfit.
  assert (Hxe : sRN prec (emin - U) X = X).
  { by apply (represents_exact U x). }
  assert (Hye : sRN prec (emin - U) Y = Y).
  { by apply (represents_exact U y). }
  pose proof Hx as (Hfx & Hvx & HX). pose proof Hy as (Hfy & Hvy & HY).
  destruct x as [sx | sx | | sx mx ex], y as [sy | sy | | sy my ey]; try done;
    cbn [sval] in HX, HY; cbn [SFsub].
  - subst. rewrite sRN_0. by destruct sx, sy.
  - rewrite <- HX, Z.sub_0_l, sRN_opp, Hye. split; [done|]. split; [done|].
    cbn [sval]. rewrite <- HY. destruct sy; cbn [cond_Zopp negb]; lia.
  - rewrite <- HY, Z.sub_0_r, Hxe. done.
  - apply valid_exponent in Hvx, Hvy. cbn in Hvx, Hvy.
    set (ez := Z.min ex ey).
    replace (X - Y) with
      ((cond_Zopp sx (Z.pos (fst (shl_align mx ex ez)))
        - cond_Zopp sy (Z.pos (fst (shl_align my ey ez)))) * 2 ^ (ez - U)) in *.
    + apply binary_normalize_spec; (done || lia).
    + rewrite Z.mul_sub_distr_r, !aligned_value by lia. by rewrite HX, HY.
Qed.

(** Order *)
Lemma canonical_lt (U : Z) (m1 m2 : positive) (e1 e2 : Z) :
  canonical_mantissa prec emax m1 e1 = true ->
  canonical_mantissa prec emax m2 e2 = true ->
  U <= e1 -> e1 < e2 ->
  Z.pos m1 * 2 ^ (e1 - U) < Z.pos m2 * 2 ^ (e2 - U).
Proof.
  intros (H1 & Hd1 & _)%canonical_digits (H2 & Hd2 & Hn2)%canonical_digits HU Hlt.
  pose proof (digits2_bounds m1) as [_ Hhi]. pose proof (digits2_bounds m2) as [Hlo _].
  rewrite Hn2 in Hlo by lia.
  assert (2 ^ Z.pos (digits2_pos m1) <= 2 ^ prec) by (by apply pow2_le).
  pose proof (pow2_pos (e1 - U) ltac:(lia)). pose proof (pow2_pos (e2 - U) ltac:(lia)).
  assert (2 ^ prec * 2 ^ (e1 - U) <= 2 ^ (prec - 1) * 2 ^ (e2 - U)).
  { rewrite <- !pow2_add by lia. apply pow2_le. lia. }
  nia.
Qed.

Lemma SFcompare_spec (U : Z) (x y : spec_float) (X Y : Z) :
  represents prec emax U x X -> represents prec emax U y Y ->
  U <= emin ->
  SFcompare x y = Some (X ?= Y).
Proof.
  intros (Hfx & Hvx & <-) (Hfy & Hvy & <-) HU.
  destruct x as [sx | sx | | sx mx ex], y as [sy | sy | | sy my ey]; try done;
    cbn [sval SFcompare].
  - cbn in Hvy. unfold bounded in Hvy.
    apply andb_true_iff in Hvy as [(Hey & _)%canonical_digits _].
    pose proof (pow2_pos (ey - U) ltac:(lia)).
    f_equal. symmetry. destruct sy; cbn [cond_Zopp]; [apply Z.compare_gt_iff | apply Z.compare_lt_iff]; lia.
  - cbn in Hvx. unfold bounded in Hvx.
    apply andb_true_iff in Hvx as [(Hex & _)%canonical_digits _].
    pose proof (pow2_pos (ex - U) ltac:(lia)).
    f_equal. symmetry. destruct sx; cbn [cond_Zopp]; [apply Z.compare_lt_iff | apply Z.compare_gt_iff]; lia.
  - cbn in Hvx, Hvy. unfold bounded in Hvx, Hvy.
    apply andb_true_iff in Hvx as [Hcx _]. apply andb_true_iff in Hvy as [Hcy _].
    pose proof (canonical_digits _ _ Hcx) as (Hex & _).
    pose proof (canonical_digits _ _ Hcy) as (Hey & _).
    pose proof (pow2_pos (ex - U) ltac:(lia)). pose proof (pow2_pos (ey - U) ltac:(lia)).
    f_equal. symmetry.
    assert (Hcmp : match ex ?= ey with
                   | Lt => Z.pos mx * 2 ^ (ex - U) < Z.pos my * 2 ^ (ey - U)
                   | Gt => Z.pos my * 2 ^ (ey - U) < Z.pos mx * 2 ^ (ex - U)
                   | Eq => ex = ey
                   end).
    { destruct (Z.compare_spec ex ey); [done | |]; apply canonical_lt; (done || lia). }
    destruct sx, sy; cbn [cond_Zopp].
    + destruct (ex ?= ey) eqn:E.
      * subst ey. change (PosDef.Pos.compare_cont Eq mx my) with (Z.pos mx ?= Z.pos my).
        destruct (Z.compare_spec (Z.pos mx) (Z.pos my)) as [Heq | Hlt | Hgt]; cbn [CompOpp].
        -- apply Z.compare_eq_iff. rewrite Heq. done.
        -- apply Z.compare_gt_iff. nia.
        -- apply Z.compare_lt_iff. nia.
      * apply Z.compare_gt_iff. lia.
      * apply Z.compare_lt_iff. lia.
    + apply Z.compare_lt_iff. lia.
    + apply Z.compare_gt_iff. lia.
    + destruct (ex ?= ey) eqn:E.
      * subst ey. change (PosDef.Pos.compare_cont Eq mx my) with (Z.pos mx ?= Z.pos my).
        destruct (Z.compare_spec (Z.pos mx) (Z.pos my)) as [Heq | Hlt | Hgt].
        -- apply Z.compare_eq_iff. rewrite Heq. done.
        -- apply Z.compare_lt_iff. nia.
        -- apply Z.compare_gt_iff. nia.
      * apply Z.compare_lt_iff. lia.
      * apply Z.compare_gt_iff. lia.
Qed.

Lemma SFleb_spec (U : Z) (x y : spec_float) (X Y : Z) :
  represents prec emax U x X -> represents prec emax U y Y ->
  U <= emin ->
  SFleb x y = (X <=? Y).
Proof.
  intros Hx Hy HU. unfold SFleb. rewrite (SFcompare_spec U x y X Y) by done.
  unfold Z.leb. by destruct (X ?= Y).
Qed.

Lemma SFltb_spec (U : Z) (x y : spec_float) (X Y : Z) :
  represents prec emax U x X -> represents prec emax U y Y ->
  U <= emin ->
  SFltb x y = (X <? Y).
Proof.
  intros Hx Hy HU. unfold SFltb. rewrite (SFcompare_spec U x y X Y) by done.
  unfold Z.ltb. by destruct (X ?= Y).
Qed.

End Format.

(** Conversion of a value into a format that is at least as wide *)
Lemma cast_wider (p1 e1 p2 e2 U : Z) (x : spec_float) (X : Z) :
  0 < p1 -> p1 < e1 -> 0 < p2 -> p2 < e2 -> p1 <= p2 -> e1 <= e2 ->
  U <= emin p2 e2 ->
  represents p1 e1 U x X ->
  represents p2 e2 U
    (match x with S754_finite s m e => binary_round p2 e2 s m e | _ => x end) X.
Proof.
  intros Hp1 He1 Hp2 He2 Hp He HU Hx.
  assert (HU1 : U <= emin p1 e1) by (unfold emin in *; lia).
  pose proof (represents_exact_wider p1 e1 Hp1 p2 (emin p2 e2 - U) U x X Hx HU1 Hp
                ltac:(unfold emin; lia)) as Hexact.
  pose proof (represents_bound p1 e1 Hp1 He1 U x X Hx HU1) as Hbound.
  assert (2 ^ (e1 - U) <= 2 ^ (e2 - U)) by (apply pow2_le; lia).
  destruct Hx as (Hfin & Hvalid & HX).
  pose proof (cast_spec p2 e2 Hp2 He2 U x Hfin) as Hcast.
  rewrite HX, Hexact in Hcast. apply Hcast; [|done|lia].
  apply (exponent_above_le (emin p1 e1)); [done|]. by apply valid_exponent.
Qed.

(** A finite result of a conversion is a value of the format. *)
Lemma cast_valid (prec emax : Z) (x : spec_float) :
  0 < prec -> prec < emax ->
  let y := match x with S754_finite s m e => binary_round prec emax s m e | _ => x end in
  Ieee.is_finite y = true -> valid_binary prec emax y = true.
Proof.
  intros Hprec Hemax. destruct x as [s | s | | s m e]; try done. cbv zeta.
  pose proof (binary_round_spec prec emax Hprec Hemax (Z.min e (emin prec emax)) s m e
                ltac:(lia) ltac:(lia)) as [Hfin Hinf].
  set (R := RN _ _ _) in *. intros Hy.
  destruct (Z_lt_le_dec R (2 ^ (emax - Z.min e (emin prec emax)))) as [Hlt | Hge].
  - by apply Hfin.
  - rewrite (Hinf Hge) in Hy. done.
Qed.

(** ** The smoothing step on integers *)

Lemma unit64_pos : 0 < unit64.
Proof. by apply pow2_pos. Qed.

Lemma one_minus_bounds (A : Z) :
  0 <= A <= unit64 ->
  0 <= one_minus A <= unit64
  /\ 2 ^ 53 * Z.abs (A + one_minus A - unit64) <= 2 * unit64.
Proof.
  intros HA. unfold one_minus.
  pose proof (sRN_mono 53 0 0 (unit64 - A) ltac:(lia) ltac:(lia)) as Hlo.
  pose proof (sRN_mono 53 0 (unit64 - A) unit64 ltac:(lia) ltac:(lia)) as Hhi.
  rewrite sRN_0 in Hlo.
  assert (Hone : sRN 53 0 unit64 = unit64).
  { unfold unit64. rewrite <- (Z.mul_1_l (2 ^ 1074)) at 1 2.
    apply sRN_exact; cbn; lia. }
  rewrite Hone in Hhi.
  split; [lia|].
  pose proof (sRN_error 53 0 (unit64 - A) ltac:(lia)) as Herr.
  assert (2 ^ (53 + 0 - 1) <= unit64) by (apply pow2_le; lia).
  replace (A + sRN 53 0 (unit64 - A) - unit64)
    with (sRN 53 0 (unit64 - A) - (unit64 - A)) by lia.
  lia.
Qed.

Lemma blend_opp (A B N P : Z) : blend A B (- N) (- P) = - blend A B N P.
Proof.
  unfold blend, R32, R64.
  replace (A * - N) with (- (A * N)) by lia. replace (B * - P) with (- (B * P)) by lia.
  rewrite !sRN_opp.
  replace (- sRN 53 1074 (A * N) + - sRN 53 1074 (B * P))
    with (- (sRN 53 1074 (A * N) + sRN 53 1074 (B * P))) by lia.
  by rewrite !sRN_opp.
Qed.

Lemma blend_mono (A B N P N' P' : Z) :
  0 <= A -> 0 <= B -> N <= N' -> P <= P' -> blend A B N P <= blend A B N' P'.
Proof.
  intros HA HB HN HP. unfold blend, R32, R64.
  apply sRN_mono; [lia|]. apply sRN_mono; [lia|].
  pose proof (sRN_mono 53 1074 (A * N) (A * N') ltac:(lia) ltac:(nia)).
  pose proof (sRN_mono 53 1074 (B * P) (B * P') ltac:(lia) ltac:(nia)).
  lia.
Qed.

Lemma mul_bounds (a t x : Z) : 0 <= a <= t -> 0 <= x -> 0 <= a * x <= x * t.
Proof. nia. Qed.

Lemma mul_abs_bound (k e t x : Z) :
  k * Z.abs e <= 2 * t -> 0 <= x -> k * Z.abs (e * x) <= 2 * (x * t).
Proof. intros. rewrite Z.abs_mul, (Z.abs_eq x) by lia. nia. Qed.

(** The smoothing of a range with itself gives the range back: the
    three roundings in [double] move the exact value by less than a
    quarter of the spacing of [float] values. *)
Lemma blend_same_pos (A m c : Z) :
  0 <= A <= unit64 -> 0 < m < 2 ^ 24 -> 925 <= c -> c = grid 24 925 (m * 2 ^ c) ->
  blend A (one_minus A) (m * 2 ^ c) (m * 2 ^ c) = m * 2 ^ c * unit64.
Proof.
  intros HA Hm Hc Hcanon.
  destruct (one_minus_bounds A HA) as [HB Heps].
  set (B := one_minus A) in *. set (X := m * 2 ^ c).
  pose proof unit64_pos as HT.
  pose proof (pow2_pos c ltac:(lia)) as Hpc.
  assert (HX : 0 < X) by (unfold X; nia).
  set (j := c + 1074).
  assert (HXT : X * unit64 = m * 2 ^ j).
  { unfold X, unit64, j. rewrite pow2_add by lia. lia. }
  assert (Hj : j = grid 24 1999 (m * 2 ^ j)).
  { unfold j. rewrite pow2_add, Z.mul_assoc by lia.
    change 1999 with (925 + 1074). rewrite grid_scale by lia. lia. }
  unfold blend, R32. rewrite HXT.
  apply sRN_near; rewrite ?(Z.abs_eq m) by lia; [lia | lia | lia | done |].
  rewrite <- HXT. unfold R64.
  pose proof (sRN_error 53 1074 (A * X) ltac:(lia)) as He1.
  pose proof (sRN_error 53 1074 (B * X) ltac:(lia)) as He2.
  set (R1 := sRN 53 1074 (A * X)) in *. set (R2 := sRN 53 1074 (B * X)) in *.
  pose proof (sRN_error 53 1074 (R1 + R2) ltac:(lia)) as He3.
  set (R3 := sRN 53 1074 (R1 + R2)) in *.
  (* the smallest positive [float] is far above the spacing of [double] *)
  assert (HW : 2 ^ (53 + 1074 - 1) <= X * unit64).
  { rewrite HXT. assert (2 ^ (53 + 1074 - 1) <= 2 ^ j) by (apply pow2_le; lia).
    pose proof (pow2_pos j ltac:(lia)). nia. }
  set (W := 2 ^ (53 + 1074 - 1)) in *.
  assert (Heps' : 2 ^ 53 * Z.abs ((A + B - unit64) * X) <= 2 * (X * unit64)).
  { apply mul_abs_bound; [done | lia]. }
  assert (HAX : 0 <= A * X <= X * unit64) by (apply mul_bounds; lia).
  assert (HBX : 0 <= B * X <= X * unit64) by (apply mul_bounds; lia).
  rewrite (Z.abs_eq (A * X)) in He1 by lia. rewrite (Z.abs_eq (B * X)) in He2 by lia.
  assert (Hsplit : R3 - X * unit64
                   = (R3 - (R1 + R2)) + (R1 - A * X) + (R2 - B * X) + (A + B - unit64) * X)
    by lia.
  set (XT := X * unit64) in *. set (AX := A * X) in *. set (BX := B * X) in *.
  set (EX := (A + B - unit64) * X) in *.
  assert (Hspace : 64 * 2 ^ 24 * 2 ^ j <= 2 ^ 53 * 2 ^ j).
  { pose proof (pow2_pos j ltac:(lia)). change (2 ^ 24) with 16777216.
    change (2 ^ 53) with 9007199254740992. lia. }
  assert (HXTlt : XT < 2 ^ 24 * 2 ^ j).
  { rewrite HXT. apply Z.mul_lt_mono_pos_r; [apply pow2_pos|]; lia. }
  change (2 ^ 53) with 9007199254740992 in *.
  change (2 ^ 24) with 16777216 in *.
  clearbody W XT AX BX EX R1 R2 R3. clear Hj Hcanon HXT.
  set (J := 2 ^ j) in *. clearbody J.
  lia.
Qed.

Lemma blend_zero (A B : Z) : blend A B 0 0 = 0.
Proof. unfold blend, R32, R64. rewrite !Z.mul_0_r, !sRN_0. cbn [Z.add]. by rewrite ?sRN_0. Qed.

Lemma blend_same (A : Z) (x : spec_float) (X : Z) :
  0 <= A <= unit64 -> represents 24 128 (-1074) x X ->
  blend A (one_minus A) X X = X * unit64.
Proof.
  intros HA (Hfin & Hvalid & <-).
  destruct x as [s | s | | s m e]; try done; cbn [sval].
  1: { apply blend_zero. }
  cbn [valid_binary] in Hvalid. unfold bounded in Hvalid.
  apply andb_true_iff in Hvalid as [Hcanon _].
  pose proof (canonical_digits _ _ _ _ Hcanon) as (Hemin & Hd & _).
  unfold SpecFloat.emin in Hemin.
  pose proof (digits2_bounds m) as [_ Hhi].
  assert (2 ^ Z.pos (digits2_pos m) <= 2 ^ 24) by (by apply pow2_le).
  assert (Hgrid : e - -1074 = grid 24 925 (Z.pos m * 2 ^ (e - -1074))).
  { pose proof (grid_fexp 24 128 (-1074) m e ltac:(lia)) as Hg.
    change (SpecFloat.emin 24 128 - -1074) with 925 in Hg. rewrite Hg.
    unfold canonical_mantissa in Hcanon. apply Z.eqb_eq in Hcanon. lia. }
  pose proof (blend_same_pos A (Z.pos m) (e - -1074) HA ltac:(lia) ltac:(lia) Hgrid) as Hsame.
  destruct s; cbn [cond_Zopp]; [|done].
  rewrite blend_opp, Hsame. lia.
Qed.

(** The smoothed value lies between the two ranges. *)
Lemma blend_between (A : Z) (n p : spec_float) (N P : Z) :
  0 <= A <= unit64 ->
  represents 24 128 (-1074) n N -> represents 24 128 (-1074) p P ->
  Z.min N P * unit64 <= blend A (one_minus A) N P <= Z.max N P * unit64.
Proof.
  intros HA Hn Hp.
  destruct (one_minus_bounds A HA) as [HB _].
  pose proof (blend_same A n N HA Hn) as HsN. pose proof (blend_same A p P HA Hp) as HsP.
  destruct (Z_le_gt_dec N P) as [Hle | Hgt].
  - rewrite Z.min_l, Z.max_r by lia. rewrite <- HsN, <- HsP.
    split; apply blend_mono; lia.
  - rewrite Z.min_r, Z.max_l by lia. rewrite <- HsN, <- HsP.
    split; apply blend_mono; lia.
Qed.

(** The products and their sum stay in the range of [double]. *)
Lemma product_bound (A N : Z) :
  0 <= A <= unit64 -> Z.abs N < 2 ^ 1202 -> Z.abs (R64 (A * N)) <= 2 ^ 2276.
Proof.
  intros HA HN. apply sRN_bound; try lia.
  rewrite Z.abs_mul, (Z.abs_eq A) by lia.
  change (2 ^ 2276) with (unit64 * 2 ^ 1202).
  apply Z.mul_le_mono_nonneg; lia.
Qed.

Lemma sum_bound (R1 R2 : Z) :
  Z.abs R1 <= 2 ^ 2276 -> Z.abs R2 <= 2 ^ 2276 -> Z.abs (R64 (R1 + R2)) <= 2 ^ 2277.
Proof.
  intros H1 H2. apply sRN_bound; lia.
Qed.

(** ** The smoothing step of the bank *)

Lemma cast_F64 (p1 e1 U : Z) (x : spec_float) (X : Z) :
  0 < p1 -> p1 < e1 -> p1 <= 53 -> e1 <= 1024 -> U <= -1074 ->
  represents p1 e1 U x X -> represents 53 1024 U (Ieee.cast Ieee.F64 x) X.
Proof.
  intros. unfold Ieee.cast. cbn [Ieee.prec Ieee.emax].
  apply (cast_wider p1 e1); (done || lia || (unfold emin; lia)).
Qed.

Lemma one_value : represents 53 1024 (-1074) (Ieee.cast Ieee.F64 Lit.d1) unit64.
Proof. repeat split; vm_compute; reflexivity. Qed.

(** A weight between 0 and 1 *)
Lemma weight_value (alpha : float) :
  Ieee.leb Lit.d0 alpha = true -> Ieee.leb alpha Lit.d1 = true ->
  exists A, represents 53 1024 (-1074) (Ieee.cast Ieee.F64 alpha) A /\ 0 <= A <= unit64.
Proof.
  unfold Ieee.leb. intros H0 H1.
  assert (Hfin : Ieee.is_finite (Ieee.cast Ieee.F64 alpha) = true).
  { destruct (Ieee.cast Ieee.F64 alpha) as [s | [|] | | s m e]; try done. }
  pose proof (cast_valid 53 1024 alpha ltac:(lia) ltac:(lia) Hfin) as Hvalid.
  fold (Ieee.cast Ieee.F64 alpha) in Hvalid.
  set (a := Ieee.cast Ieee.F64 alpha) in *.
  assert (Ha : represents 53 1024 (-1074) a (sval (-1074) a)) by done.
  exists (sval (-1074) a). split; [done|].
  change (Ieee.cast Ieee.F64 Lit.d0) with (S754_zero false) in H0.
  rewrite (SFleb_spec 53 1024 ltac:(lia) (-1074) _ _ 0 _ (represents_zero 53 1024 (-1074) false) Ha)
    in H0 by (unfold emin; lia).
  rewrite (SFleb_spec 53 1024 ltac:(lia) (-1074) _ _ _ _ Ha one_value)
    in H1 by (unfold emin; lia).
  lia.
Qed.

Lemma float32_value (x : float) :
  float32 x = true -> represents 24 128 (-1074) x (sval (-1074) x).
Proof. unfold float32. intros [H1 H2]%andb_true_iff. done. Qed.

Lemma float32_bound (x : float) (X : Z) :
  represents 24 128 (-1074) x X -> Z.abs X < 2 ^ 1202.
Proof.
  intros Hx.
  exact (represents_bound 24 128 ltac:(lia) ltac:(lia) (-1074) x X Hx
           ltac:(unfold emin; lia)).
Qed.

Lemma scaled_bound (N P V H T : Z) :
  Z.min N P * T <= V <= Z.max N P * T -> Z.abs N < H -> Z.abs P < H -> 0 < T ->
  Z.abs V < H * T.
Proof.
  intros HV HN HP HT.
  destruct (Z.min_spec N P) as [[_ Hmin] | [_ Hmin]],
           (Z.max_spec N P) as [[_ Hmax] | [_ Hmax]];
    rewrite Hmin, Hmax in HV; nia.
Qed.

(** The value stored by the smoothing step, as an integer. *)
Lemma ema_blend_value (alpha n p : float) :
  Ieee.leb Lit.d0 alpha = true -> Ieee.leb alpha Lit.d1 = true ->
  float32 n = true -> float32 p = true ->
  exists A,
    0 <= A <= unit64
    /\ represents 24 128 (-2148)
         (ema_blend alpha (Ieee.sub Ieee.F64 Lit.d1 alpha) n p)
         (blend A (one_minus A) (sval (-1074) n) (sval (-1074) p)).
Proof.
  intros H0 H1 Hn%float32_value Hp%float32_value.
  destruct (weight_value alpha H0 H1) as (A & Ha & HA).
  exists A. split; [done|].
  set (N := sval (-1074) n) in *. set (P := sval (-1074) p) in *.
  destruct (one_minus_bounds A HA) as [HB _].
  pose proof (float32_bound n N Hn) as HNb. pose proof (float32_bound p P Hp) as HPb.
  pose proof (cast_F64 24 128 (-1074) n N ltac:(lia) ltac:(lia) ltac:(lia) ltac:(lia)
                ltac:(lia) Hn) as Hn64.
  pose proof (cast_F64 24 128 (-1074) p P ltac:(lia) ltac:(lia) ltac:(lia) ltac:(lia)
                ltac:(lia) Hp) as Hp64.
  (* the weight of the previous value *)
  assert (Hb : represents 53 1024 (-1074) (Ieee.sub Ieee.F64 Lit.d1 alpha) (one_minus A)).
  { unfold Ieee.sub. cbn [Ieee.prec Ieee.emax].
    apply (SFsub_spec 53 1024 ltac:(lia) ltac:(lia) (-1074) _ _ unit64 A one_value Ha).
    - unfold emin. lia.
    - change (Z.abs (one_minus A) < 2 ^ 2098).
      assert (unit64 < 2 ^ 2098) by (unfold unit64; apply pow2_lt; lia). lia. }
  pose proof (cast_F64 53 1024 (-1074) _ _ ltac:(lia) ltac:(lia) ltac:(lia) ltac:(lia)
                ltac:(lia) Hb) as Hb64.
  (* the two products *)
  pose proof (product_bound A N HA HNb) as HR1.
  pose proof (product_bound (one_minus A) P HB HPb) as HR2.
  assert (Hlt : 2 ^ 2277 < 2 ^ 3172) by (apply pow2_lt; lia).
  assert (Hle : 2 ^ 2276 <= 2 ^ 2277) by (apply pow2_le; lia).
  assert (HM1 : represents 53 1024 (-2148) (Ieee.mul Ieee.F64 alpha n) (R64 (A * N))).
  { unfold Ieee.mul. cbn [Ieee.prec Ieee.emax].
    apply (SFmul_spec 53 1024 ltac:(lia) ltac:(lia) (-1074) _ _ A N Ha Hn64).
    - unfold emin. lia.
    - change (Z.abs (R64 (A * N)) < 2 ^ 3172). lia. }
  assert (HM2 : represents 53 1024 (-2148)
                  (Ieee.mul Ieee.F64 (Ieee.sub Ieee.F64 Lit.d1 alpha) p)
                  (R64 (one_minus A * P))).
  { unfold Ieee.mul. cbn [Ieee.prec Ieee.emax].
    apply (SFmul_spec 53 1024 ltac:(lia) ltac:(lia) (-1074) _ _ _ P Hb64 Hp64).
    - unfold emin. lia.
    - change (Z.abs (R64 (one_minus A * P)) < 2 ^ 3172). lia. }
  pose proof (cast_F64 53 1024 (-2148) _ _ ltac:(lia) ltac:(lia) ltac:(lia) ltac:(lia)
                ltac:(lia) HM1) as HM1'.
  pose proof (cast_F64 53 1024 (-2148) _ _ ltac:(lia) ltac:(lia) ltac:(lia) ltac:(lia)
                ltac:(lia) HM2) as HM2'.
  (* their sum *)
  pose proof (sum_bound _ _ HR1 HR2) as HR3.
  set (D := Ieee.add Ieee.F64 (Ieee.mul Ieee.F64 alpha n)
              (Ieee.mul Ieee.F64 (Ieee.sub Ieee.F64 Lit.d1 alpha) p)).
  assert (HD : represents 53 1024 (-2148) D (R64 (R64 (A * N) + R64 (one_minus A * P)))).
  { unfold D, Ieee.add. cbn [Ieee.prec Ieee.emax].
    apply (SFadd_spec 53 1024 ltac:(lia) ltac:(lia) (-2148) _ _ _ _ HM1' HM2').
    - unfold emin. lia.
    - change (Z.abs (R64 (R64 (A * N) + R64 (one_minus A * P))) < 2 ^ 3172). lia. }
  (* the store into a [float] *)
  pose proof (blend_between A n p N P HA Hn Hp) as Hbetween.
  pose proof (scaled_bound N P _ (2 ^ 1202) unit64 Hbetween HNb HPb unit64_pos) as HVb.
  unfold ema_blend. fold D.
  destruct HD as (HDfin & HDvalid & HDval).
  pose proof (cast_spec 24 128 ltac:(lia) ltac:(lia) (-2148) D HDfin) as Hcast.
  rewrite HDval in Hcast. apply Hcast.
  - apply (exponent_above_le (emin 53 1024)); [unfold emin; lia|]. by apply valid_exponent.
  - unfold emin. lia.
  - change (Z.abs (blend A (one_minus A) N P) < 2 ^ 2276).
    change (2 ^ 2276) with (2 ^ 1202 * unit64). done.
Qed.

(** The value stored for two finite ranges is finite and lies between
    them. *)
Lemma blend_of_finite_ranges (alpha n p : float) :
  Ieee.leb Lit.d0 alpha = true -> Ieee.leb alpha Lit.d1 = true ->
  float32 n = true -> float32 p = true ->
  let v := ema_blend alpha (Ieee.sub Ieee.F64 Lit.d1 alpha) n p in
  float32 v = true /\ lies_between p n v = true.
Proof.
  intros H0 H1 Hn Hp v.
  destruct (ema_blend_value alpha n p H0 H1 Hn Hp) as (A & HA & Hv). fold v in Hv.
  apply float32_value in Hn, Hp.
  pose proof (blend_between A n p _ _ HA Hn Hp) as Hbetween.
  set (N := sval (-1074) n) in *. set (P := sval (-1074) p) in *.
  set (V := blend A (one_minus A) N P) in *.
  split.
  { unfold float32. destruct Hv as (Hfin & Hvalid & _).
    rewrite Hfin. done. }
  pose proof (represents_scale 24 128 (-1074) 1074 n N Hn ltac:(unfold emin; lia) ltac:(lia)) as Hn2.
  pose proof (represents_scale 24 128 (-1074) 1074 p P Hp ltac:(unfold emin; lia) ltac:(lia)) as Hp2.
  change (-1074 - 1074) with (-2148) in Hn2, Hp2. fold unit64 in Hn2, Hp2.
  pose proof (cast_F64 24 128 (-2148) _ _ ltac:(lia) ltac:(lia) ltac:(lia) ltac:(lia)
                ltac:(lia) Hn2) as Hn64.
  pose proof (cast_F64 24 128 (-2148) _ _ ltac:(lia) ltac:(lia) ltac:(lia) ltac:(lia)
                ltac:(lia) Hp2) as Hp64.
  pose proof (cast_F64 24 128 (-2148) _ _ ltac:(lia) ltac:(lia) ltac:(lia) ltac:(lia)
                ltac:(lia) Hv) as Hv64.
  assert (HU : -2148 <= emin 53 1024) by (unfold emin; lia).
  unfold lies_between, Ieee.leb.
  rewrite (SFleb_spec 53 1024 ltac:(lia) (-2148) _ _ _ _ Hp64 Hv64 HU).
  rewrite (SFleb_spec 53 1024 ltac:(lia) (-2148) _ _ _ _ Hv64 Hn64 HU).
  rewrite (SFleb_spec 53 1024 ltac:(lia) (-2148) _ _ _ _ Hn64 Hv64 HU).
  rewrite (SFleb_spec 53 1024 ltac:(lia) (-2148) _ _ _ _ Hv64 Hp64 HU).
  set (NT := N * unit64) in *. set (PT := P * unit64) in *.
  assert (Hcases : (PT <= V <= NT) \/ (NT <= V <= PT)).
  { unfold NT, PT.
    destruct (Z.min_spec N P) as [[_ Hmin] | [_ Hmin]],
             (Z.max_spec N P) as [[_ Hmax] | [_ Hmax]];
      rewrite Hmin, Hmax in Hbetween; lia. }
  clearbody NT PT V.
  destruct Hcases as [[? ?] | [? ?]].
  - rewrite (proj2 (Z.leb_le PT V)), (proj2 (Z.leb_le V NT)) by done. done.
  - rewrite (proj2 (Z.leb_le NT V)), (proj2 (Z.leb_le V PT)) by done.
    apply orb_true_r.
Qed.

(** *** Infinite ranges *)

(** A finite number of positive value has the sign plus and is no zero. *)
Lemma positive_shape (prec emax U : Z) (x : spec_float) (X : Z) :
  represents prec emax U x X -> 0 < X -> exists m e, x = S754_finite false m e.
Proof.
  intros (Hfin & _ & Hval) HX.
  destruct x as [s | s | | [|] m e]; cbn [sval cond_Zopp] in Hval; try done.
  - lia.
  - pose proof (Z.mul_nonneg_nonneg (Z.pos m) (2 ^ (e - U)) ltac:(lia)
                  (Z.pow_nonneg 2 (e - U) ltac:(lia))). lia.
  - by exists m, e.
Qed.

(** The weight of the previous range. *)
Lemma weight_prev_value (alpha : float) (A : Z) :
  represents 53 1024 (-1074) (Ieee.cast Ieee.F64 alpha) A -> 0 <= A <= unit64 ->
  represents 53 1024 (-1074) (Ieee.sub Ieee.F64 Lit.d1 alpha) (one_minus A).
Proof.
  intros Ha HA. destruct (one_minus_bounds A HA) as [HB _].
  unfold Ieee.sub. cbn [Ieee.prec Ieee.emax].
  apply (SFsub_spec 53 1024 ltac:(lia) ltac:(lia) (-1074) _ _ unit64 A one_value Ha).
  - unfold emin. lia.
  - change (Z.abs (one_minus A) < 2 ^ 2098).
    assert (unit64 < 2 ^ 2098) by (unfold unit64; apply pow2_lt; lia). lia.
Qed.

(** A weight above 0 is a positive finite number, and so is the weight
    of the previous range when [alpha] is below 1. *)
Lemma weight_positive (alpha : float) :
  Ieee.leb Lit.d0 alpha = true -> Ieee.leb alpha Lit.d1 = true ->
  Ieee.ltb Lit.d0 alpha = true ->
  exists m e, Ieee.cast Ieee.F64 alpha = S754_finite false m e.
Proof.
  intros H0 H1 Hlt. destruct (weight_value alpha H0 H1) as (A & Ha & HA).
  apply (positive_shape 53 1024 (-1074) _ A Ha).
  unfold Ieee.ltb in Hlt.
  change (Ieee.cast Ieee.F64 Lit.d0) with (S754_zero false) in Hlt.
  rewrite (SFltb_spec 53 1024 ltac:(lia) (-1074) _ _ 0 _
             (represents_zero 53 1024 (-1074) false) Ha) in Hlt by (unfold emin; lia).
  lia.
Qed.

Lemma weight_prev_positive (alpha : float) :
  Ieee.leb Lit.d0 alpha = true -> Ieee.leb alpha Lit.d1 = true ->
  Ieee.ltb alpha Lit.d1 = true ->
  exists m e,
    Ieee.cast Ieee.F64 (Ieee.sub Ieee.F64 Lit.d1 alpha) = S754_finite false m e.
Proof.
  intros H0 H1 Hlt. destruct (weight_value alpha H0 H1) as (A & Ha & HA).
  pose proof (weight_prev_value alpha A Ha HA) as Hb.
  pose proof (cast_F64 53 1024 (-1074) _ _ ltac:(lia) ltac:(lia) ltac:(lia) ltac:(lia)
                ltac:(lia) Hb) as Hb64.
  apply (positive_shape 53 1024 (-1074) _ _ Hb64).
  unfold Ieee.ltb in Hlt.
  rewrite (SFltb_spec 53 1024 ltac:(lia) (-1074) _ _ _ _ Ha one_value) in Hlt
    by (unfold emin; lia).
  apply Z.ltb_lt in Hlt. unfold one_minus.
  pose proof (sRN_mono 53 0 1 (unit64 - A) ltac:(lia) ltac:(lia)) as Hmono.
  change 1 with (2 ^ 0) in Hmono at 1. rewrite sRN_pow2 in Hmono by lia.
  change (2 ^ 0) with 1 in Hmono. lia.
Qed.

(** The product of a weight and a finite range is finite. *)
Lemma weighted_finite (w x : float) (W : Z) :
  represents 53 1024 (-1074) (Ieee.cast Ieee.F64 w) W -> 0 <= W <= unit64 ->
  float32 x = true ->
  Ieee.is_finite (Ieee.cast Ieee.F64 (Ieee.mul Ieee.F64 w x)) = true.
Proof.
  intros Hw HW Hx%float32_value.
  pose proof (float32_bound x _ Hx) as Hb.
  pose proof (cast_F64 24 128 (-1074) x _ ltac:(lia) ltac:(lia) ltac:(lia) ltac:(lia)
                ltac:(lia) Hx) as Hx64.
  pose proof (product_bound W _ HW Hb) as HR.
  assert (Hlt : 2 ^ 2276 < 2 ^ 3172) by (apply pow2_lt; lia).
  assert (HM : represents 53 1024 (-2148) (Ieee.mul Ieee.F64 w x)
                 (R64 (W * sval (-1074) x))).
  { unfold Ieee.mul. cbn [Ieee.prec Ieee.emax].
    apply (SFmul_spec 53 1024 ltac:(lia) ltac:(lia) (-1074) _ _ W _ Hw Hx64).
    - unfold emin. lia.
    - change (Z.abs (R64 (W * sval (-1074) x)) < 2 ^ 3172). lia. }
  pose proof (cast_F64 53 1024 (-2148) _ _ ltac:(lia) ltac:(lia) ltac:(lia) ltac:(lia)
                ltac:(lia) HM) as (Hfin & _). done.
Qed.

(** The products and the sums with an infinity. *)
Lemma weighted_infinity (w : float) (s : bool) :
  (exists m e, Ieee.cast Ieee.F64 w = S754_finite false m e) ->
  Ieee.mul Ieee.F64 w (S754_infinity s) = S754_infinity s.
Proof. intros (m & e & Hw). unfold Ieee.mul. rewrite Hw. by destruct s. Qed.

Lemma add_infinity_l (s : bool) (y : float) :
  Ieee.is_finite (Ieee.cast Ieee.F64 y) = true ->
  Ieee.add Ieee.F64 (S754_infinity s) y = S754_infinity s.
Proof.
  intros Hy. unfold Ieee.add. by destruct (Ieee.cast Ieee.F64 y).
Qed.

Lemma add_infinity_r (s : bool) (x : float) :
  Ieee.is_finite (Ieee.cast Ieee.F64 x) = true ->
  Ieee.add Ieee.F64 x (S754_infinity s) = S754_infinity s.
Proof.
  intros Hx. unfold Ieee.add. by destruct (Ieee.cast Ieee.F64 x).
Qed.

(** Every finite range lies between the two infinities. *)
Lemma leb_infinity (x : float) :
  float32 x = true ->
  Ieee.leb x (S754_infinity false) = true /\ Ieee.leb (S754_infinity true) x = true.
Proof.
  intros Hx%float32_value.
  pose proof (cast_F64 24 128 (-1074) x _ ltac:(lia) ltac:(lia) ltac:(lia) ltac:(lia)
                ltac:(lia) Hx) as (Hfin & _).
  unfold Ieee.leb. by destruct (Ieee.cast Ieee.F64 x).
Qed.


(** What the smoothing loops store *)

Lemma get_set_other {A} `{Inhabited A} (a : list A) (i j : Z) (x : A) :
  i <> j -> C.get (C.set a i x) j = C.get a j.
Proof.
  intros Hij. unfold C.get, C.set.
  destruct (Z.ltb_spec j 0); [done|]. destruct (Z.ltb_spec i 0); [done|].
  apply list_lookup_total_insert_ne. lia.
Qed.

Lemma get_set_same {A} `{Inhabited A} (a : list A) (i : Z) (x : A) :
  0 <= i < Z.of_nat (length a) -> C.get (C.set a i x) i = x.
Proof.
  intros Hi. unfold C.get, C.set. rewrite (proj2 (Z.ltb_ge i 0)) by lia.
  apply list_lookup_total_insert_eq. lia.
Qed.

Lemma length_set {A} (a : list A) (i : Z) (x : A) : length (C.set a i x) = length a.
Proof. unfold C.set. destruct (i <? 0); [done|]. apply length_insert. Qed.

Lemma set_outside {A} (a : list A) (i : Z) (x : A) :
  ~ 0 <= i < Z.of_nat (length a) -> C.set a i x = a.
Proof.
  intros Hi. unfold C.set. destruct (Z.ltb_spec i 0); [done|].
  apply list_insert_ge. lia.
Qed.

(** One assignment [bank_ranges_ema[put][k] = x]. *)
Lemma put_range_other_level (b : Bank) (put level k i : Z) (x : float) :
  put <> level -> range_at (put_range b put k x) level i = range_at b level i.
Proof.
  intros Hne. unfold range_at, put_range, C.get2, C.set2. cbn [bank_ranges_ema with_ranges].
  by rewrite get_set_other.
Qed.

Lemma put_range_other_index (b : Bank) (put k i : Z) (x : float) :
  k <> i -> range_at (put_range b put k x) put i = range_at b put i.
Proof.
  intros Hne. unfold range_at, put_range, C.get2, C.set2. cbn [bank_ranges_ema with_ranges].
  destruct (decide (0 <= put < Z.of_nat (length (bank_ranges_ema b)))) as [Hin | Hout].
  - rewrite get_set_same by done. by rewrite get_set_other.
  - by rewrite set_outside.
Qed.

Lemma put_range_same (b : Bank) (put k : Z) (x : float) :
  0 <= put < Z.of_nat (length (bank_ranges_ema b)) ->
  0 <= k < Z.of_nat (length (C.get (bank_ranges_ema b) put)) ->
  range_at (put_range b put k x) put k = x.
Proof.
  intros Hput Hk. unfold range_at, put_range, C.get2, C.set2.
  cbn [bank_ranges_ema with_ranges]. by rewrite !get_set_same.
Qed.

Lemma put_range_lengths (b : Bank) (put k : Z) (x : float) :
  length (bank_ranges_ema (put_range b put k x)) = length (bank_ranges_ema b)
  /\ length (C.get (bank_ranges_ema (put_range b put k x)) put)
     = length (C.get (bank_ranges_ema b) put).
Proof.
  unfold put_range, C.set2. cbn [bank_ranges_ema with_ranges].
  split; [apply length_set|].
  destruct (decide (0 <= put < Z.of_nat (length (bank_ranges_ema b)))) as [Hin | Hout].
  - rewrite get_set_same by done. apply length_set.
  - by rewrite set_outside.
Qed.

(** A loop that assigns [g b k] to [bank_ranges_ema[put][k]] for the
    indices [k] of a list. *)
Section StoreLoop.
Variables (put newest : Z) (g : Bank -> Z -> float).
Hypothesis Hdistinct : put <> newest.

Local Abbreviation step := (fun b k => put_range b put k (g b k)).

Lemma store_loop_newest (l : list Z) (b : Bank) (i : Z) :
  range_at (foldl step b l) newest i = range_at b newest i.
Proof.
  revert b. induction l as [| k l IH]; intros b; [done|].
  cbn [foldl]. rewrite IH. by apply put_range_other_level.
Qed.

Lemma store_loop_untouched (l : list Z) (b : Bank) (i : Z) :
  i ∉ l -> range_at (foldl step b l) put i = range_at b put i.
Proof.
  revert b. induction l as [| k l IH]; intros b Hi; [done|].
  apply not_elem_of_cons in Hi as [Hne Hi].
  cbn [foldl]. rewrite IH by done. apply put_range_other_index. lia.
Qed.

Lemma store_loop_lengths (l : list Z) (b : Bank) :
  length (bank_ranges_ema (foldl step b l)) = length (bank_ranges_ema b)
  /\ length (C.get (bank_ranges_ema (foldl step b l)) put)
     = length (C.get (bank_ranges_ema b) put).
Proof.
  revert b. induction l as [| k l IH]; intros b; [done|].
  cbn [foldl]. destruct (IH (put_range b put k (g b k))) as [-> ->].
  apply put_range_lengths.
Qed.

(** The value stored at index [i] is the one computed when the loop
    reaches [i], from the bank as it is then: the slots other than
    [put] as at the start, and the slot [put] at [i] as at the start. *)
Lemma store_loop_written (l : list Z) (b : Bank) (i : Z) :
  NoDup l -> i ∈ l ->
  0 <= put < Z.of_nat (length (bank_ranges_ema b)) ->
  (forall k, k ∈ l -> 0 <= k < Z.of_nat (length (C.get (bank_ranges_ema b) put))) ->
  exists b',
    range_at (foldl step b l) put i = g b' i
    /\ range_at b' put i = range_at b put i
    /\ (forall j, range_at b' newest j = range_at b newest j)
    /\ bank_argument b' = bank_argument b
    /\ bank_index_put b' = bank_index_put b
    /\ bank_index_newest b' = bank_index_newest b.
Proof.
  revert b. induction l as [| k l IH]; intros b Hnodup Hi Hput Hks.
  { by apply elem_of_nil in Hi. }
  apply NoDup_cons in Hnodup as [Hk Hnodup].
  cbn [foldl]. apply elem_of_cons in Hi as [-> | Hi].
  - exists b. rewrite store_loop_untouched by done.
    rewrite put_range_same; [done | done |]. apply Hks. by left.
  - assert (Hne : k <> i) by (intros ->; done).
    destruct (put_range_lengths b put k (g b k)) as [Hlen Hlen'].
    destruct (IH (put_range b put k (g b k)) Hnodup Hi) as (b' & Hv & Hp & Hn & Ha & Hip & Hin).
    + by rewrite Hlen.
    + intros j Hj. rewrite Hlen'. apply Hks. by right.
    + exists b'. split; [done|]. split.
      * rewrite Hp. by apply put_range_other_index.
      * split; [|done]. intros j. rewrite Hn. by apply put_range_other_level.
Qed.

End StoreLoop.

Lemma upto_spec (n i : Z) : i ∈ C.upto n <-> 0 <= i < n.
Proof. unfold C.upto. rewrite elem_of_seqZ. lia. Qed.

(** [addMessage] stores, at every index of the slot [bank_index_put], the
    blend of the new range and of the range of the newest slot. *)
Lemma addMessage_stores_blend (b : Bank) (msg : LaserScan) (i : Z) :
  let alpha := ema_alpha (bank_argument b) in
  let put := bank_index_put b in
  let newest := bank_index_newest b in
  put <> newest ->
  0 <= put < Z.of_nat (length (bank_ranges_ema b)) ->
  points_per_scan (bank_argument b) <= Z.of_nat (length (C.get (bank_ranges_ema b) put)) ->
  0 <= i < points_per_scan (bank_argument b) ->
  range_at (fst (addMessage b msg)) put i
  = ema_blend alpha (Ieee.sub Ieee.F64 Lit.d1 alpha)
      (C.get (ls_ranges msg) i) (range_at b newest i).
Proof.
  intros alpha put newest Hne Hput Hlen Hi.
  unfold addMessage. cbv zeta. cbn [fst].
  fold alpha put newest. cbn [bank_argument with_stamp].
  set (b0 := with_stamp b _).
  set (g := fun (b : Bank) (k : Z) =>
              ema_blend alpha (Ieee.sub Ieee.F64 (Ieee.of_Z Ieee.F64 1) alpha)
                (C.get (ls_ranges msg) k) (range_at b newest k)).
  change (foldl _ b0 (C.upto (points_per_scan (bank_argument b))))
    with (foldl (fun b k => put_range b put k (g b k)) b0
            (C.upto (points_per_scan (bank_argument b)))).
  set (bl := foldl _ b0 _).
  assert (Hfinal : forall b1 : Bank,
             range_at (if bank_index_put (advanceIndex b1) <? bank_index_newest (advanceIndex b1)
                       then with_filled (advanceIndex b1) true else advanceIndex b1) put i
             = range_at b1 put i).
  { intros b1. by destruct (_ <? _). }
  rewrite Hfinal. clear Hfinal.
  destruct (store_loop_written put newest g Hne (C.upto (points_per_scan (bank_argument b)))
              b0 i) as (b' & Hv & _ & Hn & _).
  - apply NoDup_seqZ.
  - by apply upto_spec.
  - done.
  - intros k Hk%upto_spec. cbn [b0 bank_ranges_ema with_stamp]. lia.
  - fold bl in Hv. rewrite Hv. unfold g. by rewrite Hn.
Qed.

(** [emaPutMessage], when the smoothing factor is below 1.0, stores the
    blend of the range that [putPoints] left in the slot and of the range
    of the newest slot. *)
Lemma emaPutMessage_stores_blend (b : Bank) (i : Z) :
  let alpha := ema_alpha (bank_argument b) in
  let put := bank_index_put b in
  let newest := bank_index_newest b in
  Ieee.ltb alpha Lit.d1 = true ->
  put <> newest ->
  0 <= put < Z.of_nat (length (bank_ranges_ema b)) ->
  points_per_scan (bank_argument b) <= Z.of_nat (length (C.get (bank_ranges_ema b) put)) ->
  0 <= i < points_per_scan (bank_argument b) ->
  range_at (emaPutMessage b) put i
  = ema_blend alpha (Ieee.sub Ieee.F64 Lit.d1 alpha)
      (range_at b put i) (range_at b newest i).
Proof.
  intros alpha put newest Halpha Hne Hput Hlen Hi.
  unfold emaPutMessage. cbv zeta. fold alpha. rewrite Halpha.
  set (g := fun (b : Bank) (k : Z) =>
              ema_blend alpha (Ieee.sub Ieee.F64 Lit.d1 alpha)
                (range_at b put k) (range_at b newest k)).
  assert (Hfixed : forall (l : list Z) (b1 : Bank),
             bank_index_put b1 = put -> bank_index_newest b1 = newest ->
             foldl (fun b i =>
                      put_range b (bank_index_put b) i
                        (ema_blend alpha (Ieee.sub Ieee.F64 Lit.d1 alpha)
                           (range_at b (bank_index_put b) i)
                           (range_at b (bank_index_newest b) i))) b1 l
             = foldl (fun b k => put_range b put k (g b k)) b1 l).
  { induction l as [| k l IH]; intros b1 Hp Hn; [done|].
    cbn [foldl]. rewrite IH by done. unfold g. by rewrite Hp, Hn. }
  rewrite Hfixed by done. clear Hfixed.
  destruct (store_loop_written put newest g Hne (C.upto (points_per_scan (bank_argument b)))
              b i) as (b' & Hv & Hp & Hn & _).
  - apply NoDup_seqZ.
  - by apply upto_spec.
  - done.
  - intros k Hk%upto_spec. lia.
  - rewrite Hv. unfold g. by rewrite Hp, Hn.
Qed.

(** C8, counterexample.  A scan has a NaN where the sensor has no
    measurement: with the smoothing factor 0.3, the previous range
    1.2345 m and the new range NaN the stored value is a NaN, which lies
    in no interval.  So it is for infinities of opposite sign (their
    weighted sum is a NaN), and for an infinite new range when the
    smoothing factor is 0: both smoothing loops compute [0 * inf]. *)
Lemma smoothing_a_nan_gives_nan :
  let alpha_prev := Ieee.sub Ieee.F64 Lit.d1 example_alpha in
  Ieee.leb Lit.d0 example_alpha = true /\ Ieee.leb example_alpha Lit.d1 = true
  /\ ema_blend example_alpha alpha_prev Ieee.nan example_previous = Ieee.nan
  /\ lies_between example_previous Ieee.nan Ieee.nan = false
  /\ ema_blend example_alpha alpha_prev (S754_infinity false) (S754_infinity true) = Ieee.nan
  /\ ema_blend Lit.d0 (Ieee.sub Ieee.F64 Lit.d1 Lit.d0) (S754_infinity false) example_previous
     = Ieee.nan
  /\ ~ every_smoothed_range_lies_between.
Proof.
  cbv zeta. do 6 (split; [vm_compute; reflexivity|]).
  intros Hclaim.
  specialize (Hclaim example_alpha example_previous Ieee.nan
                ltac:(vm_compute; reflexivity) ltac:(vm_compute; reflexivity)).
  vm_compute in Hclaim. discriminate Hclaim.
Qed.

(** C8, amended.  For every smoothing factor [alpha] in [0,1] and every
    pair of ranges that are numbers of type [float], finite or infinite,
    the previous smoothed range [p] and the new raw range [n], such that
    an infinite range has a weight other than 0 and the two are not
    infinities of opposite sign: the value [alpha * n + (1 - alpha) * p]
    that the smoothing step computes in [double] and stores as [float]
    (the value stored by [addMessage] and by [emaPutMessage], see
    [addMessage_stores_blend] and [emaPutMessage_stores_blend]) is a
    number of type [float], infinite exactly when one of the two ranges
    is, and lies in the closed interval between [p] and [n]. *)
Theorem smoothed_range_lies_between (alpha n p : float) :
  Ieee.leb Lit.d0 alpha = true -> Ieee.leb alpha Lit.d1 = true ->
  float32 n || infinite n = true -> float32 p || infinite p = true ->
  blend_defined alpha n p = true ->
  let v := ema_blend alpha (Ieee.sub Ieee.F64 Lit.d1 alpha) n p in
  float32 v || infinite v = true
  /\ infinite v = infinite n || infinite p
  /\ lies_between p n v = true.
Proof.
  intros H0 H1 Hn Hp Hdef v.
  destruct (weight_value alpha H0 H1) as (A & Ha & HA).
  pose proof (weight_prev_value alpha A Ha HA) as Hb.
  pose proof (cast_F64 53 1024 (-1074) _ _ ltac:(lia) ltac:(lia) ltac:(lia) ltac:(lia)
                ltac:(lia) Hb) as Hb64.
  destruct (one_minus_bounds A HA) as [HB _].
  unfold blend_defined in Hdef.
  apply andb_true_iff in Hdef as [[Hwn Hwp]%andb_true_iff Hopp].
  destruct (infinite n) eqn:Hin, (infinite p) eqn:Hip;
    cbn [negb orb] in Hwn, Hwp;
    try (assert (Hfn : float32 n = true) by (by destruct (float32 n)));
    try (assert (Hfp : float32 p = true) by (by destruct (float32 p))).
  - (* both infinite *)
    destruct n as [| sn | |]; try done. destruct p as [| sp | |]; try done.
    cbn [opposite_infinities] in Hopp.
    assert (sp = sn) as -> by (by destruct sn, sp).
    assert (Hv : v = S754_infinity sn).
    { unfold v, ema_blend.
      rewrite (weighted_infinity alpha sn (weight_positive alpha H0 H1 Hwn)).
      rewrite (weighted_infinity _ sn (weight_prev_positive alpha H0 H1 Hwp)).
      by destruct sn. }
    rewrite Hv. by destruct sn.
  - (* the new range is infinite *)
    destruct n as [| sn | |]; try done.
    assert (Hv : v = S754_infinity sn).
    { unfold v, ema_blend.
      rewrite (weighted_infinity alpha sn (weight_positive alpha H0 H1 Hwn)).
      rewrite add_infinity_l by (by apply (weighted_finite _ p (one_minus A))).
      done. }
    rewrite Hv. destruct (leb_infinity p Hfp) as [Hhi Hlo].
    split; [done|]. split; [done|].
    unfold lies_between. destruct sn.
    + rewrite Hlo. by rewrite orb_true_r.
    + by rewrite Hhi.
  - (* the previous range is infinite *)
    destruct p as [| sp | |]; try done.
    assert (Hv : v = S754_infinity sp).
    { unfold v, ema_blend.
      rewrite (weighted_infinity _ sp (weight_prev_positive alpha H0 H1 Hwp)).
      rewrite add_infinity_r by (by apply (weighted_finite _ n A)).
      done. }
    rewrite Hv. destruct (leb_infinity n Hfn) as [Hhi Hlo].
    split; [done|]. split; [done|].
    unfold lies_between. destruct sp.
    + by rewrite Hlo.
    + rewrite Hhi. by rewrite orb_true_r.
  - (* both finite *)
    destruct (blend_of_finite_ranges alpha n p H0 H1 Hfn Hfp) as [Hv Hbetween].
    fold v in Hv, Hbetween. rewrite Hv. split; [done|]. split; [|done].
    unfold float32 in Hv. apply andb_true_iff in Hv as [Hfin _].
    by destruct v.
Qed.

(** The witness: a new range beyond the reach of the sensor, +infinity,
    after 1.2345 m, with the smoothing factor 0.3. *)
Lemma smoothed_range_lies_between_witness :
  let v := ema_blend example_alpha (Ieee.sub Ieee.F64 Lit.d1 example_alpha)
             (S754_infinity false) example_previous in
  v = S754_infinity false
  /\ lies_between example_previous (S754_infinity false) v = true.
Proof.
  cbv zeta. split; [vm_compute; reflexivity|].
  apply (smoothed_range_lies_between example_alpha (S754_infinity false) example_previous);
    vm_compute; reflexivity.
Defined.


(** * Further properties of the program *)

(** ** Byte order *)

Lemma get_lookup {A} `{Inhabited A} (l : list A) (j : Z) (x : A) :
  0 <= j -> l !! Z.to_nat j = Some x -> C.get l j = x.
Proof.
  intros Hj Hx. unfold C.get. rewrite (proj2 (Z.ltb_ge j 0)) by lia.
  by apply list_lookup_total_correct.
Qed.

(** Two arrays of the same length with the same elements are equal. *)
Lemma get_ext {A} `{Inhabited A} (l1 l2 : list A) :
  length l1 = length l2 ->
  (forall j, 0 <= j < Z.of_nat (length l1) -> C.get l1 j = C.get l2 j) ->
  l1 = l2.
Proof.
  intros Hlen Hget. apply (list_eq_same_length l1 l2 (length l1)); [done | done |].
  intros i x y Hi Hx Hy.
  specialize (Hget (Z.of_nat i) ltac:(lia)).
  rewrite (get_lookup l1 (Z.of_nat i) x) in Hget by (rewrite ?Nat2Z.id; (lia || done)).
  rewrite (get_lookup l2 (Z.of_nat i) y) in Hget by (rewrite ?Nat2Z.id; (lia || done)).
  done.
Qed.

Lemma get_reverse {A} `{Inhabited A} (l : list A) (j : Z) :
  0 <= j < Z.of_nat (length l) ->
  C.get (reverse l) j = C.get l (Z.of_nat (length l) - 1 - j).
Proof.
  intros Hj. unfold C.get.
  rewrite !(proj2 (Z.ltb_ge _ 0)) by lia.
  apply list_lookup_total_correct.
  rewrite reverse_lookup by lia.
  replace (length l - S (Z.to_nat j))%nat with (Z.to_nat (Z.of_nat (length l) - 1 - j)) by lia.
  apply list_lookup_lookup_total_lt. lia.
Qed.

(** The array after the first [k] exchanges of [reverseBytes]. *)
Lemma reverseBytes_prefix (bytes : list Z) (k : nat) :
  let n := Z.of_nat (length bytes) in
  let l := foldl (fun bytes i =>
                    let tmp_byte := C.get bytes i in
                    let bytes := C.set bytes i (C.get bytes (n - i - 1)) in
                    C.set bytes (n - i - 1) tmp_byte)
                 bytes (seqZ 0 (Z.of_nat k)) in
  2 * Z.of_nat k <= n ->
  length l = length bytes
  /\ forall j, 0 <= j < n ->
       C.get l j = if (j <? Z.of_nat k) || (n - Z.of_nat k <=? j)
                   then C.get bytes (n - 1 - j) else C.get bytes j.
Proof.
  intros n. induction k as [| k IH]; intros l Hk.
  - split; [done|]. intros j Hj. subst l.
    change (seqZ 0 (Z.of_nat 0)) with (@nil Z). cbn [foldl].
    destruct (Z.ltb_spec j (Z.of_nat 0)), (Z.leb_spec (n - Z.of_nat 0) j); try lia; done.
  - subst l. rewrite seqZ_S, foldl_app. cbn [foldl]. rewrite Z.add_0_l.
    destruct IH as [Hlen Hget]; [lia|].
    set (l := foldl _ bytes (seqZ 0 (Z.of_nat k))) in *.
    split; [by rewrite !length_set|].
    intros j Hj.
    pose proof (Hget (Z.of_nat k) ltac:(lia)) as Hlow.
    pose proof (Hget (n - Z.of_nat k - 1) ltac:(lia)) as Hhigh.
    rewrite Z.ltb_irrefl, (proj2 (Z.leb_gt _ (Z.of_nat k))) in Hlow by lia.
    rewrite (proj2 (Z.ltb_ge (n - Z.of_nat k - 1) _)),
            (proj2 (Z.leb_gt _ (n - Z.of_nat k - 1))) in Hhigh by lia.
    cbn [orb] in Hlow, Hhigh.
    destruct (Z.eq_dec j (n - Z.of_nat k - 1)) as [-> | Hne1].
    + rewrite get_set_same by (rewrite length_set; lia).
      rewrite Hlow, (proj2 (Z.leb_le _ _)) by lia. rewrite orb_true_r.
      f_equal. lia.
    + rewrite get_set_other by lia.
      destruct (Z.eq_dec j (Z.of_nat k)) as [-> | Hne2].
      * rewrite get_set_same by lia.
        rewrite Hhigh, (proj2 (Z.ltb_lt _ _)) by lia. cbn [orb]. f_equal. lia.
      * rewrite get_set_other by lia. rewrite Hget by done.
        destruct (Z.ltb_spec j (Z.of_nat k)), (Z.ltb_spec j (Z.of_nat (S k))); try lia;
          destruct (Z.leb_spec (n - Z.of_nat k) j), (Z.leb_spec (n - Z.of_nat (S k)) j);
          try lia; done.
Qed.

(** [reverseBytes] on an array of [nr_bytes] bytes *)
Lemma reverseBytes_spec (bytes : list Z) (nr_bytes : Z) :
  Z.of_nat (length bytes) = nr_bytes -> reverseBytes bytes nr_bytes = reverse bytes.
Proof.
  intros <-. unfold reverseBytes, C.upto. cbv zeta.
  set (n := Z.of_nat (length bytes)).
  pose proof (reverseBytes_prefix bytes (Z.to_nat (n / 2))) as Hp.
  cbv zeta in Hp. fold n in Hp.
  rewrite Z2Nat.id in Hp by (apply Z.div_pos; lia).
  pose proof (Z.div_mod n 2 ltac:(lia)) as Hdm.
  pose proof (Z.mod_pos_bound n 2 ltac:(lia)).
  destruct Hp as [Hlen Hget]; [lia|].
  set (l := foldl _ bytes (seqZ 0 (n / 2))) in *.
  apply get_ext; [by rewrite length_reverse|].
  intros j Hj. rewrite Hlen in Hj. fold n in Hj.
  rewrite Hget, get_reverse by done. fold n.
  destruct (Z.ltb_spec j (n / 2)), (Z.leb_spec (n - n / 2) j); cbn [orb]; try done.
  f_equal. lia.
Qed.

(** X1.  On an array of [nr_bytes] bytes, [reverseBytes] returns the bytes
    in the opposite order, and a second call gives the array back. *)
Theorem reverseBytes_reverses (bytes : list Z) (nr_bytes : Z) :
  Z.of_nat (length bytes) = nr_bytes ->
  reverseBytes bytes nr_bytes = reverse bytes
  /\ reverseBytes (reverseBytes bytes nr_bytes) nr_bytes = bytes.
Proof.
  intros Hlen. rewrite (reverseBytes_spec bytes nr_bytes Hlen).
  split; [done|].
  rewrite reverseBytes_spec by (by rewrite length_reverse).
  apply reverse_involutive.
Qed.

Lemma reverseBytes_reverses_witness :
  reverseBytes [0x12; 0x34; 0x56; 0x78; 0x9a] 5 = reverse [0x12; 0x34; 0x56; 0x78; 0x9a]
  /\ reverseBytes (reverseBytes [0x12; 0x34; 0x56; 0x78; 0x9a] 5) 5
     = [0x12; 0x34; 0x56; 0x78; 0x9a].
Proof. apply (reverseBytes_reverses [0x12; 0x34; 0x56; 0x78; 0x9a] 5). reflexivity. Defined.

Lemma copy_bytes_reversed (data : list Z) (start nr_bytes : Z) :
  reverseBytes (copy_bytes data start nr_bytes) nr_bytes
  = reverse (copy_bytes data start nr_bytes).
Proof.
  destruct (Z_lt_le_dec nr_bytes 0) as [Hneg | Hpos].
  - unfold copy_bytes, reverseBytes, C.upto. cbv zeta.
    assert (nr_bytes / 2 < 0) by (apply Z.div_lt_upper_bound; lia).
    destruct nr_bytes as [| p | p]; try lia.
    destruct (Z.neg p / 2) as [| q | q] eqn:E; try lia. done.
  - apply reverseBytes_spec. unfold copy_bytes, C.upto.
    rewrite length_fmap, length_seqZ. lia.
Qed.

Lemma word_of_bytes_reverse (little_endian : bool) (bytes : list Z) :
  word_of_bytes little_endian (reverse bytes) = word_of_bytes (negb little_endian) bytes.
Proof. unfold word_of_bytes. destruct little_endian; cbn [negb]; by rewrite ?reverse_involutive. Qed.

Lemma read_coordinate_reverse (little_endian : bool) (bytes : list Z) (nr_bytes : Z) :
  read_coordinate little_endian (reverse bytes) nr_bytes
  = read_coordinate (negb little_endian) bytes nr_bytes.
Proof. unfold read_coordinate. by rewrite word_of_bytes_reverse. Qed.

(** X2.  A point read with the reversal of its bytes is the point that a
    machine of the opposite byte order reads without the reversal. *)
Theorem readPoint_foreign_byte_order (b : Bank) (data : list Z) (start_of_point : Z)
        (xyz : float * float * float) :
  readPoint b data start_of_point true xyz
  = readPoint (with_little_endian b (negb (machine_is_little_endian b)))
      data start_of_point false xyz.
Proof.
  destruct xyz as [[x y] z]. unfold readPoint.
  cbn [with_little_endian machine_is_little_endian PC2_message_x_offset PC2_message_x_bytes
       PC2_message_y_offset PC2_message_y_bytes PC2_message_z_offset PC2_message_z_bytes].
  rewrite !copy_bytes_reversed, !read_coordinate_reverse. done.
Qed.

Lemma read_coordinate_readable (little_endian : bool) (bytes : list Z) (nr_bytes : Z) (v : float) :
  read_coordinate little_endian bytes nr_bytes = Some v -> readable nr_bytes = true.
Proof.
  unfold read_coordinate, readable.
  destruct (nr_bytes =? 4); [done|]. destruct (nr_bytes =? 8); done.
Qed.

Lemma read_coordinate_unreadable (little_endian : bool) (bytes : list Z) (nr_bytes : Z) :
  readable nr_bytes = false -> read_coordinate little_endian bytes nr_bytes = None.
Proof.
  unfold read_coordinate, readable.
  destruct (nr_bytes =? 4); [done|]. destruct (nr_bytes =? 8); done.
Qed.

Lemma read_coordinate_some (little_endian : bool) (bytes : list Z) (nr_bytes : Z) :
  readable nr_bytes = true -> exists v, read_coordinate little_endian bytes nr_bytes = Some v.
Proof.
  unfold read_coordinate, readable.
  destruct (nr_bytes =? 4); [by eexists|]. destruct (nr_bytes =? 8); [by eexists|done].
Qed.

(** X3.  [readPoint] sets its three output parameters, whatever they
    held, exactly when the three widths kept in the bank are 4 or 8
    bytes.  Otherwise it returns at the first coordinate whose width is
    neither and leaves that output and the ones after it, so always
    [*z], as they were: an [x] of unreadable width leaves all three, a
    [y] of unreadable width leaves [*y] and [*z]. *)
Theorem readPoint_unset_outputs (b : Bank) (data : list Z) (start_of_point : Z)
        (reversal : bool) (x y z : float) :
  let read := readPoint b data start_of_point reversal in
  (readable (PC2_message_x_bytes b) && readable (PC2_message_y_bytes b)
   && readable (PC2_message_z_bytes b) = true ->
   forall x0 y0 z0, read (x0, y0, z0) = read (x, y, z))
  /\ (readable (PC2_message_x_bytes b) && readable (PC2_message_y_bytes b)
      && readable (PC2_message_z_bytes b) = false ->
      snd (read (x, y, z)) = z
      /\ (readable (PC2_message_x_bytes b) = false -> read (x, y, z) = (x, y, z))
      /\ (readable (PC2_message_y_bytes b) = false -> snd (fst (read (x, y, z))) = y)).
Proof.
  intros read. unfold read, readPoint. split.
  - rewrite !andb_true_iff. intros [[Hx Hy] Hz] x0 y0 z0.
    destruct (read_coordinate_some (machine_is_little_endian b)
                (if reversal
                 then reverseBytes
                        (copy_bytes data (start_of_point + PC2_message_x_offset b)
                           (PC2_message_x_bytes b)) (PC2_message_x_bytes b)
                 else copy_bytes data (start_of_point + PC2_message_x_offset b)
                        (PC2_message_x_bytes b)) _ Hx) as (x' & ->).
    destruct (read_coordinate_some (machine_is_little_endian b)
                (if reversal
                 then reverseBytes
                        (copy_bytes data (start_of_point + PC2_message_y_offset b)
                           (PC2_message_y_bytes b)) (PC2_message_y_bytes b)
                 else copy_bytes data (start_of_point + PC2_message_y_offset b)
                        (PC2_message_y_bytes b)) _ Hy) as (y' & ->).
    destruct (read_coordinate_some (machine_is_little_endian b)
                (if reversal
                 then reverseBytes
                        (copy_bytes data (start_of_point + PC2_message_z_offset b)
                           (PC2_message_z_bytes b)) (PC2_message_z_bytes b)
                 else copy_bytes data (start_of_point + PC2_message_z_offset b)
                        (PC2_message_z_bytes b)) _ Hz) as (z' & ->).
    done.
  - intros Hwidth. split; [|split].
    + destruct (read_coordinate _ _ (PC2_message_x_bytes b)) as [x' |] eqn:Ex; [|done].
      destruct (read_coordinate _ _ (PC2_message_y_bytes b)) as [y' |] eqn:Ey; [|done].
      destruct (read_coordinate _ _ (PC2_message_z_bytes b)) as [z' |] eqn:Ez; [|done].
      apply read_coordinate_readable in Ex, Ey, Ez. by rewrite Ex, Ey, Ez in Hwidth.
    + intros Hx. by rewrite read_coordinate_unreadable.
    + intros Hy. rewrite (read_coordinate_unreadable _ _ (PC2_message_y_bytes b)) by done.
      by destruct (read_coordinate _ _ (PC2_message_x_bytes b)).
Qed.

Lemma readPoint_unset_outputs_witness :
  let b := with_z cloud_bank 8 2 in
  snd (readPoint b (pc_data (cloud_of [0x00; 0x00; 0x20; 0x41])) 0 false
         (Ieee.zero, Ieee.zero, Ieee.nan)) = Ieee.nan.
Proof.
  apply (proj2 (readPoint_unset_outputs (with_z cloud_bank 8 2)
                  (pc_data (cloud_of [0x00; 0x00; 0x20; 0x41])) 0 false
                  Ieee.zero Ieee.zero Ieee.nan)).
  reflexivity.
Defined.


(** ** The fields of a point cloud *)

Section Fields.

Variables (a : BankArgument) (reversal : bool).

Local Abbreviation named_x := (fun f => strcmp_equal (PC2_message_x_coordinate_field_name a) (pf_name f)).
Local Abbreviation named_y := (fun f => strcmp_equal (PC2_message_y_coordinate_field_name a) (pf_name f)).
Local Abbreviation named_z := (fun f => strcmp_equal (PC2_message_z_coordinate_field_name a) (pf_name f)).
Local Abbreviation loop := (getOffsetsAndBytes_loop a reversal).

(** The loop assigns to the six members only. *)
Lemma getOffsetsAndBytes_loop_frame (fields : list PointField) : forall b,
  exists xo xb yo yb zo zb,
    fst (loop b fields) = with_PC2_fields b xo xb yo yb zo zb.
Proof.
  induction fields as [| f fields IH]; intros b; cbn [getOffsetsAndBytes_loop].
  { exists (PC2_message_x_offset b), (PC2_message_x_bytes b), (PC2_message_y_offset b),
      (PC2_message_y_bytes b), (PC2_message_z_offset b), (PC2_message_z_bytes b).
    by destruct b. }
  repeat match goal with
         | |- context [if ?c then _ else _] => destruct c
         | |- context [match bytes_of_datatype ?t with _ => _ end] =>
             destruct (bytes_of_datatype t)
         end;
    try (match goal with
         | |- context [loop ?b' fields] =>
             destruct (IH b') as (xo & xb & yo & yb & zo & zb & ->)
         end);
    cbn [fst]; unfold with_x, with_y, with_z; cbn; eauto 10.
Qed.

Lemma bytes_of_datatype_width (t w : Z) : bytes_of_datatype t = Some w -> width_ok w.
Proof.
  unfold bytes_of_datatype, width_ok.
  repeat match goal with |- context [if ?c then _ else _] => destruct c end;
    intros [= <-] || intros [=]; lia.
Qed.

Lemma getOffsetsAndBytes_loop_widths (fields : list PointField) : forall b,
  width_ok (PC2_message_x_bytes b) -> width_ok (PC2_message_y_bytes b) ->
  width_ok (PC2_message_z_bytes b) ->
  let b' := fst (loop b fields) in
  width_ok (PC2_message_x_bytes b') /\ width_ok (PC2_message_y_bytes b')
  /\ width_ok (PC2_message_z_bytes b').
Proof.
  induction fields as [| f fields IH]; intros b Hx Hy Hz; cbn [getOffsetsAndBytes_loop].
  { done. }
  destruct (named_x f); [|destruct (named_y f); [|destruct (named_z f)]];
    try (destruct (bytes_of_datatype (pf_datatype f)) as [w |] eqn:Ew;
         [apply bytes_of_datatype_width in Ew; by apply IH | done]).
  by apply IH.
Qed.

(** A coordinate whose branch no field reaches keeps its members. *)
Lemma getOffsetsAndBytes_loop_x (fields : list PointField) : forall b,
  Forall (fun f => named_x f = false) fields ->
  PC2_message_x_offset (fst (loop b fields)) = PC2_message_x_offset b
  /\ PC2_message_x_bytes (fst (loop b fields)) = PC2_message_x_bytes b.
Proof.
  induction fields as [| f fields IH]; intros b Hnone; [done|].
  apply Forall_cons in Hnone as [Hf Hnone]. cbn [getOffsetsAndBytes_loop]. rewrite Hf.
  destruct (named_y f); [|destruct (named_z f)].
  - destruct (bytes_of_datatype (pf_datatype f)) as [w |]; [|done].
    destruct (IH (with_y b (read_offset b reversal (pf_offset f)) w) Hnone) as [-> ->]. done.
  - destruct (bytes_of_datatype (pf_datatype f)) as [w |]; [|done].
    destruct (IH (with_z b (read_offset b reversal (pf_offset f)) w) Hnone) as [-> ->]. done.
  - by apply IH.
Qed.

Lemma getOffsetsAndBytes_loop_y (fields : list PointField) : forall b,
  Forall (fun f => named_x f = true \/ named_y f = false) fields ->
  PC2_message_y_offset (fst (loop b fields)) = PC2_message_y_offset b.
Proof.
  induction fields as [| f fields IH]; intros b Hnone; [done|].
  apply Forall_cons in Hnone as [Hf Hnone]. cbn [getOffsetsAndBytes_loop].
  destruct (named_x f) eqn:Ex.
  { destruct (bytes_of_datatype (pf_datatype f)); [by rewrite IH | done]. }
  destruct Hf as [Hf | Hf]; [done|]. rewrite Hf.
  destruct (named_z f);
    try (destruct (bytes_of_datatype (pf_datatype f)); [by rewrite IH | done]).
  by apply IH.
Qed.

Lemma getOffsetsAndBytes_loop_z (fields : list PointField) : forall b,
  Forall (fun f => named_x f = true \/ named_y f = true \/ named_z f = false) fields ->
  PC2_message_z_offset (fst (loop b fields)) = PC2_message_z_offset b.
Proof.
  induction fields as [| f fields IH]; intros b Hnone; [done|].
  apply Forall_cons in Hnone as [Hf Hnone]. cbn [getOffsetsAndBytes_loop].
  destruct (named_x f) eqn:Ex.
  { destruct (bytes_of_datatype (pf_datatype f)); [by rewrite IH | done]. }
  destruct (named_y f) eqn:Ey.
  { destruct (bytes_of_datatype (pf_datatype f)); [by rewrite IH | done]. }
  destruct Hf as [Hf | [Hf | Hf]]; [done | done |]. rewrite Hf. by apply IH.
Qed.

End Fields.

Lemma none_or_some {A} (p : A -> bool) (l : list A) :
  Forall (fun x => p x = false) l \/ Exists (fun x => p x = true) l.
Proof.
  induction l as [| x l [IH | IH]].
  - left. constructor.
  - destruct (p x) eqn:E; [right; by left | left; by constructor].
  - right. by right.
Qed.

(** What [getOffsetsAndBytes] returns, from the bank after the loop. *)
Lemma getOffsetsAndBytes_result (b : Bank) (a : BankArgument) (msg : PointCloud2)
      (fields : list PointField) :
  let start := with_PC2_fields b (-1) (-1) (-1) (-1) (-1) (-1) in
  let after := getOffsetsAndBytes_loop a (must_reverse start msg) start fields in
  fst (getOffsetsAndBytes b a msg fields) = fst after
  /\ (snd (getOffsetsAndBytes b a msg fields) = 0 \/ snd (getOffsetsAndBytes b a msg fields) = -1)
  /\ (snd (getOffsetsAndBytes b a msg fields) = 0 ->
      snd after = false
      /\ 0 <= PC2_message_x_offset (fst after) /\ 0 <= PC2_message_x_bytes (fst after)
      /\ 0 <= PC2_message_y_offset (fst after) /\ 0 <= PC2_message_y_bytes (fst after)
      /\ 0 <= PC2_message_z_offset (fst after) /\ 0 <= PC2_message_z_bytes (fst after)).
Proof.
  intros start after. unfold getOffsetsAndBytes. fold start. fold after.
  destruct after as [b' returned]. cbn [fst snd].
  destruct returned; [cbn; split; [done|]; split; [by right | done]|].
  destruct (_ && _) eqn:Echeck; cbn [fst snd]; (split; [done|]); (split; [auto|]); [|done].
  intros _. repeat (apply andb_true_iff in Echeck as [Echeck ?]).
  repeat match goal with H : (0 <=? _) = true |- _ => apply Z.leb_le in H end.
  done.
Qed.

(** A call that returns 0 has found a field of each name. *)
Lemma getOffsetsAndBytes_named (b : Bank) (a : BankArgument) (msg : PointCloud2)
      (fields : list PointField) :
  snd (getOffsetsAndBytes b a msg fields) = 0 ->
  Exists (fun f => strcmp_equal (PC2_message_x_coordinate_field_name a) (pf_name f) = true) fields
  /\ Exists (fun f => strcmp_equal (PC2_message_y_coordinate_field_name a) (pf_name f) = true) fields
  /\ Exists (fun f => strcmp_equal (PC2_message_z_coordinate_field_name a) (pf_name f) = true) fields.
Proof.
  intros Hzero.
  destruct (getOffsetsAndBytes_result b a msg fields) as (_ & _ & Hsuccess).
  destruct (Hsuccess Hzero) as (_ & Hxo & _ & Hyo & _ & Hzo & _).
  set (start := with_PC2_fields b (-1) (-1) (-1) (-1) (-1) (-1)) in *.
  set (reversal := must_reverse start msg) in *.
  repeat split.
  - destruct (none_or_some (fun f => strcmp_equal (PC2_message_x_coordinate_field_name a) (pf_name f)) fields)
      as [Hnone | Hsome]; [|done].
    destruct (getOffsetsAndBytes_loop_x a reversal fields start Hnone) as [Hkeep _].
    rewrite Hkeep in Hxo. cbn in Hxo. lia.
  - destruct (none_or_some (fun f => strcmp_equal (PC2_message_y_coordinate_field_name a) (pf_name f)) fields)
      as [Hnone | Hsome]; [|done].
    rewrite (getOffsetsAndBytes_loop_y a reversal fields start) in Hyo.
    + cbn in Hyo. lia.
    + eapply Forall_impl; [exact Hnone|]. cbn. auto.
  - destruct (none_or_some (fun f => strcmp_equal (PC2_message_z_coordinate_field_name a) (pf_name f)) fields)
      as [Hnone | Hsome]; [|done].
    rewrite (getOffsetsAndBytes_loop_z a reversal fields start) in Hzo.
    + cbn in Hzo. lia.
    + eapply Forall_impl; [exact Hnone|]. cbn. auto.
Qed.

(** X4.  When [getOffsetsAndBytes] returns 0, the message has a field of
    each of the three configured names, the three widths are 1, 2, 4 or 8
    bytes and the three offsets are not negative; a message that lacks one
    of the names gives -1. *)
Theorem getOffsetsAndBytes_success (b : Bank) (a : BankArgument) (msg : PointCloud2)
        (fields : list PointField) :
  let b' := fst (getOffsetsAndBytes b a msg fields) in
  let width w := w = 1 \/ w = 2 \/ w = 4 \/ w = 8 in
  snd (getOffsetsAndBytes b a msg fields) = 0 ->
  Exists (fun f => strcmp_equal (PC2_message_x_coordinate_field_name a) (pf_name f) = true) fields
  /\ Exists (fun f => strcmp_equal (PC2_message_y_coordinate_field_name a) (pf_name f) = true) fields
  /\ Exists (fun f => strcmp_equal (PC2_message_z_coordinate_field_name a) (pf_name f) = true) fields
  /\ width (PC2_message_x_bytes b') /\ width (PC2_message_y_bytes b')
  /\ width (PC2_message_z_bytes b')
  /\ 0 <= PC2_message_x_offset b' /\ 0 <= PC2_message_y_offset b'
  /\ 0 <= PC2_message_z_offset b'.
Proof.
  intros b' width Hzero.
  destruct (getOffsetsAndBytes_named b a msg fields Hzero) as (Hx & Hy & Hz).
  destruct (getOffsetsAndBytes_result b a msg fields) as (Hfst & _ & Hsuccess).
  destruct (Hsuccess Hzero) as (_ & Hxo & Hxb & Hyo & Hyb & Hzo & Hzb).
  subst b'. rewrite Hfst.
  set (start := with_PC2_fields b (-1) (-1) (-1) (-1) (-1) (-1)) in *.
  set (reversal := must_reverse start msg) in *.
  destruct (getOffsetsAndBytes_loop_widths a reversal fields start) as (Hwx & Hwy & Hwz);
    [by left | by left | by left |].
  cbv zeta in Hwx, Hwy, Hwz. unfold width_ok in *. subst width. cbv beta.
  repeat split; (done || lia).
Qed.

Lemma getOffsetsAndBytes_success_witness :
  let b' := fst (getOffsetsAndBytes cloud_bank BankArgument_default
                   (cloud_of [0x00; 0x00; 0x20; 0x41]) example_fields) in
  PC2_message_x_offset b' = 0 /\ PC2_message_y_offset b' = 4 /\ PC2_message_z_offset b' = 8
  /\ 0 <= PC2_message_z_offset b'.
Proof.
  split; [reflexivity|]. split; [reflexivity|]. split; [reflexivity|].
  apply (getOffsetsAndBytes_success cloud_bank BankArgument_default
           (cloud_of [0x00; 0x00; 0x20; 0x41]) example_fields).
  reflexivity.
Defined.

Lemma strcmp_equal_trans (s t u : string) :
  strcmp_equal s t = true -> strcmp_equal s u = strcmp_equal t u.
Proof. unfold strcmp_equal. intros ->%String.eqb_eq. done. Qed.

(** X5.  When two of the three configured field names are equal as C
    strings, [getOffsetsAndBytes] returns -1 for every message: the
    branch of the later coordinate is never reached. *)
Theorem getOffsetsAndBytes_equal_names (b : Bank) (a : BankArgument) (msg : PointCloud2)
        (fields : list PointField) :
  strcmp_equal (PC2_message_x_coordinate_field_name a)
    (PC2_message_y_coordinate_field_name a) = true
  \/ strcmp_equal (PC2_message_x_coordinate_field_name a)
       (PC2_message_z_coordinate_field_name a) = true
  \/ strcmp_equal (PC2_message_y_coordinate_field_name a)
       (PC2_message_z_coordinate_field_name a) = true ->
  snd (getOffsetsAndBytes b a msg fields) = -1.
Proof.
  intros Hequal.
  destruct (getOffsetsAndBytes_result b a msg fields) as (_ & [Hzero | Hfail] & Hsuccess);
    [|done].
  destruct (Hsuccess Hzero) as (_ & _ & _ & Hyo & _ & Hzo & _).
  set (start := with_PC2_fields b (-1) (-1) (-1) (-1) (-1) (-1)) in *.
  exfalso. destruct Hequal as [Hxy | [Hxz | Hyz]].
  - rewrite (getOffsetsAndBytes_loop_y a _ fields start) in Hyo; [cbn in Hyo; lia|].
    apply Forall_forall. intros f _.
    rewrite <- (strcmp_equal_trans _ _ _ Hxy).
    destruct (strcmp_equal _ (pf_name f)); auto.
  - rewrite (getOffsetsAndBytes_loop_z a _ fields start) in Hzo; [cbn in Hzo; lia|].
    apply Forall_forall. intros f _.
    rewrite <- (strcmp_equal_trans _ _ _ Hxz).
    destruct (strcmp_equal (PC2_message_x_coordinate_field_name a) (pf_name f)); auto.
  - rewrite (getOffsetsAndBytes_loop_z a _ fields start) in Hzo; [cbn in Hzo; lia|].
    apply Forall_forall. intros f _.
    rewrite <- (strcmp_equal_trans _ _ _ Hyz).
    destruct (strcmp_equal (PC2_message_y_coordinate_field_name a) (pf_name f)); auto.
Qed.

Lemma getOffsetsAndBytes_equal_names_witness :
  snd (getOffsetsAndBytes cloud_bank (with_field_names BankArgument_default "x" "x" "z")
         (cloud_of [0x00; 0x00; 0x20; 0x41]) example_fields) = -1.
Proof.
  apply (getOffsetsAndBytes_equal_names cloud_bank
           (with_field_names BankArgument_default "x" "x" "z")
           (cloud_of [0x00; 0x00; 0x20; 0x41]) example_fields).
  left. reflexivity.
Defined.

(** *** The offset of a field *)

Lemma getOffsetsAndBytes_loop_app (a : BankArgument) (reversal : bool)
      (l1 l2 : list PointField) : forall b,
  getOffsetsAndBytes_loop a reversal b (l1 ++ l2)
  = if snd (getOffsetsAndBytes_loop a reversal b l1)
    then getOffsetsAndBytes_loop a reversal b l1
    else getOffsetsAndBytes_loop a reversal (fst (getOffsetsAndBytes_loop a reversal b l1)) l2.
Proof.
  induction l1 as [| f l1 IH]; intros b; [done|].
  cbn [app getOffsetsAndBytes_loop].
  repeat match goal with
         | |- context [if strcmp_equal ?s ?t then _ else _] => destruct (strcmp_equal s t)
         | |- context [match bytes_of_datatype ?t with _ => _ end] =>
             destruct (bytes_of_datatype t)
         end; try done; apply IH.
Qed.

Lemma getOffsetsAndBytes_loop_byte_order (a : BankArgument) (reversal : bool)
      (fields : list PointField) (b : Bank) :
  machine_is_little_endian (fst (getOffsetsAndBytes_loop a reversal b fields))
  = machine_is_little_endian b.
Proof.
  destruct (getOffsetsAndBytes_loop_frame a reversal fields b)
    as (xo & xb & yo & yb & zo & zb & ->). done.
Qed.

Lemma bytes_of_word_length (little_endian : bool) (nr_bytes w : Z) :
  0 <= nr_bytes -> Z.of_nat (length (bytes_of_word little_endian nr_bytes w)) = nr_bytes.
Proof.
  intros Hn. unfold bytes_of_word, C.upto.
  destruct little_endian; rewrite ?length_reverse, length_fmap, length_seqZ; lia.
Qed.

(** The four bytes of a word in memory, read back. *)
Lemma word_of_bytes_of_word (little_endian : bool) (w : Z) :
  0 <= w < 2 ^ 32 -> word_of_bytes little_endian (bytes_of_word little_endian 4 w) = w.
Proof.
  intros Hw. unfold word_of_bytes, bytes_of_word, C.upto.
  change (seqZ 0 4) with [0; 1; 2; 3].
  assert (Hsum : foldr (fun byte acc => byte + 256 * acc) 0
                   ((fun k => (w / 256 ^ k) mod 256) <$> [0; 1; 2; 3]) = w).
  { cbn [fmap list_fmap foldr].
    change (256 ^ 0) with 1. change (256 ^ 1) with 256.
    change (256 ^ 2) with 65536. change (256 ^ 3) with 16777216.
    change (2 ^ 32) with 4294967296 in Hw.
    Z.div_mod_to_equations. lia. }
  destruct little_endian; [done|]. by rewrite reverse_involutive.
Qed.

(** The four bytes of a small word, read back in the opposite order. *)
Lemma word_of_reversed_bytes (little_endian : bool) (w : Z) :
  0 <= w < 128 ->
  word_of_bytes little_endian (reverse (bytes_of_word little_endian 4 w)) = w * 2 ^ 24.
Proof.
  intros Hw. rewrite word_of_bytes_reverse. unfold word_of_bytes, bytes_of_word, C.upto.
  change (seqZ 0 4) with [0; 1; 2; 3].
  assert (Hsum : foldr (fun byte acc => byte + 256 * acc) 0
                   (reverse ((fun k => (w / 256 ^ k) mod 256) <$> [0; 1; 2; 3]))
                 = w * 2 ^ 24).
  { cbn [fmap list_fmap]. unfold reverse. cbn [rev_append foldr].
    change (256 ^ 0) with 1. change (256 ^ 1) with 256.
    change (256 ^ 2) with 65536. change (256 ^ 3) with 16777216.
    change (2 ^ 24) with 16777216.
    Z.div_mod_to_equations. lia. }
  destruct little_endian; cbn [negb]; done.
Qed.

(** X6.  After a call that returned 0, the offset and the width of the x
    coordinate are those of the last field of that name: the offset as the
    field gives it when the message has the byte order of the machine,
    and with its bytes exchanged (an offset below 128 multiplied by
    [2^24]) when it has the other byte order. *)
Theorem getOffsetsAndBytes_last_field (b : Bank) (a : BankArgument) (msg : PointCloud2)
        (pre post : list PointField) (f : PointField) :
  let b' := fst (getOffsetsAndBytes b a msg (pre ++ f :: post)) in
  snd (getOffsetsAndBytes b a msg (pre ++ f :: post)) = 0 ->
  strcmp_equal (PC2_message_x_coordinate_field_name a) (pf_name f) = true ->
  Forall (fun g => strcmp_equal (PC2_message_x_coordinate_field_name a) (pf_name g) = false)
    post ->
  bytes_of_datatype (pf_datatype f) = Some (PC2_message_x_bytes b')
  /\ (must_reverse b msg = false -> 0 <= pf_offset f < 2 ^ 32 ->
      PC2_message_x_offset b' = pf_offset f)
  /\ (must_reverse b msg = true -> 0 <= pf_offset f < 128 ->
      PC2_message_x_offset b' = pf_offset f * 2 ^ 24).
Proof.
  intros b' Hzero Hf Hpost.
  destruct (getOffsetsAndBytes_result b a msg (pre ++ f :: post)) as (Hfst & _ & Hsuccess).
  destruct (Hsuccess Hzero) as (Hreturned & Hxo & _).
  subst b'. rewrite Hfst. clear Hfst Hsuccess Hzero.
  set (start := with_PC2_fields b (-1) (-1) (-1) (-1) (-1) (-1)) in *.
  change (must_reverse start msg) with (must_reverse b msg) in *.
  set (reversal := must_reverse b msg) in *.
  rewrite getOffsetsAndBytes_loop_app in Hreturned, Hxo |- *.
  pose proof (getOffsetsAndBytes_loop_byte_order a reversal pre start) as Horder.
  destruct (getOffsetsAndBytes_loop a reversal start pre) as [b1 returned1].
  cbn [fst snd] in *. destruct returned1; [done|].
  cbn [getOffsetsAndBytes_loop] in Hreturned, Hxo |- *. rewrite Hf in Hreturned, Hxo |- *.
  destruct (bytes_of_datatype (pf_datatype f)) as [w |]; [|done].
  set (offset := read_offset b1 reversal (pf_offset f)) in *.
  destruct (getOffsetsAndBytes_loop_x a reversal post (with_x b1 offset w) Hpost)
    as [Hkeep_offset Hkeep_bytes].
  rewrite Hkeep_offset in Hxo |- *. rewrite Hkeep_bytes.
  cbn [with_x with_PC2_fields PC2_message_x_offset PC2_message_x_bytes] in *.
  split; [done|].
  unfold offset, read_offset in *. rewrite Horder in *.
  cbn [start with_PC2_fields machine_is_little_endian] in *.
  split; intros Hreversal Hrange; rewrite Hreversal in *.
  - rewrite word_of_bytes_of_word in Hxo |- * by done.
    unfold C.s32 in *. change (2 ^ 31) with 2147483648 in *.
    change (2 ^ 32) with 4294967296 in *. Z.div_mod_to_equations. lia.
  - rewrite reverseBytes_spec by (by apply bytes_of_word_length).
    rewrite word_of_reversed_bytes by done.
    apply s32_small. change (2 ^ 24) with 16777216. change (2 ^ 31) with 2147483648. lia.
Qed.

Lemma getOffsetsAndBytes_last_field_witness :
  let f := {| pf_name := "x"; pf_offset := 16; pf_datatype := PointFieldType.FLOAT64 |} in
  let b' := fst (getOffsetsAndBytes cloud_bank BankArgument_default
                   (cloud_of [0x00; 0x00; 0x20; 0x41]) (example_fields ++ f :: [])) in
  bytes_of_datatype (pf_datatype f) = Some (PC2_message_x_bytes b')
  /\ PC2_message_x_offset b' = 16.
Proof.
  intros f b'.
  destruct (getOffsetsAndBytes_last_field cloud_bank BankArgument_default
              (cloud_of [0x00; 0x00; 0x20; 0x41]) example_fields [] f)
    as (Hbytes & Hsame & _); [reflexivity | reflexivity | constructor |].
  split; [exact Hbytes|]. apply Hsame; [reflexivity | vm_compute; split; discriminate || reflexivity].
Defined.

(** ** The first point cloud *)

(** X7.  [init] on a point cloud that lacks a field of one of the three
    configured names returns -1 before it checks or stores the
    configuration: the bank is as initialised as before, with the
    configuration, the slots and the stamps it had. *)
Theorem init_pc_missing_field {libm : LibM} (b : Bank) (a : BankArgument)
        (msg : PointCloud2) (fields : list PointField) (heap : Z -> Z -> float)
        (xyz0 : Z -> float * float * float) :
  Forall (fun f => strcmp_equal (PC2_message_x_coordinate_field_name a) (pf_name f) = false) fields
  \/ Forall (fun f => strcmp_equal (PC2_message_y_coordinate_field_name a) (pf_name f) = false) fields
  \/ Forall (fun f => strcmp_equal (PC2_message_z_coordinate_field_name a) (pf_name f) = false) fields ->
  exists b',
    init_pc b a msg fields heap xyz0 = Some (b', -1)
    /\ bank_is_initialized b' = bank_is_initialized b
    /\ bank_argument b' = bank_argument b
    /\ bank_ranges_ema b' = bank_ranges_ema b
    /\ bank_stamp b' = bank_stamp b.
Proof.
  intros Hmissing. unfold init_pc.
  set (a' := BankArgument_of_cloud a msg).
  destruct (getOffsetsAndBytes_result b a' msg fields) as (Hfst & [Hzero | Hfail] & _).
  - exfalso. destruct (getOffsetsAndBytes_named b a' msg fields Hzero) as (Hx & Hy & Hz).
    cbn [a' BankArgument_of_cloud PC2_message_x_coordinate_field_name
         PC2_message_y_coordinate_field_name PC2_message_z_coordinate_field_name] in Hx, Hy, Hz.
    destruct Hmissing as [Hnone | [Hnone | Hnone]];
      [apply Exists_exists in Hx as (f & Hin & Hf)
      | apply Exists_exists in Hy as (f & Hin & Hf)
      | apply Exists_exists in Hz as (f & Hin & Hf)];
      rewrite Forall_forall in Hnone; specialize (Hnone f Hin); congruence.
  - destruct (getOffsetsAndBytes b a' msg fields) as [b' result] eqn:E.
    cbn [fst snd] in *. subst result. cbn [Z.eqb negb].
    exists b'. split; [done|].
    destruct (getOffsetsAndBytes_loop_frame a' (must_reverse (with_PC2_fields b (-1) (-1) (-1) (-1) (-1) (-1)) msg)
                fields (with_PC2_fields b (-1) (-1) (-1) (-1) (-1) (-1)))
      as (xo & xb & yo & yb & zo & zb & Hframe).
    rewrite Hfst, Hframe. done.
Qed.

Lemma init_pc_missing_field_witness :
  exists b',
    init_pc (libm := libm_example) (Bank_new true) BankArgument_default
      (cloud_of [0x00; 0x00; 0x20; 0x41]) (take 2 example_fields)
      (fun _ _ => Ieee.nan) (fun _ => (Ieee.nan, Ieee.nan, Ieee.nan)) = Some (b', -1)
    /\ bank_is_initialized b' = false.
Proof.
  destruct (init_pc_missing_field (libm := libm_example) (Bank_new true) BankArgument_default
              (cloud_of [0x00; 0x00; 0x20; 0x41]) (take 2 example_fields)
              (fun _ _ => Ieee.nan) (fun _ => (Ieee.nan, Ieee.nan, Ieee.nan)))
    as (b' & Hinit & Hflag & _).
  - right. right. repeat constructor.
  - exists b'. split; [exact Hinit | exact Hflag].
Defined.


(** ** The order of the floating-point comparisons *)

(** The conversion to [double] gives a NaN for a NaN only, and otherwise
    an infinity or a value of the format. *)
Lemma cast64_shape (x : float) :
  match Ieee.cast Ieee.F64 x with
  | S754_nan => x = S754_nan
  | S754_infinity _ => True
  | y => represents 53 1024 (-1074) y (sval (-1074) y)
  end.
Proof.
  destruct x as [s | s | | s m e]; cbn [Ieee.cast]; try done.
  change (Ieee.prec Ieee.F64) with 53. change (Ieee.emax Ieee.F64) with 1024.
  pose proof (binary_round_spec 53 1024 ltac:(lia) ltac:(lia) (Z.min e (-1074)) s m e
                ltac:(lia) ltac:(unfold emin; lia)) as [Hfin Hinf].
  set (R := RN _ _ _) in *.
  destruct (Z_lt_le_dec R (2 ^ (1024 - Z.min e (-1074)))) as [Hlt | Hge].
  - destruct (Hfin Hlt) as (Hf & Hv & _).
    destruct (binary_round 53 1024 s m e); try done.
  - by rewrite (Hinf Hge).
Qed.

Lemma key64_finite (x : float) (k : Z) :
  key64 x = Some k ->
  match Ieee.cast Ieee.F64 x with
  | S754_nan => False
  | S754_infinity s => k = cond_Zopp s (2 ^ 2098)
  | _ => Z.abs k < 2 ^ 2098
  end.
Proof.
  unfold key64. pose proof (cast64_shape x) as Hx.
  destruct (Ieee.cast Ieee.F64 x) as [s | s | | s m e] eqn:E; intros [= <-]; try done.
  all: exact (represents_bound 53 1024 ltac:(lia) ltac:(lia) (-1074) _ _ Hx
                ltac:(unfold emin; lia)).
Qed.

(** A comparison compares the places of its operands, and has no result
    when one of them is a NaN. *)
Lemma compare_key (x y : float) :
  Ieee.compare x y
  = match key64 x, key64 y with
    | Some a, Some b => Some (a ?= b)
    | _, _ => None
    end.
Proof.
  unfold Ieee.compare.
  pose proof (key64_finite x) as Kx. pose proof (key64_finite y) as Ky.
  pose proof (cast64_shape x) as Hx. pose proof (cast64_shape y) as Hy.
  unfold key64 in *.
  assert (HK : 0 < 2 ^ 2098) by (apply pow2_pos; lia).
  set (K := 2 ^ 2098) in *. clearbody K.
  destruct (Ieee.cast Ieee.F64 x) as [sx | sx | | sx mx ex] eqn:Ex;
    destruct (Ieee.cast Ieee.F64 y) as [sy | sy | | sy my ey] eqn:Ey;
    try done;
    try (exact (SFcompare_spec 53 1024 ltac:(lia) (-1074) _ _ _ _ Hx Hy
                  ltac:(unfold emin; lia)));
    try (specialize (Kx _ eq_refl)); try (specialize (Ky _ eq_refl));
    cbn [SFcompare]; f_equal; symmetry.
  all: try (destruct sx); try (destruct sy); cbn [cond_Zopp] in *;
    first [ apply Z.compare_eq_iff; lia | apply Z.compare_lt_iff; lia
          | apply Z.compare_gt_iff; lia ].
Qed.

Lemma leb_key (x y : float) :
  Ieee.leb x y
  = match key64 x, key64 y with
    | Some a, Some b => a <=? b
    | _, _ => false
    end.
Proof.
  change (Ieee.leb x y)
    with (match Ieee.compare x y with Some (Eq | Lt) => true | _ => false end).
  rewrite compare_key.
  by destruct (key64 x) as [a|], (key64 y) as [b|].
Qed.

Lemma ltb_key (x y : float) :
  Ieee.ltb x y
  = match key64 x, key64 y with
    | Some a, Some b => a <? b
    | _, _ => false
    end.
Proof.
  change (Ieee.ltb x y)
    with (match Ieee.compare x y with Some Lt => true | _ => false end).
  rewrite compare_key.
  by destruct (key64 x) as [a|], (key64 y) as [b|].
Qed.

Lemma leb_true (x y : float) :
  Ieee.leb x y = true <-> exists a b, key64 x = Some a /\ key64 y = Some b /\ a <= b.
Proof.
  rewrite leb_key. split.
  - destruct (key64 x) as [a|], (key64 y) as [b|]; try done.
    intros H%Z.leb_le. by exists a, b.
  - intros (a & b & -> & -> & H). by apply Z.leb_le.
Qed.

Lemma ltb_true (x y : float) :
  Ieee.ltb x y = true <-> exists a b, key64 x = Some a /\ key64 y = Some b /\ a < b.
Proof.
  rewrite ltb_key. split.
  - destruct (key64 x) as [a|], (key64 y) as [b|]; try done.
    intros H%Z.ltb_lt. by exists a, b.
  - intros (a & b & -> & -> & H). by apply Z.ltb_lt.
Qed.

Lemma key64_nan (x : float) : key64 x = None <-> Ieee.is_nan x = true.
Proof.
  unfold key64. pose proof (cast64_shape x) as Hx.
  destruct (Ieee.cast Ieee.F64 x) eqn:E.
  - split; [done|]. by destruct x.
  - split; [done|]. by destruct x.
  - by rewrite Hx.
  - split; [done|]. by destruct x.
Qed.

Lemma key64_of_finite_cast (x : float) :
  Ieee.is_finite (Ieee.cast Ieee.F64 x) = true ->
  exists k, key64 x = Some k /\ Z.abs k < 2 ^ 2098.
Proof.
  intros Hfin. pose proof (key64_finite x) as Hk. unfold key64 in *.
  destruct (Ieee.cast Ieee.F64 x); try done; eexists; split; try done; by apply Hk.
Qed.

Lemma finite_of_key64 (x : float) (k : Z) :
  key64 x = Some k -> Z.abs k < 2 ^ 2098 -> Ieee.is_finite x = true.
Proof.
  intros Hk Hlt. destruct x as [s | s | | s m e]; try done.
  - assert (HK : 0 < 2 ^ 2098) by (apply pow2_pos; lia).
    change (key64 (S754_infinity s)) with (Some (cond_Zopp s (2 ^ 2098))) in Hk.
    injection Hk as <-. destruct s; cbn [cond_Zopp] in Hlt; lia.
Qed.

(** A value between two finite values is finite. *)
Lemma finite_between (lo hi x : float) :
  Ieee.is_finite (Ieee.cast Ieee.F64 lo) = true ->
  Ieee.is_finite (Ieee.cast Ieee.F64 hi) = true ->
  Ieee.leb lo x = true -> Ieee.leb x hi = true -> Ieee.is_finite x = true.
Proof.
  intros (kl & Hkl & Hl)%key64_of_finite_cast (kh & Hkh & Hh)%key64_of_finite_cast.
  intros (a & k & Ha & Hk & Hak)%leb_true (k' & c & Hk' & Hc & Hkc)%leb_true.
  assert (k' = k) as -> by congruence.
  assert (a = kl) as -> by congruence. assert (c = kh) as -> by congruence.
  apply (finite_of_key64 x k Hk). lia.
Qed.

Lemma leb_not_nan (x y : float) :
  Ieee.leb x y = true -> Ieee.is_nan x = false /\ Ieee.is_nan y = false.
Proof.
  intros (a & c & Ha & Hc & _)%leb_true.
  split; apply not_true_is_false; intros H%key64_nan; congruence.
Qed.

(** ** The configuration *)

(** X8.  A configuration that passes [BankArgument::check] has a finite
    smoothing factor, finite view angles and a finite minimum
    confidence, and none of the thresholds on the edge, on the distance
    and on the speed is a NaN. *)
Theorem check_excludes_nan (a : BankArgument) :
  BankArgument_check a = true ->
  Ieee.is_finite (ema_alpha a) = true
  /\ Ieee.is_finite (angle_min a) = true
  /\ Ieee.is_finite (angle_max a) = true
  /\ Ieee.is_finite (object_threshold_min_confidence a) = true
  /\ Ieee.is_nan (object_threshold_edge_max_delta_range a) = false
  /\ Ieee.is_nan (object_threshold_max_distance a) = false
  /\ Ieee.is_nan (object_threshold_min_speed a) = false.
Proof.
  unfold BankArgument_check. rewrite !andb_true_iff.
  intros H. decompose [and] H. clear H.
  repeat match goal with H : (_ || _) = true |- _ => clear H end.
  repeat match goal with H : nonempty _ = true |- _ => clear H end.
  assert (Hpi : Ieee.is_finite (Ieee.cast Ieee.F64 Lit.M_PI) = true) by (vm_compute; reflexivity).
  assert (Hmpi : Ieee.is_finite (Ieee.cast Ieee.F64 (SFopp Lit.M_PI)) = true)
    by (vm_compute; reflexivity).
  assert (Hz0 : Ieee.is_finite (Ieee.cast Ieee.F64 Lit.d0) = true) by (vm_compute; reflexivity).
  assert (Hz1 : Ieee.is_finite (Ieee.cast Ieee.F64 Lit.d1) = true) by (vm_compute; reflexivity).
  assert (Hlo : Ieee.leb (SFopp Lit.M_PI) (angle_min a) = true) by assumption.
  assert (Hmid : Ieee.leb (angle_min a) (angle_max a) = true) by assumption.
  assert (Hhi : Ieee.leb (angle_max a) Lit.M_PI = true) by assumption.
  destruct (proj1 (leb_true _ _) Hlo) as (k1 & k2 & Hk1 & Hk2 & Hle12).
  destruct (proj1 (leb_true _ _) Hmid) as (k2' & k3 & Hk2' & Hk3 & Hle23).
  destruct (proj1 (leb_true _ _) Hhi) as (k3' & k4 & Hk3' & Hk4 & Hle34).
  assert (k2' = k2) as -> by congruence. assert (k3' = k3) as -> by congruence.
  assert (Hmax : Ieee.is_finite (angle_max a) = true).
  { apply (finite_between (SFopp Lit.M_PI) Lit.M_PI); try done.
    apply leb_true. exists k1, k3. split; [done|]. split; [done|]. lia. }
  assert (Hmin : Ieee.is_finite (angle_min a) = true).
  { apply (finite_between (SFopp Lit.M_PI) Lit.M_PI); try done.
    apply leb_true. exists k2, k4. split; [done|]. split; [done|]. lia. }
  repeat split; try done;
    try (by apply (finite_between Lit.d0 Lit.d1));
    match goal with
    | H : Ieee.leb _ ?y = true |- Ieee.is_nan ?y = false => exact (proj2 (leb_not_nan _ _ H))
    end.
Qed.

Lemma check_excludes_nan_witness :
  BankArgument_check BankArgument_default = true
  /\ Ieee.is_finite (ema_alpha BankArgument_default) = true.
Proof.
  split; [reflexivity|].
  apply (check_excludes_nan BankArgument_default). reflexivity.
Defined.

(** ** The first laser scan *)

Lemma check_points (a : BankArgument) :
  BankArgument_check a = true -> 0 < points_per_scan a.
Proof.
  unfold BankArgument_check. rewrite !andb_true_iff.
  intros H. decompose [and] H. by apply Z.ltb_lt.
Qed.

Lemma upto_length (n : Z) : 0 <= n -> Z.of_nat (length (C.upto n)) = n.
Proof. intros Hn. unfold C.upto. rewrite length_seqZ. lia. Qed.

(** X9.  [init] on a bank that is not initialised, with a configuration
    that passes the check, returns 0 and leaves a bank of
    [nr_scans_in_bank] slots of as many ranges as the scan has, whatever
    the allocated memory held: slot 0 holds the ranges and the time stamp
    of the scan, unsmoothed, the next scan goes to slot 1, and the bank
    is not filled. *)
Theorem init_stores_first_scan (b : Bank) (a : BankArgument) (msg : LaserScan)
        (heap : Z -> Z -> float) :
  bank_is_initialized b = false ->
  BankArgument_check (BankArgument_of_scan a msg) = true ->
  exists b',
    init b a msg heap = Some (b', 0)
    /\ bank_is_initialized b' = true
    /\ bank_argument b' = BankArgument_of_scan a msg
    /\ Z.of_nat (length (bank_ranges_ema b')) = nr_scans_in_bank a
    /\ Z.of_nat (length (bank_stamp b')) = nr_scans_in_bank a
    /\ Forall (fun slot => length slot = length (ls_ranges msg)) (bank_ranges_ema b')
    /\ C.get (bank_ranges_ema b') 0 = ls_ranges msg
    /\ C.get (bank_stamp b') 0 = ls_stamp msg
    /\ bank_index_put b' = 1 /\ bank_index_newest b' = 0
    /\ bank_is_filled b' = false.
Proof.
  intros Hinit Hcheck.
  pose proof (check_depth _ Hcheck) as Hdepth.
  cbn [nr_scans_in_bank BankArgument_of_scan] in Hdepth.
  unfold init, initBank. rewrite Hinit, Hcheck. cbn [negb].
  eexists. split; [reflexivity|].
  cbn [addFirstMessage fst bank_argument bank_is_initialized bank_ranges_ema bank_stamp
       with_stamp with_ranges with_filled with_indices initIndex bank_index_put
       bank_index_newest bank_is_filled points_per_scan nr_scans_in_bank BankArgument_of_scan].
  unfold addFirstMessage.
  cbn [bank_argument bank_is_initialized bank_ranges_ema bank_stamp
       with_stamp with_ranges with_filled with_indices initIndex bank_index_put
       bank_index_newest bank_is_filled points_per_scan nr_scans_in_bank BankArgument_of_scan].
  rewrite Nat2Z.id, firstn_all.
  set (slots := (fun l => heap l <$> C.upto (Z.of_nat (length (ls_ranges msg))))
                  <$> C.upto (nr_scans_in_bank a)).
  assert (Hslots : Z.of_nat (length slots) = nr_scans_in_bank a).
  { unfold slots. rewrite length_fmap. apply upto_length. lia. }
  assert (Hall : Forall (fun slot => length slot = length (ls_ranges msg)) slots).
  { unfold slots. apply Forall_fmap, Forall_forall. intros l _. cbn.
    rewrite length_fmap. apply Nat2Z.inj. apply upto_length. lia. }
  assert (Hzero : drop (length (ls_ranges msg)) (C.get slots 0) = []).
  { apply drop_ge. unfold C.get. cbn.
    destruct slots as [| slot0 rest]; [cbn in Hslots; lia|].
    apply Forall_cons in Hall as [Hlen _].
    change ((slot0 :: rest) !!! Z.to_nat 0) with slot0. lia. }
  rewrite Hzero, app_nil_r.
  repeat split; try done.
  - by rewrite length_set.
  - rewrite length_set, length_fmap. apply upto_length. lia.
  - unfold C.set. cbn. by apply Forall_insert.
  - apply get_set_same. lia.
  - apply get_set_same. rewrite length_fmap, upto_length; lia.
Qed.

Lemma init_stores_first_scan_witness :
  let b := Bank_new true in
  let msg := scan_of [Ieee.of_Z Ieee.F32 1; Ieee.of_Z Ieee.F32 2] in
  bank_is_initialized b = false
  /\ BankArgument_check (BankArgument_of_scan BankArgument_default msg) = true
  /\ exists b',
       init b BankArgument_default msg (fun _ _ => Ieee.nan) = Some (b', 0)
       /\ C.get (bank_ranges_ema b') 0 = ls_ranges msg.
Proof.
  split; [reflexivity|]. split; [reflexivity|].
  destruct (init_stores_first_scan (Bank_new true) BankArgument_default
              (scan_of [Ieee.of_Z Ieee.F32 1; Ieee.of_Z Ieee.F32 2]) (fun _ _ => Ieee.nan)
              eq_refl eq_refl) as (b' & H1 & _ & _ & _ & _ & _ & H2 & _).
  exists b'. split; assumption.
Defined.

(** X10.  [init] on a bank that is not initialised ends the program when
    the scan has no ranges, whatever the configuration is: the check
    of the number of points per scan fails. *)
Theorem init_without_ranges (b : Bank) (a : BankArgument) (msg : LaserScan)
        (heap : Z -> Z -> float) :
  bank_is_initialized b = false -> ls_ranges msg = [] ->
  init b a msg heap = None.
Proof.
  intros Hinit Hempty. unfold init, initBank. rewrite Hinit.
  destruct (BankArgument_check (BankArgument_of_scan a msg)) eqn:Hcheck; [|done].
  apply check_points in Hcheck.
  cbn [points_per_scan BankArgument_of_scan] in Hcheck.
  rewrite Hempty in Hcheck. cbn in Hcheck. lia.
Qed.

Lemma init_without_ranges_witness :
  bank_is_initialized (Bank_new true) = false /\ ls_ranges (scan_of []) = []
  /\ init (Bank_new true) BankArgument_default (scan_of []) (fun _ _ => Ieee.zero) = None.
Proof.
  split; [reflexivity|]. split; [reflexivity|].
  apply (init_without_ranges (Bank_new true) BankArgument_default (scan_of [])); reflexivity.
Defined.

(** X11.  [init] on a bank that is already initialised checks nothing and
    allocates nothing: it returns 0 and keeps the configuration, the
    number of slots and the time stamps of the slots other than 0, also
    for a configuration that would not pass the check; it restarts the
    ring buffer at slot 0 with the time stamp of the scan. *)
Theorem init_twice (b : Bank) (a : BankArgument) (msg : LaserScan)
        (heap : Z -> Z -> float) :
  bank_is_initialized b = true ->
  exists b',
    init b a msg heap = Some (b', 0)
    /\ bank_argument b' = bank_argument b
    /\ length (bank_ranges_ema b') = length (bank_ranges_ema b)
    /\ (forall level, level <> 0 ->
          C.get (bank_ranges_ema b') level = C.get (bank_ranges_ema b) level
          /\ C.get (bank_stamp b') level = C.get (bank_stamp b) level)
    /\ (0 < Z.of_nat (length (bank_stamp b)) -> C.get (bank_stamp b') 0 = ls_stamp msg)
    /\ bank_index_put b' = 1 /\ bank_index_newest b' = 0
    /\ bank_is_filled b' = false.
Proof.
  intros Hinit. unfold init, initBank. rewrite Hinit.
  eexists. split; [reflexivity|].
  unfold addFirstMessage.
  cbn [fst bank_argument bank_is_initialized bank_ranges_ema bank_stamp
       with_stamp with_ranges with_filled with_indices initIndex bank_index_put
       bank_index_newest bank_is_filled].
  repeat split; try done.
  - apply length_set.
  - by apply get_set_other.
  - by apply get_set_other.
  - intros Hlen. apply get_set_same. lia.
Qed.

Lemma init_twice_witness :
  bank_is_initialized example_bank = true
  /\ exists b',
       init example_bank (bank_argument (Bank_new true)) (scan_of []) (fun _ _ => Ieee.zero)
       = Some (b', 0)
       /\ bank_argument b' = bank_argument example_bank.
Proof.
  split; [reflexivity|].
  destruct (init_twice example_bank (bank_argument (Bank_new true)) (scan_of [])
              (fun _ _ => Ieee.zero) eq_refl) as (b' & H1 & H2 & _).
  exists b'. split; assumption.
Defined.


(** ** The confidence of the reported objects *)

Lemma key64_d0 : key64 Lit.d0 = Some 0.
Proof. reflexivity. Qed.

Lemma key64_d1 : key64 Lit.d1 = Some unit64.
Proof.
  destruct one_value as (_ & _ & Hone). unfold key64.
  destruct (Ieee.cast Ieee.F64 Lit.d1) eqn:E; try (by vm_compute in E); by rewrite <- Hone.
Qed.

Lemma bound_confidence_cases (conf : float) :
  match key64 conf with
  | None => bound_confidence conf = Lit.d1
  | Some k =>
      if k <? 0 then bound_confidence conf = Lit.d0
      else if k <? unit64 then bound_confidence conf = conf
      else bound_confidence conf = Lit.d1
  end.
Proof.
  pose proof unit64_pos as Hpos.
  unfold bound_confidence. rewrite (ltb_key conf Lit.d0), key64_d0.
  destruct (key64 conf) as [k|] eqn:Hk.
  - destruct (Z.ltb_spec k 0) as [Hneg | Hnonneg].
    + rewrite (ltb_key Lit.d0 Lit.d1), key64_d0, key64_d1.
      by rewrite (proj2 (Z.ltb_lt 0 unit64) Hpos).
    + rewrite (ltb_key conf Lit.d1), Hk, key64_d1. by destruct (k <? unit64).
  - by rewrite (ltb_key conf Lit.d1), Hk.
Qed.

Lemma bound_confidence_leb (conf : float) :
  Ieee.leb Lit.d0 (bound_confidence conf) = true
  /\ Ieee.leb (bound_confidence conf) Lit.d1 = true.
Proof.
  pose proof unit64_pos as Hpos.
  pose proof (bound_confidence_cases conf) as Hcases.
  rewrite !leb_key, key64_d0, key64_d1.
  destruct (key64 conf) as [k|] eqn:Hk.
  - destruct (Z.ltb_spec k 0) as [Hneg | Hnonneg].
    + rewrite Hcases, key64_d0. split; apply Z.leb_le; lia.
    + destruct (Z.ltb_spec k unit64) as [Hlt | Hge].
      * rewrite Hcases, Hk. split; apply Z.leb_le; lia.
      * rewrite Hcases, key64_d1. split; apply Z.leb_le; lia.
  - rewrite Hcases, key64_d1. split; apply Z.leb_le; lia.
Qed.

(** X12.  The bounding of the confidence gives a value of the interval
    [[0, 1]] for every value that the user's function returns: 0 for a
    negative value, 1 for a value of 1 or more and also for a NaN, and
    the value itself when it is at least 0 and below 1. *)
Theorem bound_confidence_in_unit_interval (conf : float) :
  (Ieee.leb Lit.d0 (bound_confidence conf) = true
   /\ Ieee.leb (bound_confidence conf) Lit.d1 = true)
  /\ (Ieee.is_nan conf = true -> bound_confidence conf = Lit.d1)
  /\ (Ieee.ltb conf Lit.d0 = true -> bound_confidence conf = Lit.d0)
  /\ (Ieee.leb Lit.d1 conf = true -> bound_confidence conf = Lit.d1)
  /\ (Ieee.leb Lit.d0 conf = true -> Ieee.ltb conf Lit.d1 = true ->
      bound_confidence conf = conf).
Proof.
  pose proof unit64_pos as Hpos.
  pose proof (bound_confidence_cases conf) as Hcases.
  split; [apply bound_confidence_leb|].
  rewrite ltb_key, !leb_key, ltb_key, key64_d0, key64_d1.
  split; [|split; [|split]].
  - intros Hnan%key64_nan. by rewrite Hnan in Hcases.
  - destruct (key64 conf) as [k|]; [|done].
    intros Hneg. by rewrite Hneg in Hcases.
  - destruct (key64 conf) as [k|]; [|done].
    intros Hge%Z.leb_le.
    rewrite (proj2 (Z.ltb_ge k 0)), (proj2 (Z.ltb_ge k unit64)) in Hcases by lia. done.
  - destruct (key64 conf) as [k|]; [|done].
    intros Hge%Z.leb_le Hlt.
    rewrite (proj2 (Z.ltb_ge k 0)), Hlt in Hcases by lia. done.
Qed.

Section Reported.

Context {libm : LibM} {listener : TransformListener} {scorer : Confidence}.

Variable b : Bank.
Variable P : MovingObject -> Prop.
Hypothesis report_tracked_P :
  forall (n i : Z) (c : Candidate) (o : OldIndices), Forall P (report_tracked b n i c o).

(** What holds of every object that one tracked candidate adds holds of
    every object of the array. *)
Lemma scan_step_objects (s s' : Scan) :
  Forall P (moa_objects s) -> scan_step b s = Some s' -> Forall P (moa_objects s').
Proof.
  intros Hall. unfold scan_step.
  destruct (out_of_range b _); [by intros [= <-]|].
  destruct (_ <=? _); [|by intros [= <-]].
  destruct (track b _ _) as [o|]; [|done].
  intros [= <-]. cbn [moa_objects].
  destruct (0 <=? index_mean_old o); [|done].
  apply Forall_app. split; [done|]. apply report_tracked_P.
Qed.

Lemma scan_loop_objects (n : nat) : forall (s s' : Scan),
  Forall P (moa_objects s) -> scan_loop n b s = Some s' -> Forall P (moa_objects s').
Proof.
  induction n as [|n IH]; intros s s' Hall; cbn [scan_loop];
    destruct (scan_i s <? _); try done; try (by intros [= <-]).
  destruct (scan_step b s) as [s1|] eqn:Hstep; [|done].
  apply IH. by eapply scan_step_objects.
Qed.

Lemma report_objects (moa : list MovingObject) :
  findAndReportMovingObjects b = Some moa -> Forall P moa.
Proof.
  unfold findAndReportMovingObjects.
  destruct (negb (bank_is_filled b)); [by intros [= <-]|].
  destruct (scan_loop _ b _) as [s|] eqn:Hloop; [|done].
  intros [= <-]. apply scan_loop_objects in Hloop; [done|by constructor].
Qed.

End Reported.

(** X13.  Every object of the array that a reporting cycle returns has a
    confidence in [[0, 1]] that is at least
    [object_threshold_min_confidence], whatever the user's confidence
    function computes. *)
Theorem reported_confidence {libm : LibM} {listener : TransformListener} {scorer : Confidence}
        (b : Bank) (moa : list MovingObject) :
  findAndReportMovingObjects b = Some moa ->
  Forall (fun mo =>
            Ieee.leb (object_threshold_min_confidence (bank_argument b)) (confidence mo) = true
            /\ Ieee.leb Lit.d0 (confidence mo) = true
            /\ Ieee.leb (confidence mo) Lit.d1 = true) moa.
Proof.
  apply report_objects. intros n i c o. unfold report_tracked.
  destruct (moving_object b n i c o) as [[[mo dt] w] [[[[[f1 f2] f3] f4] f5] f6]].
  destruct (speed_gate b mo); [|by constructor].
  set (conf := bound_confidence _).
  destruct (Ieee.leb _ conf) eqn:Hmin; [|by constructor].
  repeat constructor; cbn [confidence with_confidence]; [done| |];
    apply bound_confidence_leb.
Qed.

Lemma reported_confidence_witness :
  exists mo, report_example receding_bank = Some [mo]
             /\ Ieee.leb (confidence mo) Lit.d1 = true.
Proof.
  destruct (report_example receding_bank) as [[|mo [|]]|] eqn:Hrun;
    try (vm_compute in Hrun; discriminate Hrun).
  exists mo. split; [reflexivity|].
  pose proof (reported_confidence (libm := libm_example) (listener := listener_example)
                (scorer := confidence_example) receding_bank [mo] Hrun) as Hall.
  apply Forall_cons in Hall as [(_ & _ & H1) _]. exact H1.
Defined.


(** ** The order of the comparisons is a total preorder without the NaNs *)

Lemma leb_refl (x : float) : Ieee.is_nan x = false -> Ieee.leb x x = true.
Proof.
  intros Hx. rewrite leb_key. destruct (key64 x) as [k|] eqn:Hk.
  - apply Z.leb_refl.
  - apply key64_nan in Hk. congruence.
Qed.

Lemma leb_trans (x y z : float) :
  Ieee.leb x y = true -> Ieee.leb y z = true -> Ieee.leb x z = true.
Proof.
  intros (a & k & Ha & Hk & Hak)%leb_true (k' & c & Hk' & Hc & Hkc)%leb_true.
  apply leb_true. exists a, c. split; [done|]. split; [done|].
  assert (k' = k) by congruence. lia.
Qed.

Lemma ltb_leb (x y : float) : Ieee.ltb x y = true -> Ieee.leb x y = true.
Proof.
  intros (a & c & Ha & Hc & Hac)%ltb_true.
  apply leb_true. exists a, c. split; [done|]. split; [done|]. lia.
Qed.

Lemma not_ltb_leb (x y : float) :
  Ieee.ltb x y = false -> Ieee.is_nan x = false -> Ieee.is_nan y = false ->
  Ieee.leb y x = true.
Proof.
  rewrite ltb_key, leb_key. intros Hlt Hx Hy.
  destruct (key64 x) as [a|] eqn:Ha; [|apply key64_nan in Ha; congruence].
  destruct (key64 y) as [c|] eqn:Hc; [|apply key64_nan in Hc; congruence].
  apply Z.leb_le. apply Z.ltb_ge in Hlt. lia.
Qed.

(** ** The segmentation of the newest scan *)

Section Segmentation.

Variable b : Bank.

Local Abbreviation rg := (range_at b (bank_index_newest b)).
Local Abbreviation pps := (points_per_scan (bank_argument b)).

(** The loop over [j] extends the candidate over the indices that pass
    the range check against their predecessor, and stops at the first
    one that does not. *)
Lemma count_object_points_run (n : nat) : forall (j : Z) (c : Candidate),
  prev_range c = rg (j - 1) ->
  let c' := count_object_points n b j c in
  let k := nr_object_points c' - nr_object_points c in
  (forall t, j <= t < j + k -> t < pps /\ part_of_object b (rg (t - 1)) (rg t) = true)
  /\ (k < Z.of_nat n -> j + k < pps ->
      part_of_object b (rg (j + k - 1)) (rg (j + k)) = false)
  /\ prev_range c' = rg (j + k - 1).
Proof.
  induction n as [|n IH]; intros j c Hprev; cbn [count_object_points].
  - cbv zeta. rewrite Z.sub_diag, Z.add_0_r. repeat split; try done; lia.
  - destruct (Z.ltb_spec j pps) as [Hj | Hj].
    + destruct (part_of_object b (prev_range c) (rg j)) eqn:Hpart.
      * match goal with |- context [count_object_points n b (j + 1) ?c1] =>
          pose proof (IH (j + 1) c1) as Hrec;
          pose proof (count_object_points_bounds n b (j + 1) c1) as Hnr;
          set (c' := count_object_points n b (j + 1) c1) in *
        end.
        cbn [prev_range nr_object_points] in Hrec, Hnr. cbv zeta in *.
        rewrite Z.add_simpl_r in Hrec.
        destruct (Hrec eq_refl) as (Hrun & Hstop & Hlast).
        set (k := nr_object_points c' - (nr_object_points c + 1)) in *.
        replace (nr_object_points c' - nr_object_points c) with (k + 1) by (unfold k; lia).
        split; [|split].
        -- intros t Ht. destruct (decide (t = j)) as [-> | Hne].
           ++ by rewrite <- Hprev.
           ++ apply Hrun. lia.
        -- intros Hk Hlt. replace (j + (k + 1)) with (j + 1 + k) by lia.
           apply Hstop; lia.
        -- by replace (j + (k + 1)) with (j + 1 + k) by lia.
      * cbv zeta. rewrite Z.sub_diag, Z.add_0_r, <- Hprev.
        repeat split; try done; lia.
    + cbv zeta. rewrite Z.sub_diag, Z.add_0_r. repeat split; try done; lia.
Qed.

(** The loop over [j] keeps the least and the greatest range up to date.
    The ranges it adds are not NaNs, as they pass the range check. *)
Lemma count_object_points_extremes (n : nat) : forall (i j : Z) (c : Candidate),
  i < j -> extremes b i j c ->
  let c' := count_object_points n b j c in
  extremes b i (j + (nr_object_points c' - nr_object_points c)) c'.
Proof.
  induction n as [|n IH]; intros i j c Hij Hc; cbn [count_object_points]; cbv zeta.
  - by rewrite Z.sub_diag, Z.add_0_r.
  - destruct (j <? pps); [|by rewrite Z.sub_diag, Z.add_0_r].
    destruct (part_of_object b (prev_range c) (rg j)) eqn:Hpart;
      [|by rewrite Z.sub_diag, Z.add_0_r].
    match goal with |- context [count_object_points n b (j + 1) ?c1] =>
      pose proof (IH i (j + 1) c1 ltac:(lia)) as Hrec; set (c1' := c1) in *
    end.
    cbv zeta in Hrec.
    replace (j + (nr_object_points (count_object_points n b (j + 1) c1') - nr_object_points c))
      with (j + 1 + (nr_object_points (count_object_points n b (j + 1) c1')
                     - nr_object_points c1'))
      by (cbn [nr_object_points c1']; lia).
    apply Hrec. clear Hrec IH.
    unfold part_of_object in Hpart. rewrite !andb_true_iff in Hpart.
    destruct Hpart as [[Hlow _] _]. apply leb_not_nan in Hlow as [_ Hj].
    destruct Hc as ((Hi1 & Hmin & Hleast) & (Hi2 & Hmax & Hgreatest)).
    assert (Hmin_ok : Ieee.is_nan (object_range_min c) = false)
      by (apply (leb_not_nan _ _ (Hleast (object_range_min_index c) ltac:(lia)))).
    assert (Hmax_ok : Ieee.is_nan (object_range_max c) = false)
      by (apply (leb_not_nan _ _ (Hgreatest (object_range_max_index c) ltac:(lia)))).
    assert (Hle : Ieee.leb (object_range_min c) (object_range_max c) = true)
      by (rewrite Hmax; apply Hleast; lia).
    unfold extremes, c1'.
    cbn [object_range_min object_range_max object_range_min_index object_range_max_index].
    destruct (Ieee.ltb (rg j) (object_range_min c)) eqn:Hlt; cbn [negb andb].
    + apply ltb_leb in Hlt. split; (split; [lia|]); (split; [done|]).
      * intros t Ht. destruct (decide (t = j)) as [-> | Hne]; [by apply leb_refl|].
        apply (leb_trans _ _ _ Hlt). apply Hleast. lia.
      * intros t Ht. destruct (decide (t = j)) as [-> | Hne]; [|apply Hgreatest; lia].
        by apply (leb_trans _ _ _ Hlt).
    + apply not_ltb_leb in Hlt; [|done|done].
      split.
      { split; [lia|]. split; [done|].
        intros t Ht. destruct (decide (t = j)) as [-> | Hne]; [done|]. apply Hleast. lia. }
      destruct (Ieee.ltb (object_range_max c) (rg j)) eqn:Hgt.
      * apply ltb_leb in Hgt. split; [lia|]. split; [done|].
        intros t Ht. destruct (decide (t = j)) as [-> | Hne]; [by apply leb_refl|].
        apply (fun H => leb_trans _ _ _ H Hgt). apply Hgreatest. lia.
      * apply not_ltb_leb in Hgt; [|done|done].
        split; [lia|]. split; [done|].
        intros t Ht. destruct (decide (t = j)) as [-> | Hne]; [done|]. apply Hgreatest. lia.
Qed.

End Segmentation.

(** X14.  The candidate that the segmentation starts at an index [i] of
    the newest scan covers [i] and the longest run of indices after it
    of which each passes the range check against its predecessor (a
    range within the limits of the sensor, at most the edge threshold
    away from the range before it): it has between 1 and
    [points_per_scan - i] points, every index of the run passes the
    check, and the index after the run, if there is one, does not. *)
Theorem candidate_is_longest_run (b : Bank) (i : Z) :
  0 <= i < points_per_scan (bank_argument b) ->
  let range := range_at b (bank_index_newest b) in
  let n := nr_object_points (candidate_at b i) in
  1 <= n <= points_per_scan (bank_argument b) - i
  /\ (forall t, i < t < i + n -> part_of_object b (range (t - 1)) (range t) = true)
  /\ (i + n < points_per_scan (bank_argument b) ->
      part_of_object b (range (i + n - 1)) (range (i + n)) = false).
Proof.
  intros Hi range n. unfold candidate_at in n.
  match eval unfold n in n with context [count_object_points ?f b (i + 1) ?c0] =>
    pose proof (count_object_points_run b f (i + 1) c0) as Hrun;
    pose proof (count_object_points_bounds f b (i + 1) c0) as Hnr
  end.
  cbn [prev_range nr_object_points] in Hrun, Hnr. cbv zeta in Hrun.
  rewrite Z.add_simpl_r in Hrun. destruct (Hrun eq_refl) as (Hin & Hstop & _). clear Hrun.
  fold n in Hin, Hstop, Hnr. fold range in Hin, Hstop.
  assert (Hn : n <= points_per_scan (bank_argument b) - i).
  { destruct (decide (n = 1)) as [-> | Hne]; [lia|].
    destruct (Hin (i + n - 1)) as [Hlt _]; lia. }
  split; [lia|]. split.
  - intros t Ht. apply Hin. lia.
  - intros Hlt. replace (i + n) with (i + 1 + (n - 1)) by lia. apply Hstop; lia.
Qed.

Lemma candidate_is_longest_run_witness :
  0 <= 1 < points_per_scan (bank_argument example_bank)
  /\ nr_object_points (candidate_at example_bank 1) = 5
  /\ part_of_object example_bank (range_at example_bank 0 5) (range_at example_bank 0 6) = false.
Proof.
  split; [split; [discriminate | reflexivity]|]. split; [reflexivity|].
  apply (proj2 (proj2 (candidate_is_longest_run example_bank 1
                         ltac:(split; [discriminate | reflexivity])))).
  reflexivity.
Defined.

(** X15.  When the range at [i] is not a NaN, the candidate started at [i]
    holds in [object_range_min] the least and in [object_range_max] the
    greatest range of the indices it covers, and the two indices it keeps
    are indices of the candidate at which these ranges are found. *)
Theorem candidate_extremes (b : Bank) (i : Z) :
  Ieee.is_nan (range_at b (bank_index_newest b) i) = false ->
  let range := range_at b (bank_index_newest b) in
  let c := candidate_at b i in
  let n := nr_object_points c in
  (i <= object_range_min_index c < i + n
   /\ object_range_min c = range (object_range_min_index c)
   /\ forall t, i <= t < i + n -> Ieee.leb (object_range_min c) (range t) = true)
  /\ (i <= object_range_max_index c < i + n
      /\ object_range_max c = range (object_range_max_index c)
      /\ forall t, i <= t < i + n -> Ieee.leb (range t) (object_range_max c) = true).
Proof.
  intros Hnan range c n. unfold candidate_at in c.
  match eval unfold c in c with context [count_object_points ?f b (i + 1) ?c0] =>
    pose proof (count_object_points_extremes b f i (i + 1) c0 ltac:(lia)) as Hext
  end.
  cbv zeta in Hext. fold c in Hext. cbn [nr_object_points] in Hext. fold n in Hext.
  replace (i + 1 + (n - 1)) with (i + n) in Hext by lia.
  apply Hext. unfold extremes.
  cbn [object_range_min object_range_max object_range_min_index object_range_max_index].
  split; (split; [lia|]); (split; [done|]);
    intros t Ht; assert (t = i) as -> by lia; by apply leb_refl.
Qed.

Lemma candidate_extremes_witness :
  Ieee.is_nan (range_at receding_bank (bank_index_newest receding_bank) 1) = false
  /\ object_range_min (candidate_at receding_bank 1)
     = range_at receding_bank 0 (object_range_min_index (candidate_at receding_bank 1)).
Proof.
  split; [reflexivity|].
  apply (candidate_extremes receding_bank 1). reflexivity.
Defined.


(** ** What a new scan overwrites *)

(** X16.  [addMessage] returns 0 and overwrites the slot [bank_index_put]
    only: the configuration, the ranges of every other slot and the time
    stamps of the other slots are unchanged, the time stamp of the slot
    is the one of the scan, and each of its ranges becomes the blend of
    the new range and of the range of the newest slot. *)
Theorem addMessage_overwrites_put_slot (b : Bank) (msg : LaserScan) :
  let alpha := ema_alpha (bank_argument b) in
  let put := bank_index_put b in
  let newest := bank_index_newest b in
  let b' := fst (addMessage b msg) in
  snd (addMessage b msg) = 0
  /\ bank_argument b' = bank_argument b
  /\ (forall level i, level <> put -> range_at b' level i = range_at b level i)
  /\ (forall level, level <> put ->
        C.get (bank_stamp b') level = C.get (bank_stamp b) level)
  /\ (0 <= put < Z.of_nat (length (bank_stamp b)) ->
      C.get (bank_stamp b') put = ls_stamp msg)
  /\ (put <> newest ->
      0 <= put < Z.of_nat (length (bank_ranges_ema b)) ->
      points_per_scan (bank_argument b) <= Z.of_nat (length (C.get (bank_ranges_ema b) put)) ->
      forall i, 0 <= i < points_per_scan (bank_argument b) ->
        range_at b' put i
        = ema_blend alpha (Ieee.sub Ieee.F64 Lit.d1 alpha)
            (C.get (ls_ranges msg) i) (range_at b newest i)).
Proof.
  intros alpha put newest b'.
  split; [done|].
  assert (Hfinal : exists bl r,
             bl = with_ranges (with_stamp b (C.set (bank_stamp b) put (ls_stamp msg))) r
             /\ (forall level i, level <> put -> range_at bl level i = range_at b level i)
             /\ bank_stamp b' = bank_stamp bl /\ bank_argument b' = bank_argument bl
             /\ bank_ranges_ema b' = bank_ranges_ema bl).
  { unfold b', addMessage. cbv zeta. cbn [fst]. fold alpha put newest.
    cbn [bank_argument with_stamp].
    set (b0 := with_stamp b _).
    set (g := fun (b : Bank) (k : Z) =>
                ema_blend alpha (Ieee.sub Ieee.F64 (Ieee.of_Z Ieee.F64 1) alpha)
                  (C.get (ls_ranges msg) k) (range_at b newest k)).
    change (foldl _ b0 (C.upto (points_per_scan (bank_argument b))))
      with (foldl (fun b k => put_range b put k (g b k)) b0
              (C.upto (points_per_scan (bank_argument b)))).
    set (bl := foldl _ b0 _).
    destruct (store_loop_frame (fun b k => put_range b put k (g b k))
                (C.upto (points_per_scan (bank_argument b))) b0) as (r & Hr).
    { intros b1 k. unfold put_range. eauto. }
    fold bl in Hr. exists bl, r. split; [done|]. split.
    - intros level i Hne. unfold bl.
      by rewrite (store_loop_newest put level g ltac:(done)).
    - by destruct (_ <? _). }
  destruct Hfinal as (bl & r & Hbl & Hframe & Hstamp & Harg & Hranges).
  split; [by rewrite Harg, Hbl|]. split.
  { intros level i Hne. unfold range_at. rewrite Hranges. by apply Hframe. }
  rewrite Hstamp, Hbl. cbn [bank_stamp with_ranges with_stamp].
  split; [intros level Hne; by apply get_set_other|].
  split; [intros Hput; by apply get_set_same|].
  intros Hne Hput Hlen i Hi.
  by apply (addMessage_stores_blend b msg i).
Qed.

Lemma addMessage_overwrites_put_slot_witness :
  range_at (fst (addMessage example_bank (scan_of example_slot))) 0 3
  = range_at example_bank 0 3.
Proof.
  apply (proj1 (proj2 (proj2 (addMessage_overwrites_put_slot example_bank
                                (scan_of example_slot))))).
  discriminate.
Defined.

(** ** The reset of a slot before a point cloud is put in *)

(** X17.  [resetPutPoints] assigns the [float] nearest to
    [object_threshold_max_distance + 10.0] to the first [points_per_scan]
    ranges of the slot [bank_index_put]; it changes no other range, and
    nothing but ranges. *)
Theorem resetPutPoints_fills_put_slot (b : Bank) :
  let put := bank_index_put b in
  let far :=
    Ieee.cast Ieee.F32
      (Ieee.add Ieee.F64 (object_threshold_max_distance (bank_argument b)) Lit.d10) in
  0 <= put < Z.of_nat (length (bank_ranges_ema b)) ->
  points_per_scan (bank_argument b) <= Z.of_nat (length (C.get (bank_ranges_ema b) put)) ->
  (forall i, 0 <= i < points_per_scan (bank_argument b) ->
     range_at (resetPutPoints b) put i = far)
  /\ (forall level i,
        level <> put \/ ~ 0 <= i < points_per_scan (bank_argument b) ->
        range_at (resetPutPoints b) level i = range_at b level i)
  /\ exists r, resetPutPoints b = with_ranges b r.
Proof.
  intros put far Hput Hlen.
  set (g := fun (_ : Bank) (_ : Z) => far).
  assert (Hloop : resetPutPoints b
                  = foldl (fun b k => put_range b put k (g b k)) b
                      (C.upto (points_per_scan (bank_argument b)))).
  { unfold resetPutPoints. cbv zeta. fold far.
    generalize (C.upto (points_per_scan (bank_argument b))). intros l.
    assert (Hgen : forall b1 : Bank, bank_index_put b1 = put ->
               foldl (fun b i => put_range b (bank_index_put b) i far) b1 l
               = foldl (fun b k => put_range b put k (g b k)) b1 l).
    { induction l as [| k l IH]; intros b1 Hp; [done|].
      cbn [foldl]. by rewrite IH, Hp. }
    by apply Hgen. }
  rewrite Hloop.
  split; [|split].
  - intros i Hi.
    destruct (store_loop_written put (put + 1) g ltac:(lia)
                (C.upto (points_per_scan (bank_argument b))) b i) as (b' & Hv & _).
    + apply NoDup_seqZ.
    + by apply upto_spec.
    + done.
    + intros k Hk%upto_spec. lia.
    + by rewrite Hv.
  - intros level i [Hne | Hout].
    + by apply (store_loop_newest put level g ltac:(done)).
    + destruct (decide (level = put)) as [-> | Hne].
      * apply (store_loop_untouched put g). by rewrite upto_spec.
      * by apply (store_loop_newest put level g ltac:(done)).
  - rewrite <- Hloop. apply resetPutPoints_frame.
Qed.

Lemma resetPutPoints_fills_put_slot_witness :
  range_at (resetPutPoints cloud_bank) 1 2 = Ieee.make Ieee.F32 33 (-1).
Proof.
  apply (proj1 (resetPutPoints_fills_put_slot cloud_bank
                  ltac:(split; [discriminate | reflexivity]) ltac:(discriminate)) 2).
  split; [discriminate | reflexivity].
Defined.


(** ** The smoothing at its two ends *)

(** The value stored by the smoothing step for a weight whose value is
    known. *)
Lemma ema_blend_weighted (alpha n p : float) (A : Z) :
  represents 53 1024 (-1074) (Ieee.cast Ieee.F64 alpha) A -> 0 <= A <= unit64 ->
  float32 n = true -> float32 p = true ->
  represents 24 128 (-2148)
    (ema_blend alpha (Ieee.sub Ieee.F64 Lit.d1 alpha) n p)
    (blend A (one_minus A) (sval (-1074) n) (sval (-1074) p)).
Proof.
  intros Ha HA Hn%float32_value Hp%float32_value.
  set (N := sval (-1074) n) in *. set (P := sval (-1074) p) in *.
  destruct (one_minus_bounds A HA) as [HB _].
  pose proof (float32_bound n N Hn) as HNb. pose proof (float32_bound p P Hp) as HPb.
  pose proof (cast_F64 24 128 (-1074) n N ltac:(lia) ltac:(lia) ltac:(lia) ltac:(lia)
                ltac:(lia) Hn) as Hn64.
  pose proof (cast_F64 24 128 (-1074) p P ltac:(lia) ltac:(lia) ltac:(lia) ltac:(lia)
                ltac:(lia) Hp) as Hp64.
  assert (Hb : represents 53 1024 (-1074) (Ieee.sub Ieee.F64 Lit.d1 alpha) (one_minus A)).
  { unfold Ieee.sub. cbn [Ieee.prec Ieee.emax].
    apply (SFsub_spec 53 1024 ltac:(lia) ltac:(lia) (-1074) _ _ unit64 A one_value Ha).
    - unfold emin. lia.
    - change (Z.abs (one_minus A) < 2 ^ 2098).
      assert (unit64 < 2 ^ 2098) by (unfold unit64; apply pow2_lt; lia). lia. }
  pose proof (cast_F64 53 1024 (-1074) _ _ ltac:(lia) ltac:(lia) ltac:(lia) ltac:(lia)
                ltac:(lia) Hb) as Hb64.
  pose proof (product_bound A N HA HNb) as HR1.
  pose proof (product_bound (one_minus A) P HB HPb) as HR2.
  assert (Hlt : 2 ^ 2277 < 2 ^ 3172) by (apply pow2_lt; lia).
  assert (Hle : 2 ^ 2276 <= 2 ^ 2277) by (apply pow2_le; lia).
  assert (HM1 : represents 53 1024 (-2148) (Ieee.mul Ieee.F64 alpha n) (R64 (A * N))).
  { unfold Ieee.mul. cbn [Ieee.prec Ieee.emax].
    apply (SFmul_spec 53 1024 ltac:(lia) ltac:(lia) (-1074) _ _ A N Ha Hn64).
    - unfold emin. lia.
    - change (Z.abs (R64 (A * N)) < 2 ^ 3172). lia. }
  assert (HM2 : represents 53 1024 (-2148)
                  (Ieee.mul Ieee.F64 (Ieee.sub Ieee.F64 Lit.d1 alpha) p)
                  (R64 (one_minus A * P))).
  { unfold Ieee.mul. cbn [Ieee.prec Ieee.emax].
    apply (SFmul_spec 53 1024 ltac:(lia) ltac:(lia) (-1074) _ _ _ P Hb64 Hp64).
    - unfold emin. lia.
    - change (Z.abs (R64 (one_minus A * P)) < 2 ^ 3172). lia. }
  pose proof (cast_F64 53 1024 (-2148) _ _ ltac:(lia) ltac:(lia) ltac:(lia) ltac:(lia)
                ltac:(lia) HM1) as HM1'.
  pose proof (cast_F64 53 1024 (-2148) _ _ ltac:(lia) ltac:(lia) ltac:(lia) ltac:(lia)
                ltac:(lia) HM2) as HM2'.
  pose proof (sum_bound _ _ HR1 HR2) as HR3.
  set (D := Ieee.add Ieee.F64 (Ieee.mul Ieee.F64 alpha n)
              (Ieee.mul Ieee.F64 (Ieee.sub Ieee.F64 Lit.d1 alpha) p)).
  assert (HD : represents 53 1024 (-2148) D (R64 (R64 (A * N) + R64 (one_minus A * P)))).
  { unfold D, Ieee.add. cbn [Ieee.prec Ieee.emax].
    apply (SFadd_spec 53 1024 ltac:(lia) ltac:(lia) (-2148) _ _ _ _ HM1' HM2').
    - unfold emin. lia.
    - change (Z.abs (R64 (R64 (A * N) + R64 (one_minus A * P))) < 2 ^ 3172). lia. }
  pose proof (blend_between A n p N P HA Hn Hp) as Hbetween.
  pose proof (scaled_bound N P _ (2 ^ 1202) unit64 Hbetween HNb HPb unit64_pos) as HVb.
  unfold ema_blend. fold D.
  destruct HD as (HDfin & HDvalid & HDval).
  pose proof (cast_spec 24 128 ltac:(lia) ltac:(lia) (-2148) D HDfin) as Hcast.
  rewrite HDval in Hcast. apply Hcast.
  - apply (exponent_above_le (emin 53 1024)); [unfold emin; lia|]. by apply valid_exponent.
  - unfold emin. lia.
  - change (Z.abs (blend A (one_minus A) N P) < 2 ^ 2276).
    change (2 ^ 2276) with (2 ^ 1202 * unit64). done.
Qed.

Lemma one_minus_ends : one_minus unit64 = 0 /\ one_minus 0 = unit64.
Proof.
  unfold one_minus. rewrite Z.sub_diag, Z.sub_0_r, sRN_0. split; [done|].
  unfold unit64. apply sRN_pow2; lia.
Qed.

(** With the weights 1 and 0 the blend is the range that has the
    weight 1. *)
Lemma blend_ends (n p : float) :
  float32 n = true -> float32 p = true ->
  let N := sval (-1074) n in
  let P := sval (-1074) p in
  blend unit64 (one_minus unit64) N P = N * unit64
  /\ blend 0 (one_minus 0) N P = P * unit64.
Proof.
  intros Hn%float32_value Hp%float32_value N P. fold N in Hn. fold P in Hp.
  pose proof unit64_pos as Hpos.
  pose proof (blend_same unit64 n N ltac:(lia) Hn) as HsN.
  pose proof (blend_same 0 p P ltac:(lia) Hp) as HsP.
  destruct one_minus_ends as [H1 H0]. rewrite H1, H0 in *.
  unfold blend in *. rewrite !Z.mul_0_l in *. by split.
Qed.

Lemma compare_scaled (v x : float) (X : Z) :
  represents 24 128 (-2148) v (X * unit64) -> represents 24 128 (-1074) x X ->
  Ieee.compare v x = Some Eq.
Proof.
  intros Hv Hx.
  pose proof (represents_scale 24 128 (-1074) 1074 x X Hx ltac:(unfold emin; lia) ltac:(lia))
    as Hx2.
  change (-1074 - 1074) with (-2148) in Hx2. fold unit64 in Hx2.
  pose proof (cast_F64 24 128 (-2148) _ _ ltac:(lia) ltac:(lia) ltac:(lia) ltac:(lia)
                ltac:(lia) Hx2) as Hx64.
  pose proof (cast_F64 24 128 (-2148) _ _ ltac:(lia) ltac:(lia) ltac:(lia) ltac:(lia)
                ltac:(lia) Hv) as Hv64.
  unfold Ieee.compare.
  rewrite (SFcompare_spec 53 1024 ltac:(lia) (-2148) _ _ _ _ Hv64 Hx64
             ltac:(unfold emin; lia)).
  by rewrite Z.compare_refl.
Qed.

(** X18.  For finite [float] ranges, the smoothing step with the smoothing
    factor 1.0 stores a value that compares equal to the new range [n],
    and with the smoothing factor 0.0 a value that compares equal to the
    previous range [p]. *)
Theorem smoothing_ends (n p : float) :
  float32 n = true -> float32 p = true ->
  Ieee.compare (ema_blend Lit.d1 (Ieee.sub Ieee.F64 Lit.d1 Lit.d1) n p) n = Some Eq
  /\ Ieee.compare (ema_blend Lit.d0 (Ieee.sub Ieee.F64 Lit.d1 Lit.d0) n p) p = Some Eq.
Proof.
  intros Hn Hp. pose proof unit64_pos as Hpos.
  destruct (blend_ends n p Hn Hp) as [Hone Hzero].
  pose proof (ema_blend_weighted Lit.d1 n p unit64 one_value ltac:(lia) Hn Hp) as H1.
  pose proof (ema_blend_weighted Lit.d0 n p 0 (represents_zero 53 1024 (-1074) false)
                ltac:(lia) Hn Hp) as H0.
  rewrite Hone in H1. rewrite Hzero in H0.
  split.
  - apply (compare_scaled _ n _ H1). by apply float32_value.
  - apply (compare_scaled _ p _ H0). by apply float32_value.
Qed.

Lemma smoothing_ends_witness :
  float32 example_new = true /\ float32 example_previous = true
  /\ Ieee.compare
       (ema_blend Lit.d1 (Ieee.sub Ieee.F64 Lit.d1 Lit.d1) example_new example_previous)
       example_new = Some Eq.
Proof.
  split; [reflexivity|]. split; [reflexivity|].
  apply (proj1 (smoothing_ends example_new example_previous eq_refl eq_refl)).
Defined.


(** ** The first point cloud, when the fields are found *)

Lemma accepted_none (b : Bank) (msg : PointCloud2) (xyz : Z -> float * float * float)
      (offsets : list (Z * Z)) :
  accepted b msg xyz offsets = 0 <-> List.filter (in_z_band b msg xyz) offsets = [].
Proof. unfold accepted. destruct (List.filter _ _); cbn [length]; split; (done || lia). Qed.

Lemma accepted_bound (b : Bank) (msg : PointCloud2) (xyz : Z -> float * float * float)
      (offsets : list (Z * Z)) :
  0 <= accepted b msg xyz offsets <= Z.of_nat (length offsets).
Proof.
  unfold accepted. pose proof (List.filter_length_le (in_z_band b msg xyz) offsets). lia.
Qed.

(** The bank that [addFirstMessage] leaves for a point cloud differs from
    the stamped bank in its ranges and, when points were added, in the
    indices and the flag. *)
Lemma addFirstMessage_pc_result {libm : LibM} (b : Bank) (msg : PointCloud2)
      (xyz : Z -> float * float * float) (offsets : list Z) :
  point_offsets msg = Some offsets ->
  Z.of_nat (length offsets) < 2 ^ 32 ->
  let stamped :=
    with_indices (with_stamp b (C.set (bank_stamp b) 0 (pc_stamp msg)))
      0 (bank_index_newest b) in
  exists ranges r,
    addFirstMessage_pc b msg xyz
    = Some (if r =? 0 then with_filled (initIndex (with_ranges stamped ranges)) false
            else with_ranges stamped ranges, r)
    /\ ((accepted b msg xyz (records offsets) = 0 /\ r = -1)
        \/ (accepted b msg xyz (records offsets) <> 0 /\ r = 0)).
Proof.
  intros Hoff Hlen stamped. unfold addFirstMessage_pc. cbv zeta.
  change (with_indices (with_stamp b _) 0 _) with stamped.
  unfold putPoints. rewrite Hoff.
  destruct (resetPutPoints_frame stamped) as (r0 & ->).
  destruct (put_point_loop msg xyz (records offsets) (with_ranges stamped r0) 0) as (r1 & -> & _).
  change (accepted (with_ranges stamped r0) msg xyz (records offsets))
    with (accepted b msg xyz (records offsets)).
  pose proof (accepted_bound b msg xyz (records offsets)) as Hacc.
  rewrite records_length in Hacc.
  case_decide as Hz.
  - exists r1, (-1). split; [done|]. by left.
  - rewrite Z.add_0_l. unfold C.u32. rewrite Z.mod_small by lia.
    destruct (accepted b msg xyz (records offsets) =? 0) eqn:E; [apply Z.eqb_eq in E; lia|].
    exists r1, 0. split; [done|]. by right.
Qed.

(** X19.  [addFirstMessage] on a point cloud stores the time stamp in
    slot 0 and returns -1 if and only if no point record passes the
    z-band check; it then leaves [bank_index_put] at 0 and the newest
    index and the filled flag as they were.  Otherwise it returns 0 with
    the next message going to slot 1, slot 0 the newest, and the bank not
    filled.  [offsets] are the offsets of the point records that
    [putPoints] visits, fewer than [2^32] of them. *)
Theorem addFirstMessage_pc_cases {libm : LibM} (b : Bank) (msg : PointCloud2)
        (xyz : Z -> float * float * float) (offsets : list Z) :
  point_offsets msg = Some offsets ->
  Z.of_nat (length offsets) < 2 ^ 32 ->
  exists b' r,
    addFirstMessage_pc b msg xyz = Some (b', r)
    /\ bank_argument b' = bank_argument b
    /\ bank_stamp b' = C.set (bank_stamp b) 0 (pc_stamp msg)
    /\ (r = -1 <-> List.filter (in_z_band b msg xyz) (records offsets) = [])
    /\ ((r = -1 /\ bank_index_put b' = 0
         /\ bank_index_newest b' = bank_index_newest b
         /\ bank_is_filled b' = bank_is_filled b)
        \/ (r = 0 /\ bank_index_put b' = 1 /\ bank_index_newest b' = 0
            /\ bank_is_filled b' = false)).
Proof.
  intros Hoff Hlen.
  destruct (addFirstMessage_pc_result b msg xyz offsets Hoff Hlen)
    as (ranges & r & Hrun & Hcases).
  pose proof (accepted_none b msg xyz (records offsets)) as Hnone.
  eexists _, r. split; [exact Hrun|].
  destruct Hcases as [[Hzero ->] | [Hsome ->]]; cbn [Z.eqb].
  - split; [done|]. split; [done|]. split; [by rewrite <- Hnone|]. by left.
  - split; [done|]. split; [done|]. split; [|by right].
    split; [done|]. intros Hempty%Hnone. done.
Qed.

Lemma addFirstMessage_pc_cases_witness :
  let msg := cloud_of [0x00; 0x00; 0x20; 0x41] in
  point_offsets msg = Some [0]
  /\ Z.of_nat (length [0]) < 2 ^ 32
  /\ exists b' r,
       addFirstMessage_pc (libm := libm_example) cloud_bank msg (fun _ => (Ieee.nan, Ieee.nan, Ieee.nan))
       = Some (b', r).
Proof.
  split; [reflexivity|]. split; [reflexivity|].
  destruct (addFirstMessage_pc_cases (libm := libm_example) cloud_bank
              (cloud_of [0x00; 0x00; 0x20; 0x41]) (fun _ => (Ieee.nan, Ieee.nan, Ieee.nan)) [0]
              eq_refl eq_refl) as (b' & r & Hrun & _).
  exists b', r. exact Hrun.
Defined.

(** X20.  [init] on a point cloud whose fields are found, with a
    configuration that passes both checks, initialises the bank with the
    configuration completed from the message, whatever it returns: 0,
    or -1 when no point record passes the z-band check.  The result -1
    thus has two meanings, of which only a missing field leaves the bank
    as it was. *)
Theorem init_pc_initialises {libm : LibM} (b b1 : Bank) (a : BankArgument)
        (msg : PointCloud2) (fields : list PointField) (heap : Z -> Z -> float)
        (xyz : Z -> float * float * float) (offsets : list Z) :
  bank_is_initialized b = false ->
  getOffsetsAndBytes b (BankArgument_of_cloud a msg) msg fields = (b1, 0) ->
  BankArgument_check_PC2 (BankArgument_of_cloud a msg) = true ->
  BankArgument_check (BankArgument_of_cloud a msg) = true ->
  point_offsets msg = Some offsets ->
  Z.of_nat (length offsets) < 2 ^ 32 ->
  exists b' r,
    init_pc b a msg fields heap xyz = Some (b', r)
    /\ bank_is_initialized b' = true
    /\ bank_argument b' = BankArgument_of_cloud a msg
    /\ (r = -1 \/ r = 0)
    /\ (r = -1 <-> List.filter (in_z_band b' msg xyz) (records offsets) = []).
Proof.
  intros Hinit Hfields Hpc2 Hcheck Hoff Hlen.
  unfold init_pc. rewrite Hfields. cbn [Z.eqb negb]. rewrite Hpc2. cbn [negb].
  destruct (getOffsetsAndBytes_result b (BankArgument_of_cloud a msg) msg fields)
    as (Hfst & _).
  rewrite Hfields in Hfst. cbn [fst] in Hfst.
  destruct (getOffsetsAndBytes_loop_frame (BankArgument_of_cloud a msg)
              (must_reverse (with_PC2_fields b (-1) (-1) (-1) (-1) (-1) (-1)) msg)
              fields (with_PC2_fields b (-1) (-1) (-1) (-1) (-1) (-1)))
    as (xo & xb & yo & yb & zo & zb & Hframe).
  rewrite <- Hfst in Hframe.
  assert (Hflag : bank_is_initialized b1 = false) by (by rewrite Hframe).
  unfold initBank. rewrite Hflag, Hcheck. cbn [negb].
  match goal with |- context [addFirstMessage_pc ?bank msg xyz] => set (b2 := bank) end.
  destruct (addFirstMessage_pc_result b2 msg xyz offsets Hoff Hlen)
    as (ranges & r & -> & Hcases).
  pose proof (accepted_none b2 msg xyz (records offsets)) as Hnone.
  eexists _, r. split; [done|].
  destruct Hcases as [[Hzero ->] | [Hsome ->]]; cbn [Z.eqb].
  - split; [done|]. split; [done|]. split; [by left|].
    split; [intros _|done]. by apply Hnone.
  - split; [done|]. split; [done|]. split; [by right|].
    split; [done|]. intros Hempty. by apply Hnone in Hempty.
Qed.

Lemma init_pc_initialises_witness :
  let msg := cloud_of [0x00; 0x00; 0x20; 0x41] in
  exists b' r,
    init_pc (libm := libm_example) (Bank_new true) BankArgument_default msg example_fields
      (fun _ _ => Ieee.nan) (fun _ => (Ieee.nan, Ieee.nan, Ieee.nan)) = Some (b', r)
    /\ bank_is_initialized b' = true.
Proof.
  destruct (init_pc_initialises (libm := libm_example) (Bank_new true)
              (with_PC2_fields (Bank_new true) 0 4 4 4 8 4) BankArgument_default
              (cloud_of [0x00; 0x00; 0x20; 0x41]) example_fields
              (fun _ _ => Ieee.nan) (fun _ => (Ieee.nan, Ieee.nan, Ieee.nan)) [0]
              eq_refl eq_refl eq_refl eq_refl eq_refl eq_refl)
    as (b' & r & Hrun & Hflag & _).
  exists b', r. split; [exact Hrun | exact Hflag].
Defined.


(** ** The indices that the tracker returns *)

Section TrackerIndices.

Variable b : Bank.

Local Abbreviation pps := (points_per_scan (bank_argument b)).

(** The two searches end inside the scan, each on its side of the index
    it starts from. *)
Lemma search_lower_end (n : nat) : forall (a : TrackCall) (i : Z) (s : Search),
  -1 <= i -> s_end s = i + 1 -> 0 <= s_end (search_lower n b a i s) <= i + 1.
Proof.
  induction n as [|n IH]; intros a i s Hi Hend; cbn [search_lower]; [lia|].
  destruct (Z.leb_spec 0 i) as [Hnonneg | Hneg]; [|lia].
  destruct (continues _ _ _ _ _); [|lia].
  match goal with |- context [search_lower n b a (i - 1) ?s1] =>
    pose proof (IH a (i - 1) s1 ltac:(lia) ltac:(cbn [s_end]; lia)) end.
  lia.
Qed.

Lemma search_higher_end (n : nat) : forall (a : TrackCall) (i : Z) (s : Search),
  i <= pps -> s_end s = i - 1 -> i - 1 <= s_end (search_higher n b a i s) < pps.
Proof.
  induction n as [|n IH]; intros a i s Hi Hend; cbn [search_higher]; [lia|].
  destruct (Z.ltb_spec i pps) as [Hlt | Hge]; [|lia].
  destruct (continues _ _ _ _ _); [|lia].
  match goal with |- context [search_higher n b a (i + 1) ?s1] =>
    pose proof (IH a (i + 1) s1 ltac:(lia) ltac:(cbn [s_end]; lia)) end.
  lia.
Qed.

Hypothesis Hpps : pps < 2 ^ 31.

Lemma sides_end (a : TrackCall) :
  0 <= index_mean a < pps ->
  0 <= s_end (lower_side b a) <= index_mean a
  /\ index_mean a <= s_end (higher_side b a) < pps.
Proof.
  intros Hmean. unfold lower_side, higher_side.
  rewrite !s32_u32, !s32_small by lia.
  split.
  - match goal with |- context [search_lower ?n b a _ ?s] =>
      pose proof (search_lower_end n a (index_mean a - 1) s ltac:(lia)
                    ltac:(cbn [s_end]; lia)) end.
    lia.
  - match goal with |- context [search_higher ?n b a _ ?s] =>
      pose proof (search_higher_end n a (index_mean a + 1) s ltac:(lia)
                    ltac:(cbn [s_end]; lia)) end.
    lia.
Qed.

(** A call with an index inside the scan either returns what it was
    given or the three indices -1, or goes on with an index inside the
    scan and with the indices of a segment of the scan. *)
Lemma getOldIndices_body_indices (a : TrackCall) (o : OldIndices) :
  0 <= index_mean a < pps ->
  match getOldIndices_body b a o with
  | Return o' => o' = o \/ o' = not_found
  | Recurse a' o' =>
      0 <= index_mean a' < pps
      /\ 0 <= index_min_old o' <= index_mean_old o'
      /\ index_mean_old o' <= index_max_old o' < pps
  end.
Proof.
  intros Hmean. unfold getOldIndices_body.
  destruct (_ =? _); [by left|].
  destruct (outside_range b a); [by right|].
  destruct (_ && _); [by right|].
  cbn [index_mean index_min_old index_mean_old index_max_old].
  destruct (sides_end a Hmean) as [Hlow Hhigh].
  set (left := s_end (lower_side b a)) in *.
  set (right := s_end (higher_side b a)) in *.
  assert (Hq : left <= Z.quot (right + left) 2 <= right).
  { rewrite Z.quot_div_nonneg by lia. split.
    - apply Z.div_le_lower_bound; lia.
    - apply Z.div_le_upper_bound; lia. }
  rewrite u32_small by lia. lia.
Qed.

Lemma getOldIndices_indices (fuel : nat) : forall (a : TrackCall) (o o' : OldIndices),
  0 <= index_mean a < pps ->
  getOldIndices fuel b a o = Some o' ->
  o' = o \/ o' = not_found
  \/ (0 <= index_min_old o' <= index_mean_old o'
      /\ index_mean_old o' <= index_max_old o' < pps).
Proof.
  induction fuel as [|fuel IH]; intros a o o' Hmean; cbn [getOldIndices]; [done|].
  pose proof (getOldIndices_body_indices a o Hmean) as Hbody.
  destruct (getOldIndices_body b a o) as [o1 | a1 o1].
  - intros [= <-]. destruct Hbody as [-> | ->]; auto.
  - destruct Hbody as (Hmean1 & Hlow & Hhigh). intros Hrun.
    destruct (IH a1 o1 o' Hmean1 Hrun) as [-> | [-> | Hin]]; auto.
Qed.

End TrackerIndices.

Lemma candidate_at_points (b : Bank) (i : Z) :
  0 <= i < points_per_scan (bank_argument b) ->
  1 <= nr_object_points (candidate_at b i) <= points_per_scan (bank_argument b) - i.
Proof.
  intros Hi. unfold candidate_at.
  match goal with |- context [count_object_points ?f b (i + 1) ?c0] =>
    pose proof (count_object_points_run b f (i + 1) c0) as Hrun;
    pose proof (count_object_points_bounds f b (i + 1) c0) as Hnr;
    set (n := nr_object_points (count_object_points f b (i + 1) c0)) in *
  end.
  cbn [prev_range nr_object_points] in Hrun, Hnr. cbv zeta in Hrun.
  rewrite Z.add_simpl_r in Hrun. destruct (Hrun eq_refl) as (Hin & _).
  fold n in Hin.
  destruct (decide (n = 1)) as [-> | Hne]; [lia|].
  destruct (Hin (i + n - 1)) as [Hlt _]; lia.
Qed.

(** X21.  On a scan of fewer than [2^31] points, the tracker called for
    the candidate at an index [i] of the scan returns, and what it
    returns is either -1 in the three index outputs or the indices of a
    segment of the scan: [0 <= min <= mean <= max < points_per_scan]. *)
Theorem tracked_indices_in_scan (b : Bank) (i : Z) :
  0 <= i < points_per_scan (bank_argument b) ->
  points_per_scan (bank_argument b) < 2 ^ 31 ->
  1 <= nr_scans_in_bank (bank_argument b) < 2 ^ 32 ->
  exists o,
    track b i (candidate_at b i) = Some o
    /\ ((index_min_old o = -1 /\ index_mean_old o = -1 /\ index_max_old o = -1)
        \/ (0 <= index_min_old o <= index_mean_old o
            /\ index_mean_old o <= index_max_old o < points_per_scan (bank_argument b))).
Proof.
  intros Hi Hpps Hdepth.
  destruct (track_returns b i (candidate_at b i) Hdepth) as (o & Hrun).
  exists o. split; [done|].
  pose proof (candidate_at_points b i Hi) as Hn.
  set (c := candidate_at b i) in *. unfold track in Hrun.
  apply (getOldIndices_indices b Hpps) in Hrun.
  - destruct Hrun as [-> | [-> | Hin]]; [by left | by left | by right].
  - unfold track_call. cbn [index_mean].
    rewrite (u32_small (i + nr_object_points c - 1)) by lia.
    rewrite u32_small by lia.
    rewrite Z.quot_div_nonneg by lia. split.
    + apply Z.div_le_lower_bound; lia.
    + apply Z.div_lt_upper_bound; lia.
Qed.

Lemma tracked_indices_in_scan_witness :
  exists o, track example_bank 1 (candidate_at example_bank 1) = Some o
            /\ index_max_old o < points_per_scan (bank_argument example_bank).
Proof.
  destruct (tracked_indices_in_scan example_bank 1
              ltac:(split; [discriminate | reflexivity]) ltac:(reflexivity)
              ltac:(split; [discriminate | reflexivity])) as (o & Hrun & Hcases).
  exists o. split; [exact Hrun|].
  destruct Hcases as [(_ & _ & ->) | (_ & _ & Hlt)]; [reflexivity | exact Hlt].
Defined.


(** ** The store of a distance into a range is monotone *)

Lemma key64_bounds (x : float) (k : Z) :
  key64 x = Some k -> - 2 ^ 2098 <= k <= 2 ^ 2098.
Proof.
  intros Hk. pose proof (key64_finite x k Hk) as Hcase.
  assert (HK : 0 < 2 ^ 2098) by (apply pow2_pos; lia).
  destruct (Ieee.cast Ieee.F64 x) as [s | s | | s m e]; try done; try lia.
  subst k. destruct s; cbn [cond_Zopp]; lia.
Qed.

Lemma leb_neg_inf (y : float) :
  Ieee.is_nan y = false -> Ieee.leb (S754_infinity true) y = true.
Proof.
  intros Hy. rewrite leb_key.
  change (key64 (S754_infinity true)) with (Some (- 2 ^ 2098)).
  destruct (key64 y) as [k|] eqn:Hk; [|apply key64_nan in Hk; congruence].
  apply Z.leb_le. apply (key64_bounds y k Hk).
Qed.

Lemma leb_pos_inf (y : float) :
  Ieee.is_nan y = false -> Ieee.leb y (S754_infinity false) = true.
Proof.
  intros Hy. rewrite leb_key.
  change (key64 (S754_infinity false)) with (Some (2 ^ 2098)).
  destruct (key64 y) as [k|] eqn:Hk; [|apply key64_nan in Hk; congruence].
  apply Z.leb_le. apply (key64_bounds y k Hk).
Qed.

(** A conversion gives a value of the format, and a NaN for a NaN only. *)
Lemma cast_shape (f : Ieee.format) (x : float) :
  valid_binary (Ieee.prec f) (Ieee.emax f) (Ieee.cast f x) = true
  /\ (Ieee.is_nan x = false -> Ieee.is_nan (Ieee.cast f x) = false).
Proof.
  assert (Hf : 0 < Ieee.prec f < Ieee.emax f) by (destruct f; cbn; lia).
  destruct x as [s | s | | s m e]; cbn [Ieee.cast]; try done.
  pose proof (binary_round_spec (Ieee.prec f) (Ieee.emax f) ltac:(lia) ltac:(lia)
                (Z.min e (emin (Ieee.prec f) (Ieee.emax f))) s m e
                ltac:(lia) ltac:(lia)) as [Hfin Hinf].
  set (R := RN _ _ _) in *.
  destruct (Z_lt_le_dec R (2 ^ (Ieee.emax f - Z.min e (emin (Ieee.prec f) (Ieee.emax f)))))
    as [Hlt | Hge].
  - destruct (Hfin Hlt) as (Hf1 & Hv & _). split; [done|]. intros _.
    by destruct (binary_round _ _ s m e).
  - by rewrite (Hinf Hge).
Qed.

Section Below.

Variables (s : bool) (m : positive) (e : Z) (old : float).

Hypothesis Hold : represents 24 128 (-1074) old (sval (-1074) old).
Hypothesis Hlt : Ieee.ltb (S754_finite s m e) old = true.

(** The distance [x], finite and below the [float] range [old], is
    stored as a range that is not above [old]. *)
Lemma cast32_below_finite : Ieee.leb (Ieee.cast Ieee.F32 (S754_finite s m e)) old = true.
Proof.
  set (U := Z.min e (-1074)).
  set (c := -1074 - U).
  set (O := sval (-1074) old) in *.
  assert (Hc : 0 <= c) by (unfold c, U; lia).
  pose proof (represents_scale 24 128 (-1074) c old O Hold ltac:(unfold emin; lia) Hc) as HoldU.
  replace (-1074 - c) with U in HoldU by (unfold c; lia).
  set (Oc := O * 2 ^ c) in *.
  pose proof (cast_F64 24 128 U old Oc ltac:(lia) ltac:(lia) ltac:(lia) ltac:(lia)
                ltac:(unfold U; lia) HoldU) as Hold64.
  pose proof (represents_bound 24 128 ltac:(lia) ltac:(lia) U old Oc HoldU
                ltac:(unfold emin, U; lia)) as HOc.
  pose proof (represents_exact_wider 24 128 ltac:(lia) 53 (emin 53 1024 - U) U old Oc HoldU
                ltac:(unfold emin, U; lia) ltac:(lia) ltac:(unfold emin; lia)) as Hex64.
  pose proof (represents_exact 24 128 ltac:(lia) U old Oc HoldU
                ltac:(unfold emin, U; lia)) as Hex32.
  pose proof (binary_round_spec 53 1024 ltac:(lia) ltac:(lia) U s m e
                ltac:(unfold U; lia) ltac:(unfold emin, U; lia)) as H64.
  pose proof (binary_round_spec 24 128 ltac:(lia) ltac:(lia) U s m e
                ltac:(unfold U; lia) ltac:(unfold emin, U; lia)) as H32.
  set (X := Z.pos m * 2 ^ (e - U)) in *.
  assert (HX : 0 < X).
  { unfold X. pose proof (pow2_pos (e - U) ltac:(unfold U; lia)). lia. }
  set (g64 := emin 53 1024 - U) in *. set (g32 := emin 24 128 - U) in *.
  assert (HT : 2 ^ (128 - U) < 2 ^ (1024 - U)) by (apply pow2_lt; unfold U; lia).
  assert (Hpow64 : RN 53 g64 (2 ^ (128 - U)) = 2 ^ (128 - U)).
  { rewrite <- sRN_nonneg by (apply Z.lt_le_incl, pow2_pos; unfold U; lia).
    apply sRN_pow2; unfold g64, emin, U; lia. }
  assert (Hpow32 : RN 24 g32 (2 ^ (128 - U)) = 2 ^ (128 - U)).
  { rewrite <- sRN_nonneg by (apply Z.lt_le_incl, pow2_pos; unfold U; lia).
    apply sRN_pow2; unfold g32, emin, U; lia. }
  assert (Hnan : Ieee.is_nan old = false) by (destruct Hold as (Hfin & _); by destruct old).
  assert (Hminus : s = true -> 2 ^ (128 - U) <= RN 24 g32 X ->
                   Ieee.leb (Ieee.cast Ieee.F32 (S754_finite s m e)) old = true).
  { intros -> Hge. cbn [Ieee.cast Ieee.prec Ieee.emax].
    rewrite (proj2 H32 Hge). by apply leb_neg_inf. }
  unfold Ieee.ltb in Hlt. cbn [Ieee.cast Ieee.prec Ieee.emax] in Hlt.
  set (T32 := 2 ^ (128 - U)) in *. set (T64 := 2 ^ (1024 - U)) in *.
  destruct (Z_lt_le_dec (RN 53 g64 X) T64) as [Hin64 | Hout64].
  - pose proof (rounds_to_represents 53 1024 U s _ _ H64 Hin64) as Hr64.
    rewrite (SFltb_spec 53 1024 ltac:(lia) U _ _ _ _ Hr64 Hold64
               ltac:(unfold emin, U; lia)) in Hlt.
    apply Z.ltb_lt in Hlt.
    rewrite (cond_Zopp_sRN 53 g64 s X ltac:(lia)) in Hlt.
    assert (HsX : cond_Zopp s X < Oc).
    { destruct (Z_lt_le_dec (cond_Zopp s X) Oc) as [|Hge]; [done|].
      pose proof (sRN_mono 53 g64 Oc (cond_Zopp s X) ltac:(lia) Hge). lia. }
    pose proof (sRN_mono 24 g32 (cond_Zopp s X) Oc ltac:(lia) ltac:(lia)) as Hle32.
    rewrite Hex32, <- (cond_Zopp_sRN 24 g32 s X ltac:(lia)) in Hle32.
    destruct (Z_lt_le_dec (RN 24 g32 X) T32) as [Hin32 | Hout32].
    + pose proof (rounds_to_represents 24 128 U s _ _ H32 Hin32) as Hr32.
      pose proof (cast_F64 24 128 U _ _ ltac:(lia) ltac:(lia) ltac:(lia) ltac:(lia)
                    ltac:(unfold U; lia) Hr32) as Hr32'.
      unfold Ieee.leb. cbn [Ieee.cast Ieee.prec Ieee.emax] in Hr32' |- *.
      rewrite (SFleb_spec 53 1024 ltac:(lia) U _ _ _ _ Hr32' Hold64
                 ltac:(unfold emin, U; lia)).
      by apply Z.leb_le.
    + destruct s; [by apply Hminus|]. cbn [cond_Zopp] in Hle32. lia.
  - rewrite (proj2 H64 Hout64) in Hlt.
    assert (Hs : s = true).
    { destruct s; [done|]. destruct Hold64 as (Hfin & _).
      by destruct (Ieee.cast Ieee.F64 old). }
    apply (Hminus Hs).
    destruct (Z_lt_le_dec X T32) as [Hsmall | Hbig].
    + pose proof (RN_mono 53 g64 X T32 ltac:(lia) ltac:(lia)). lia.
    + pose proof (RN_mono 24 g32 T32 X ltac:(lia) ltac:(lia)). lia.
Qed.

End Below.

Lemma cast32_below (x old : float) :
  Ieee.ltb x old = true ->
  valid_binary (Ieee.prec Ieee.F32) (Ieee.emax Ieee.F32) old = true ->
  Ieee.leb (Ieee.cast Ieee.F32 x) old = true.
Proof.
  intros Hlt Hvalid.
  destruct x as [s | s | | s m e]; try (by apply ltb_leb).
  destruct old as [so | [|] | | so mo eo].
  - apply cast32_below_finite; [|done]. apply represents_zero.
  - apply ltb_true in Hlt as (k & k' & Hk & Hk' & Hlt).
    apply key64_bounds in Hk.
    change (key64 (S754_infinity true)) with (Some (- 2 ^ 2098)) in Hk'.
    injection Hk' as <-. lia.
  - apply leb_pos_inf. by apply cast_shape.
  - apply ltb_true in Hlt as (k & k' & _ & Hk' & _). discriminate Hk'.
  - by apply cast32_below_finite.
Qed.

(** ** What the points of a cloud do to the ranges *)

Lemma put_range_at (b : Bank) (put k : Z) (x : float) (level i : Z) :
  range_at (put_range b put k x) level i = range_at b level i
  \/ (level = put /\ i = k /\ range_at (put_range b put k x) level i = x).
Proof.
  destruct (decide (level = put)) as [-> | Hlevel];
    [|left; by apply put_range_other_level].
  destruct (decide (i = k)) as [-> | Hindex];
    [|left; by apply put_range_other_index].
  destruct (decide (0 <= put < Z.of_nat (length (bank_ranges_ema b)))) as [Hput | Hput].
  - destruct (decide (0 <= k < Z.of_nat (length (C.get (bank_ranges_ema b) put))))
      as [Hk | Hk].
    + right. split; [done|]. split; [done|]. by apply put_range_same.
    + left. unfold range_at, put_range, C.get2, C.set2.
      cbn [bank_ranges_ema with_ranges].
      rewrite (set_outside (C.get (bank_ranges_ema b) put)) by done.
      by rewrite get_set_same.
  - left. unfold range_at, put_range, C.get2, C.set2.
    cbn [bank_ranges_ema with_ranges]. by rewrite set_outside.
Qed.

Lemma lowered_refl (b : Bank) : lowered b b.
Proof. split; [done|]. intros level i. split; [done|]. intros Hv. split; [done|]. by left. Qed.

Lemma lowered_trans (b0 b1 b2 : Bank) : lowered b0 b1 -> lowered b1 b2 -> lowered b0 b2.
Proof.
  intros [Hput1 H1] [Hput2 H2]. split; [congruence|].
  intros level i. destruct (H1 level i) as [Hsame1 Hlow1], (H2 level i) as [Hsame2 Hlow2].
  split.
  - intros Hne. rewrite Hsame2, Hsame1; [done | done | congruence].
  - intros Hv0. destruct (Hlow1 Hv0) as [Hv1 Hcase1].
    destruct (Hlow2 Hv1) as [Hv2 Hcase2]. split; [done|].
    destruct Hcase2 as [-> | Hle2]; [done|].
    destruct Hcase1 as [<- | Hle1]; [by right|].
    right. by apply (leb_trans _ _ _ Hle2).
Qed.

(** One comparison and assignment of the loop over [p]. *)
Lemma lowered_step (b : Bank) (range : float) (p : Z) :
  lowered b (if Ieee.ltb range (range_at b (bank_index_put b) p)
             then put_range b (bank_index_put b) p (Ieee.cast Ieee.F32 range)
             else b).
Proof.
  destruct (Ieee.ltb _ _) eqn:Hlt; [|apply lowered_refl].
  split; [done|]. intros level i.
  destruct (put_range_at b (bank_index_put b) p (Ieee.cast Ieee.F32 range) level i)
    as [Hsame | (-> & -> & Hnew)].
  - rewrite Hsame. split; [done|]. intros Hv. split; [done|]. by left.
  - rewrite Hnew. split; [done|]. intros Hv. split; [apply (cast_shape Ieee.F32)|].
    right. by apply cast32_below.
Qed.

Lemma lowered_loop {A} (f : Bank -> A -> Bank) (l : list A) :
  (forall b x, lowered b (f b x)) -> forall b, lowered b (foldl f b l).
Proof.
  intros Hf. induction l as [|x l IH]; intros b; cbn [foldl]; [apply lowered_refl|].
  apply (lowered_trans b (f b x)); [apply Hf | apply IH].
Qed.

Lemma fill_point_lowered {libm : LibM} (b : Bank) (x y z : float) :
  lowered b (fill_point b x y z).
Proof. unfold fill_point. cbv zeta. apply lowered_loop. intros b1 p. apply lowered_step. Qed.

Lemma put_points_lowered {libm : LibM} (msg : PointCloud2) (xyz : Z -> float * float * float)
      (l : list (Z * Z)) : forall st : Bank * Z,
  lowered (fst st) (fst (foldl (put_point msg xyz) st l)).
Proof.
  induction l as [|o l IH]; intros st; cbn [foldl]; [apply lowered_refl|].
  apply (lowered_trans _ (fst (put_point msg xyz st o))); [|apply IH].
  destruct st as [b1 n], o as [nr offset]. unfold put_point.
  destruct (readPoint _ _ _ _ _) as [[x y] z].
  destruct (outside_z_band b1 z); cbn [fst]; [apply lowered_refl|].
  apply fill_point_lowered.
Qed.

(** X22.  [putPoints] changes ranges of the slot [bank_index_put] only,
    and it never raises a range: a range that is a value of type [float]
    before the call is one after it, and it is the same value or one
    that is not above it, whatever the points of the cloud are. *)
Theorem putPoints_never_raises {libm : LibM} (b b' : Bank) (msg : PointCloud2)
        (xyz : Z -> float * float * float) (added : Z) (level i : Z) :
  putPoints b msg xyz = Some (b', added) ->
  (level <> bank_index_put b -> range_at b' level i = range_at b level i)
  /\ (valid_binary (Ieee.prec Ieee.F32) (Ieee.emax Ieee.F32) (range_at b level i) = true ->
      valid_binary (Ieee.prec Ieee.F32) (Ieee.emax Ieee.F32) (range_at b' level i) = true
      /\ (range_at b' level i = range_at b level i
          \/ Ieee.leb (range_at b' level i) (range_at b level i) = true)).
Proof.
  unfold putPoints. destruct (point_offsets msg) as [offsets|]; [|done].
  intros [= Hrun].
  pose proof (put_points_lowered msg xyz (records offsets) (b, 0)) as Hloop.
  rewrite Hrun in Hloop. cbn [fst] in Hloop.
  destruct Hloop as [_ Hall]. apply Hall.
Qed.

Lemma putPoints_never_raises_witness :
  let msg := cloud_of [0x00; 0x00; 0x40; 0x3F] in
  exists b' added,
    putPoints (libm := libm_example) cloud_bank msg (fun _ => (Ieee.nan, Ieee.nan, Ieee.nan))
    = Some (b', added)
    /\ range_at b' 0 2 = range_at cloud_bank 0 2.
Proof.
  cbv zeta.
  destruct (putPoints (libm := libm_example) cloud_bank (cloud_of [0x00; 0x00; 0x40; 0x3F])
              (fun _ => (Ieee.nan, Ieee.nan, Ieee.nan))) as [[b' added]|] eqn:Hrun;
    [|vm_compute in Hrun; discriminate Hrun].
  exists b', added. split; [reflexivity|].
  apply (proj1 (putPoints_never_raises (libm := libm_example) cloud_bank b' _ _ added 0 2 Hrun)).
  discriminate.
Defined.


(** ** The number of objects of a reporting cycle *)

Section Count.

Context {libm : LibM} {listener : TransformListener} {scorer : Confidence}.

Variable b : Bank.

Local Abbreviation pps := (points_per_scan (bank_argument b)).
Local Abbreviation least := (object_threshold_min_nr_points (bank_argument b)).

Hypothesis Hdepth : 1 <= nr_scans_in_bank (bank_argument b) < 2 ^ 32.
Hypothesis Hpps : pps < 2 ^ 31.
Hypothesis Hleast : 1 <= least < 2 ^ 32.

Lemma report_tracked_one (n i : Z) (c : Candidate) (o : OldIndices) :
  (length (report_tracked b n i c o) <= 1)%nat.
Proof.
  unfold report_tracked.
  destruct (moving_object b n i c o) as [[[mo dt] w] [[[[[f1 f2] f3] f4] f5] f6]].
  destruct (speed_gate b mo); [|cbn; lia].
  destruct (Ieee.leb _ _); cbn; lia.
Qed.

(** An iteration appends an object only when it passes over as many
    indices as an object needs. *)
Lemma scan_step_count (s : Scan) :
  0 <= scan_i s < pps ->
  Z.of_nat (length (moa_objects s)) * least <= scan_i s ->
  exists s',
    scan_step b s = Some s'
    /\ scan_i s < scan_i s' <= pps
    /\ Z.of_nat (length (moa_objects s')) * least <= scan_i s'.
Proof.
  intros Hi Hcount. unfold scan_step.
  destruct (out_of_range b _).
  { eexists. split; [done|]. cbn [scan_i moa_objects]. rewrite u32_small; lia. }
  pose proof (candidate_at_points b (scan_i s) Hi) as Hn.
  set (c := candidate_at b (scan_i s)) in *.
  rewrite (u32_small least) by lia.
  destruct (Z.leb_spec least (nr_object_points c)) as [Hpass | Hfail].
  - destruct (track_returns b (scan_i s) c Hdepth) as (o & ->).
    eexists. split; [done|]. cbn [scan_i moa_objects]. rewrite u32_small by lia.
    split; [lia|].
    destruct (0 <=? index_mean_old o); [|lia].
    rewrite length_app.
    pose proof (report_tracked_one (C.u32 (nr_objects_found s + 1)) (scan_i s) c o). nia.
  - eexists. split; [done|]. cbn [scan_i moa_objects]. rewrite u32_small; lia.
Qed.

Lemma scan_loop_count (n : nat) : forall (s : Scan),
  0 <= scan_i s <= pps ->
  pps - scan_i s <= Z.of_nat n ->
  Z.of_nat (length (moa_objects s)) * least <= scan_i s ->
  exists s',
    scan_loop n b s = Some s'
    /\ Z.of_nat (length (moa_objects s')) * least <= pps.
Proof.
  induction n as [|n IH]; intros s Hi Hn Hcount; cbn [scan_loop];
    destruct (Z.ltb_spec (scan_i s) pps) as [Hlt | Hge];
    try lia; try (eexists; split; [done|]; lia).
  destruct (scan_step_count s ltac:(lia) Hcount) as (s1 & -> & Hadv & Hcount1).
  apply IH; (done || lia).
Qed.

End Count.

(** X23.  A reporting cycle comes to an end, and the number of objects it
    reports, times [object_threshold_min_nr_points], is at most
    [points_per_scan]: the loop passes over at least that many indices
    of the scan for every object it reports. *)
Theorem report_returns_few_objects {libm : LibM} {listener : TransformListener}
        {scorer : Confidence} (b : Bank) :
  1 <= nr_scans_in_bank (bank_argument b) < 2 ^ 32 ->
  0 <= points_per_scan (bank_argument b) < 2 ^ 31 ->
  1 <= object_threshold_min_nr_points (bank_argument b) < 2 ^ 32 ->
  exists moa,
    findAndReportMovingObjects b = Some moa
    /\ Z.of_nat (length moa) * object_threshold_min_nr_points (bank_argument b)
       <= points_per_scan (bank_argument b).
Proof.
  intros Hdepth Hpps Hleast. unfold findAndReportMovingObjects.
  destruct (negb _); [exists []; split; [done|]; cbn; lia|].
  destruct (scan_loop_count b Hdepth ltac:(lia) Hleast
              (Z.to_nat (points_per_scan (bank_argument b)))
              {| scan_i := 0; nr_objects_found := 0; moa_objects := [] |})
    as (s & -> & Hcount); cbn [scan_i moa_objects length]; try lia.
  by exists (moa_objects s).
Qed.

Lemma report_returns_few_objects_witness :
  exists moa,
    report_example receding_bank = Some moa
    /\ Z.of_nat (length moa) * object_threshold_min_nr_points (bank_argument receding_bank)
       <= points_per_scan (bank_argument receding_bank).
Proof.
  apply (report_returns_few_objects (libm := libm_example) (listener := listener_example)
           (scorer := confidence_example) receding_bank).
  - split; [discriminate | reflexivity].
  - split; [discriminate | reflexivity].
  - split; [discriminate | reflexivity].
Defined.

(** ** What a point cloud overwrites *)

Section Overwritten.

Context {libm : LibM}.

(** [b'] has the slots of [b] other than the slot [bank_index_put]. *)
Local Abbreviation kept b b' :=
  (bank_index_put b' = bank_index_put b
   /\ forall level i, level <> bank_index_put b -> range_at b' level i = range_at b level i).

Lemma kept_loop (g : Bank -> Z -> float) (l : list Z) : forall b,
  kept b (foldl (fun b i => put_range b (bank_index_put b) i (g b i)) b l).
Proof.
  induction l as [|k l IH]; intros b; cbn [foldl]; [done|].
  destruct (IH (put_range b (bank_index_put b) k (g b k))) as [Hput Hsame].
  cbn [put_range bank_index_put with_ranges] in Hput, Hsame.
  split; [done|]. intros level i Hne.
  rewrite Hsame by done. by apply put_range_other_level.
Qed.

Lemma resetPutPoints_kept (b : Bank) : kept b (resetPutPoints b).
Proof.
  unfold resetPutPoints. cbv zeta.
  apply (kept_loop (fun b0 _ =>
                      Ieee.cast Ieee.F32
                        (Ieee.add Ieee.F64
                           (object_threshold_max_distance (bank_argument b)) Lit.d10))).
Qed.

Lemma emaPutMessage_kept (b : Bank) : kept b (emaPutMessage b).
Proof.
  unfold emaPutMessage. cbv zeta. destruct (Ieee.ltb _ _); [|done].
  apply (kept_loop (fun b0 i =>
                      ema_blend (ema_alpha (bank_argument b))
                        (Ieee.sub Ieee.F64 Lit.d1 (ema_alpha (bank_argument b)))
                        (range_at b0 (bank_index_put b0) i)
                        (range_at b0 (bank_index_newest b0) i))).
Qed.

(** The ranges that [resetPutPoints] leaves in the slot. *)
Lemma resetPutPoints_value (b : Bank) (i : Z) :
  0 <= bank_index_put b < Z.of_nat (length (bank_ranges_ema b)) ->
  points_per_scan (bank_argument b)
  <= Z.of_nat (length (C.get (bank_ranges_ema b) (bank_index_put b))) ->
  0 <= i < points_per_scan (bank_argument b) ->
  range_at (resetPutPoints b) (bank_index_put b) i
  = Ieee.cast Ieee.F32
      (Ieee.add Ieee.F64 (object_threshold_max_distance (bank_argument b)) Lit.d10).
Proof.
  intros Hput Hlen Hi.
  set (far := Ieee.cast Ieee.F32 _).
  set (g := fun (_ : Bank) (_ : Z) => far).
  assert (Hloop : resetPutPoints b
                  = foldl (fun b0 k => put_range b0 (bank_index_put b) k (g b0 k)) b
                      (C.upto (points_per_scan (bank_argument b)))).
  { unfold resetPutPoints. cbv zeta. fold far.
    generalize (C.upto (points_per_scan (bank_argument b))). intros l.
    assert (Hgen : forall b1 : Bank, bank_index_put b1 = bank_index_put b ->
               foldl (fun b0 k => put_range b0 (bank_index_put b0) k far) b1 l
               = foldl (fun b0 k => put_range b0 (bank_index_put b) k (g b0 k)) b1 l).
    { induction l as [| k l IH]; intros b1 Hp; [done|].
      cbn [foldl]. by rewrite IH, Hp. }
    by apply Hgen. }
  rewrite Hloop.
  destruct (store_loop_written (bank_index_put b) (bank_index_put b + 1) g ltac:(lia)
              (C.upto (points_per_scan (bank_argument b))) b i) as (b' & Hv & _).
  - apply NoDup_seqZ.
  - by apply upto_spec.
  - done.
  - intros k Hk%upto_spec. lia.
  - by rewrite Hv.
Qed.

End Overwritten.

(** X24.  [addMessage] on a point cloud, whatever it returns, leaves the
    configuration, the ranges of the slots other than [bank_index_put]
    and the time stamps of the other slots as they were.  The slot
    [bank_index_put] itself, which holds the oldest scan of a filled
    bank, is overwritten also by a message that is rejected: it gets the
    time stamp of the message, and with the result -1 (for a message of
    fewer than [2^32] point records) its first [points_per_scan] ranges
    are the reset value, the [float] nearest to
    [object_threshold_max_distance + 10.0]. *)
Theorem addMessage_pc_overwrites_put_slot {libm : LibM} (b b' : Bank) (msg : PointCloud2)
        (xyz : Z -> float * float * float) (r : Z) :
  addMessage_pc b msg xyz = Some (b', r) ->
  let put := bank_index_put b in
  (r = -1 \/ r = 0)
  /\ bank_argument b' = bank_argument b
  /\ (forall level i, level <> put -> range_at b' level i = range_at b level i)
  /\ (forall level, level <> put ->
        C.get (bank_stamp b') level = C.get (bank_stamp b) level)
  /\ (0 <= put < Z.of_nat (length (bank_stamp b)) ->
      C.get (bank_stamp b') put = pc_stamp msg)
  /\ (r = -1 ->
      (forall offsets, point_offsets msg = Some offsets ->
                       Z.of_nat (length offsets) < 2 ^ 32) ->
      0 <= put < Z.of_nat (length (bank_ranges_ema b)) ->
      points_per_scan (bank_argument b) <= Z.of_nat (length (C.get (bank_ranges_ema b) put)) ->
      forall i, 0 <= i < points_per_scan (bank_argument b) ->
        range_at b' put i
        = Ieee.cast Ieee.F32
            (Ieee.add Ieee.F64 (object_threshold_max_distance (bank_argument b)) Lit.d10)).
Proof.
  intros Hrun put. unfold addMessage_pc in Hrun. revert Hrun.
  set (stamped := with_stamp b _).
  destruct (resetPutPoints_kept stamped) as [Hput1 Hsame1].
  destruct (resetPutPoints_frame stamped) as (r1 & Hreset).
  unfold putPoints. destruct (point_offsets msg) as [offsets|] eqn:Hoff; [|done].
  destruct (put_point_loop msg xyz (records offsets) (resetPutPoints stamped) 0)
    as (r2 & Hloop & Hnone).
  pose proof (put_points_lowered msg xyz (records offsets) (resetPutPoints stamped, 0))
    as [Hput2 Hsame2].
  rewrite Hloop in *. cbn [fst] in Hput2, Hsame2.
  set (b2 := with_ranges (resetPutPoints stamped) r2) in *.
  assert (Hsame : forall level i, level <> put ->
                    range_at b2 level i = range_at b level i).
  { intros level i Hne. rewrite (proj1 (Hsame2 level i)) by (by rewrite Hput1).
    by rewrite Hsame1. }
  assert (Hstamp : bank_stamp b2 = bank_stamp stamped /\ bank_argument b2 = bank_argument b).
  { unfold b2. by rewrite Hreset. }
  destruct Hstamp as [Hstamp Harg].
  assert (Hstamps : forall level, level <> put ->
                      C.get (bank_stamp b2) level = C.get (bank_stamp b) level).
  { intros level Hne. rewrite Hstamp. by apply get_set_other. }
  assert (Hmine : 0 <= put < Z.of_nat (length (bank_stamp b)) ->
                  C.get (bank_stamp b2) put = pc_stamp msg).
  { intros Hin. rewrite Hstamp. by apply get_set_same. }
  destruct (_ =? 0) eqn:Hcount.
  - intros [= <- <-]. split; [by left|]. do 4 (split; [done|]).
    intros _ Hfew Hin Hlen i Hi.
    pose proof (accepted_bound (resetPutPoints stamped) msg xyz (records offsets)) as Hacc.
    rewrite records_length in Hacc. specialize (Hfew offsets eq_refl).
    apply Z.eqb_eq in Hcount.
    assert (Hzero : accepted (resetPutPoints stamped) msg xyz (records offsets) = 0).
    { revert Hcount. case_decide as Hz; [done|].
      rewrite Z.add_0_l, u32_small by lia. done. }
    rewrite (Hnone Hzero).
    by apply (resetPutPoints_value stamped i).
  - destruct (emaPutMessage_kept b2) as [_ Hsame3].
    destruct (emaPutMessage_frame b2) as (r3 & Hema).
    assert (Hend : forall b3 : Bank,
               (if bank_index_put (advanceIndex b3) <? bank_index_newest (advanceIndex b3)
                then with_filled (advanceIndex b3) true else advanceIndex b3)
               = b' ->
               bank_argument b' = bank_argument b3
               /\ bank_ranges_ema b' = bank_ranges_ema b3
               /\ bank_stamp b' = bank_stamp b3).
    { intros b3 <-. by destruct (_ <? _). }
    intros [= Hrun <-]. apply Hend in Hrun as (Ha & Hr & Hs).
    split; [by right|]. split; [by rewrite Ha, Hema|]. split; [|split; [|split]].
    + intros level i Hne. unfold range_at at 1. rewrite Hr.
      change (range_at (emaPutMessage b2) level i = range_at b level i).
      rewrite Hsame3 by (by rewrite Hput2, Hput1). by apply Hsame.
    + intros level Hne. rewrite Hs, Hema. by apply Hstamps.
    + intros Hin. rewrite Hs, Hema. by apply Hmine.
    + done.
Qed.

Lemma addMessage_pc_overwrites_put_slot_witness :
  exists b',
    addMessage_pc (libm := libm_example) cloud_bank (cloud_of [0x00; 0x00; 0x20; 0x41])
      (fun _ => (Ieee.nan, Ieee.nan, Ieee.nan)) = Some (b', -1)
    /\ range_at b' 0 2 = range_at cloud_bank 0 2
    /\ range_at b' 1 2 = Ieee.make Ieee.F32 33 (-1).
Proof.
  destruct (addMessage_pc (libm := libm_example) cloud_bank (cloud_of [0x00; 0x00; 0x20; 0x41])
              (fun _ => (Ieee.nan, Ieee.nan, Ieee.nan))) as [[b' r]|] eqn:Hrun;
    [|vm_compute in Hrun; discriminate Hrun].
  assert (Hr : r = -1).
  { pose proof Hrun as Hval. vm_compute in Hval. by injection Hval. }
  subst r. exists b'. split; [reflexivity|].
  destruct (addMessage_pc_overwrites_put_slot (libm := libm_example) cloud_bank b' _ _ (-1) Hrun)
    as (_ & _ & Hothers & _ & _ & Hreset).
  split.
  - apply Hothers. discriminate.
  - apply (Hreset eq_refl).
    + intros offsets [= <-]. reflexivity.
    + split; [discriminate | reflexivity].
    + discriminate.
    + split; [discriminate | reflexivity].
Defined.


(** ** The bounds of the tracker on numbers *)

(** For numbers, "not at most" is "greater". *)
Lemma not_leb_ltb (x y : float) :
  Ieee.leb x y = false -> Ieee.is_nan x = false -> Ieee.is_nan y = false ->
  Ieee.ltb y x = true.
Proof.
  rewrite ltb_key, leb_key. intros Hle Hx Hy.
  destruct (key64 x) as [a|] eqn:Ha; [|apply key64_nan in Ha; congruence].
  destruct (key64 y) as [c|] eqn:Hc; [|apply key64_nan in Hc; congruence].
  apply Z.ltb_lt. apply Z.leb_gt in Hle. lia.
Qed.

(** C3, amended.  With the miss tolerance 0 of the call site: when the
    walk of the tracker has come to a level (a call that is not the base
    case, after any number [k] of accepted levels) at which the
    re-expanded object violates the bound on the minimum width or the
    bound on the difference of the widths, or violates the bound on the
    difference of the mean ranges while this difference and the
    tolerance are numbers (not NaN), the tracker returns with -1 in
    [index_min_old], [index_mean_old] and [index_max_old], however many
    slots are left. *)
Theorem tracker_gives_up_at_first_miss (b : Bank) (i : Z) (c : Candidate)
        (k : nat) (a : TrackCall) (o : OldIndices) :
  1 <= nr_scans_in_bank (bank_argument b) < 2 ^ 31 ->
  walk k b (track_call b i c) (track_start c) = Some (a, o) ->
  levels_searched a <> nr_scans_in_bank (bank_argument b) ->
  violates_bounds b a (range_sum_old o) = true ->
  width_violated b a = true
  \/ (Ieee.is_nan (mean_range_difference b a (range_sum_old o)) = false
      /\ Ieee.is_nan (object_threshold_bank_tracking_max_delta_distance (bank_argument b))
         = false) ->
  track b i c = Some not_found
  /\ index_min_old not_found = -1
  /\ index_mean_old not_found = -1
  /\ index_max_old not_found = -1.
Proof.
  intros Hd Hwalk Hlevel Hviol Hnumbers. split; [|done].
  apply (rejected_object_gives_up b i c k a o Hd Hwalk Hlevel).
  rewrite object_rejected_bounds.
  destruct (width_violated b a) eqn:Hwidth; [done|].
  destruct Hnumbers as [? | [Hdiff Htol]]; [done|].
  unfold violates_bounds in Hviol. rewrite Hwidth in Hviol. cbn [orb] in *.
  unfold mean_range_violated in Hviol. apply negb_true_iff in Hviol.
  by apply not_leb_ltb.
Qed.

(** In the example bank with the shrunk slot 5, the walk from the object
    at index 1 comes to slot 5 after five levels and finds three points
    only; with the farther slot 5, it finds the five points at 3 m
    instead of 2 m. *)
Lemma tracker_gives_up_at_first_miss_witness :
  (let b := example_bank_with 5 shrunk_slot in
   track b 1 (candidate_at b 1) = Some not_found)
  /\ (let b := example_bank_with 5 farther_slot in
      track b 1 (candidate_at b 1) = Some not_found).
Proof.
  split.
  - refine (proj1 (tracker_gives_up_at_first_miss (example_bank_with 5 shrunk_slot) 1
                     (candidate_at (example_bank_with 5 shrunk_slot) 1) 5 _ _ _ _ _ _ _)).
    + vm_compute. split; [discriminate|reflexivity].
    + vm_compute. reflexivity.
    + vm_compute. discriminate.
    + vm_compute. reflexivity.
    + left. vm_compute. reflexivity.
  - refine (proj1 (tracker_gives_up_at_first_miss (example_bank_with 5 farther_slot) 1
                     (candidate_at (example_bank_with 5 farther_slot) 1) 5 _ _ _ _ _ _ _)).
    + vm_compute. split; [discriminate|reflexivity].
    + vm_compute. reflexivity.
    + vm_compute. discriminate.
    + vm_compute. reflexivity.
    + right. split; vm_compute; reflexivity.
Defined.
